(** * bbpe_tokenizer.c: a shallow embedding and its verified properties

    The C translation unit [bbpe_tokenizer.c] implements a byte-level BPE
    tokenizer that loads a HuggingFace [tokenizer.json].  This development
    embeds its functions as Rocq functions and proves the properties the
    specification states about them.

    Conventions of the embedding:
    - a byte, a code point and a token id are integers of [Z]; a [char]
      store keeps the low eight bits ([to_char]);
    - a [const char *] is the list of bytes it points to; reading past the
      end of the list yields the terminating NUL, and the C string proper
      is the prefix before the first NUL ([strlen], [strdup]);
    - array sizes and offsets ([size_t]) are [nat];
    - a C array is a list, read with [!!] and written with [<[i:=x]>];
    - [malloc], [calloc], [realloc] and [strdup] are taken to succeed, so
      the [BBPE_ERR_MEMORY] exits are not reachable in the embedding;
    - an array read inside the bounds the code has established takes the
      element ([default] names the value of a read the code never makes);
      where the loader can be driven out of bounds by its input, which C
      leaves undefined, the embedded loader returns [None];
    - PCRE2 and [qsort] are interfaces ([RegexEngine], [Sorter]);
      cJSON's parse tree is the inductive type [cJSON]. *)

From stdpp Require Import base numbers list.
From Stdlib Require Import ZArith Lia Permutation Sorted.
From Stdlib Require String Ascii.
Import String.StringSyntax.
Delimit Scope string_scope with string.
Bind Scope string_scope with String.string.

Set Warnings "-register-all".
Local Open Scope Z_scope.
Local Open Scope list_scope.

(** ** C strings *)

(** [*(s + i)] for a [const char *s]: the NUL terminator past the data. *)
Definition char_at (s : list Z) (i : nat) : Z := default 0 (s !! i).

(** A store into a [char] or [uint8_t]. *)
Definition to_char (x : Z) : Z := x mod 256.

Fixpoint strlen (s : list Z) : nat :=
  match s with
  | [] => 0%nat
  | c :: s' => if c =? 0 then 0%nat else S (strlen s')
  end.

(** [my_strndup(s, n)]: [memcpy] of [n] bytes, then the terminator. *)
Definition my_strndup (s : list Z) (n : nat) : list Z := take n s.

Definition strdup (s : list Z) : list Z := take (strlen s) s.

(** [strncmp(s1, s2, n)]; only its sign is specified by C. *)
Fixpoint strncmp (s1 s2 : list Z) (n : nat) : Z :=
  match n with
  | O => 0
  | S n' =>
      let c1 := char_at s1 0 in
      let c2 := char_at s2 0 in
      if c1 =? c2
      then (if c1 =? 0 then 0 else strncmp (tail s1) (tail s2) n')
      else c1 - c2
  end.

(** [strchr(s, c)] for [c <> 0]: offset of the first occurrence in the
    string, [None] for a NULL result. *)
Fixpoint strchr (s : list Z) (c : Z) : option nat :=
  match s with
  | [] => None
  | x :: s' =>
      if x =? 0 then None
      else if x =? c then Some 0%nat
      else option_map S (strchr s' c)
  end.

Definition bytes_eqb (a b : list Z) : bool :=
  bool_decide (a = b).

(** ** Constants *)

Definition STRING_TEMP_SIZE : nat := 255.
Definition UNICODE_MAP_SIZE : Z := 512.
Definition INT32_MAX : Z := 2147483647.

(** ** UTF-8 *)

(** [utf8_decode]: [Some (cp, len)] for a return value [len] in 1..4 with
    [*cp] written, [None] for the return value -1. *)
Definition utf8_decode (s : list Z) : option (Z * nat) :=
  let c := char_at s 0 in
  if c <? 0x80 then Some (c, 1%nat)
  else if Z.land c 0xE0 =? 0xC0 then
    if negb (Z.land (char_at s 1) 0xC0 =? 0x80) then None
    else Some (Z.lor (Z.shiftl (Z.land c 0x1F) 6) (Z.land (char_at s 1) 0x3F), 2%nat)
  else if Z.land c 0xF0 =? 0xE0 then
    if negb (Z.land (char_at s 1) 0xC0 =? 0x80)
       || negb (Z.land (char_at s 2) 0xC0 =? 0x80) then None
    else Some (Z.lor (Z.lor (Z.shiftl (Z.land c 0x0F) 12)
                            (Z.shiftl (Z.land (char_at s 1) 0x3F) 6))
                     (Z.land (char_at s 2) 0x3F), 3%nat)
  else if Z.land c 0xF8 =? 0xF0 then
    if negb (Z.land (char_at s 1) 0xC0 =? 0x80)
       || negb (Z.land (char_at s 2) 0xC0 =? 0x80)
       || negb (Z.land (char_at s 3) 0xC0 =? 0x80) then None
    else Some (Z.lor (Z.lor (Z.lor (Z.shiftl (Z.land c 0x07) 18)
                                   (Z.shiftl (Z.land (char_at s 1) 0x3F) 12))
                            (Z.shiftl (Z.land (char_at s 2) 0x3F) 6))
                     (Z.land (char_at s 3) 0x3F), 4%nat)
  else None.

(** [utf8_encode]: the bytes written to [out]; the return value is their
    number. *)
Definition utf8_encode (cp : Z) : list Z :=
  if cp <? 0x80 then [to_char cp]
  else if cp <? 0x800 then
    [to_char (Z.lor 0xC0 (Z.shiftr cp 6));
     to_char (Z.lor 0x80 (Z.land cp 0x3F))]
  else if cp <? 0x10000 then
    [to_char (Z.lor 0xE0 (Z.shiftr cp 12));
     to_char (Z.lor 0x80 (Z.land (Z.shiftr cp 6) 0x3F));
     to_char (Z.lor 0x80 (Z.land cp 0x3F))]
  else
    [to_char (Z.lor 0xF0 (Z.shiftr cp 18));
     to_char (Z.lor 0x80 (Z.land (Z.shiftr cp 12) 0x3F));
     to_char (Z.lor 0x80 (Z.land (Z.shiftr cp 6) 0x3F));
     to_char (Z.lor 0x80 (Z.land cp 0x3F))].

Global Arguments to_char : simpl never.
Global Arguments utf8_decode : simpl never.
Global Arguments utf8_encode : simpl never.

(** ** The byte alphabet *)

(** The test of [init_byte_mappings]: the byte maps to itself. *)
Definition maps_to_itself (b : Z) : bool :=
  ((33 <=? b) && (b <=? 126)) || ((161 <=? b) && (b <=? 172))
  || ((174 <=? b) && (b <=? 255)).

(** The two tables of the tokenizer that [init_byte_mappings] fills. *)
Record ByteMappings := {
  bm_byte_to_unicode : list Z;   (* uint32_t [256] *)
  bm_unicode_to_byte : list Z    (* uint8_t [UNICODE_MAP_SIZE] *)
}.

(** One turn of the loop [for (b = 0; b < 256; b++)], on the counter [n]
    and the two tables. *)
Definition init_byte_mappings_body (st : Z * ByteMappings) (b : nat)
  : Z * ByteMappings :=
  let '(n, m) := st in
  let '(cp, n') :=
    if maps_to_itself (Z.of_nat b) then (Z.of_nat b, n) else (256 + n, n + 1) in
  (n', {| bm_byte_to_unicode := <[b := cp]> (bm_byte_to_unicode m);
          bm_unicode_to_byte :=
            <[Z.to_nat cp := to_char (Z.of_nat b)]> (bm_unicode_to_byte m) |}).

Definition init_byte_mappings : ByteMappings :=
  snd (foldl init_byte_mappings_body
         (0, {| bm_byte_to_unicode := replicate 256 0;
                bm_unicode_to_byte := replicate (Z.to_nat UNICODE_MAP_SIZE) 0 |})
         (seq 0 256)).

Global Arguments init_byte_mappings : simpl never.

(** [precompute_byte_strings]: the NUL-terminated UTF-8 text of each
    byte's code point. *)
Definition precompute_byte_strings (m : ByteMappings) : list (list Z) :=
  map (fun b => utf8_encode (default 0 (bm_byte_to_unicode m !! b))) (seq 0 256).

(** ** Data structures *)

Inductive BBPEStatus :=
| BBPE_OK
| BBPE_ERR_MEMORY
| BBPE_ERR_JSON_PARSE
| BBPE_ERR_VOCAB_MISSING
| BBPE_ERR_REGEX_COMPILE
| BBPE_ERR_TOKEN_NOT_FOUND
| BBPE_ERR_INVALID_INPUT
| BBPE_ERR_UNSUPPORTED_TYPE.

Definition status_code (s : BBPEStatus) : Z :=
  match s with
  | BBPE_OK => 0
  | BBPE_ERR_MEMORY => -1
  | BBPE_ERR_JSON_PARSE => -2
  | BBPE_ERR_VOCAB_MISSING => -3
  | BBPE_ERR_REGEX_COMPILE => -4
  | BBPE_ERR_TOKEN_NOT_FOUND => -5
  | BBPE_ERR_INVALID_INPUT => -6
  | BBPE_ERR_UNSUPPORTED_TYPE => -7
  end.

(** The caller's [BBPEOutput]: [ids] is the array behind the pointer (the
    empty list for NULL). *)
Module BBPEOutput.
Record t := { ids : list Z; count : nat }.
End BBPEOutput.

(** An entry of the uthash table [vocab_map]; the key is [token]. *)
Module VocabEntry.
Record t := { token : list Z; id : Z }.
End VocabEntry.

Module SpecialEntry.
Record t := { token : list Z; id : Z }.
End SpecialEntry.

Record MergeRuleItem := {
  right_id : Z;
  new_id : Z;
  priority : Z
}.

(** [MergeRuleRow]: the array [items]; its length is the field [count]. *)
Record MergeRuleRow := { items : list MergeRuleItem }.

Definition count (row : MergeRuleRow) : Z := Z.of_nat (length (items row)).

(** The PCRE2 functions the tokenizer calls.  [pcre2_match code subject
    length startoffset] gives the return code and the first two entries
    of the output vector. *)
Class RegexEngine := {
  pcre2_code : Type;
  pcre2_compile : list Z -> option pcre2_code;
  pcre2_match : pcre2_code -> list Z -> nat -> nat -> Z * (nat * nat)
}.

(** What PCRE2 promises about a successful match from [offset]: it lies
    inside the subject, at or after [offset]. *)
Class RegexEngineLaws `{RegexEngine} : Prop := {
  pcre2_match_in_subject :
    forall code subject len offset rc s e,
      pcre2_match code subject len offset = (rc, (s, e)) ->
      0 < rc -> (offset <= s /\ s <= e /\ e <= len)%nat
}.

(** [qsort] over an array, with the comparison function of the call. *)
Class Sorter := {
  qsort : forall {A : Type}, (A -> A -> Z) -> list A -> list A
}.

Class SorterLaws `{Sorter} : Prop := {
  qsort_permutation :
    forall (A : Type) (cmp : A -> A -> Z) (l : list A),
      Permutation l (qsort cmp l);
  qsort_sorted :
    forall (A : Type) (cmp : A -> A -> Z) (l : list A),
      (forall x y z, cmp x y <= 0 -> cmp y z <= 0 -> cmp x z <= 0) ->
      (forall x y, cmp x y <= 0 \/ cmp y x <= 0) ->
      StronglySorted (fun x y => cmp x y <= 0) (qsort cmp l)
}.

Section Tokenizer.
Context `{RE : RegexEngine}.

(** [PreTokenizerNode]: the tag [type] and the member of the union that
    goes with it; the chain through [next] is a list of nodes. *)
Inductive PreTokenizerNode :=
| PRE_TOKENIZER_NONE
| PRE_TOKENIZER_BYTE_LEVEL (add_prefix_space : bool)
| PRE_TOKENIZER_REGEX_SPLIT (regex_pattern : list Z)
                            (regex_compiled : option pcre2_code).

Record BBPETokenizer := {
  vocab_map : list VocabEntry.t;         (* in insertion order *)
  merge_count : nat;
  rule_rows : list MergeRuleRow;         (* indexed by left id *)
  vocab_size : Z;
  special_tokens_map : list SpecialEntry.t;
  byte_to_unicode : list Z;
  unicode_to_byte : list Z;
  id_to_token : list (option (list Z));  (* None: a NULL slot *)
  pre_tokenizers : list PreTokenizerNode;
  byte_vocab_strs : list (list Z)
}.

Record TokenSegment := {
  is_special : bool;
  text : option (list Z);
  special_id : Z
}.

(** [HASH_FIND_STR(head, findstr, out)]: the entry whose key is the
    string [findstr].  Among entries with equal keys uthash's choice
    depends on the state of its buckets; the embedding takes the first
    one added, and the theorems that depend on the choice assume the keys
    distinct. *)
Definition HASH_FIND_STR (head : list VocabEntry.t) (findstr : list Z)
  : option VocabEntry.t :=
  List.find (fun e => bytes_eqb (VocabEntry.token e) (strdup findstr)) head.

(** ** BPE merging *)

(** The binary search of [find_merge_rule] on [lo] and [hi]; [None] when
    [fuel] turns of the loop were not enough or [mid] fell outside the
    row, [Some None] for the return value 0. *)
Fixpoint find_merge_rule_loop (fuel : nat) (row : list MergeRuleItem)
    (right : Z) (lo hi : Z) : option (option (Z * Z)) :=
  match fuel with
  | O => None
  | S fuel' =>
      if lo <=? hi then
        let mid := Z.quot (lo + hi) 2 in
        match row !! Z.to_nat mid with
        | None => None
        | Some it =>
            let mid_right := right_id it in
            if mid_right =? right then Some (Some (new_id it, priority it))
            else if mid_right <? right
                 then find_merge_rule_loop fuel' row right (mid + 1) hi
                 else find_merge_rule_loop fuel' row right lo (mid - 1)
        end
      else Some None
  end.

(** [find_merge_rule]: [Some (new_id, priority)] for the return value 1.
    The row is read at [left] only inside [0, vocab_size), where
    [rule_rows] has a row. *)
Definition find_merge_rule (tok : BBPETokenizer) (left right : Z)
  : option (Z * Z) :=
  if (left <? 0) || (vocab_size tok <=? left) then None
  else
    let row := default {| items := [] |} (rule_rows tok !! Z.to_nat left) in
    if count row =? 0 then None
    else default None
           (find_merge_rule_loop (S (length (items row))) (items row) right
              0 (count row - 1)).

(** The state of the scan in [find_best_merge]: [best_idx] together with
    [*out_new_id] ([None] for -1), and [min_priority]. *)
Definition find_best_merge_body (tok : BBPETokenizer) (ids : list Z)
    (st : option (nat * Z) * Z) (i : nat) : option (nat * Z) * Z :=
  let left := default 0 (ids !! i) in
  let right := default 0 (ids !! S i) in
  match find_merge_rule tok left right with
  | Some (new_id, priority) =>
      if priority <? snd st then (Some (i, new_id), priority) else st
  | None => st
  end.

Definition find_best_merge (ids : list Z) (token_count : nat)
    (tok : BBPETokenizer) : option (nat * Z) :=
  fst (foldl (find_best_merge_body tok ids) (None, INT32_MAX)
         (seq 0 (token_count - 1))).

(** The store [ids[best_idx] = new_id], the loop that moves the tail one
    place down, and [token_count--]. *)
Definition shift_down_body (ids : list Z) (k : nat) : list Z :=
  <[k := default 0 (ids !! S k)]> ids.

Definition apply_merge (ids : list Z) (best_idx : nat) (new_id : Z) : list Z :=
  let token_count := length ids in
  let ids1 := <[best_idx := new_id]> ids in
  let ids2 := foldl shift_down_body ids1
                (seq (S best_idx) (token_count - 1 - S best_idx)) in
  take (token_count - 1) ids2.

(** The loop [while (token_count > 1)] of [encode_chunk]; every turn
    shortens [ids], so [length ids] turns are enough. *)
Fixpoint merge_loop (fuel : nat) (tok : BBPETokenizer) (ids : list Z) : list Z :=
  match fuel with
  | O => ids
  | S fuel' =>
      if (1 <? length ids)%nat then
        match find_best_merge ids (length ids) tok with
        | None => ids
        | Some (best_idx, new_id) =>
            merge_loop fuel' tok (apply_merge ids best_idx new_id)
        end
      else ids
  end.

(** The id of one byte of the chunk: the precomputed string, or else the
    raw byte as a string; [None] when neither is in the vocabulary. *)
Definition byte_token_id (tok : BBPETokenizer) (byte : Z) : option Z :=
  let vocab_str := default [] (byte_vocab_strs tok !! Z.to_nat byte) in
  match HASH_FIND_STR (vocab_map tok) vocab_str with
  | Some e => Some (VocabEntry.id e)
  | None =>
      match HASH_FIND_STR (vocab_map tok) [byte] with
      | Some e => Some (VocabEntry.id e)
      | None => None
      end
  end.

(** The first loop of [encode_chunk]. *)
Fixpoint bytes_to_ids (tok : BBPETokenizer) (chunk : list Z) : option (list Z) :=
  match chunk with
  | [] => Some []
  | byte :: rest =>
      match byte_token_id tok byte with
      | None => None
      | Some i =>
          match bytes_to_ids tok rest with
          | None => None
          | Some l => Some (i :: l)
          end
      end
  end.

Definition encode_chunk (tok : BBPETokenizer) (chunk : list Z)
    (out_accum : BBPEOutput.t) : BBPEStatus * BBPEOutput.t :=
  let chunk_len := strlen chunk in
  if (chunk_len =? 0)%nat then (BBPE_OK, out_accum)
  else
    match bytes_to_ids tok (take chunk_len chunk) with
    | None => (BBPE_ERR_TOKEN_NOT_FOUND, out_accum)
    | Some ids =>
        let ids := merge_loop (length ids) tok ids in
        let token_count := length ids in
        let old_count := BBPEOutput.count out_accum in
        (BBPE_OK,
         {| BBPEOutput.ids := take old_count (BBPEOutput.ids out_accum) ++ ids;
            BBPEOutput.count := (old_count + token_count)%nat |})
    end.

(** ** Special-token segmentation *)

Definition normal_segment (s : list Z) : TokenSegment :=
  {| is_special := false; text := Some s; special_id := -1 |}.

Definition special_segment (id : Z) : TokenSegment :=
  {| is_special := true; text := None; special_id := id |}.

(** One turn of [HASH_ITER] over the special tokens at [pos], on
    [best_match] and [best_len]. *)
Definition best_match_body (pos : list Z)
    (st : option SpecialEntry.t * nat) (entry : SpecialEntry.t)
  : option SpecialEntry.t * nat :=
  let token_len := strlen (SpecialEntry.token entry) in
  if strncmp pos (SpecialEntry.token entry) token_len =? 0 then
    if (snd st <? token_len)%nat then (Some entry, token_len) else st
  else st.

Definition best_match_at (tok : BBPETokenizer) (pos : list Z)
  : option SpecialEntry.t * nat :=
  foldl (best_match_body pos) (None, 0%nat) (special_tokens_map tok).

(** The pending normal text [start, pos), appended when it is not empty. *)
Definition flush_normal (segments : list TokenSegment) (text : list Z)
    (start pos : nat) : list TokenSegment :=
  if (start <? pos)%nat
  then segments ++ [normal_segment (my_strndup (drop start text) (pos - start))]
  else segments.

(** The loop [while ( *pos )] of [extract_special_tokens]; [start] and
    [pos] are offsets into [text].  [None]: [fuel] turns were not enough. *)
Fixpoint extract_loop (fuel : nat) (tok : BBPETokenizer) (text : list Z)
    (start pos : nat) (segments : list TokenSegment)
  : option (nat * nat * list TokenSegment) :=
  match fuel with
  | O => None
  | S fuel' =>
      if char_at text pos =? 0 then Some (start, pos, segments)
      else
        match best_match_at tok (drop pos text) with
        | (Some best_match, best_len) =>
            let segments := flush_normal segments text start pos in
            let segments :=
              segments ++ [special_segment (SpecialEntry.id best_match)] in
            extract_loop fuel' tok text (pos + best_len) (pos + best_len) segments
        | (None, _) => extract_loop fuel' tok text start (S pos) segments
        end
  end.

(** Every turn moves [pos] forward, so one turn per byte and one more to
    see the terminator are enough ([extract_loop_terminates]). *)
Definition extract_special_tokens (tok : BBPETokenizer) (text : list Z)
  : list TokenSegment :=
  match extract_loop (S (length text)) tok text 0 0 [] with
  | Some (start, pos, segments) => flush_normal segments text start pos
  | None => []
  end.

(** ** Pre-tokenization *)

(** The loop [while (offset < text_len)] of the regex split, on [offset],
    [last_end] and the chunks so far.  [None]: [fuel] turns were not
    enough. *)
Fixpoint regex_split_loop (fuel : nat) (code : pcre2_code) (text : list Z)
    (text_len offset last_end : nat) (chunks : list (list Z))
  : option (nat * list (list Z)) :=
  match fuel with
  | O => None
  | S fuel' =>
      if (offset <? text_len)%nat then
        let '(rc, (start, end_)) := pcre2_match code text text_len offset in
        if rc <? 0 then Some (last_end, chunks)
        else if rc =? 0 then
          regex_split_loop fuel' code text text_len (S offset) last_end chunks
        else
          let chunks :=
            if (last_end <? start)%nat
            then chunks ++ [take (start - last_end) (drop last_end text)]
            else chunks in
          let chunks := chunks ++ [take (end_ - start) (drop start text)] in
          let offset := if (start =? end_)%nat then S end_ else end_ in
          regex_split_loop fuel' code text text_len offset end_ chunks
      else Some (last_end, chunks)
  end.

(** [apply_single_pre_tokenizer]: the status and [out->chunks]. *)
Definition apply_single_pre_tokenizer (node : PreTokenizerNode) (text : list Z)
  : BBPEStatus * list (list Z) :=
  match node with
  | PRE_TOKENIZER_BYTE_LEVEL add_prefix_space =>
      let len := strlen text in
      let buf := if add_prefix_space then 32 :: take len text else take len text in
      (BBPE_OK, [buf])
  | PRE_TOKENIZER_REGEX_SPLIT _ (Some code) =>
      let text_len := strlen text in
      match regex_split_loop (S text_len) code text text_len 0 0 [] with
      | Some (last_end, chunks) =>
          let chunks :=
            if (last_end <? text_len)%nat
            then chunks ++ [take (text_len - last_end) (drop last_end text)]
            else chunks in
          let chunks :=
            if (length chunks =? 0)%nat then [strdup text] else chunks in
          (BBPE_OK, chunks)
      | None => (BBPE_OK, [])
      end
  | _ => (BBPE_OK, [])
  end.

(** The loop over [current.chunks] for one node: the parts are appended
    to [next] in order; the first failing part ends the loop. *)
Fixpoint pre_tokenize_node (node : PreTokenizerNode) (current : list (list Z))
    (next : list (list Z)) : BBPEStatus * list (list Z) :=
  match current with
  | [] => (BBPE_OK, next)
  | chunk :: rest =>
      match apply_single_pre_tokenizer node chunk with
      | (BBPE_OK, part) => pre_tokenize_node node rest (next ++ part)
      | (status, _) => (status, [])
      end
  end.

Fixpoint pre_tokenize_chain (nodes : list PreTokenizerNode)
    (current : list (list Z)) : BBPEStatus * list (list Z) :=
  match nodes with
  | [] => (BBPE_OK, current)
  | node :: nodes' =>
      match pre_tokenize_node node current [] with
      | (BBPE_OK, next) => pre_tokenize_chain nodes' next
      | (status, _) => (status, [])
      end
  end.

Definition pre_tokenize (tok : BBPETokenizer) (text : list Z)
  : BBPEStatus * list (list Z) :=
  pre_tokenize_chain (pre_tokenizers tok) [strdup text].

(** ** Encoding *)

Definition empty_output : BBPEOutput.t :=
  {| BBPEOutput.ids := []; BBPEOutput.count := 0%nat |}.

(** The loop over [pre_res.chunks] in [bbpe_encode]. *)
Fixpoint encode_chunks (tok : BBPETokenizer) (chunks : list (list Z))
    (out : BBPEOutput.t) : BBPEStatus * BBPEOutput.t :=
  match chunks with
  | [] => (BBPE_OK, out)
  | chunk :: rest =>
      match encode_chunk tok chunk out with
      | (BBPE_OK, out') => encode_chunks tok rest out'
      | failed => failed
      end
  end.

(** The loop over the segments in [bbpe_encode]. *)
Fixpoint encode_segments (tok : BBPETokenizer) (segments : list TokenSegment)
    (out : BBPEOutput.t) : BBPEStatus * BBPEOutput.t :=
  match segments with
  | [] => (BBPE_OK, out)
  | seg :: rest =>
      if is_special seg then
        let old_count := BBPEOutput.count out in
        encode_segments tok rest
          {| BBPEOutput.ids := take old_count (BBPEOutput.ids out) ++ [special_id seg];
             BBPEOutput.count := (old_count + 1)%nat |}
      else
        match pre_tokenize tok (default [] (text seg)) with
        | (BBPE_OK, pre_res) =>
            match encode_chunks tok pre_res out with
            | (BBPE_OK, out') => encode_segments tok rest out'
            | failed => failed
            end
        | (status, _) => (status, out)
        end
  end.

(** [bbpe_encode].  A pointer argument is [None] when NULL; [out_output]
    carries what the caller's structure holds, and the second component
    of the result is what it holds afterwards. *)
Definition bbpe_encode (tokenizer : option BBPETokenizer) (text : option (list Z))
    (out_output : option BBPEOutput.t) : BBPEStatus * option BBPEOutput.t :=
  match tokenizer, text, out_output with
  | Some tok, Some text, Some _ =>
      let segments := extract_special_tokens tok text in
      match encode_segments tok segments empty_output with
      | (BBPE_OK, out) => (BBPE_OK, Some out)
      | (status, _) => (status, Some empty_output)
      end
  | _, _, _ => (BBPE_ERR_INVALID_INPUT, out_output)
  end.

(** ** Decoding *)

(** The decoder's test that a code point stands for a byte. *)
Definition maps_to_byte (tok : BBPETokenizer) (cp : Z) : bool :=
  (cp <? UNICODE_MAP_SIZE)
  && negb (default 0 (unicode_to_byte tok !! Z.to_nat cp) =? 0).

(** The loop [while ( *p )] of the first pass over one token string:
    [inl] for an early return, [inr] for [total_bytes] at the end. *)
Fixpoint decode_size_loop (fuel : nat) (tok : BBPETokenizer) (p : list Z)
    (total_bytes : nat) : option (BBPEStatus + nat) :=
  match fuel with
  | O => None
  | S fuel' =>
      if char_at p 0 =? 0 then Some (inr total_bytes)
      else
        match utf8_decode p with
        | None => Some (inl BBPE_ERR_INVALID_INPUT)
        | Some (cp, len) =>
            let total_bytes :=
              if maps_to_byte tok cp then (total_bytes + 1)%nat
              else (total_bytes + len)%nat in
            decode_size_loop fuel' tok (drop len p) total_bytes
        end
  end.

(** The same loop in the second pass, on the bytes written to [result]. *)
Fixpoint decode_fill_loop (fuel : nat) (tok : BBPETokenizer) (p : list Z)
    (result : list Z) : option (BBPEStatus + list Z) :=
  match fuel with
  | O => None
  | S fuel' =>
      if char_at p 0 =? 0 then Some (inr result)
      else
        match utf8_decode p with
        | None => Some (inl BBPE_ERR_INVALID_INPUT)
        | Some (cp, len) =>
            let result :=
              if maps_to_byte tok cp
              then result ++ [to_char (default 0 (unicode_to_byte tok !! Z.to_nat cp))]
              else result ++ take len p in
            decode_fill_loop fuel' tok (drop len p) result
        end
  end.

(** First pass over the ids. *)
Fixpoint decode_size (tok : BBPETokenizer) (ids : list Z) (total_bytes : nat)
  : BBPEStatus + nat :=
  match ids with
  | [] => inr total_bytes
  | id :: rest =>
      if (id <? 0) || (vocab_size tok <=? id) then inl BBPE_ERR_TOKEN_NOT_FOUND
      else
        match default None (id_to_token tok !! Z.to_nat id) with
        | None => inl BBPE_ERR_TOKEN_NOT_FOUND
        | Some token_str =>
            match default (inr total_bytes)
                    (decode_size_loop (S (length token_str)) tok token_str
                       total_bytes) with
            | inl status => inl status
            | inr total_bytes => decode_size tok rest total_bytes
            end
        end
  end.

(** Second pass over the ids. *)
Fixpoint decode_fill (tok : BBPETokenizer) (ids : list Z) (result : list Z)
  : BBPEStatus + list Z :=
  match ids with
  | [] => inr result
  | id :: rest =>
      let token_str :=
        default [] (default None (id_to_token tok !! Z.to_nat id)) in
      match default (inr result)
              (decode_fill_loop (S (length token_str)) tok token_str result) with
      | inl status => inl status
      | inr result => decode_fill tok rest result
      end
  end.

(** [bbpe_decode].  [ids] is the caller's array, of which the first
    [count] entries are read ([count] is at most its length);
    [out_text] carries what the caller's [char *] holds. *)
Definition bbpe_decode (tokenizer : option BBPETokenizer) (ids : option (list Z))
    (count : nat) (out_text : option (option (list Z)))
  : BBPEStatus * option (option (list Z)) :=
  match tokenizer, ids, out_text with
  | Some tok, Some ids, Some _ =>
      if (count =? 0)%nat then (BBPE_ERR_INVALID_INPUT, out_text)
      else
        match decode_size tok (take count ids) 0 with
        | inl status => (status, out_text)
        | inr _ =>
            match decode_fill tok (take count ids) [] with
            | inl status => (status, out_text)
            | inr result => (BBPE_OK, Some (Some result))
            end
        end
  | _, _, _ => (BBPE_ERR_INVALID_INPUT, out_text)
  end.

End Tokenizer.

(** ** The cJSON parse tree *)

(** Modelled from the spec: cJSON (thirdparty/cJSON, not among the
    sources) is the JSON parser, a black box that produces a tree of
    values.  A number keeps its [valueint], a string its [valuestring];
    an array and an object keep their children in order, an object's
    children with their keys. *)
Inductive cJSON :=
| cJSON_NULL
| cJSON_False
| cJSON_True
| cJSON_Number (valueint : Z)
| cJSON_String (valuestring : list Z)
| cJSON_Array (elements : list cJSON)
| cJSON_Object (members : list (list Z * cJSON)).

(** Modelled from the spec: the parser itself, [cJSON_Parse]; [None] is
    its NULL result. *)
Class JsonParser := {
  cJSON_Parse : list Z -> option cJSON
}.

Fixpoint bytes_of_string (s : String.string) : list Z :=
  match s with
  | String.EmptyString => []
  | String.String a s' => Z.of_N (Ascii.N_of_ascii a) :: bytes_of_string s'
  end.

Definition tolower (c : Z) : Z :=
  if (65 <=? c) && (c <=? 90) then c + 32 else c.

(** Modelled from the spec: [cJSON_GetObjectItem], which compares keys
    without regard to case and returns the first child that matches. *)
Definition cJSON_GetObjectItem (object : cJSON) (name : String.string)
  : option cJSON :=
  match object with
  | cJSON_Object members =>
      option_map snd
        (List.find
           (fun m => bytes_eqb (map tolower (strdup (fst m)))
                       (map tolower (bytes_of_string name)))
           members)
  | _ => None
  end.

(** Modelled from the spec: the children [cJSON_ArrayForEach] visits,
    each with its [string] field (the key of an object's child). *)
Definition cJSON_children (j : cJSON) : list (option (list Z) * cJSON) :=
  match j with
  | cJSON_Array elements => map (fun e => (None, e)) elements
  | cJSON_Object members => map (fun m => (Some (fst m), snd m)) members
  | _ => []
  end.

Definition cJSON_IsArray (j : cJSON) : bool :=
  match j with cJSON_Array _ => true | _ => false end.

Definition cJSON_IsTrue (j : cJSON) : bool :=
  match j with cJSON_True => true | _ => false end.

Definition cJSON_GetArraySize (j : cJSON) : nat := length (cJSON_children j).

(** ** The loader *)

Module MergeRecord.
Record t := { left_id : Z; right_id : Z; new_id : Z; priority : Z }.
End MergeRecord.

(** The comparison function handed to [qsort]. *)
Definition compare_merge_rule_items (a b : MergeRuleItem) : Z :=
  let ra := right_id a in
  let rb := right_id b in
  (if rb <? ra then 1 else 0) - (if ra <? rb then 1 else 0).

(** The first half of the body of the loop over [merges]: [left_str] and
    [right_str], or [None] where the code says [continue]. *)
Definition merge_item_strings (merge_item : cJSON) : option (list Z * list Z) :=
  match merge_item with
  | cJSON_String combined =>
      if (STRING_TEMP_SIZE <? strlen combined)%nat then None
      else
        match strchr combined 32 with
        | None => None
        | Some left_len => Some (take left_len combined, drop (S left_len) combined)
        end
  | cJSON_Array [left_node; right_node] =>
      match left_node, right_node with
      | cJSON_String left_str, cJSON_String right_str =>
          if (STRING_TEMP_SIZE <? strlen left_str + strlen right_str)%nat
          then None
          else Some (left_str, right_str)
      | _, _ => None
      end
  | _ => None
  end.

(** The second half: the three lookups; [i] is the running priority. *)
Definition merge_item_record (vocab_map : list VocabEntry.t) (i : nat)
    (merge_item : cJSON) : option MergeRecord.t :=
  match merge_item_strings merge_item with
  | None => None
  | Some (left_str, right_str) =>
      match HASH_FIND_STR vocab_map left_str, HASH_FIND_STR vocab_map right_str with
      | Some left_entry, Some right_entry =>
          if (STRING_TEMP_SIZE + 1 <=? strlen left_str + strlen right_str)%nat
          then None
          else
            let MSTR_BUFFER := strdup left_str ++ strdup right_str in
            match HASH_FIND_STR vocab_map MSTR_BUFFER with
            | None => None
            | Some merged_entry =>
                Some {| MergeRecord.left_id := VocabEntry.id left_entry;
                        MergeRecord.right_id := VocabEntry.id right_entry;
                        MergeRecord.new_id := VocabEntry.id merged_entry;
                        MergeRecord.priority := Z.of_nat i |}
            end
      | _, _ => None
      end
  end.

(** One turn of the loop over [merges], on [temp_records] and [i]; a
    skipped item leaves both as they are. *)
Definition collect_merge_body (vocab_map : list VocabEntry.t)
    (st : list MergeRecord.t * nat) (merge_item : cJSON)
  : list MergeRecord.t * nat :=
  match merge_item_record vocab_map (snd st) merge_item with
  | None => st
  | Some r => (fst st ++ [r], S (snd st))
  end.

Definition collect_merges (vocab_map : list VocabEntry.t) (merges : cJSON)
  : list MergeRecord.t :=
  fst (foldl (collect_merge_body vocab_map) ([], 0%nat)
         (map snd (cJSON_children merges))).

Definition item_of_record (r : MergeRecord.t) : MergeRuleItem :=
  {| right_id := MergeRecord.right_id r;
     new_id := MergeRecord.new_id r;
     priority := MergeRecord.priority r |}.

(** The first loop over [temp_records]: [counts[left]++] inside the
    bounds. *)
Definition count_body (vocab_size : Z) (counts : list nat) (r : MergeRecord.t)
  : list nat :=
  let left := MergeRecord.left_id r in
  if (0 <=? left) && (left <? vocab_size)
  then alter S (Z.to_nat left) counts
  else counts.

(** What [malloc] leaves in a row before it is filled. *)
Definition unset_item : MergeRuleItem :=
  {| right_id := 0; new_id := 0; priority := 0 |}.

(** The second loop over [temp_records], on [counts] (cleared before it)
    and the rows: the record goes to place [counts[left]++] of row
    [left].  The code does not test [left] here: a negative one is a
    store outside the arrays, [None]. *)
Definition fill_body (st : option (list nat * list MergeRuleRow))
    (r : MergeRecord.t) : option (list nat * list MergeRuleRow) :=
  match st with
  | None => None
  | Some (counts, rows) =>
      let left := MergeRecord.left_id r in
      if left <? 0 then None
      else
        match counts !! Z.to_nat left, rows !! Z.to_nat left with
        | Some pos, Some row =>
            Some (<[Z.to_nat left := S pos]> counts,
                  <[Z.to_nat left :=
                      {| items := <[pos := item_of_record r]> (items row) |}]> rows)
        | _, _ => None
        end
  end.

Section Loader.
Context `{RE : RegexEngine} `{JP : JsonParser} `{SO : Sorter}.

(** The rows built from [temp_records]: counted, allocated, filled, and
    sorted where not empty. *)
Definition build_rule_rows (vocab_size : Z) (temp_records : list MergeRecord.t)
  : option (list MergeRuleRow) :=
  let counts :=
    foldl (count_body vocab_size) (replicate (Z.to_nat vocab_size) 0%nat)
      temp_records in
  let rows := map (fun n => {| items := replicate n unset_item |}) counts in
  match foldl fill_body
          (Some (replicate (Z.to_nat vocab_size) 0%nat, rows)) temp_records with
  | None => None
  | Some (_, rows) =>
      Some (map (fun row =>
                   if 0 <? count row
                   then {| items := qsort compare_merge_rule_items (items row) |}
                   else row) rows)
  end.

(** One turn of the loop over [vocab], on [vocab_map] and [max_id]. *)
Definition vocab_body (st : list VocabEntry.t * Z)
    (item : option (list Z) * cJSON) : list VocabEntry.t * Z :=
  match item with
  | (Some key, cJSON_Number valueint) =>
      (fst st ++ [{| VocabEntry.token := strdup key; VocabEntry.id := valueint |}],
       if snd st <? valueint then valueint else snd st)
  | _ => st
  end.

(** Block 1 of [bbpe_init], the loop over [vocab]: [vocab_map] and
    [max_id]. *)
Definition load_vocab (vocab : cJSON) : list VocabEntry.t * Z :=
  foldl vocab_body ([], -1) (cJSON_children vocab).

(** One turn of [HASH_ITER] filling [id_to_token]. *)
Definition id_to_token_body (vocab_size : Z) (id_to_token : list (option (list Z)))
    (v_cur : VocabEntry.t) : list (option (list Z)) :=
  if (0 <=? VocabEntry.id v_cur) && (VocabEntry.id v_cur <? vocab_size)
  then <[Z.to_nat (VocabEntry.id v_cur) := Some (VocabEntry.token v_cur)]> id_to_token
  else id_to_token.

(** [parse_pre_tokenizer_node] for a non-NULL [obj]: the node, or the
    status written to [*status] with the NULL result. *)
Definition parse_pre_tokenizer_node (obj : cJSON) : BBPEStatus + PreTokenizerNode :=
  match cJSON_GetObjectItem obj "type" with
  | Some (cJSON_String type) =>
      if bytes_eqb (strdup type) (bytes_of_string "ByteLevel") then
        let add_space := cJSON_GetObjectItem obj "add_prefix_space" in
        inr (PRE_TOKENIZER_BYTE_LEVEL
               (match add_space with
                | Some j => cJSON_IsTrue j
                | None => false
                end))
      else if bytes_eqb (strdup type) (bytes_of_string "Split") then
        match cJSON_GetObjectItem obj "pattern" with
        | Some pattern_obj =>
            match cJSON_GetObjectItem pattern_obj "Regex" with
            | Some (cJSON_String regex) =>
                match pcre2_compile (strdup regex) with
                | Some code => inr (PRE_TOKENIZER_REGEX_SPLIT (strdup regex) (Some code))
                | None => inl BBPE_ERR_REGEX_COMPILE
                end
            | _ => inl BBPE_ERR_INVALID_INPUT
            end
        | None => inl BBPE_ERR_INVALID_INPUT
        end
      else inl BBPE_ERR_UNSUPPORTED_TYPE
  | _ => inl BBPE_ERR_INVALID_INPUT
  end.

(** The loop over [pretokenizers] of a [Sequence]. *)
Fixpoint parse_sequence (items : list cJSON) (head : list PreTokenizerNode)
  : BBPEStatus + list PreTokenizerNode :=
  match items with
  | [] => inr head
  | item :: rest =>
      match parse_pre_tokenizer_node item with
      | inl parse_status => inl parse_status
      | inr node => parse_sequence rest (head ++ [node])
      end
  end.

(** Block 3 of [bbpe_init]: the chain for the top-level [pre_tokenizer]. *)
Definition load_pre_tokenizers (root : cJSON) : BBPEStatus + list PreTokenizerNode :=
  match cJSON_GetObjectItem root "pre_tokenizer" with
  | Some pre_tok =>
      match cJSON_GetObjectItem pre_tok "type" with
      | Some (cJSON_String type) =>
          if bytes_eqb (strdup type) (bytes_of_string "Sequence") then
            match cJSON_GetObjectItem pre_tok "pretokenizers" with
            | Some (cJSON_Array pretokenizers) => parse_sequence pretokenizers []
            | _ => inr []
            end
          else
            match parse_pre_tokenizer_node pre_tok with
            | inl parse_status => inl parse_status
            | inr node => inr [node]
            end
      | _ => inr []
      end
  | None => inr []
  end.

(** One turn of the loop over [added_tokens], on the tokenizer.  [sid] is
    compared with the unsigned [vocab_size] and then used as an index: a
    negative one reads outside [id_to_token], and [INT32_MAX + 1]
    overflows; both are [None]. *)
Definition added_token_body (st : option BBPETokenizer) (token_obj : cJSON)
  : option BBPETokenizer :=
  match st with
  | None => None
  | Some tok =>
      match cJSON_GetObjectItem token_obj "content",
            cJSON_GetObjectItem token_obj "id" with
      | Some (cJSON_String content), Some (cJSON_Number sid) =>
          if (sid <? 0) || (INT32_MAX <=? sid) then None
          else
            let tok :=
              if vocab_size tok <=? sid then
                let new_size := sid + 1 in
                let grow := Z.to_nat (new_size - vocab_size tok) in
                {| vocab_map := vocab_map tok;
                   merge_count := merge_count tok;
                   rule_rows := rule_rows tok ++ replicate grow {| items := [] |};
                   vocab_size := new_size;
                   special_tokens_map := special_tokens_map tok;
                   byte_to_unicode := byte_to_unicode tok;
                   unicode_to_byte := unicode_to_byte tok;
                   id_to_token := id_to_token tok ++ replicate grow None;
                   pre_tokenizers := pre_tokenizers tok;
                   byte_vocab_strs := byte_vocab_strs tok |}
              else tok in
            match default None (id_to_token tok !! Z.to_nat sid) with
            | None =>
                Some
                  {| vocab_map := vocab_map tok;
                     merge_count := merge_count tok;
                     rule_rows := rule_rows tok;
                     vocab_size := vocab_size tok;
                     special_tokens_map :=
                       special_tokens_map tok
                       ++ [{| SpecialEntry.token := strdup content;
                              SpecialEntry.id := sid |}];
                     byte_to_unicode := byte_to_unicode tok;
                     unicode_to_byte := unicode_to_byte tok;
                     id_to_token :=
                       <[Z.to_nat sid := Some (strdup content)]> (id_to_token tok);
                     pre_tokenizers := pre_tokenizers tok;
                     byte_vocab_strs := byte_vocab_strs tok |}
            | Some _ => Some tok
            end
      | _, _ => Some tok
      end
  end.

(** Block 4 of [bbpe_init]. *)
Definition load_added_tokens (root : cJSON) (tok : BBPETokenizer)
  : option BBPETokenizer :=
  match cJSON_GetObjectItem root "added_tokens" with
  | Some (cJSON_Array added_tokens) =>
      foldl added_token_body (Some tok) added_tokens
  | _ => Some tok
  end.

(** Block 2 of [bbpe_init]: [merge_count] and [rule_rows]. *)
Definition load_merges (model : cJSON) (vocab_map : list VocabEntry.t)
    (vocab_size : Z) : option (nat * list MergeRuleRow) :=
  match cJSON_GetObjectItem model "merges" with
  | Some (cJSON_Array merges) =>
      let temp_records := collect_merges vocab_map (cJSON_Array merges) in
      match build_rule_rows vocab_size temp_records with
      | None => None
      | Some rows => Some (cJSON_GetArraySize (cJSON_Array merges), rows)
      end
  | _ => Some (0%nat, replicate (Z.to_nat vocab_size) {| items := [] |})
  end.

(** [bbpe_init] after the parse: the status and the tokenizer built;
    [None] where the C code leaves its defined behaviour. *)
Definition bbpe_init_root (root : cJSON) : option (BBPEStatus * option BBPETokenizer) :=
  let maps := init_byte_mappings in
  let strs := precompute_byte_strings maps in
  match cJSON_GetObjectItem root "model" with
  | None => Some (BBPE_ERR_VOCAB_MISSING, None)
  | Some model =>
      match cJSON_GetObjectItem model "vocab" with
      | None => Some (BBPE_ERR_VOCAB_MISSING, None)
      | Some vocab =>
          let '(vocab_map, max_id) := load_vocab vocab in
          if max_id <? 0 then Some (BBPE_ERR_VOCAB_MISSING, None)
          else if INT32_MAX <=? max_id then None
          else
            let vocab_size := max_id + 1 in
            let id_to_token :=
              foldl (id_to_token_body vocab_size)
                (replicate (Z.to_nat vocab_size) None) vocab_map in
            match load_merges model vocab_map vocab_size with
            | None => None
            | Some (merge_count, rule_rows) =>
                match load_pre_tokenizers root with
                | inl parse_status => Some (parse_status, None)
                | inr head =>
                    let tok :=
                      {| vocab_map := vocab_map;
                         merge_count := merge_count;
                         rule_rows := rule_rows;
                         vocab_size := vocab_size;
                         special_tokens_map := [];
                         byte_to_unicode := bm_byte_to_unicode maps;
                         unicode_to_byte := bm_unicode_to_byte maps;
                         id_to_token := id_to_token;
                         pre_tokenizers := head;
                         byte_vocab_strs := strs |} in
                    match load_added_tokens root tok with
                    | None => None
                    | Some tok => Some (BBPE_OK, Some tok)
                    end
                end
            end
      end
  end.

(** [bbpe_init].  [json_content] is [None] when NULL; [out_tokenizer]
    carries what the caller's handle holds, and the result what it holds
    afterwards. *)
Definition bbpe_init (json_content : option (list Z))
    (out_tokenizer : option (option BBPETokenizer))
  : option (BBPEStatus * option (option BBPETokenizer)) :=
  match json_content, out_tokenizer with
  | Some json_content, Some _ =>
      match cJSON_Parse json_content with
      | None => Some (BBPE_ERR_JSON_PARSE, out_tokenizer)
      | Some root =>
          match bbpe_init_root root with
          | None => None
          | Some (BBPE_OK, Some tok) => Some (BBPE_OK, Some (Some tok))
          | Some (status, _) => Some (status, out_tokenizer)
          end
      end
  | _, _ => Some (BBPE_ERR_INVALID_INPUT, out_tokenizer)
  end.

End Loader.

(** ** Instances of the interfaces, and sample data *)

(** Two patterns for a small regex engine: a non-empty run of white space,
    found at or after the offset, and a possibly empty run, found at the
    offset itself. *)
Inductive sample_pattern := WhitespaceRun | OptionalWhitespace.

Definition is_space (c : Z) : bool :=
  (c =? 32) || ((9 <=? c) && (c <=? 13)).

Fixpoint span_length (p : Z -> bool) (s : list Z) : nat :=
  match s with
  | [] => 0%nat
  | c :: s' => if p c then S (span_length p s') else 0%nat
  end.

Definition sample_match (code : sample_pattern) (subject : list Z)
    (len offset : nat) : Z * (nat * nat) :=
  let s := drop offset (take len subject) in
  match code with
  | WhitespaceRun =>
      let a := span_length (fun c => negb (is_space c)) s in
      let b := span_length is_space (drop a s) in
      if (b =? 0)%nat then (-1, (0%nat, 0%nat))
      else (1, ((offset + a)%nat, (offset + a + b)%nat))
  | OptionalWhitespace =>
      if (len <? offset)%nat then (-1, (0%nat, 0%nat))
      else (1, (offset, (offset + span_length is_space s)%nat))
  end.

Definition sample_compile (pattern : list Z) : option sample_pattern :=
  if bytes_eqb pattern (bytes_of_string "\s+") then Some WhitespaceRun
  else if bytes_eqb pattern (bytes_of_string "\s*") then Some OptionalWhitespace
  else None.

#[export] Instance sample_engine : RegexEngine := {
  pcre2_code := sample_pattern;
  pcre2_compile := sample_compile;
  pcre2_match := sample_match
}.

Fixpoint insert_sorted {A : Type} (cmp : A -> A -> Z) (x : A) (l : list A)
  : list A :=
  match l with
  | [] => [x]
  | y :: l' => if cmp x y <=? 0 then x :: l else y :: insert_sorted cmp x l'
  end.

Definition insertion_sort {A : Type} (cmp : A -> A -> Z) (l : list A) : list A :=
  foldr (insert_sorted cmp) [] l.

#[export] Instance insertion_sorter : Sorter := {
  qsort := @insertion_sort
}.

(** A parser that answers every text with one tree. *)
Definition constant_parser (root : cJSON) : JsonParser :=
  {| cJSON_Parse := fun _ => Some root |}.

(** The 256 vocabulary entries of the byte alphabet: byte [b] has the
    text of its code point and the id [b]. *)
Definition byte_alphabet_vocab : list (list Z * cJSON) :=
  map (fun b =>
         (utf8_encode (default 0 (bm_byte_to_unicode init_byte_mappings !! b)),
          cJSON_Number (Z.of_nat b)))
    (seq 0 256).

Definition vocab_of (l : list (String.string * Z)) : list (list Z * cJSON) :=
  map (fun p => (bytes_of_string (fst p), cJSON_Number (snd p))) l.

Definition sample_json (extra_vocab : list (String.string * Z))
    (merges : list cJSON) (top : list (list Z * cJSON)) : cJSON :=
  cJSON_Object
    ((bytes_of_string "model",
      cJSON_Object
        [(bytes_of_string "vocab",
          cJSON_Object (byte_alphabet_vocab ++ vocab_of extra_vocab));
         (bytes_of_string "merges", cJSON_Array merges)])
     :: top).

Definition json_string (s : String.string) : cJSON :=
  cJSON_String (bytes_of_string s).

Definition added_token (content : String.string) (id : Z) : cJSON :=
  cJSON_Object [(bytes_of_string "content", json_string content);
                (bytes_of_string "id", cJSON_Number id)].

(** The byte alphabet alone: no merges, no pre-tokenizer, no specials. *)
Definition bytes_only_json : cJSON := sample_json [] [] [].

(** [he], [ll], [hell] and [hello] with their merges, two special tokens
    of which one is a prefix of the other, and a split on white space. *)
Definition hello_merges : list cJSON :=
  [json_string "h e"; json_string "l l";
   cJSON_Array [json_string "he"; json_string "ll"];
   json_string "hell o"].

Definition hello_json_with (merges : list cJSON) : cJSON :=
  sample_json
    [("he"%string, 256); ("ll"%string, 257); ("hell"%string, 258);
     ("hello"%string, 259)]
    merges
    [(bytes_of_string "pre_tokenizer",
      cJSON_Object
        [(bytes_of_string "type", json_string "Sequence");
         (bytes_of_string "pretokenizers",
          cJSON_Array
            [cJSON_Object
               [(bytes_of_string "type", json_string "Split");
                (bytes_of_string "pattern",
                 cJSON_Object [(bytes_of_string "Regex", json_string "\s+")])];
             cJSON_Object
               [(bytes_of_string "type", json_string "ByteLevel");
                (bytes_of_string "add_prefix_space", cJSON_False)]])]);
     (bytes_of_string "added_tokens",
      cJSON_Array [added_token "<|e|>" 300; added_token "<|endoftext|>" 301])].

Definition hello_json : cJSON := hello_json_with hello_merges.

(** The same with a rule whose left side [hex] is no token. *)
Definition unknown_rule : cJSON := json_string "hex llo".

Definition hello_json_unknown_rule : cJSON :=
  hello_json_with (take 2 hello_merges ++ unknown_rule :: drop 2 hello_merges).

(** The tokenizer [bbpe_init] builds from a tree; a tokenizer with no
    content stands in where the loader gives none. *)
Definition null_tokenizer : BBPETokenizer :=
  {| vocab_map := []; merge_count := 0; rule_rows := []; vocab_size := 0;
     special_tokens_map := []; byte_to_unicode := []; unicode_to_byte := [];
     id_to_token := []; pre_tokenizers := []; byte_vocab_strs := [] |}.

Definition tokenizer_of (root : cJSON) : BBPETokenizer :=
  match bbpe_init_root root with
  | Some (BBPE_OK, Some tok) => tok
  | _ => null_tokenizer
  end.

Definition bytes_only_tokenizer : BBPETokenizer := tokenizer_of bytes_only_json.
Definition hello_tokenizer : BBPETokenizer := tokenizer_of hello_json.

Global Arguments byte_alphabet_vocab : simpl never.
Global Arguments bytes_only_tokenizer : simpl never.
Global Arguments hello_tokenizer : simpl never.


(** ** Notions the statements use *)

(** The two sides of a merge rule as the JSON gives them: the text before
    and after the first space of the string form, or the two strings of
    the array form. *)
Definition rule_sides (merge_item : cJSON) : option (list Z * list Z) :=
  match merge_item with
  | cJSON_String combined =>
      match strchr combined 32 with
      | Some k => Some (take k combined, drop (S k) combined)
      | None => None
      end
  | cJSON_Array [cJSON_String left_str; cJSON_String right_str] =>
      Some (left_str, right_str)
  | _ => None
  end.

(** A rule one of whose sides, or whose concatenation, is not a key of
    the vocabulary map. *)
Definition names_unknown_token (vocab_map : list VocabEntry.t)
    (merge_item : cJSON) : Prop :=
  exists l r,
    rule_sides merge_item = Some (l, r)
    /\ (HASH_FIND_STR vocab_map l = None
        \/ HASH_FIND_STR vocab_map r = None
        \/ HASH_FIND_STR vocab_map (strdup l ++ strdup r) = None).

(** The tokenizer with its statistic [merge_count] replaced. *)
Definition set_merge_count `{RE : RegexEngine} (n : nat) (tok : BBPETokenizer)
  : BBPETokenizer :=
  {| vocab_map := vocab_map tok;
     merge_count := n;
     rule_rows := rule_rows tok;
     vocab_size := vocab_size tok;
     special_tokens_map := special_tokens_map tok;
     byte_to_unicode := byte_to_unicode tok;
     unicode_to_byte := unicode_to_byte tok;
     id_to_token := id_to_token tok;
     pre_tokenizers := pre_tokenizers tok;
     byte_vocab_strs := byte_vocab_strs tok |}.

(** A vocabulary that holds two long tokens and their concatenation. *)
Definition long_left : list Z := replicate 200 97.
Definition long_right : list Z := replicate 56 98.

Definition long_vocab_map : list VocabEntry.t :=
  [ {| VocabEntry.token := long_left; VocabEntry.id := 0 |};
    {| VocabEntry.token := long_right; VocabEntry.id := 1 |};
    {| VocabEntry.token := long_left ++ long_right; VocabEntry.id := 2 |} ].

(** The chunks of a regex split, named by what they are and where they
    lie in the text: [Between] two matches (or before the first, or after
    the last), or [Matched] by the pattern. *)
Inductive chunk_kind := Between | Matched.

Definition piece : Type := chunk_kind * (nat * nat).

Definition piece_text (text : list Z) (p : piece) : list Z :=
  take (snd (snd p) - fst (snd p)) (drop (fst (snd p)) text).

(** The pieces follow one another from [from] to [to] with no gap and no
    overlap. *)
Fixpoint contiguous (from : nat) (pieces : list piece) (to : nat) : Prop :=
  match pieces with
  | [] => from = to
  | p :: pieces' =>
      fst (snd p) = from /\ (fst (snd p) <= snd (snd p))%nat
      /\ contiguous (snd (snd p)) pieces' to
  end.

(** A [Matched] piece is a match the engine reported from some offset; a
    [Between] piece is not empty, unless the text is. *)
Definition genuine `{RE : RegexEngine} (code : pcre2_code) (text : list Z)
    (text_len : nat) (p : piece) : Prop :=
  match fst p with
  | Matched =>
      exists offset rc,
        pcre2_match code text text_len offset = (rc, snd p) /\ 0 < rc
  | Between => (fst (snd p) < snd (snd p))%nat \/ text_len = 0%nat
  end.

(** What the loop keeps true of the chunks it has emitted. *)
Definition tiled `{RE : RegexEngine} (code : pcre2_code) (text : list Z) (text_len last_end : nat)
    (chunks : list (list Z)) : Prop :=
  exists pieces,
    chunks = map (piece_text text) pieces
    /\ contiguous 0 pieces last_end
    /\ Forall (genuine code text text_len) pieces.

(** *** The matches of a regex split and the pieces they cut *)

Section ScanSpec.
Context `{RE : RegexEngine}.

(** The matches the scan of a text meets, as the specification words it:
    the pattern is matched from the current offset; a match is taken and
    the scan goes on from its end, one byte further when the match is
    empty; the scan stops at the end of the text or when the engine
    reports no match.  A return code 0 moves the offset one byte on and
    takes no match. *)
Inductive scan_matches (code : pcre2_code) (text : list Z) (text_len : nat)
  : nat -> list (nat * nat) -> Prop :=
| scan_end (offset : nat) :
    (text_len <= offset)%nat -> scan_matches code text text_len offset []
| scan_no_match (offset : nat) (rc : Z) (m : nat * nat) :
    (offset < text_len)%nat ->
    pcre2_match code text text_len offset = (rc, m) -> rc < 0 ->
    scan_matches code text text_len offset []
| scan_skip (offset : nat) (m : nat * nat) (matches : list (nat * nat)) :
    (offset < text_len)%nat ->
    pcre2_match code text text_len offset = (0, m) ->
    scan_matches code text text_len (S offset) matches ->
    scan_matches code text text_len offset matches
| scan_match (offset : nat) (rc : Z) (s e : nat) (matches : list (nat * nat)) :
    (offset < text_len)%nat ->
    pcre2_match code text text_len offset = (rc, (s, e)) -> 0 < rc ->
    scan_matches code text text_len (if (s =? e)%nat then S e else e) matches ->
    scan_matches code text text_len offset ((s, e) :: matches).

End ScanSpec.

(** The pieces a list of matches cuts the text into from [last_end] on:
    before each match the text skipped since the match before, when there
    is some, then the match itself; after the last match the rest of the
    text, when there is some. *)
Fixpoint split_pieces (last_end : nat) (matches : list (nat * nat))
    (text_len : nat) : list piece :=
  match matches with
  | [] => if (last_end <? text_len)%nat then [(Between, (last_end, text_len))] else []
  | (s, e) :: matches' =>
      (if (last_end <? s)%nat then [(Between, (last_end, s))] else [])
      ++ (Matched, (s, e)) :: split_pieces e matches' text_len
  end.

(** The pieces of the whole text; a text that gives no piece is one piece
    itself. *)
Definition regex_pieces (matches : list (nat * nat)) (text_len : nat)
  : list piece :=
  match split_pieces 0 matches text_len with
  | [] => [(Between, (0%nat, text_len))]
  | pieces => pieces
  end.

(** A registered special token matches at the head of [rest]: its string
    is not empty and [rest] starts with it. *)
Definition special_matches (e : SpecialEntry.t) (rest : list Z) : Prop :=
  strdup (SpecialEntry.token e) <> []
  /\ strdup (SpecialEntry.token e) `prefix_of` rest.

(** The segmentation the specification describes, as a relation between
    the segments and the text they cover.  A normal segment is a non-empty
    stretch inside which no special token matches and which ends at the
    end of the text or where one matches; a special segment carries the id
    of a registered token that matches there and is as long as any that
    does. *)
Inductive segmentation (specials : list SpecialEntry.t)
  : list TokenSegment -> list Z -> Prop :=
| segmentation_done : segmentation specials [] []
| segmentation_normal (s rest : list Z) (segments : list TokenSegment) :
    s <> [] ->
    (forall s1 s2 e, s = s1 ++ s2 -> s2 <> [] -> In e specials ->
                     ~ special_matches e (s2 ++ rest)) ->
    (rest = [] \/ exists e, In e specials /\ special_matches e rest) ->
    segmentation specials segments rest ->
    segmentation specials (normal_segment s :: segments) (s ++ rest)
| segmentation_special (e : SpecialEntry.t) (rest : list Z)
    (segments : list TokenSegment) :
    In e specials ->
    strdup (SpecialEntry.token e) <> [] ->
    (forall e', In e' specials ->
                special_matches e' (strdup (SpecialEntry.token e) ++ rest) ->
                (strlen (SpecialEntry.token e') <= strlen (SpecialEntry.token e))%nat) ->
    segmentation specials segments rest ->
    segmentation specials (special_segment (SpecialEntry.id e) :: segments)
      (strdup (SpecialEntry.token e) ++ rest).

(** The text a list of segments stands for, given the special entry each
    special segment was emitted for. *)
Definition segment_literal (specials : list SpecialEntry.t) (seg : TokenSegment)
  : list Z :=
  if is_special seg then
    match List.find (fun e => SpecialEntry.id e =? special_id seg) specials with
    | Some e => strdup (SpecialEntry.token e)
    | None => []
    end
  else default [] (text seg).

(** What the scan over the special tokens has found after the entries
    [seen]: nothing matches, or [e] of length [l] matches and none that
    matches is longer. *)
Definition best_so_far (seen : list SpecialEntry.t) (rest : list Z)
    (st : option SpecialEntry.t * nat) : Prop :=
  match st with
  | (None, l) => l = 0%nat /\ forall e, In e seen -> ~ special_matches e rest
  | (Some e, l) =>
      In e seen /\ l = strlen (SpecialEntry.token e) /\ special_matches e rest
      /\ forall e', In e' seen -> special_matches e' rest ->
                    (strlen (SpecialEntry.token e') <= l)%nat
  end.

(** ** The greedy merge, as the specification words it *)

Section MergeSpec.
Context `{RE : RegexEngine}.

(** The rule of the adjacent pair at [j], as the probe of the merge table
    answers. *)
Definition pair_rule (tok : BBPETokenizer) (ids : list Z) (j : nat)
  : option (Z * Z) :=
  match ids !! j, ids !! S j with
  | Some l, Some r => find_merge_rule tok l r
  | _, _ => None
  end.

(** The pair at [i] has the rule to apply: its priority is the smallest
    among the pairs that have a rule, and [i] is the leftmost place where
    that priority is found. *)
Definition best_pair (tok : BBPETokenizer) (ids : list Z) (i : nat)
    (new_id : Z) : Prop :=
  exists p,
    pair_rule tok ids i = Some (new_id, p)
    /\ forall j n q, pair_rule tok ids j = Some (n, q) ->
                     p < q \/ (p = q /\ (i <= j)%nat).

Definition no_pair (tok : BBPETokenizer) (ids : list Z) : Prop :=
  forall j, pair_rule tok ids j = None.

(** One merge: [ids[i]] becomes the new id and [ids[i+1]] is deleted. *)
Inductive bpe_step (tok : BBPETokenizer) : list Z -> list Z -> Prop :=
| bpe_step_at (ids : list Z) (i : nat) (new_id : Z) :
    best_pair tok ids i new_id ->
    bpe_step tok ids (take i ids ++ new_id :: drop (S (S i)) ids).

(** Merging until no adjacent pair has a rule. *)
Inductive bpe_run (tok : BBPETokenizer) : list Z -> list Z -> Prop :=
| bpe_run_stop (ids : list Z) : no_pair tok ids -> bpe_run tok ids ids
| bpe_run_step (ids ids' final : list Z) :
    bpe_step tok ids ids' -> bpe_run tok ids' final -> bpe_run tok ids final.

(** The id of the precomputed string of a byte. *)
Definition precomputed_id (tok : BBPETokenizer) (byte : Z) : option Z :=
  option_map VocabEntry.id
    (HASH_FIND_STR (vocab_map tok)
       (default [] (byte_vocab_strs tok !! Z.to_nat byte))).

(** Every priority in the merge table is below the initial
    [min_priority] of [find_best_merge]. *)
Definition priorities_bounded (tok : BBPETokenizer) : Prop :=
  Forall (fun row => Forall (fun it => priority it < INT32_MAX) (items row))
    (rule_rows tok).

(** [out_accum] with [final] appended. *)
Definition append_ids (out : BBPEOutput.t) (final : list Z) : BBPEOutput.t :=
  {| BBPEOutput.ids := take (BBPEOutput.count out) (BBPEOutput.ids out) ++ final;
     BBPEOutput.count := (BBPEOutput.count out + length final)%nat |}.

End MergeSpec.

(** What the scan has found after the places below [k]. *)
Definition scanned `{RE : RegexEngine} (tok : BBPETokenizer) (ids : list Z) (k : nat)
    (st : option (nat * Z) * Z) : Prop :=
  match fst st with
  | None =>
      snd st = INT32_MAX
      /\ forall j, (j < k)%nat -> pair_rule tok ids j = None
  | Some (i, new_id) =>
      (i < k)%nat
      /\ pair_rule tok ids i = Some (new_id, snd st)
      /\ forall j n q, (j < k)%nat -> pair_rule tok ids j = Some (n, q) ->
                       snd st < q \/ (snd st = q /\ (i <= j)%nat)
  end.

(** ** The greedy merge over the merge table *)

Section TableSpec.
Context `{RE : RegexEngine}.

(** The merge table holds the rule [(l, r) -> n] with priority [p]: the
    row of the left id [l], one of the [vocab_size] rows, has an item
    with these three fields. *)
Definition table_rule (tok : BBPETokenizer) (l r n p : Z) : Prop :=
  0 <= l < vocab_size tok
  /\ exists row it,
       rule_rows tok !! Z.to_nat l = Some row /\ In it (items row)
       /\ right_id it = r /\ new_id it = n /\ priority it = p.

(** The adjacent pair at [j] has a rule in the table. *)
Definition pair_has_rule (tok : BBPETokenizer) (ids : list Z) (j : nat)
    (n p : Z) : Prop :=
  exists l r, ids !! j = Some l /\ ids !! S j = Some r /\ table_rule tok l r n p.

(** Among the adjacent pairs that have a rule in the table, the pair at
    [i] has one of the smallest priority, and [i] is the leftmost place
    where that priority is found. *)
Definition best_table_pair (tok : BBPETokenizer) (ids : list Z) (i : nat)
    (new_id : Z) : Prop :=
  exists p,
    pair_has_rule tok ids i new_id p
    /\ forall j n q, pair_has_rule tok ids j n q ->
                     p < q \/ (p = q /\ (i <= j)%nat).

Definition no_table_pair (tok : BBPETokenizer) (ids : list Z) : Prop :=
  forall j n q, ~ pair_has_rule tok ids j n q.

(** One merge: [ids[i]] becomes the new id and [ids[i+1]] is deleted. *)
Inductive greedy_step (tok : BBPETokenizer) : list Z -> list Z -> Prop :=
| greedy_step_at (ids : list Z) (i : nat) (new_id : Z) :
    best_table_pair tok ids i new_id ->
    greedy_step tok ids (take i ids ++ new_id :: drop (S (S i)) ids).

(** Merging until no adjacent pair has a rule in the table. *)
Inductive greedy_run (tok : BBPETokenizer) : list Z -> list Z -> Prop :=
| greedy_run_stop (ids : list Z) : no_table_pair tok ids -> greedy_run tok ids ids
| greedy_run_step (ids ids' final : list Z) :
    greedy_step tok ids ids' -> greedy_run tok ids' final ->
    greedy_run tok ids final.

(** No row of the table holds two rules with the same right id: the
    right ids of every row are strictly ascending. *)
Definition rows_strict (tok : BBPETokenizer) : Prop :=
  Forall (fun row =>
            StronglySorted (fun a b => right_id a < right_id b) (items row))
    (rule_rows tok).

(** The rules of the table for the pair [(l, r)], as new id and
    priority, in the order of the row. *)
Definition table_rules (tok : BBPETokenizer) (l r : Z) : list (Z * Z) :=
  if (0 <=? l) && (l <? vocab_size tok) then
    match rule_rows tok !! Z.to_nat l with
    | Some row =>
        map (fun it => (new_id it, priority it))
          (List.filter (fun it => right_id it =? r) (items row))
    | None => []
    end
  else [].

(** The test that a list of right ids is strictly ascending. *)
Definition strictly_ascending (l : list Z) : bool :=
  forallb (fun p => fst p <? snd p) (zip l (drop 1 l)).

End TableSpec.

(** ** The merge table, row by row *)

(** The rules whose left id is [l], in the order of the JSON list. *)
Definition bucket (l : Z) (records : list MergeRecord.t) : list MergeRuleItem :=
  map item_of_record
    (List.filter (fun r => MergeRecord.left_id r =? l) records).

Definition rule_pair (r : MergeRecord.t) : Z * Z :=
  (MergeRecord.left_id r, MergeRecord.right_id r).

(** The same list of merges with its first rule given twice. *)
Definition hello_json_repeated_rule : cJSON :=
  hello_json_with (json_string "h e" :: hello_merges).

(** The tokens [ab] and [bc], with the rule for [ab] given three times. *)
Definition abc_repeated_json : cJSON :=
  sample_json [("ab"%string, 256); ("bc"%string, 257)]
    [json_string "a b"; json_string "b c"; json_string "a b"; json_string "a b"]
    [].

Definition abc_repeated_tokenizer : BBPETokenizer :=
  tokenizer_of abc_repeated_json.

Global Arguments abc_repeated_tokenizer : simpl never.

(** ** Round trip: notions *)

(** The code point of a byte in the byte alphabet, and the text a byte
    string has inside the vocabulary. *)
Definition byte_code_point (b : Z) : Z :=
  default 0 (bm_byte_to_unicode init_byte_mappings !! Z.to_nat b).

Global Arguments byte_code_point : simpl never.

Definition visible (u : list Z) : list Z :=
  concat (map (fun b => utf8_encode (byte_code_point b)) u).

Definition text_byte (b : Z) : Prop := 1 <= b <= 255.

(** The bytes [enc] are one or two bytes, none of them 0, that
    [utf8_decode] reads back as [cp]. *)
Definition reads_back (cp : Z) (enc : list Z) : bool :=
  match enc with
  | [c] => (0 <? c) && (c <? 0x80) && (c =? cp)
  | [c; d] =>
      negb (c <? 0x80) && (Z.land c 0xE0 =? 0xC0) && (Z.land d 0xC0 =? 0x80)
      && (Z.lor (Z.shiftl (Z.land c 0x1F) 6) (Z.land d 0x3F) =? cp)
  | _ => false
  end.

(** What the decoder must find true of a byte: its code point is inside
    the inverse table, which holds the byte there; the byte is not 0; and
    the text of the code point reads back. *)
Definition byte_decodes (b : Z) : bool :=
  let cp := byte_code_point b in
  let inverse := default 0 (bm_unicode_to_byte init_byte_mappings !! Z.to_nat cp) in
  (cp <? UNICODE_MAP_SIZE) && (inverse =? b) && negb (b =? 0)
  && reads_back cp (utf8_encode cp).

Section RoundTripSpec.
Context `{RE : RegexEngine}.

(** The string of a token id, as the decoder looks it up. *)
Definition token_text (tok : BBPETokenizer) (i : Z) : option (list Z) :=
  if (i <? 0) || (vocab_size tok <=? i) then None
  else default None (id_to_token tok !! Z.to_nat i).

(** The ids stand, token by token, for byte strings that together are
    [c]. *)
Definition spells (tok : BBPETokenizer) (ids : list Z) (c : list Z) : Prop :=
  exists us,
    Forall2 (fun i u => token_text tok i = Some (visible u) /\ Forall text_byte u)
      ids us
    /\ concat us = c.

(** A node as the loader builds it, that adds no prefix space. *)
Definition plain_node (node : PreTokenizerNode) : Prop :=
  node = PRE_TOKENIZER_BYTE_LEVEL false
  \/ exists regex_pattern code,
       node = PRE_TOKENIZER_REGEX_SPLIT regex_pattern (Some code).

(** The invariants of a loaded tokenizer that the round trip rests on. *)
Record well_formed (tok : BBPETokenizer) : Prop := {
  wf_unicode_to_byte :
    unicode_to_byte tok = bm_unicode_to_byte init_byte_mappings;
  wf_byte_vocab_strs :
    byte_vocab_strs tok = precompute_byte_strings init_byte_mappings;
  wf_vocab :
    forall e, In e (vocab_map tok) ->
      token_text tok (VocabEntry.id e) = Some (VocabEntry.token e);
  wf_merges :
    forall l r n p tl tr,
      find_merge_rule tok l r = Some (n, p) ->
      token_text tok l = Some tl -> token_text tok r = Some tr ->
      token_text tok n = Some (tl ++ tr)
}.

(** Every byte of the text has its byte-alphabet token in the
    vocabulary. *)
Definition bytes_known (tok : BBPETokenizer) (text : list Z) : Prop :=
  Forall (fun b =>
            is_Some (HASH_FIND_STR (vocab_map tok)
                       (utf8_encode (byte_code_point b))))
    (strdup text).

(** No registered special token occurs in the text. *)
Definition no_special_inside (tok : BBPETokenizer) (text : list Z) : Prop :=
  forall q e, In e (special_tokens_map tok) ->
              ~ special_matches e (drop q (strdup text)).

End RoundTripSpec.

(** ** What loading establishes: notions *)

(** A record of the merge list joins three entries of the vocabulary. *)
Definition joins (vm : list VocabEntry.t) (r : MergeRecord.t) : Prop :=
  exists le re me,
    In le vm /\ In re vm /\ In me vm
    /\ VocabEntry.id le = MergeRecord.left_id r
    /\ VocabEntry.id re = MergeRecord.right_id r
    /\ VocabEntry.id me = MergeRecord.new_id r
    /\ VocabEntry.token me = VocabEntry.token le ++ VocabEntry.token re.

Section LoadedSpec.
Context `{RE : RegexEngine}.

(** [id_to_token] and [rule_rows] have [vocab_size] slots. *)
Definition sized (tok : BBPETokenizer) : Prop :=
  0 <= vocab_size tok
  /\ length (id_to_token tok) = Z.to_nat (vocab_size tok)
  /\ length (rule_rows tok) = Z.to_nat (vocab_size tok).

(** A rule that is found joins the strings of its two ids into the
    string of its new id. *)
Definition merges_closed (tok : BBPETokenizer) : Prop :=
  forall l r n p,
    find_merge_rule tok l r = Some (n, p) ->
    exists tl tr,
      token_text tok l = Some tl /\ token_text tok r = Some tr
      /\ token_text tok n = Some (tl ++ tr).

(** [tok'] is [tok] with more ids: the tables of the byte alphabet, the
    vocabulary and the chain are the same, every string of [tok] is a
    string of [tok'], and [tok'] has no rule that [tok] has not. *)
Record extends (tok tok' : BBPETokenizer) : Prop := {
  ext_vocab_map : vocab_map tok' = vocab_map tok;
  ext_unicode_to_byte : unicode_to_byte tok' = unicode_to_byte tok;
  ext_byte_vocab_strs : byte_vocab_strs tok' = byte_vocab_strs tok;
  ext_pre_tokenizers : pre_tokenizers tok' = pre_tokenizers tok;
  ext_token_text :
    forall i t, token_text tok i = Some t -> token_text tok' i = Some t;
  ext_find_merge_rule :
    forall l r x, find_merge_rule tok' l r = Some x ->
                  find_merge_rule tok l r = Some x
}.

(** A node as [parse_pre_tokenizer_node] builds it. *)
Definition loaded_node (node : PreTokenizerNode) : Prop :=
  (exists add_prefix_space, node = PRE_TOKENIZER_BYTE_LEVEL add_prefix_space)
  \/ exists regex_pattern code,
       node = PRE_TOKENIZER_REGEX_SPLIT regex_pattern (Some code).

End LoadedSpec.

(** The two passes of the decoder over [ids], from any count and any
    text written so far, count and write the bytes [c]. *)
Definition decodes_to `{RE : RegexEngine} (tok : BBPETokenizer)
    (ids : list Z) (c : list Z) : Prop :=
  forall total result,
    decode_size tok ids total = inr (total + length c)%nat
    /\ decode_fill tok ids result = inr (result ++ c).


(** A tokenizer over the byte alphabet alone whose chain is one ByteLevel
    node that adds a prefix space. *)
Definition prefix_space_json : cJSON :=
  sample_json [] []
    [(bytes_of_string "pre_tokenizer",
      cJSON_Object
        [(bytes_of_string "type", json_string "ByteLevel");
         (bytes_of_string "add_prefix_space", cJSON_True)])].

Definition prefix_space_tokenizer : BBPETokenizer :=
  tokenizer_of prefix_space_json.

Global Arguments prefix_space_tokenizer : simpl never.

(** ** The encoder as a function of the text *)

Section EncodedIds.
Context `{RE : RegexEngine}.

(** The ids [encode_chunk] appends for a chunk; [None] when a byte has
    no token. *)
Definition chunk_ids (tok : BBPETokenizer) (chunk : list Z) : option (list Z) :=
  match bytes_to_ids tok (strdup chunk) with
  | None => None
  | Some ids => Some (merge_loop (length ids) tok ids)
  end.

Fixpoint chunks_ids (tok : BBPETokenizer) (chunks : list (list Z))
  : option (list Z) :=
  match chunks with
  | [] => Some []
  | chunk :: rest =>
      match chunk_ids tok chunk, chunks_ids tok rest with
      | Some a, Some b => Some (a ++ b)
      | _, _ => None
      end
  end.

Definition segment_ids (tok : BBPETokenizer) (seg : TokenSegment)
  : option (list Z) :=
  if is_special seg then Some [special_id seg]
  else chunks_ids tok (snd (pre_tokenize tok (default [] (text seg)))).

Fixpoint segments_ids (tok : BBPETokenizer) (segments : list TokenSegment)
  : option (list Z) :=
  match segments with
  | [] => Some []
  | seg :: rest =>
      match segment_ids tok seg, segments_ids tok rest with
      | Some a, Some b => Some (a ++ b)
      | _, _ => None
      end
  end.

Definition encoded_ids (tok : BBPETokenizer) (text : list Z) : option (list Z) :=
  segments_ids tok (extract_special_tokens tok text).

(** The output structure that holds [ids]. *)
Definition output_of (ids : list Z) : BBPEOutput.t :=
  {| BBPEOutput.ids := ids; BBPEOutput.count := length ids |}.

End EncodedIds.

(** No child of [vocab] is a number that is not negative under a key:
    the loop over [vocab] leaves [max_id] at -1. *)
Definition no_token_id (vocab : cJSON) : Prop :=
  Forall (fun item =>
            match item with
            | (Some _, cJSON_Number valueint) => valueint < 0
            | _ => True
            end)
    (cJSON_children vocab).


Section LoadedBase.
Context `{RE : RegexEngine} `{SO : Sorter}.

(** The tokenizer [bbpe_init] has built when it comes to the added
    tokens: blocks 1 to 3 of the loader. *)
Record loaded_base (root : cJSON) (base : BBPETokenizer) : Prop := {
  base_vocab :
    exists model vocab,
      cJSON_GetObjectItem root "model" = Some model
      /\ cJSON_GetObjectItem model "vocab" = Some vocab
      /\ vocab_map base = fst (load_vocab vocab)
      /\ vocab_size base = snd (load_vocab vocab) + 1
      /\ 0 <= snd (load_vocab vocab) < INT32_MAX
      /\ load_merges model (vocab_map base) (vocab_size base)
         = Some (merge_count base, rule_rows base);
  base_special_tokens_map : special_tokens_map base = [];
  base_byte_to_unicode :
    byte_to_unicode base = bm_byte_to_unicode init_byte_mappings;
  base_unicode_to_byte :
    unicode_to_byte base = bm_unicode_to_byte init_byte_mappings;
  base_byte_vocab_strs :
    byte_vocab_strs base = precompute_byte_strings init_byte_mappings;
  base_id_to_token :
    id_to_token base
    = foldl (id_to_token_body (vocab_size base))
        (replicate (Z.to_nat (vocab_size base)) None) (vocab_map base);
  base_pre_tokenizers : load_pre_tokenizers root = inr (pre_tokenizers base)
}.

(** The slot of an id holds a string. *)
Definition filled (id_to_token : list (option (list Z))) (i : nat) : Prop :=
  exists t, id_to_token !! i = Some (Some t).

(** What the loop over [added_tokens] keeps true of the tokenizer it
    works on, [base] being the tokenizer it started from. *)
Record registered (base tok : BBPETokenizer) : Prop := {
  reg_sized : sized tok;
  reg_extends : extends base tok;
  reg_merge_count : merge_count tok = merge_count base;
  reg_byte_to_unicode : byte_to_unicode tok = byte_to_unicode base;
  reg_grows : vocab_size base <= vocab_size tok;
  reg_bound : vocab_size tok <= vocab_size base \/ vocab_size tok <= INT32_MAX;
  reg_distinct : NoDup (map SpecialEntry.id (special_tokens_map tok));
  reg_strings :
    forall e, In e (special_tokens_map tok) ->
      token_text tok (SpecialEntry.id e) = Some (SpecialEntry.token e)
      /\ token_text base (SpecialEntry.id e) = None
}.

End LoadedBase.

#[export] Instance special_matches_dec (e : SpecialEntry.t) (rest : list Z) :
  Decision (special_matches e rest).
Proof. unfold special_matches. apply _. Defined.

(** The output structure counts its ids. *)
Definition counted (out : BBPEOutput.t) : Prop :=
  BBPEOutput.count out = length (BBPEOutput.ids out).

(** * Properties *)

(** ** Null arguments and empty input *)

Section PublicGuards.
Context `{RE : RegexEngine} `{JP : JsonParser} `{SO : Sorter}.

Lemma extract_special_tokens_at_nul (tok : BBPETokenizer) (text : list Z) :
  char_at text 0 = 0 -> extract_special_tokens tok text = [].
Proof.
  intros Hnul. unfold extract_special_tokens. simpl.
  rewrite Hnul. reflexivity.
Qed.

(** C8. Encoding the empty string (a pointer to a terminator alone, with
    whatever lies behind it) returns [BBPE_OK] with no ids and count 0;
    decoding with count 0 returns [BBPE_ERR_INVALID_INPUT] and leaves the
    caller's text pointer as it was. *)
Theorem encode_empty_decode_none (tok : BBPETokenizer) (behind : list Z)
    (out : BBPEOutput.t) (tokenizer : option BBPETokenizer)
    (ids : option (list Z)) (out_text : option (option (list Z))) :
  bbpe_encode (Some tok) (Some []) (Some out) = (BBPE_OK, Some empty_output)
  /\ bbpe_encode (Some tok) (Some (0 :: behind)) (Some out)
     = (BBPE_OK, Some empty_output)
  /\ BBPEOutput.count empty_output = 0%nat
  /\ bbpe_decode tokenizer ids 0 out_text = (BBPE_ERR_INVALID_INPUT, out_text).
Proof.
  split; [|split; [|split]].
  - unfold bbpe_encode.
    rewrite (extract_special_tokens_at_nul tok []) by reflexivity.
    reflexivity.
  - unfold bbpe_encode.
    rewrite (extract_special_tokens_at_nul tok (0 :: behind)) by reflexivity.
    reflexivity.
  - reflexivity.
  - unfold bbpe_decode.
    destruct tokenizer as [t|], ids as [l|], out_text as [o|]; reflexivity.
Qed.

(** C10. Each public operation answers a NULL pointer argument with
    [BBPE_ERR_INVALID_INPUT] and leaves the caller's handle, output
    structure or text pointer as it was. *)
Theorem null_arguments_rejected
    (json_content : option (list Z)) (handle : option (option BBPETokenizer))
    (tokenizer : option BBPETokenizer) (text : option (list Z))
    (out_output : option BBPEOutput.t) (ids : option (list Z)) (n : nat)
    (out_text : option (option (list Z))) :
  bbpe_init None handle = Some (BBPE_ERR_INVALID_INPUT, handle)
  /\ bbpe_init json_content None = Some (BBPE_ERR_INVALID_INPUT, None)
  /\ bbpe_encode None text out_output = (BBPE_ERR_INVALID_INPUT, out_output)
  /\ bbpe_encode tokenizer None out_output = (BBPE_ERR_INVALID_INPUT, out_output)
  /\ bbpe_encode tokenizer text None = (BBPE_ERR_INVALID_INPUT, None)
  /\ bbpe_decode None ids n out_text = (BBPE_ERR_INVALID_INPUT, out_text)
  /\ bbpe_decode tokenizer None n out_text = (BBPE_ERR_INVALID_INPUT, out_text)
  /\ bbpe_decode tokenizer ids n None = (BBPE_ERR_INVALID_INPUT, None).
Proof.
  repeat apply conj.
  - reflexivity.
  - destruct json_content; reflexivity.
  - reflexivity.
  - destruct tokenizer; reflexivity.
  - destruct tokenizer, text; reflexivity.
  - reflexivity.
  - destruct tokenizer; reflexivity.
  - destruct tokenizer, ids; reflexivity.
Qed.

End PublicGuards.

(** ** The loader: merge rules that are skipped *)

Lemma strlen_le_length (s : list Z) : (strlen s <= length s)%nat.
Proof.
  induction s as [|c s IH]; simpl; [lia|].
  destruct (c =? 0); simpl; lia.
Qed.

Lemma strchr_strlen (s : list Z) (c : Z) (k : nat) :
  strchr s c = Some k ->
  strlen (take k s) = k /\ strlen s = (k + 1 + strlen (drop (S k) s))%nat.
Proof.
  revert k. induction s as [|x s IH]; intros k; simpl; [discriminate|].
  destruct (x =? 0) eqn:Hx0; [discriminate|].
  destruct (x =? c) eqn:Hxc.
  - intros [= <-]. simpl. split; [reflexivity|]. rewrite drop_0. lia.
  - destruct (strchr s c) as [k'|] eqn:Hs; simpl; [|discriminate].
    intros [= <-]. destruct (IH k' eq_refl) as [H1 H2].
    simpl. rewrite Hx0. split; lia.
Qed.

Lemma merge_item_strings_sides (merge_item : cJSON) (l r : list Z) :
  merge_item_strings merge_item = Some (l, r) -> rule_sides merge_item = Some (l, r).
Proof.
  destruct merge_item as [| | | |combined|elements|]; simpl; try discriminate.
  - destruct (STRING_TEMP_SIZE <? strlen combined)%nat; [discriminate|].
    destruct (strchr combined 32); [|discriminate]. auto.
  - destruct elements as [|[| | | |ls| |] [|[| | | |rs| |] [|]]]; try discriminate.
    destruct (STRING_TEMP_SIZE <? strlen ls + strlen rs)%nat; [discriminate|]. auto.
Qed.

Lemma merge_item_strings_bound (merge_item : cJSON) (l r : list Z) :
  merge_item_strings merge_item = Some (l, r) ->
  (strlen l + strlen r <= STRING_TEMP_SIZE)%nat.
Proof.
  destruct merge_item as [| | | |combined|elements|]; simpl; try discriminate.
  - destruct (STRING_TEMP_SIZE <? strlen combined)%nat eqn:Hlen; [discriminate|].
    apply Nat.ltb_ge in Hlen.
    destruct (strchr combined 32) as [k|] eqn:Hk; [|discriminate].
    intros [= <- <-]. destruct (strchr_strlen _ _ _ Hk) as [H1 H2]. lia.
  - destruct elements as [|[| | | |ls| |] [|[| | | |rs| |] [|]]]; try discriminate.
    destruct (STRING_TEMP_SIZE <? strlen ls + strlen rs)%nat eqn:Hlen; [discriminate|].
    apply Nat.ltb_ge in Hlen. intros [= <- <-]. exact Hlen.
Qed.

Lemma collect_merge_body_skip (vocab_map : list VocabEntry.t)
    (st : list MergeRecord.t * nat) (merge_item : cJSON) :
  merge_item_record vocab_map (snd st) merge_item = None ->
  collect_merge_body vocab_map st merge_item = st.
Proof. unfold collect_merge_body. intros ->. reflexivity. Qed.

Lemma collect_merges_skip (vocab_map : list VocabEntry.t)
    (before after : list cJSON) (merge_item : cJSON) :
  (forall i, merge_item_record vocab_map i merge_item = None) ->
  collect_merges vocab_map (cJSON_Array (before ++ merge_item :: after))
  = collect_merges vocab_map (cJSON_Array (before ++ after)).
Proof.
  intros Hskip. unfold collect_merges. simpl.
  rewrite !map_map. simpl. rewrite !map_id.
  rewrite !foldl_app. simpl.
  rewrite collect_merge_body_skip by apply Hskip. reflexivity.
Qed.

(** C9. A string-form merge rule longer than 255 bytes, and a rule of
    either form whose two sides together are longer than 255 bytes, gives
    no record whatever the vocabulary holds: the loop over [merges] leaves
    its records and its counter as they were, and the records collected
    from a list with the rule are those collected from the list without
    it. *)
Theorem oversized_merge_rule_skipped (vocab_map : list VocabEntry.t)
    (merge_item : cJSON) (before after : list cJSON) :
  (exists combined,
      merge_item = cJSON_String combined /\ (255 < strlen combined)%nat)
  \/ (exists l r,
         rule_sides merge_item = Some (l, r) /\ (255 < strlen l + strlen r)%nat) ->
  (forall i, merge_item_record vocab_map i merge_item = None)
  /\ (forall st, collect_merge_body vocab_map st merge_item = st)
  /\ collect_merges vocab_map (cJSON_Array (before ++ merge_item :: after))
     = collect_merges vocab_map (cJSON_Array (before ++ after)).
Proof.
  intros Hbig.
  assert (Hnone : forall i, merge_item_record vocab_map i merge_item = None).
  { intros i. unfold merge_item_record.
    destruct (merge_item_strings merge_item) as [[l r]|] eqn:Hstr; [|reflexivity].
    exfalso.
    pose proof (merge_item_strings_bound _ _ _ Hstr) as Hbound.
    unfold STRING_TEMP_SIZE in Hbound.
    destruct Hbig as [(combined & -> & Hlen) | (l' & r' & Hsides & Hlen)].
    - simpl in Hstr. unfold STRING_TEMP_SIZE in Hstr.
      apply Nat.ltb_lt in Hlen. rewrite Hlen in Hstr. discriminate.
    - rewrite (merge_item_strings_sides _ _ _ Hstr) in Hsides.
      injection Hsides as <- <-. lia. }
  split; [exact Hnone|]. split.
  - intros st. apply collect_merge_body_skip, Hnone.
  - apply collect_merges_skip, Hnone.
Qed.

Lemma oversized_merge_rule_skipped_witness :
  (255 < strlen long_left + strlen long_right)%nat
  /\ HASH_FIND_STR long_vocab_map (strdup long_left ++ strdup long_right)
     = Some {| VocabEntry.token := long_left ++ long_right; VocabEntry.id := 2 |}
  /\ merge_item_record long_vocab_map 0
       (cJSON_Array [cJSON_String long_left; cJSON_String long_right]) = None.
Proof.
  split; [vm_compute; lia|]. split; [vm_compute; reflexivity|].
  refine (proj1 (oversized_merge_rule_skipped long_vocab_map
                   (cJSON_Array [cJSON_String long_left; cJSON_String long_right])
                   [] [] _) 0%nat).
  right. exists long_left, long_right. split; [reflexivity|vm_compute; lia].
Defined.

(** ** The loader: rules that name unknown tokens *)

Section UnknownRules.
Context `{RE : RegexEngine} `{JP : JsonParser} `{SO : Sorter}.

Lemma merge_item_record_unknown (vocab_map : list VocabEntry.t) (i : nat)
    (merge_item : cJSON) :
  names_unknown_token vocab_map merge_item ->
  merge_item_record vocab_map i merge_item = None.
Proof.
  intros (l & r & Hsides & Hmiss). unfold merge_item_record.
  destruct (merge_item_strings merge_item) as [[l' r']|] eqn:Hstr; [|reflexivity].
  rewrite (merge_item_strings_sides _ _ _ Hstr) in Hsides.
  injection Hsides as -> ->.
  destruct Hmiss as [-> | [Hr | Hlr]]; [reflexivity| |].
  - rewrite Hr. destruct (HASH_FIND_STR vocab_map l); reflexivity.
  - rewrite Hlr.
    destruct (HASH_FIND_STR vocab_map l); [|reflexivity].
    destruct (HASH_FIND_STR vocab_map r); [|reflexivity].
    destruct (STRING_TEMP_SIZE + 1 <=? strlen l + strlen r)%nat; reflexivity.
Qed.

(** Nothing that encodes reads [merge_count]. *)
Lemma find_best_merge_set_merge_count (n : nat) (tok : BBPETokenizer)
    (ids : list Z) (token_count : nat) :
  find_best_merge ids token_count (set_merge_count n tok)
  = find_best_merge ids token_count tok.
Proof. reflexivity. Qed.

Lemma merge_loop_set_merge_count (n fuel : nat) (tok : BBPETokenizer)
    (ids : list Z) :
  merge_loop fuel (set_merge_count n tok) ids = merge_loop fuel tok ids.
Proof.
  revert ids. induction fuel as [|fuel IH]; intros ids; simpl; [reflexivity|].
  rewrite find_best_merge_set_merge_count.
  destruct (1 <? length ids)%nat; [|reflexivity].
  destruct (find_best_merge ids (length ids) tok) as [[best_idx new_id]|];
    [apply IH|reflexivity].
Qed.

Lemma bytes_to_ids_set_merge_count (n : nat) (tok : BBPETokenizer)
    (chunk : list Z) :
  bytes_to_ids (set_merge_count n tok) chunk = bytes_to_ids tok chunk.
Proof.
  induction chunk as [|b chunk IH]; simpl; [reflexivity|].
  rewrite IH. reflexivity.
Qed.

Lemma encode_chunk_set_merge_count (n : nat) (tok : BBPETokenizer)
    (chunk : list Z) (out : BBPEOutput.t) :
  encode_chunk (set_merge_count n tok) chunk out = encode_chunk tok chunk out.
Proof.
  unfold encode_chunk. rewrite bytes_to_ids_set_merge_count.
  destruct (strlen chunk =? 0)%nat; [reflexivity|].
  destruct (bytes_to_ids tok (take (strlen chunk) chunk)); [|reflexivity].
  rewrite merge_loop_set_merge_count. reflexivity.
Qed.

Lemma encode_chunks_set_merge_count (n : nat) (tok : BBPETokenizer)
    (chunks : list (list Z)) (out : BBPEOutput.t) :
  encode_chunks (set_merge_count n tok) chunks out = encode_chunks tok chunks out.
Proof.
  revert out. induction chunks as [|c chunks IH]; intros out; simpl; [reflexivity|].
  rewrite encode_chunk_set_merge_count.
  destruct (encode_chunk tok c out) as [[] out']; try reflexivity. apply IH.
Qed.

Lemma extract_loop_set_merge_count (n fuel : nat) (tok : BBPETokenizer)
    (text : list Z) (start pos : nat) (segments : list TokenSegment) :
  extract_loop fuel (set_merge_count n tok) text start pos segments
  = extract_loop fuel tok text start pos segments.
Proof.
  revert start pos segments.
  induction fuel as [|fuel IH]; intros start pos segments; simpl; [reflexivity|].
  destruct (char_at text pos =? 0); [reflexivity|].
  change (best_match_at (set_merge_count n tok) (drop pos text))
    with (best_match_at tok (drop pos text)).
  destruct (best_match_at tok (drop pos text)) as [[best_match|] best_len];
    apply IH.
Qed.

Lemma encode_segments_set_merge_count (n : nat) (tok : BBPETokenizer)
    (segments : list TokenSegment) (out : BBPEOutput.t) :
  encode_segments (set_merge_count n tok) segments out
  = encode_segments tok segments out.
Proof.
  revert out. induction segments as [|seg segments IH]; intros out; simpl;
    [reflexivity|].
  destruct (is_special seg); [apply IH|].
  change (pre_tokenize (set_merge_count n tok) (default [] (text seg)))
    with (pre_tokenize tok (default [] (text seg))).
  destruct (pre_tokenize tok (default [] (text seg))) as [[] pre_res];
    try reflexivity.
  rewrite encode_chunks_set_merge_count.
  destruct (encode_chunks tok pre_res out) as [[] out']; try reflexivity.
  apply IH.
Qed.

Lemma bbpe_encode_set_merge_count (n : nat) (tok : BBPETokenizer)
    (text : option (list Z)) (out_output : option BBPEOutput.t) :
  bbpe_encode (Some (set_merge_count n tok)) text out_output
  = bbpe_encode (Some tok) text out_output.
Proof.
  unfold bbpe_encode. destruct text as [text|], out_output as [out|];
    try reflexivity.
  unfold extract_special_tokens.
  rewrite extract_loop_set_merge_count, encode_segments_set_merge_count.
  reflexivity.
Qed.

Lemma added_token_body_set_merge_count (n : nat) (st : option BBPETokenizer)
    (token_obj : cJSON) :
  added_token_body (option_map (set_merge_count n) st) token_obj
  = option_map (set_merge_count n) (added_token_body st token_obj).
Proof.
  destruct st as [tok|]; [|reflexivity]. simpl.
  destruct (cJSON_GetObjectItem token_obj "content") as [[| | | |content| |]|];
    try reflexivity.
  destruct (cJSON_GetObjectItem token_obj "id") as [[| | |sid| | |]|];
    try reflexivity.
  destruct ((sid <? 0) || (INT32_MAX <=? sid)); [reflexivity|].
  destruct (vocab_size tok <=? sid); simpl;
    match goal with
    | |- context [default None ?x] => destruct (default None x)
    end; reflexivity.
Qed.

Lemma load_added_tokens_set_merge_count (n : nat) (root : cJSON)
    (tok : BBPETokenizer) :
  load_added_tokens root (set_merge_count n tok)
  = option_map (set_merge_count n) (load_added_tokens root tok).
Proof.
  unfold load_added_tokens.
  destruct (cJSON_GetObjectItem root "added_tokens") as [[| | | | |added|]|];
    try reflexivity.
  change (Some (set_merge_count n tok))
    with (option_map (set_merge_count n) (Some tok)).
  generalize (Some tok). induction added as [|a added IH]; intros st; simpl;
    [reflexivity|].
  rewrite added_token_body_set_merge_count. apply IH.
Qed.

Lemma load_added_tokens_same_member (root root' : cJSON) (tok : BBPETokenizer) :
  cJSON_GetObjectItem root "added_tokens"
    = cJSON_GetObjectItem root' "added_tokens" ->
  load_added_tokens root tok = load_added_tokens root' tok.
Proof. unfold load_added_tokens. intros ->. reflexivity. Qed.

(** C7. Take two documents that agree on [vocab], [pre_tokenizer] and
    [added_tokens], one with a merge rule that names an unknown token and
    one without it.  The rule gives no record; if the loader returns
    [BBPE_OK] without the rule, it returns [BBPE_OK] with it, the two
    tokenizers have the same merge table and differ at most in the
    statistic [merge_count], and [bbpe_encode] returns the same on
    both. *)
Theorem unknown_merge_rule_dropped (root root' model model' vocab : cJSON)
    (before after : list cJSON) (merge_item : cJSON) (tok' : BBPETokenizer) :
  cJSON_GetObjectItem root "model" = Some model ->
  cJSON_GetObjectItem root' "model" = Some model' ->
  cJSON_GetObjectItem model "vocab" = Some vocab ->
  cJSON_GetObjectItem model' "vocab" = Some vocab ->
  cJSON_GetObjectItem model "merges"
    = Some (cJSON_Array (before ++ merge_item :: after)) ->
  cJSON_GetObjectItem model' "merges" = Some (cJSON_Array (before ++ after)) ->
  cJSON_GetObjectItem root "pre_tokenizer"
    = cJSON_GetObjectItem root' "pre_tokenizer" ->
  cJSON_GetObjectItem root "added_tokens"
    = cJSON_GetObjectItem root' "added_tokens" ->
  names_unknown_token (fst (load_vocab vocab)) merge_item ->
  bbpe_init_root root' = Some (BBPE_OK, Some tok') ->
  (forall i, merge_item_record (fst (load_vocab vocab)) i merge_item = None)
  /\ exists tok,
      bbpe_init_root root = Some (BBPE_OK, Some tok)
      /\ rule_rows tok = rule_rows tok'
      /\ tok = set_merge_count (merge_count tok) tok'
      /\ forall text out_output,
          bbpe_encode (Some tok) text out_output
          = bbpe_encode (Some tok') text out_output.
Proof.
  intros Hmodel Hmodel' Hvocab Hvocab' Hmerges Hmerges' Hpre Hadded Hunknown Hinit'.
  assert (Hnone : forall i,
             merge_item_record (fst (load_vocab vocab)) i merge_item = None)
    by (intros i; apply merge_item_record_unknown, Hunknown).
  split; [exact Hnone|].
  unfold bbpe_init_root in *.
  rewrite Hmodel, Hvocab. rewrite Hmodel', Hvocab' in Hinit'.
  destruct (load_vocab vocab) as [vocab_map max_id] eqn:Hload. simpl in Hnone.
  destruct (max_id <? 0); [discriminate|].
  destruct (INT32_MAX <=? max_id); [discriminate|].
  unfold load_merges in *. rewrite Hmerges. rewrite Hmerges' in Hinit'.
  rewrite (collect_merges_skip vocab_map before after merge_item Hnone).
  destruct (build_rule_rows (max_id + 1)
              (collect_merges vocab_map (cJSON_Array (before ++ after))))
    as [rows|]; [|discriminate].
  unfold load_pre_tokenizers in *. rewrite Hpre.
  match type of Hinit' with
  | context [match ?x with inl _ => _ | inr _ => _ end] =>
      destruct x as [st|head]; [discriminate|]
  end.
  match type of Hinit' with
  | context [load_added_tokens root' ?t] => set (tok0' := t) in *
  end.
  match goal with
  | |- context [load_added_tokens root ?t] =>
      change t with (set_merge_count (merge_count t) tok0')
  end.
  rewrite (load_added_tokens_same_member root root' _ Hadded).
  rewrite load_added_tokens_set_merge_count.
  destruct (load_added_tokens root' tok0') as [tok1|]; [|discriminate].
  injection Hinit' as <-. simpl.
  eexists. split; [reflexivity|]. split; [reflexivity|]. split; [reflexivity|].
  intros text out_output. apply bbpe_encode_set_merge_count.
Qed.

End UnknownRules.

Lemma unknown_merge_rule_dropped_witness :
  exists tok,
    bbpe_init_root hello_json_unknown_rule = Some (BBPE_OK, Some tok)
    /\ rule_rows tok = rule_rows hello_tokenizer
    /\ bbpe_encode (Some tok) (Some (bytes_of_string "hello")) (Some empty_output)
       = bbpe_encode (Some hello_tokenizer) (Some (bytes_of_string "hello"))
           (Some empty_output).
Proof.
  pose (vocab :=
          cJSON_Object
            (byte_alphabet_vocab
             ++ vocab_of [("he"%string, 256); ("ll"%string, 257);
                          ("hell"%string, 258); ("hello"%string, 259)])).
  assert (Hunknown : names_unknown_token (fst (load_vocab vocab)) unknown_rule).
  { exists (bytes_of_string "hex"), (bytes_of_string "llo").
    split; [reflexivity|]. left. vm_compute. reflexivity. }
  assert (Hinit : bbpe_init_root hello_json = Some (BBPE_OK, Some hello_tokenizer))
    by (vm_compute; reflexivity).
  destruct (unknown_merge_rule_dropped
              hello_json_unknown_rule hello_json
              (cJSON_Object
                 [(bytes_of_string "vocab", vocab);
                  (bytes_of_string "merges",
                   cJSON_Array
                     (take 2 hello_merges ++ unknown_rule :: drop 2 hello_merges))])
              (cJSON_Object
                 [(bytes_of_string "vocab", vocab);
                  (bytes_of_string "merges", cJSON_Array hello_merges)])
              vocab (take 2 hello_merges) (drop 2 hello_merges) unknown_rule
              hello_tokenizer
              eq_refl eq_refl eq_refl eq_refl eq_refl eq_refl eq_refl eq_refl
              Hunknown Hinit)
    as [_ (tok & Htok & Hrows & _ & Henc)].
  exists tok. split; [exact Htok|]. split; [exact Hrows|]. apply Henc.
Defined.

(** ** Regex split *)

Lemma span_length_le (p : Z -> bool) (s : list Z) :
  (span_length p s <= length s)%nat.
Proof.
  induction s as [|c s IH]; simpl; [lia|].
  destruct (p c); simpl; lia.
Qed.

#[export] Instance sample_engine_laws : RegexEngineLaws (H := sample_engine).
Proof.
  constructor. intros code subject len offset rc s e Hm Hrc.
  simpl in Hm. unfold sample_match in Hm.
  pose proof (length_take subject len) as Htake.
  destruct code.
  - set (rest := drop offset (take len subject)) in *.
    pose proof (span_length_le (fun c => negb (is_space c)) rest) as Ha.
    set (a := span_length (fun c => negb (is_space c)) rest) in *.
    pose proof (span_length_le is_space (drop a rest)) as Hb.
    destruct (span_length is_space (drop a rest) =? 0)%nat eqn:Hz.
    + injection Hm as <- _ _. lia.
    + apply Nat.eqb_neq in Hz. injection Hm as _ <- <-.
      rewrite length_drop in Hb. subst rest. rewrite length_drop in Ha, Hb. lia.
  - destruct (len <? offset)%nat eqn:Hlt.
    + injection Hm as <- _ _. lia.
    + apply Nat.ltb_ge in Hlt. injection Hm as _ <- <-.
      pose proof (span_length_le is_space (drop offset (take len subject))) as Hb.
      rewrite length_drop in Hb. lia.
Qed.

Section RegexSplit.
Context `{RE : RegexEngine} {REL : RegexEngineLaws}.

Lemma contiguous_app (a b c : nat) (ps qs : list piece) :
  contiguous a ps b -> contiguous b qs c -> contiguous a (ps ++ qs) c.
Proof.
  revert a. induction ps as [|p ps IH]; intros a; simpl.
  - intros ->. auto.
  - intros (H1 & H2 & H3) Hq. auto.
Qed.

Lemma contiguous_le (a b : nat) (ps : list piece) :
  contiguous a ps b -> (a <= b)%nat.
Proof.
  revert a. induction ps as [|p ps IH]; intros a; simpl.
  - lia.
  - intros (H1 & H2 & H3). apply IH in H3. lia.
Qed.

Lemma take_drop_split {A : Type} (l : list A) (a b : nat) :
  (a <= b)%nat -> take (b - a) (drop a l) ++ drop b l = drop a l.
Proof.
  intros Hab. replace (drop b l) with (drop (b - a) (drop a l)).
  - apply take_drop.
  - rewrite drop_drop. f_equal. lia.
Qed.

(** Contiguous pieces spell the text they tile. *)
Lemma contiguous_concat (text : list Z) (a b : nat) (ps : list piece) :
  contiguous a ps b ->
  concat (map (piece_text text) ps) ++ drop b text = drop a text.
Proof.
  revert a. induction ps as [|p ps IH]; intros a; simpl.
  - intros ->. reflexivity.
  - intros (H1 & H2 & H3). rewrite <- app_assoc, (IH _ H3).
    unfold piece_text. rewrite H1 in *. apply take_drop_split. exact H2.
Qed.

Lemma tiled_snoc (code : pcre2_code) (text : list Z) (text_len last_end : nat)
    (chunks : list (list Z)) (p : piece) :
  tiled code text text_len last_end chunks ->
  fst (snd p) = last_end -> (fst (snd p) <= snd (snd p))%nat ->
  genuine code text text_len p ->
  tiled code text text_len (snd (snd p)) (chunks ++ [piece_text text p]).
Proof.
  intros (pieces & -> & Hc & Hg) Hs Hle Hp.
  exists (pieces ++ [p]). split; [rewrite map_app; reflexivity|]. split.
  - eapply contiguous_app; [exact Hc|]. simpl. auto.
  - apply Forall_app. split; [exact Hg|]. constructor; [exact Hp|constructor].
Qed.

(** The loop ends within [text_len - offset + 1] turns, keeps the emitted
    chunks tiling the text up to [last_end], and emits nothing when the
    engine reports no match. *)
Lemma regex_split_loop_spec (code : pcre2_code) (text : list Z) (text_len : nat)
    (fuel offset last_end : nat) (chunks : list (list Z)) :
  (text_len - offset < fuel)%nat ->
  (last_end <= offset)%nat -> (last_end <= text_len)%nat ->
  tiled code text text_len last_end chunks ->
  exists last_end' chunks',
    regex_split_loop fuel code text text_len offset last_end chunks
    = Some (last_end', chunks')
    /\ (last_end' <= text_len)%nat
    /\ tiled code text text_len last_end' chunks'
    /\ ((forall o, fst (pcre2_match code text text_len o) <= 0) ->
        last_end' = last_end /\ chunks' = chunks).
Proof.
  revert offset last_end chunks.
  induction fuel as [|fuel IH]; intros offset last_end chunks Hfuel Hlo Hlen Hinv;
    [lia|].
  simpl. destruct (offset <? text_len)%nat eqn:Hoff.
  2:{ exists last_end, chunks. auto. }
  apply Nat.ltb_lt in Hoff.
  destruct (pcre2_match code text text_len offset) as [rc [s e]] eqn:Hm.
  destruct (rc <? 0) eqn:Hneg.
  { exists last_end, chunks. auto. }
  apply Z.ltb_ge in Hneg.
  destruct (rc =? 0) eqn:Hzero.
  { apply IH; [lia|lia|exact Hlen|exact Hinv]. }
  apply Z.eqb_neq in Hzero.
  assert (Hpos : 0 < rc) by lia.
  destruct (pcre2_match_in_subject _ _ _ _ _ _ _ Hm Hpos) as (Hs & Hse & He).
  set (chunks1 := if (last_end <? s)%nat
                  then chunks ++ [take (s - last_end) (drop last_end text)]
                  else chunks).
  assert (Hinv1 : tiled code text text_len s chunks1).
  { subst chunks1. destruct (last_end <? s)%nat eqn:Hgap.
    - apply Nat.ltb_lt in Hgap.
      apply (tiled_snoc code text text_len last_end chunks
               (Between, (last_end, s)));
        [exact Hinv|reflexivity|simpl; lia|left; simpl; lia].
    - apply Nat.ltb_ge in Hgap. replace s with last_end by lia. exact Hinv. }
  assert (Hinv2 : tiled code text text_len e
                    (chunks1 ++ [take (e - s) (drop s text)])).
  { apply (tiled_snoc code text text_len s chunks1 (Matched, (s, e)));
      simpl; auto.
    exists offset, rc. auto. }
  destruct (IH (if (s =? e)%nat then S e else e) e
              (chunks1 ++ [take (e - s) (drop s text)]))
    as (last_end' & chunks' & Hrun & Hle' & Hinv' & _).
  - destruct (s =? e)%nat eqn:Hse'; [apply Nat.eqb_eq in Hse'|apply Nat.eqb_neq in Hse'];
      lia.
  - destruct (s =? e)%nat; lia.
  - exact He.
  - exact Hinv2.
  - exists last_end', chunks'. split; [exact Hrun|]. split; [exact Hle'|].
    split; [exact Hinv'|].
    intros Hnever. specialize (Hnever offset). rewrite Hm in Hnever. simpl in Hnever.
    lia.
Qed.

(** The loop emits the pieces of the matches its scan meets; the rest of
    the text after the last match is left to the caller. *)
Lemma regex_split_loop_matches (code : pcre2_code) (text : list Z)
    (text_len fuel offset last_end : nat) (chunks : list (list Z)) :
  (text_len - offset < fuel)%nat ->
  exists matches last_end' chunks',
    regex_split_loop fuel code text text_len offset last_end chunks
    = Some (last_end', chunks')
    /\ scan_matches code text text_len offset matches
    /\ chunks'
       ++ (if (last_end' <? text_len)%nat
           then [take (text_len - last_end') (drop last_end' text)] else [])
       = chunks ++ map (piece_text text) (split_pieces last_end matches text_len).
Proof.
  revert offset last_end chunks.
  induction fuel as [|fuel IH]; intros offset last_end chunks Hfuel; [lia|].
  cbn [regex_split_loop].
  destruct (Nat.ltb_spec offset text_len) as [Hoff|Hoff].
  2:{ exists [], last_end, chunks. split; [reflexivity|].
      split; [apply scan_end; exact Hoff|]. cbn [split_pieces].
      destruct (last_end <? text_len)%nat; reflexivity. }
  destruct (pcre2_match code text text_len offset) as [rc [s e]] eqn:Hm.
  destruct (Z.ltb_spec rc 0) as [Hneg|Hnn].
  { exists [], last_end, chunks. split; [reflexivity|].
    split; [eapply scan_no_match; eassumption|]. cbn [split_pieces].
    destruct (last_end <? text_len)%nat; reflexivity. }
  destruct (Z.eqb_spec rc 0) as [Hzero|Hnz].
  { destruct (IH (S offset) last_end chunks) as (ms & le' & ch' & Hrun & Hscan & Heq);
      [lia|].
    exists ms, le', ch'. split; [exact Hrun|]. split; [|exact Heq].
    subst rc. eapply scan_skip; eassumption. }
  destruct (pcre2_match_in_subject _ _ _ _ _ _ _ Hm ltac:(lia)) as (Hs & Hse & He).
  destruct (IH (if (s =? e)%nat then S e else e) e
              ((if (last_end <? s)%nat
                then chunks ++ [take (s - last_end) (drop last_end text)]
                else chunks) ++ [take (e - s) (drop s text)]))
    as (ms & le' & ch' & Hrun & Hscan & Heq).
  { destruct (Nat.eqb_spec s e); lia. }
  exists ((s, e) :: ms), le', ch'. split; [exact Hrun|].
  split; [eapply scan_match; [exact Hoff|exact Hm|lia|exact Hscan]|].
  rewrite Heq. cbn [split_pieces]. rewrite map_app. cbn [map].
  destruct (last_end <? s)%nat; cbn [map app piece_text fst snd];
    rewrite <- ?app_assoc; reflexivity.
Qed.

(** The pieces of a scan tile the text from [last_end] to its end. *)
Lemma split_pieces_contiguous (code : pcre2_code) (text : list Z)
    (text_len offset : nat) (matches : list (nat * nat)) :
  scan_matches code text text_len offset matches ->
  forall last_end, (last_end <= offset)%nat -> (last_end <= text_len)%nat ->
  contiguous last_end (split_pieces last_end matches text_len) text_len.
Proof.
  induction 1 as [offset Hoff|offset rc m Hoff Hm Hrc
                  |offset m matches Hoff Hm _ IH
                  |offset rc s e matches Hoff Hm Hrc _ IH];
    intros last_end Hle Hlen.
  - cbn [split_pieces]. destruct (Nat.ltb_spec last_end text_len);
      cbn [contiguous fst snd]; lia.
  - cbn [split_pieces]. destruct (Nat.ltb_spec last_end text_len);
      cbn [contiguous fst snd]; lia.
  - apply IH; lia.
  - destruct (pcre2_match_in_subject _ _ _ _ _ _ _ Hm Hrc) as (Hs & Hse & He).
    cbn [split_pieces].
    assert (Hrest : contiguous e (split_pieces e matches text_len) text_len).
    { apply IH; [destruct (Nat.eqb_spec s e); lia|exact He]. }
    destruct (Nat.ltb_spec last_end s); cbn [app contiguous fst snd].
    + split; [reflexivity|]. split; [lia|]. split; [reflexivity|].
      split; [exact Hse|exact Hrest].
    + split; [lia|]. split; [exact Hse|exact Hrest].
Qed.

(** The scan meets the same matches whatever way it is followed. *)
Lemma scan_matches_unique (code : pcre2_code) (text : list Z)
    (text_len offset : nat) (ms ms' : list (nat * nat)) :
  scan_matches code text text_len offset ms ->
  scan_matches code text text_len offset ms' -> ms = ms'.
Proof.
  intros Hscan. revert ms'.
  induction Hscan as [offset Hoff|offset rc m Hoff Hm Hrc
                      |offset m matches Hoff Hm _ IH
                      |offset rc s e matches Hoff Hm Hrc _ IH];
    intros ms' Hscan';
    inversion Hscan' as [o Hoff'|o rc' m' Hoff' Hm' Hrc'
                         |o m' matches' Hoff' Hm' Hscan''
                         |o rc' s' e' matches' Hoff' Hm' Hrc' Hscan''];
    subst; try reflexivity; try lia;
    rewrite Hm in Hm'; injection Hm' as; subst; try lia.
  - apply IH. exact Hscan''.
  - f_equal. apply IH. exact Hscan''.
Qed.

(** C5. A regex split node returns [BBPE_OK] and its loop ends, an empty
    match moving the scan one byte on.  The chunks it emits are the
    pieces that the matches met by the scan cut the text into: the text
    between two matches, where there is some, and every match, in the
    order of the text and with no gap, from the start of the input to
    its end.  Put together the chunks are the input, and when the engine
    reports no match the input is the one chunk. *)
Theorem regex_split_keeps_text (regex_pattern : list Z) (code : pcre2_code)
    (text : list Z) :
  let text_len := strlen text in
  let chunks :=
    snd (apply_single_pre_tokenizer
           (PRE_TOKENIZER_REGEX_SPLIT regex_pattern (Some code)) text) in
  fst (apply_single_pre_tokenizer
         (PRE_TOKENIZER_REGEX_SPLIT regex_pattern (Some code)) text) = BBPE_OK
  /\ is_Some (regex_split_loop (S text_len) code text text_len 0 0 [])
  /\ (exists matches,
         scan_matches code text text_len 0 matches
         /\ chunks = map (piece_text text) (regex_pieces matches text_len)
         /\ contiguous 0 (regex_pieces matches text_len) text_len)
  /\ concat chunks = strdup text
  /\ ((forall o, fst (pcre2_match code text text_len o) <= 0) ->
      chunks = [strdup text]).
Proof.
  intros text_len chunks. subst chunks. unfold apply_single_pre_tokenizer.
  fold text_len.
  destruct (regex_split_loop_matches code text text_len (S text_len) 0 0 [])
    as (matches & last_end & chunks & Hrun & Hscan & Heq); [lia|].
  destruct (regex_split_loop_spec code text text_len (S text_len) 0 0 [])
    as (last_end0 & chunks0 & Hrun0 & Hle & _ & Hnever);
    [lia|lia|lia|exists []; simpl; auto|].
  rewrite Hrun in Hrun0. injection Hrun0 as <- <-.
  rewrite Hrun. cbn [fst snd app] in *.
  pose proof (split_pieces_contiguous code text text_len 0 matches Hscan 0%nat
                ltac:(lia) ltac:(lia)) as Hcont.
  set (chunks1 := if (last_end <? text_len)%nat
                  then chunks ++ [take (text_len - last_end) (drop last_end text)]
                  else chunks).
  assert (Hchunks1 : chunks1 = map (piece_text text) (split_pieces 0 matches text_len)).
  { subst chunks1. rewrite <- Heq.
    destruct (last_end <? text_len)%nat; [reflexivity|].
    rewrite app_nil_r. reflexivity. }
  assert (Hfinal : (if (length chunks1 =? 0)%nat then [strdup text] else chunks1)
                   = map (piece_text text) (regex_pieces matches text_len)
                   /\ contiguous 0 (regex_pieces matches text_len) text_len).
  { rewrite Hchunks1. unfold regex_pieces.
    destruct (split_pieces 0 matches text_len) as [|p ps] eqn:Hps.
    - cbn [map length Nat.eqb]. cbn [contiguous] in Hcont. split.
      + unfold piece_text, strdup. cbn [fst snd]. fold text_len.
        rewrite Nat.sub_0_r, drop_0. reflexivity.
      + cbn [contiguous fst snd]. split; [reflexivity|]. split; [lia|reflexivity].
    - cbn [map length Nat.eqb]. split; [reflexivity|exact Hcont]. }
  destruct Hfinal as [Hmap Hcont'].
  split; [reflexivity|]. split; [eexists; reflexivity|].
  split; [exists matches; auto|]. split.
  - rewrite Hmap.
    pose proof (contiguous_concat text 0 text_len _ Hcont') as Hcat.
    rewrite drop_0 in Hcat. unfold strdup. fold text_len.
    apply (app_inv_tail (drop text_len text)).
    rewrite Hcat, take_drop. reflexivity.
  - intros Hno. destruct (Hnever Hno) as [-> ->]. subst chunks1.
    destruct (0 <? text_len)%nat eqn:Hpos; cbn [app length Nat.eqb].
    + unfold strdup. fold text_len. rewrite Nat.sub_0_r, drop_0. reflexivity.
    + reflexivity.
Qed.

End RegexSplit.

Lemma regex_split_keeps_text_witness :
  (exists matches,
      matches = [(2, 4); (6, 7)]%nat
      /\ scan_matches (RE := sample_engine) WhitespaceRun
           (bytes_of_string "ab  cd e") 8 0 matches
      /\ snd (apply_single_pre_tokenizer
                (PRE_TOKENIZER_REGEX_SPLIT (bytes_of_string "\s+")
                   (Some WhitespaceRun))
                (bytes_of_string "ab  cd e"))
         = map (piece_text (bytes_of_string "ab  cd e")) (regex_pieces matches 8)
      /\ map (piece_text (bytes_of_string "ab  cd e")) (regex_pieces matches 8)
         = [bytes_of_string "ab"; bytes_of_string "  "; bytes_of_string "cd";
            bytes_of_string " "; bytes_of_string "e"])
  /\ concat
       (snd (apply_single_pre_tokenizer
               (PRE_TOKENIZER_REGEX_SPLIT (bytes_of_string "\s*")
                  (Some OptionalWhitespace))
               (bytes_of_string "ab  cd e")))
     = strdup (bytes_of_string "ab  cd e").
Proof.
  split.
  2:{ exact (proj1 (proj2 (proj2 (proj2
               (regex_split_keeps_text (RE := sample_engine)
                  (bytes_of_string "\s*") OptionalWhitespace
                  (bytes_of_string "ab  cd e")))))). }
  destruct (proj1 (proj2 (proj2
              (regex_split_keeps_text (RE := sample_engine)
                 (bytes_of_string "\s+") WhitespaceRun
                 (bytes_of_string "ab  cd e")))))
    as (matches & Hscan & Hchunks & _).
  assert (Hlen : strlen (bytes_of_string "ab  cd e") = 8%nat) by reflexivity.
  rewrite Hlen in Hscan, Hchunks.
  assert (Hms : scan_matches (RE := sample_engine) WhitespaceRun
                  (bytes_of_string "ab  cd e") 8 0 [(2, 4); (6, 7)]%nat).
  { eapply (scan_match _ _ _ 0%nat 1 2%nat 4%nat); [lia|reflexivity|lia|].
    eapply (scan_match _ _ _ 4%nat 1 6%nat 7%nat); [lia|reflexivity|lia|].
    eapply (scan_no_match _ _ _ 7%nat (-1)); [lia|reflexivity|lia]. }
  pose proof (scan_matches_unique _ _ _ _ _ _ Hscan Hms) as Heq.
  exists matches. split; [exact Heq|]. split; [exact Hscan|].
  split; [exact Hchunks|]. rewrite Heq. reflexivity.
Defined.

(** ** C strings: facts *)

Lemma strdup_nil : strdup [] = [].
Proof. reflexivity. Qed.

Lemma strdup_cons (c : Z) (s : list Z) :
  strdup (c :: s) = if c =? 0 then [] else c :: strdup s.
Proof. unfold strdup. simpl. destruct (c =? 0); reflexivity. Qed.

Lemma length_strdup (s : list Z) : length (strdup s) = strlen s.
Proof.
  unfold strdup. rewrite length_take. pose proof (strlen_le_length s). lia.
Qed.

Lemma strdup_nonzero (s : list Z) : Forall (fun c => c <> 0) (strdup s).
Proof.
  induction s as [|c s IH]; [constructor|].
  rewrite strdup_cons. destruct (c =? 0) eqn:Hc; [constructor|].
  apply Z.eqb_neq in Hc. constructor; assumption.
Qed.

Lemma strlen_nonzero (s : list Z) :
  Forall (fun c => c <> 0) s -> strlen s = length s.
Proof.
  induction 1 as [|c s Hc _ IH]; simpl; [reflexivity|].
  apply Z.eqb_neq in Hc. rewrite Hc, IH. reflexivity.
Qed.

Lemma strdup_id (s : list Z) : Forall (fun c => c <> 0) s -> strdup s = s.
Proof.
  intros Hs. unfold strdup. rewrite (strlen_nonzero s Hs). apply firstn_all.
Qed.

Lemma strdup_strdup (s : list Z) : strdup (strdup s) = strdup s.
Proof. apply strdup_id, strdup_nonzero. Qed.

Lemma strlen_strdup (s : list Z) : strlen (strdup s) = strlen s.
Proof.
  rewrite (strlen_nonzero _ (strdup_nonzero s)). apply length_strdup.
Qed.

Lemma strlen_app_nonzero (s r : list Z) :
  Forall (fun c => c <> 0) s -> strlen (s ++ r) = (length s + strlen r)%nat.
Proof.
  induction 1 as [|c s Hc _ IH]; simpl; [reflexivity|].
  apply Z.eqb_neq in Hc. rewrite Hc, IH. reflexivity.
Qed.

(** The terminator is at offset [strlen s], and nowhere before. *)
Lemma char_at_strlen (s : list Z) : char_at s (strlen s) = 0.
Proof.
  induction s as [|c s IH]; simpl; [reflexivity|].
  destruct (c =? 0) eqn:Hc; [apply Z.eqb_eq in Hc; exact Hc|exact IH].
Qed.

Lemma char_at_before_strlen (s : list Z) (i : nat) :
  (i < strlen s)%nat -> char_at s i <> 0.
Proof.
  revert i. induction s as [|c s IH]; intros i; simpl; [lia|].
  destruct (c =? 0) eqn:Hc; [lia|]. apply Z.eqb_neq in Hc.
  destruct i as [|i]; [intros _; exact Hc|]. intros Hi. apply IH. lia.
Qed.

Lemma strlen_drop (s : list Z) (i : nat) :
  (i <= strlen s)%nat -> strlen (drop i s) = (strlen s - i)%nat.
Proof.
  revert i. induction s as [|c s IH]; intros i; simpl.
  - rewrite drop_nil. reflexivity.
  - destruct (c =? 0) eqn:Hc.
    + intros Hi. replace i with 0%nat by lia. simpl. rewrite Hc. reflexivity.
    + destruct i as [|i]; simpl; [rewrite Hc; reflexivity|].
      intros Hi. apply IH. lia.
Qed.

Lemma strdup_drop (s : list Z) (i : nat) :
  (i <= strlen s)%nat -> strdup (drop i s) = drop i (strdup s).
Proof.
  intros Hi. unfold strdup. rewrite strlen_drop by exact Hi.
  rewrite take_drop_commute. f_equal. f_equal. lia.
Qed.

Lemma take_strdup (s : list Z) (i : nat) :
  (i <= strlen s)%nat -> take i (strdup s) = take i s.
Proof.
  intros Hi. unfold strdup. rewrite take_take. f_equal. lia.
Qed.

Lemma strncmp_S (s t : list Z) (n : nat) :
  strncmp s t (S n)
  = if char_at s 0 =? char_at t 0
    then (if char_at s 0 =? 0 then 0 else strncmp (tail s) (tail t) n)
    else char_at s 0 - char_at t 0.
Proof. reflexivity. Qed.

(** [strncmp] over the length of the token says that the text starts with
    the token. *)
Lemma strncmp_prefix (s t : list Z) :
  strncmp s t (strlen t) = 0 <-> strdup t `prefix_of` strdup s.
Proof.
  revert s. induction t as [|c t IH]; intros s.
  - simpl. split; [intros _; apply prefix_nil|reflexivity].
  - rewrite strdup_cons. simpl strlen. destruct (c =? 0) eqn:Hc.
    + simpl. split; [intros _; apply prefix_nil|reflexivity].
    + rewrite strncmp_S. change (char_at (c :: t) 0) with c.
      change (tail (c :: t)) with t.
      apply Z.eqb_neq in Hc.
      destruct s as [|d s].
      * change (char_at [] 0) with 0.
        destruct (0 =? c) eqn:H0; [apply Z.eqb_eq in H0; lia|].
        split; [intros Hz; lia|]. intros [k Hk]. discriminate.
      * change (char_at (d :: s) 0) with d. change (tail (d :: s)) with s.
        rewrite strdup_cons.
        destruct (d =? c) eqn:Hd.
        -- apply Z.eqb_eq in Hd. subst d.
           apply Z.eqb_neq in Hc. rewrite Hc. rewrite IH.
           split; [apply prefix_cons|apply prefix_cons_inv_2].
        -- apply Z.eqb_neq in Hd. split; [intros Hz; lia|].
           destruct (d =? 0).
           ++ intros [k Hk]. discriminate.
           ++ intros Hp. apply prefix_cons_inv_1 in Hp. congruence.
Qed.

(** ** Special-token segmentation *)

Section Segmentation.
Context `{RE : RegexEngine}.

Lemma special_matches_strncmp (e : SpecialEntry.t) (pos : list Z) :
  special_matches e (strdup pos)
  <-> strncmp pos (SpecialEntry.token e) (strlen (SpecialEntry.token e)) = 0
      /\ (0 < strlen (SpecialEntry.token e))%nat.
Proof.
  unfold special_matches. rewrite strncmp_prefix.
  rewrite <- length_strdup.
  destruct (strdup (SpecialEntry.token e)); simpl; split; intros [H1 H2];
    split; auto; try lia; congruence.
Qed.

Lemma best_match_body_ok (seen : list SpecialEntry.t) (pos : list Z)
    (st : option SpecialEntry.t * nat) (entry : SpecialEntry.t) :
  best_so_far seen (strdup pos) st ->
  best_so_far (seen ++ [entry]) (strdup pos) (best_match_body pos st entry).
Proof.
  intros Hst. unfold best_match_body.
  pose proof (special_matches_strncmp entry pos) as Hm.
  destruct (strncmp pos (SpecialEntry.token entry)
              (strlen (SpecialEntry.token entry)) =? 0) eqn:Hcmp.
  - apply Z.eqb_eq in Hcmp.
    destruct (snd st <? strlen (SpecialEntry.token entry))%nat eqn:Hlen.
    + apply Nat.ltb_lt in Hlen.
      assert (Hentry : special_matches entry (strdup pos))
        by (apply Hm; split; [exact Hcmp|lia]).
      simpl. split; [apply in_or_app; right; left; reflexivity|].
      split; [reflexivity|]. split; [exact Hentry|].
      intros e' Hin He'. apply in_app_or in Hin as [Hin|[<-|[]]]; [|lia].
      destruct st as [[e|] l]; simpl in *.
      * destruct Hst as (_ & _ & _ & Hmax). specialize (Hmax e' Hin He'). lia.
      * destruct Hst as [_ Hnone]. exfalso. exact (Hnone e' Hin He').
    + apply Nat.ltb_ge in Hlen.
      destruct st as [[e|] l]; simpl in *.
      * destruct Hst as (Hin & Hl & He & Hmax).
        split; [apply in_or_app; left; exact Hin|]. split; [exact Hl|].
        split; [exact He|].
        intros e' Hin' He'. apply in_app_or in Hin' as [Hin'|[<-|[]]];
          [apply Hmax; assumption|lia].
      * destruct Hst as [-> Hnone]. split; [reflexivity|].
        intros e' Hin' He'. apply in_app_or in Hin' as [Hin'|[<-|[]]];
          [exact (Hnone e' Hin' He')|].
        apply Hm in He'. lia.
  - apply Z.eqb_neq in Hcmp.
    assert (Hentry : ~ special_matches entry (strdup pos))
      by (intros He; apply Hm in He; tauto).
    destruct st as [[e|] l]; simpl in *.
    + destruct Hst as (Hin & Hl & He & Hmax).
      split; [apply in_or_app; left; exact Hin|]. split; [exact Hl|].
      split; [exact He|].
      intros e' Hin' He'. apply in_app_or in Hin' as [Hin'|[<-|[]]];
        [apply Hmax; assumption|tauto].
    + destruct Hst as [-> Hnone]. split; [reflexivity|].
      intros e' Hin' He'. apply in_app_or in Hin' as [Hin'|[<-|[]]];
        [exact (Hnone e' Hin' He')|tauto].
Qed.

Lemma best_match_fold_ok (pos : list Z) (rest seen : list SpecialEntry.t)
    (st : option SpecialEntry.t * nat) :
  best_so_far seen (strdup pos) st ->
  best_so_far (seen ++ rest) (strdup pos) (foldl (best_match_body pos) st rest).
Proof.
  revert seen st. induction rest as [|e rest IH]; intros seen st Hst; simpl.
  - rewrite app_nil_r. exact Hst.
  - replace (seen ++ e :: rest) with ((seen ++ [e]) ++ rest)
      by (rewrite <- app_assoc; reflexivity).
    apply IH, best_match_body_ok, Hst.
Qed.

Lemma best_match_at_ok (tok : BBPETokenizer) (pos : list Z) :
  best_so_far (special_tokens_map tok) (strdup pos) (best_match_at tok pos).
Proof.
  unfold best_match_at.
  apply (best_match_fold_ok pos (special_tokens_map tok) [] (None, 0%nat)).
  simpl. split; [reflexivity|]. intros e [].
Qed.

Lemma drop_strdup_suffix (text s1 s2 rest : list Z) (start : nat) :
  (s1 ++ s2) ++ rest = drop start (strdup text) ->
  s2 ++ rest = drop (start + length s1) (strdup text).
Proof.
  intros H. rewrite <- drop_drop, <- H, <- app_assoc.
  rewrite drop_app_length. reflexivity.
Qed.

(** The pending normal text, once flushed, is a normal segment of the
    segmentation. *)
Lemma pending_segmentation (tok : BBPETokenizer) (text : list Z)
    (start pos : nat) (out : list TokenSegment) :
  (start <= pos)%nat -> (pos <= strlen text)%nat ->
  (forall q e, (start <= q < pos)%nat -> In e (special_tokens_map tok) ->
               ~ special_matches e (drop q (strdup text))) ->
  (drop pos (strdup text) = []
   \/ exists e, In e (special_tokens_map tok)
                /\ special_matches e (drop pos (strdup text))) ->
  segmentation (special_tokens_map tok) out (drop pos (strdup text)) ->
  exists pending,
    (forall segments,
        flush_normal segments text start pos ++ out = segments ++ pending)
    /\ segmentation (special_tokens_map tok) pending (drop start (strdup text)).
Proof.
  intros Hsp Hpn Hclean Hend Hout. unfold flush_normal.
  destruct (start <? pos)%nat eqn:Hlt.
  - apply Nat.ltb_lt in Hlt.
    set (s := my_strndup (drop start text) (pos - start)).
    assert (Hs : s = take (pos - start) (drop start (strdup text))).
    { subst s. unfold my_strndup, strdup.
      rewrite (take_drop_commute (take _ _)), take_drop_commute.
      rewrite take_take. do 2 f_equal. lia. }
    assert (Hcat : s ++ drop pos (strdup text) = drop start (strdup text)).
    { rewrite Hs. apply take_drop_split. lia. }
    exists (normal_segment s :: out). split.
    + intros segments. rewrite <- app_assoc. reflexivity.
    + rewrite <- Hcat. apply segmentation_normal; [| |exact Hend|exact Hout].
      * intros Hnil. apply (f_equal length) in Hs. rewrite Hnil in Hs.
        rewrite length_take, length_drop, length_strdup in Hs. simpl in Hs. lia.
      * intros s1 s2 e Hsplit Hs2 Hin.
        rewrite Hsplit in Hcat.
        rewrite (drop_strdup_suffix _ _ _ _ _ Hcat).
        apply Hclean; [|exact Hin].
        assert (Hlen : length s = (pos - start)%nat).
        { rewrite Hs, length_take, length_drop, length_strdup. lia. }
        rewrite Hsplit, length_app in Hlen.
        destruct s2; [congruence|]. simpl in Hlen. lia.
  - apply Nat.ltb_ge in Hlt. replace start with pos by lia.
    exists out. split; [reflexivity|exact Hout].
Qed.

(** The loop ends within [strlen text - pos + 1] turns, and what it
    leaves, once flushed, adds to [segments] a segmentation of the text
    from [start] on. *)
Lemma extract_loop_spec (tok : BBPETokenizer) (text : list Z) (fuel : nat)
    (start pos : nat) (segments : list TokenSegment) :
  (start <= pos)%nat -> (pos <= strlen text)%nat ->
  (strlen text - pos < fuel)%nat ->
  (forall q e, (start <= q < pos)%nat -> In e (special_tokens_map tok) ->
               ~ special_matches e (drop q (strdup text))) ->
  exists start' pos' segments' out,
    extract_loop fuel tok text start pos segments = Some (start', pos', segments')
    /\ flush_normal segments' text start' pos' = segments ++ out
    /\ segmentation (special_tokens_map tok) out (drop start (strdup text)).
Proof.
  revert start pos segments.
  induction fuel as [|fuel IH]; intros start pos segments Hsp Hpn Hfuel Hclean;
    [lia|].
  simpl. destruct (char_at text pos =? 0) eqn:Hchar.
  - apply Z.eqb_eq in Hchar.
    assert (Hpos : pos = strlen text).
    { destruct (decide (pos < strlen text)%nat) as [Hlt|Hge]; [|lia].
      exfalso. exact (char_at_before_strlen text pos Hlt Hchar). }
    assert (Hnil : drop pos (strdup text) = []).
    { apply drop_ge. rewrite length_strdup. lia. }
    destruct (pending_segmentation tok text start pos [] Hsp Hpn Hclean)
      as (pending & Hflush & Hseg).
    + left. exact Hnil.
    + rewrite Hnil. constructor.
    + exists start, pos, segments, pending. split; [reflexivity|].
      specialize (Hflush segments). rewrite app_nil_r in Hflush. auto.
  - apply Z.eqb_neq in Hchar.
    assert (Hlt : (pos < strlen text)%nat).
    { destruct (decide (pos < strlen text)%nat) as [Hlt|Hge]; [exact Hlt|].
      exfalso. apply Hchar. replace pos with (strlen text) by lia.
      apply char_at_strlen. }
    pose proof (best_match_at_ok tok (drop pos text)) as Hbest.
    rewrite strdup_drop in Hbest by lia.
    destruct (best_match_at tok (drop pos text)) as [[best_match|] best_len].
    + destruct Hbest as (Hin & -> & Hmatch & Hmax).
      destruct Hmatch as [Hne [k Hk]].
      assert (Hk' : k = drop (pos + strlen (SpecialEntry.token best_match))
                          (strdup text)).
      { rewrite <- drop_drop, Hk, <- length_strdup.
        rewrite drop_app_length. reflexivity. }
      assert (Hbound : (pos + strlen (SpecialEntry.token best_match)
                        <= strlen text)%nat).
      { apply (f_equal length) in Hk.
        rewrite length_drop, length_app, !length_strdup in Hk. lia. }
      assert (Hlen : (0 < strlen (SpecialEntry.token best_match))%nat).
      { rewrite <- length_strdup.
        destruct (strdup (SpecialEntry.token best_match)); simpl;
          [congruence|lia]. }
      destruct (IH (pos + strlen (SpecialEntry.token best_match))%nat
                  (pos + strlen (SpecialEntry.token best_match))%nat
                  (flush_normal segments text start pos
                   ++ [special_segment (SpecialEntry.id best_match)]))
        as (start' & pos' & segments' & out & Hrun & Hflush & Hseg);
        [lia|exact Hbound|lia|intros q e Hq; lia|].
      rewrite <- Hk' in Hseg.
      destruct (pending_segmentation tok text start pos
                  (special_segment (SpecialEntry.id best_match) :: out)
                  Hsp Hpn Hclean)
        as (pending & Hpending & Hsegp).
      * right. exists best_match. split; [exact Hin|]. split; [exact Hne|].
        exists k. exact Hk.
      * rewrite Hk. apply segmentation_special; [exact Hin|exact Hne| |exact Hseg].
        intros e' Hin' He'. rewrite <- Hk in He'. apply Hmax; assumption.
      * exists start', pos', segments', pending. split; [exact Hrun|].
        split; [|exact Hsegp].
        rewrite Hflush, <- Hpending, <- app_assoc. reflexivity.
    + destruct Hbest as [_ Hnone].
      destruct (IH start (S pos) segments)
        as (start' & pos' & segments' & out & Hrun & Hflush & Hseg);
        [lia|lia|lia| |].
      * intros q e Hq Hin.
        destruct (decide (q = pos)) as [->|Hne];
          [apply Hnone, Hin|apply Hclean; [lia|exact Hin]].
      * exists start', pos', segments', out. auto.
Qed.

Lemma extract_loop_terminates (tok : BBPETokenizer) (text : list Z) :
  is_Some (extract_loop (S (length text)) tok text 0 0 []).
Proof.
  pose proof (strlen_le_length text) as Hlen.
  destruct (extract_loop_spec tok text (S (length text)) 0 0 [])
    as (start' & pos' & segments' & out & Hrun & _);
    [lia|lia|lia|intros q e Hq; lia|].
  rewrite Hrun. eexists. reflexivity.
Qed.

Lemma extract_special_tokens_segmentation (tok : BBPETokenizer) (text : list Z) :
  segmentation (special_tokens_map tok) (extract_special_tokens tok text)
    (strdup text).
Proof.
  pose proof (strlen_le_length text) as Hlen.
  destruct (extract_loop_spec tok text (S (length text)) 0 0 [])
    as (start' & pos' & segments' & out & Hrun & Hflush & Hseg);
    [lia|lia|lia|intros q e Hq; lia|].
  unfold extract_special_tokens. rewrite Hrun, Hflush. exact Hseg.
Qed.

Lemma segmentation_nil (specials : list SpecialEntry.t)
    (segments : list TokenSegment) :
  segmentation specials segments [] -> segments = [].
Proof.
  intros Hseg. remember [] as covered eqn:Hc.
  destruct Hseg as [|s rest segs Hs _ _ _|e rest segs _ He _ _];
    [reflexivity| |]; apply app_eq_nil in Hc as [Hnil _]; congruence.
Qed.

(** A text that is a registered special token is one special segment. *)
Lemma segmentation_of_special (specials : list SpecialEntry.t)
    (segments : list TokenSegment) (e0 : SpecialEntry.t) :
  segmentation specials segments (strdup (SpecialEntry.token e0)) ->
  In e0 specials -> strdup (SpecialEntry.token e0) <> [] ->
  exists e,
    In e specials
    /\ strdup (SpecialEntry.token e) = strdup (SpecialEntry.token e0)
    /\ segments = [special_segment (SpecialEntry.id e)].
Proof.
  intros Hseg Hin0 Hne0.
  remember (strdup (SpecialEntry.token e0)) as covered eqn:Htext.
  destruct Hseg as [|s rest segs Hs Hclean _ _|e rest segs Hin He Hmax Hrest].
  - congruence.
  - exfalso. apply (Hclean [] s e0 eq_refl Hs Hin0).
    split; [rewrite <- Htext; exact Hne0|]. simpl. rewrite Htext. reflexivity.
  - assert (Hm0 : special_matches e0 (strdup (SpecialEntry.token e) ++ rest)).
    { split; [rewrite <- Htext; exact Hne0|]. rewrite Htext. reflexivity. }
    specialize (Hmax e0 Hin0 Hm0).
    pose proof (f_equal length Htext) as Hlen.
    rewrite length_app, !length_strdup in Hlen.
    assert (Hnil : rest = []) by (destruct rest; [reflexivity|simpl in Hlen; lia]).
    subst rest.
    exists e. split; [exact Hin|]. split; [symmetry; apply app_nil_r|].
    rewrite (segmentation_nil _ _ Hrest). reflexivity.
Qed.

(** Segments spell the text they cover, when the id of a special segment
    tells its string. *)
Lemma segmentation_concat (specials : list SpecialEntry.t)
    (segments : list TokenSegment) (covered : list Z) :
  (forall e e', In e specials -> In e' specials ->
                SpecialEntry.id e = SpecialEntry.id e' ->
                strdup (SpecialEntry.token e) = strdup (SpecialEntry.token e')) ->
  segmentation specials segments covered ->
  concat (map (segment_literal specials) segments) = covered.
Proof.
  intros Hids. induction 1 as [|s rest segs _ _ _ _ IH|e rest segs Hin _ _ _ IH];
    simpl; [reflexivity| |].
  - rewrite IH. reflexivity.
  - rewrite IH. f_equal. unfold segment_literal. simpl.
    destruct (List.find (fun e' => SpecialEntry.id e' =? SpecialEntry.id e)
                specials) as [e'|] eqn:Hfind.
    + apply find_some in Hfind as [Hin' Hid]. apply Z.eqb_eq in Hid.
      apply Hids; assumption.
    + exfalso. apply (find_none _ _ Hfind e) in Hin.
      rewrite Z.eqb_refl in Hin. discriminate.
Qed.

(** C4. The scan over the text ends, and its segments are a segmentation
    of the input: they cover it in order with no gap and no overlap, no
    special token matches inside a normal segment, and a special segment
    stands for a registered token that matches there and is as long as
    any that does.  Read with each special segment as its token's string,
    the segments spell the input.  An input that is a registered special
    token comes out as the one id of that string. *)
Theorem special_token_segmentation (tok : BBPETokenizer) (text : list Z) :
  let specials := special_tokens_map tok in
  let segments := extract_special_tokens tok text in
  is_Some (extract_loop (S (length text)) tok text 0 0 [])
  /\ segmentation specials segments (strdup text)
  /\ ((forall e e', In e specials -> In e' specials ->
                    SpecialEntry.id e = SpecialEntry.id e' ->
                    strdup (SpecialEntry.token e) = strdup (SpecialEntry.token e')) ->
      concat (map (segment_literal specials) segments) = strdup text)
  /\ (forall e0 out,
         In e0 specials -> strdup (SpecialEntry.token e0) <> [] ->
         exists e,
           In e specials
           /\ strdup (SpecialEntry.token e) = strdup (SpecialEntry.token e0)
           /\ bbpe_encode (Some tok) (Some (strdup (SpecialEntry.token e0)))
                (Some out)
              = (BBPE_OK,
                 Some {| BBPEOutput.ids := [SpecialEntry.id e];
                         BBPEOutput.count := 1%nat |})).
Proof.
  intros specials segments.
  pose proof (extract_special_tokens_segmentation tok text) as Hseg.
  split; [apply extract_loop_terminates|]. split; [exact Hseg|]. split.
  - intros Hids. apply (segmentation_concat specials); assumption.
  - intros e0 out Hin0 Hne0.
    pose proof (extract_special_tokens_segmentation tok
                  (strdup (SpecialEntry.token e0))) as Hseg0.
    rewrite strdup_strdup in Hseg0.
    destruct (segmentation_of_special _ _ e0 Hseg0 Hin0 Hne0)
      as (e & Hin & Heq & Hsegs).
    exists e. split; [exact Hin|]. split; [exact Heq|].
    unfold bbpe_encode. rewrite Hsegs. reflexivity.
Qed.

End Segmentation.

Lemma special_token_segmentation_witness :
  extract_special_tokens hello_tokenizer (bytes_of_string "a<|endoftext|>b")
  = [normal_segment (bytes_of_string "a"); special_segment 301;
     normal_segment (bytes_of_string "b")]
  /\ segmentation (special_tokens_map hello_tokenizer)
       (extract_special_tokens hello_tokenizer (bytes_of_string "a<|endoftext|>b"))
       (strdup (bytes_of_string "a<|endoftext|>b"))
  /\ bbpe_encode (Some hello_tokenizer) (Some (bytes_of_string "<|endoftext|>"))
       (Some empty_output)
     = (BBPE_OK,
        Some {| BBPEOutput.ids := [301]; BBPEOutput.count := 1%nat |}).
Proof.
  split; [vm_compute; reflexivity|]. split.
  - exact (proj1 (proj2 (special_token_segmentation (RE := sample_engine)
                           hello_tokenizer (bytes_of_string "a<|endoftext|>b")))).
  - vm_compute. reflexivity.
Defined.

(** ** The BPE merger *)

Section Merger.
Context `{RE : RegexEngine}.

(** The binary search ends within [hi - lo + 2] turns, and a rule it
    returns is an item of the row with the right id asked for. *)
Lemma find_merge_rule_loop_spec (row : list MergeRuleItem) (right : Z)
    (fuel : nat) (lo hi : Z) :
  0 <= lo -> hi < Z.of_nat (length row) ->
  Z.max 0 (hi - lo + 1) < Z.of_nat fuel ->
  exists r,
    find_merge_rule_loop fuel row right lo hi = Some r
    /\ forall n p, r = Some (n, p) ->
         exists it, In it row /\ right_id it = right /\ new_id it = n
                    /\ priority it = p.
Proof.
  revert lo hi. induction fuel as [|fuel IH]; intros lo hi Hlo Hhi Hfuel.
  - lia.
  - simpl. destruct (lo <=? hi) eqn:Hle.
    2:{ exists None. split; [reflexivity|]. intros n p [=]. }
    apply Z.leb_le in Hle.
    assert (Hmid : lo <= Z.quot (lo + hi) 2 <= hi).
    { rewrite Z.quot_div_nonneg by lia. split.
      - apply Z.div_le_lower_bound; lia.
      - apply Z.div_le_upper_bound; lia. }
    destruct (row !! Z.to_nat (Z.quot (lo + hi) 2)) as [it|] eqn:Hit.
    2:{ apply lookup_ge_None in Hit. lia. }
    destruct (right_id it =? right) eqn:Heq.
    + exists (Some (new_id it, priority it)). split; [reflexivity|].
      intros n p [= <- <-]. exists it. apply Z.eqb_eq in Heq.
      split; [|auto]. apply list_elem_of_In. eapply list_elem_of_lookup_2, Hit.
    + destruct (right_id it <? right); apply IH; lia.
Qed.

Lemma find_merge_rule_hit (tok : BBPETokenizer) (left right n p : Z) :
  find_merge_rule tok left right = Some (n, p) ->
  exists row it,
    In row (rule_rows tok) /\ In it (items row)
    /\ right_id it = right /\ new_id it = n /\ priority it = p.
Proof.
  unfold find_merge_rule.
  destruct ((left <? 0) || (vocab_size tok <=? left)); [discriminate|].
  destruct (rule_rows tok !! Z.to_nat left) as [row|] eqn:Hrow;
    cbv [from_option id]; [|discriminate].
  unfold count. destruct (Z.of_nat (length (items row)) =? 0) eqn:Hcount;
    [discriminate|].
  destruct (find_merge_rule_loop_spec (items row) right
              (S (length (items row))) 0 (Z.of_nat (length (items row)) - 1))
    as (r & Hrun & Hr); [lia|lia|lia|].
  rewrite Hrun. intros ->. destruct (Hr n p eq_refl) as (it & Hit).
  exists row, it. split; [|exact Hit].
  apply list_elem_of_In. eapply list_elem_of_lookup_2, Hrow.
Qed.

Lemma find_merge_rule_bounded (tok : BBPETokenizer) (left right n p : Z) :
  priorities_bounded tok ->
  find_merge_rule tok left right = Some (n, p) -> p < INT32_MAX.
Proof.
  intros Hb Hfind.
  destruct (find_merge_rule_hit _ _ _ _ _ Hfind)
    as (row & it & Hrow & Hit & _ & _ & <-).
  unfold priorities_bounded in Hb. rewrite List.Forall_forall in Hb.
  specialize (Hb row Hrow). rewrite List.Forall_forall in Hb. exact (Hb it Hit).
Qed.

(** The reads [ids[i]] and [ids[i + 1]] of the scan are the pair at
    [i]. *)
Lemma pair_rule_read (tok : BBPETokenizer) (ids : list Z) (i : nat) :
  (S i < length ids)%nat ->
  find_merge_rule tok (default 0 (ids !! i)) (default 0 (ids !! S i))
  = pair_rule tok ids i.
Proof.
  intros Hi. unfold pair_rule.
  destruct (lookup_lt_is_Some_2 ids i) as [l Hl]; [lia|].
  destruct (lookup_lt_is_Some_2 ids (S i)) as [r Hr]; [lia|].
  rewrite Hl, Hr. reflexivity.
Qed.

Lemma pair_rule_in_range (tok : BBPETokenizer) (ids : list Z) (j : nat)
    (r : Z * Z) :
  pair_rule tok ids j = Some r -> (S j < length ids)%nat.
Proof.
  unfold pair_rule. destruct (ids !! j); [|discriminate].
  destruct (ids !! S j) eqn:Hr; [|discriminate].
  intros _. eapply lookup_lt_Some, Hr.
Qed.

Lemma find_best_merge_body_scanned (tok : BBPETokenizer) (ids : list Z)
    (k : nat) (st : option (nat * Z) * Z) :
  priorities_bounded tok -> (S k < length ids)%nat ->
  scanned tok ids k st ->
  scanned tok ids (S k) (find_best_merge_body tok ids st k).
Proof.
  intros Hb Hk Hst. unfold find_best_merge_body.
  rewrite pair_rule_read by exact Hk.
  destruct (pair_rule tok ids k) as [[new_id p]|] eqn:Hrule.
  - assert (Hp : p < INT32_MAX).
    { unfold pair_rule in Hrule.
      destruct (ids !! k); [|discriminate]. destruct (ids !! S k); [|discriminate].
      eapply find_merge_rule_bounded; eassumption. }
    destruct (p <? snd st) eqn:Hlt.
    + apply Z.ltb_lt in Hlt. unfold scanned. simpl.
      split; [lia|]. split; [exact Hrule|].
      intros j n q Hj Hjr.
      destruct (decide (j = k)) as [->|Hne].
      * rewrite Hrule in Hjr. injection Hjr as <- <-. right. split; lia.
      * unfold scanned in Hst. destruct st as [[[i ni]|] mp]; simpl in *.
        -- destruct Hst as (_ & _ & Hmin).
           destruct (Hmin j n q ltac:(lia) Hjr); left; lia.
        -- destruct Hst as [_ Hnone]. rewrite Hnone in Hjr by lia. discriminate.
    + apply Z.ltb_ge in Hlt. unfold scanned in *.
      destruct st as [[[i ni]|] mp]; simpl in *.
      * destruct Hst as (Hi & Hir & Hmin). split; [lia|]. split; [exact Hir|].
        intros j n q Hj Hjr.
        destruct (decide (j = k)) as [->|Hne].
        -- rewrite Hrule in Hjr. injection Hjr as <- <-.
           destruct (decide (mp = p)); [right; split; lia|left; lia].
        -- apply (Hmin j n q); [lia|exact Hjr].
      * destruct Hst as [-> _]. lia.
  - unfold scanned in *. destruct st as [[[i ni]|] mp]; simpl in *.
    + destruct Hst as (Hi & Hir & Hmin). split; [lia|]. split; [exact Hir|].
      intros j n q Hj Hjr.
      destruct (decide (j = k)) as [->|Hne]; [congruence|].
      apply (Hmin j n q); [lia|exact Hjr].
    + destruct Hst as [Hmp Hnone]. split; [exact Hmp|].
      intros j Hj. destruct (decide (j = k)) as [->|Hne]; [exact Hrule|].
      apply Hnone. lia.
Qed.

Lemma find_best_merge_fold_scanned (tok : BBPETokenizer) (ids : list Z)
    (k : nat) :
  priorities_bounded tok -> (k < length ids)%nat ->
  scanned tok ids k
    (foldl (find_best_merge_body tok ids) (None, INT32_MAX) (seq 0 k)).
Proof.
  intros Hb. induction k as [|k IH]; intros Hk.
  - simpl. split; [reflexivity|]. intros j Hj. lia.
  - rewrite seq_S, foldl_app. simpl.
    apply find_best_merge_body_scanned; [exact Hb|exact Hk|]. apply IH. lia.
Qed.

(** [find_best_merge] returns the best pair, or -1 exactly when no
    adjacent pair has a rule. *)
Lemma find_best_merge_spec (tok : BBPETokenizer) (ids : list Z) :
  priorities_bounded tok -> (1 < length ids)%nat ->
  match find_best_merge ids (length ids) tok with
  | Some (i, new_id) => best_pair tok ids i new_id
  | None => no_pair tok ids
  end.
Proof.
  intros Hb Hlen.
  pose proof (find_best_merge_fold_scanned tok ids (length ids - 1) Hb
                ltac:(lia)) as Hsc.
  unfold find_best_merge. unfold scanned in Hsc.
  destruct (foldl (find_best_merge_body tok ids) (None, INT32_MAX)
              (seq 0 (length ids - 1))) as [[[i n]|] mp]; simpl in *.
  - destruct Hsc as (Hi & Hir & Hmin). exists mp. split; [exact Hir|].
    intros j n' q Hjr. apply (Hmin j n' q); [|exact Hjr].
    apply pair_rule_in_range in Hjr. lia.
  - destruct Hsc as [_ Hnone]. intros j.
    destruct (pair_rule tok ids j) as [r|] eqn:Hjr; [|reflexivity].
    rewrite Hnone in Hjr; [discriminate|].
    apply pair_rule_in_range in Hjr. lia.
Qed.


Lemma length_shift_down (ids : list Z) (l : list nat) :
  length (foldl shift_down_body ids l) = length ids.
Proof.
  revert ids. induction l as [|x l IH]; intros ids; simpl; [reflexivity|].
  rewrite IH. unfold shift_down_body. apply length_insert.
Qed.

(** The loop that moves the tail down, place by place. *)
Lemma shift_down_lookup (ids : list Z) (from c k : nat) :
  (from + c < length ids)%nat ->
  foldl shift_down_body ids (seq from c) !! k
  = if decide (from <= k < from + c)%nat then ids !! S k else ids !! k.
Proof.
  revert k. induction c as [|c IH]; intros k Hlen.
  - simpl. destruct (decide _); [lia|reflexivity].
  - rewrite seq_S, foldl_app. simpl. unfold shift_down_body at 1.
    pose proof (length_shift_down ids (seq from c)) as Hl.
    rewrite (IH (S (from + c))) by lia.
    destruct (decide (from <= S (from + c) < from + c)%nat); [lia|].
    destruct (lookup_lt_is_Some_2 ids (S (from + c))) as [a Ha]; [lia|].
    rewrite Ha. simpl.
    destruct (decide (k = from + c)%nat) as [->|Hne].
    + rewrite list_lookup_insert_eq by lia.
      destruct (decide _); [symmetry; exact Ha|lia].
    + rewrite list_lookup_insert_ne by lia. rewrite IH by lia.
      destruct (decide (from <= k < from + c)%nat),
               (decide (from <= k < from + S c)%nat); try lia; reflexivity.
Qed.

(** The store, the shift and the decrement together replace the pair at
    [best_idx] by the new id. *)
Lemma apply_merge_splice (ids : list Z) (best_idx : nat) (new_id : Z) :
  (S best_idx < length ids)%nat ->
  apply_merge ids best_idx new_id
  = take best_idx ids ++ new_id :: drop (S (S best_idx)) ids.
Proof.
  intros Hi. unfold apply_merge. apply list_eq. intros k.
  destruct (decide (k < length ids - 1)%nat) as [Hk|Hk].
  - rewrite lookup_take_lt by exact Hk.
    rewrite shift_down_lookup by (rewrite length_insert; lia).
    destruct (decide (S best_idx <= k < S best_idx + (length ids - 1 - S best_idx))%nat)
      as [Hin|Hout].
    + rewrite list_lookup_insert_ne by lia.
      rewrite lookup_app_r by (rewrite length_take; lia).
      rewrite length_take, Nat.min_l by lia.
      replace (k - best_idx)%nat with (S (k - S best_idx)) by lia.
      simpl. rewrite lookup_drop. f_equal. lia.
    + destruct (decide (k = best_idx)) as [->|Hne].
      * rewrite list_lookup_insert_eq by lia.
        rewrite lookup_app_r by (rewrite length_take; lia).
        rewrite length_take, Nat.min_l by lia.
        rewrite Nat.sub_diag. reflexivity.
      * rewrite list_lookup_insert_ne by lia.
        rewrite lookup_app_l by (rewrite length_take; lia).
        rewrite lookup_take_lt by lia. reflexivity.
  - rewrite lookup_take_ge by lia. symmetry. apply lookup_ge_None.
    rewrite length_app, length_take. simpl. rewrite length_drop. lia.
Qed.

(** The loop of [encode_chunk] is the run of best merges. *)
Lemma merge_loop_run (tok : BBPETokenizer) (fuel : nat) (ids : list Z) :
  priorities_bounded tok -> (length ids <= fuel)%nat ->
  bpe_run tok ids (merge_loop fuel tok ids).
Proof.
  intros Hb. revert ids. induction fuel as [|fuel IH]; intros ids Hfuel.
  - simpl. apply bpe_run_stop. intros j.
    destruct (pair_rule tok ids j) eqn:Hj; [|reflexivity].
    apply pair_rule_in_range in Hj. lia.
  - simpl. destruct (1 <? length ids)%nat eqn:Hlen.
    + apply Nat.ltb_lt in Hlen.
      pose proof (find_best_merge_spec tok ids Hb Hlen) as Hbest.
      destruct (find_best_merge ids (length ids) tok) as [[i n]|].
      * assert (Hi : (S i < length ids)%nat).
        { destruct Hbest as (p & Hp & _). eapply pair_rule_in_range, Hp. }
        eapply bpe_run_step; [constructor; exact Hbest|].
        rewrite apply_merge_splice by exact Hi.
        apply IH. rewrite length_app, length_take. simpl. rewrite length_drop. lia.
      * apply bpe_run_stop, Hbest.
    + apply Nat.ltb_ge in Hlen. apply bpe_run_stop. intros j.
      destruct (pair_rule tok ids j) eqn:Hj; [|reflexivity].
      apply pair_rule_in_range in Hj. lia.
Qed.

(** A best merge is determined by the ids, and so is the run. *)
Lemma best_pair_unique (tok : BBPETokenizer) (ids : list Z) (i i' : nat)
    (n n' : Z) :
  best_pair tok ids i n -> best_pair tok ids i' n' -> i = i' /\ n = n'.
Proof.
  intros (p & Hp & Hmin) (p' & Hp' & Hmin').
  destruct (Hmin i' n' p' Hp') as [Hlt|[Heq Hle]];
    destruct (Hmin' i n p Hp) as [Hlt'|[Heq' Hle']]; try lia.
  assert (i = i') by lia. subst i'. rewrite Hp in Hp'. injection Hp' as <- _.
  auto.
Qed.

Lemma bpe_run_unique (tok : BBPETokenizer) (ids final final' : list Z) :
  bpe_run tok ids final -> bpe_run tok ids final' -> final = final'.
Proof.
  intros Hrun. revert final'.
  induction Hrun as [ids Hnone|ids ids' final Hstep _ IH]; intros final' Hrun'.
  - destruct Hrun' as [|ids ids' final' Hstep _]; [reflexivity|].
    destruct Hstep as [ids i n (p & Hp & _)]. rewrite Hnone in Hp. discriminate.
  - destruct Hrun' as [ids Hnone|ids ids'' final' Hstep' Hrun'].
    + destruct Hstep as [ids i n (p & Hp & _)]. rewrite Hnone in Hp. discriminate.
    + apply IH. destruct Hstep as [ids i n Hbest].
      destruct Hstep' as [ids i' n' Hbest'].
      destruct (best_pair_unique _ _ _ _ _ _ Hbest Hbest') as [-> ->].
      exact Hrun'.
Qed.

(** The first loop of [encode_chunk] gives each byte the id of its
    precomputed string, where the vocabulary has it. *)
Lemma bytes_to_ids_precomputed (tok : BBPETokenizer) (chunk ids : list Z) :
  Forall2 (fun b i => precomputed_id tok b = Some i) chunk ids ->
  bytes_to_ids tok chunk = Some ids.
Proof.
  induction 1 as [|b i chunk ids Hb _ IH]; simpl; [reflexivity|].
  unfold byte_token_id. unfold precomputed_id in Hb.
  destruct (HASH_FIND_STR (vocab_map tok)
              (default [] (byte_vocab_strs tok !! Z.to_nat b))) as [e|];
    [|discriminate].
  injection Hb as <-. rewrite IH. reflexivity.
Qed.

(** A rule that is found sits in the row of its left id. *)
Lemma find_merge_rule_row (tok : BBPETokenizer) (l r n p : Z) :
  find_merge_rule tok l r = Some (n, p) ->
  0 <= l < vocab_size tok
  /\ exists row it,
       rule_rows tok !! Z.to_nat l = Some row /\ In it (items row)
       /\ right_id it = r /\ new_id it = n /\ priority it = p.
Proof.
  unfold find_merge_rule.
  destruct (l <? 0) eqn:Hneg; [discriminate|]. apply Z.ltb_ge in Hneg.
  destruct (vocab_size tok <=? l) eqn:Hhi; [discriminate|].
  apply Z.leb_gt in Hhi. cbn [orb].
  destruct (rule_rows tok !! Z.to_nat l) as [row|] eqn:Hrow;
    cbv [from_option id default]; [|discriminate].
  unfold count. destruct (Z.of_nat (length (items row)) =? 0) eqn:Hcount;
    [discriminate|].
  destruct (find_merge_rule_loop_spec (items row) r
              (S (length (items row))) 0 (Z.of_nat (length (items row)) - 1))
    as (x & Hrun & Hx); [lia|lia|lia|].
  rewrite Hrun. intros ->. destruct (Hx n p eq_refl) as (it & Hit).
  split; [lia|]. exists row, it. split; [reflexivity|exact Hit].
Qed.

Lemma sorted_lookup (l : list MergeRuleItem) (i j : nat) (a b : MergeRuleItem) :
  StronglySorted (fun a b => right_id a <= right_id b) l ->
  (i <= j)%nat -> l !! i = Some a -> l !! j = Some b ->
  right_id a <= right_id b.
Proof.
  intros Hsorted. revert i j.
  induction Hsorted as [|x l Hl IH Hx]; intros i j Hij Hi Hj; [discriminate|].
  destruct i as [|i], j as [|j]; cbn in Hi, Hj; try lia.
  - injection Hi as <-. injection Hj as <-. lia.
  - injection Hi as <-. rewrite List.Forall_forall in Hx. apply Hx.
    apply list_elem_of_In. eapply list_elem_of_lookup_2, Hj.
  - apply (IH i j); [lia|assumption..].
Qed.

(** On a row in ascending order of the right ids the binary search finds
    a rule for every right id the row has between [lo] and [hi]. *)
Lemma find_merge_rule_loop_complete (row : list MergeRuleItem) (right : Z)
    (fuel : nat) (lo hi : Z) :
  StronglySorted (fun a b => right_id a <= right_id b) row ->
  0 <= lo -> hi < Z.of_nat (length row) ->
  Z.max 0 (hi - lo + 1) < Z.of_nat fuel ->
  (exists k it, lo <= Z.of_nat k <= hi /\ row !! k = Some it /\ right_id it = right) ->
  exists it,
    In it row /\ right_id it = right
    /\ find_merge_rule_loop fuel row right lo hi
       = Some (Some (new_id it, priority it)).
Proof.
  intros Hsorted. revert lo hi.
  induction fuel as [|fuel IH]; intros lo hi Hlo Hhi Hfuel (k & it & Hk & Hit & Hr);
    [lia|].
  cbn [find_merge_rule_loop].
  destruct (Z.leb_spec lo hi) as [Hle|]; [|lia].
  assert (Hmid : lo <= Z.quot (lo + hi) 2 <= hi).
  { rewrite Z.quot_div_nonneg by lia. split.
    - apply Z.div_le_lower_bound; lia.
    - apply Z.div_le_upper_bound; lia. }
  destruct (row !! Z.to_nat (Z.quot (lo + hi) 2)) as [m|] eqn:Hm.
  2:{ apply lookup_ge_None in Hm. lia. }
  cbv zeta. destruct (Z.eqb_spec (right_id m) right) as [Heq|Hne].
  { exists m. split; [|auto].
    apply list_elem_of_In. eapply list_elem_of_lookup_2, Hm. }
  destruct (Z.ltb_spec (right_id m) right) as [Hlt|Hge].
  - apply IH; [lia|lia|lia|]. exists k, it. split; [|auto].
    destruct (le_lt_dec k (Z.to_nat (Z.quot (lo + hi) 2))) as [Hkm|Hkm]; [|lia].
    pose proof (sorted_lookup row _ _ _ _ Hsorted Hkm Hit Hm). lia.
  - apply IH; [lia|lia|lia|]. exists k, it. split; [|auto].
    destruct (le_lt_dec (Z.to_nat (Z.quot (lo + hi) 2)) k) as [Hkm|Hkm]; [|lia].
    pose proof (sorted_lookup row _ _ _ _ Hsorted Hkm Hm Hit). lia.
Qed.

Lemma find_merge_rule_complete (tok : BBPETokenizer) (l r : Z)
    (row : MergeRuleRow) (it : MergeRuleItem) :
  0 <= l < vocab_size tok ->
  rule_rows tok !! Z.to_nat l = Some row ->
  StronglySorted (fun a b => right_id a <= right_id b) (items row) ->
  In it (items row) -> right_id it = r ->
  exists it',
    In it' (items row) /\ right_id it' = r
    /\ find_merge_rule tok l r = Some (new_id it', priority it').
Proof.
  intros Hl Hrow Hsorted Hit Hr. unfold find_merge_rule.
  destruct (Z.ltb_spec l 0) as [|_]; [lia|].
  destruct (Z.leb_spec (vocab_size tok) l) as [|_]; [lia|]. cbn [orb].
  rewrite Hrow. cbv [from_option id default]. unfold count.
  apply list_elem_of_In, list_elem_of_lookup in Hit as [k Hk].
  pose proof (lookup_lt_Some _ _ _ Hk) as Hlen.
  destruct (Z.eqb_spec (Z.of_nat (length (items row))) 0) as [|_]; [lia|].
  destruct (find_merge_rule_loop_complete (items row) r (S (length (items row)))
              0 (Z.of_nat (length (items row)) - 1) Hsorted)
    as (it' & Hin & Hr' & Hfind); [lia|lia|lia| |].
  { exists k, it. split; [lia|auto]. }
  exists it'. rewrite Hfind. auto.
Qed.

(** *** The probe and the table *)

Lemma table_rules_spec (tok : BBPETokenizer) (l r n p : Z) :
  table_rule tok l r n p <-> In (n, p) (table_rules tok l r).
Proof.
  unfold table_rule, table_rules. split.
  - intros (Hl & row & it & Hrow & Hit & Hr & Hn & Hp).
    destruct (Z.leb_spec 0 l) as [_|]; [|lia].
    destruct (Z.ltb_spec l (vocab_size tok)) as [_|]; [|lia]. cbn [andb].
    rewrite Hrow. apply in_map_iff. exists it. split; [congruence|].
    apply filter_In. split; [exact Hit|]. apply Z.eqb_eq, Hr.
  - destruct (Z.leb_spec 0 l) as [Hlo|]; [|intros []].
    destruct (Z.ltb_spec l (vocab_size tok)) as [Hhi|]; [|intros []]. cbn [andb].
    destruct (rule_rows tok !! Z.to_nat l) as [row|] eqn:Hrow; [|intros []].
    intros Hin. apply in_map_iff in Hin as (it & [= Hn Hp] & Hin).
    apply filter_In in Hin as [Hit Hr]. apply Z.eqb_eq in Hr.
    split; [lia|]. exists row, it. auto.
Qed.

Lemma strict_sorted_weaken (row : list MergeRuleItem) :
  StronglySorted (fun a b => right_id a < right_id b) row ->
  StronglySorted (fun a b => right_id a <= right_id b) row.
Proof.
  induction 1 as [|x row _ IH Hx]; constructor; [exact IH|].
  rewrite List.Forall_forall in *. intros y Hy. specialize (Hx y Hy). lia.
Qed.

Lemma strict_sorted_unique (row : list MergeRuleItem) (a b : MergeRuleItem) :
  StronglySorted (fun a b => right_id a < right_id b) row ->
  In a row -> In b row -> right_id a = right_id b -> a = b.
Proof.
  induction 1 as [|x row _ IH Hx]; intros Ha Hb Heq; [destruct Ha|].
  rewrite List.Forall_forall in Hx.
  destruct Ha as [<-|Ha], Hb as [<-|Hb]; auto.
  - specialize (Hx b Hb). lia.
  - specialize (Hx a Ha). lia.
Qed.

(** On a table with strictly ascending rows the probe finds a rule
    exactly when the table holds it. *)
Lemma find_merge_rule_table (tok : BBPETokenizer) (l r n p : Z) :
  rows_strict tok ->
  find_merge_rule tok l r = Some (n, p) <-> table_rule tok l r n p.
Proof.
  intros Hstrict. split.
  - apply find_merge_rule_row.
  - intros (Hl & row & it & Hrow & Hit & Hr & Hn & Hp).
    assert (Hsorted : StronglySorted (fun a b => right_id a < right_id b)
                        (items row)).
    { unfold rows_strict in Hstrict. rewrite List.Forall_forall in Hstrict.
      apply Hstrict. apply list_elem_of_In. eapply list_elem_of_lookup_2, Hrow. }
    destruct (find_merge_rule_complete tok l r row it Hl Hrow
                (strict_sorted_weaken _ Hsorted) Hit Hr)
      as (it' & Hit' & Hr' & Hfind).
    assert (it' = it)
      by (apply (strict_sorted_unique (items row)); [assumption..|congruence]).
    subst it'. rewrite Hfind, Hn, Hp. reflexivity.
Qed.

Lemma pair_rule_table (tok : BBPETokenizer) (ids : list Z) (j : nat) (n p : Z) :
  rows_strict tok ->
  pair_rule tok ids j = Some (n, p) <-> pair_has_rule tok ids j n p.
Proof.
  intros Hstrict. unfold pair_rule, pair_has_rule. split.
  - destruct (ids !! j) as [l|]; [|discriminate].
    destruct (ids !! S j) as [r|]; [|discriminate].
    intros Hfind. exists l, r. split; [reflexivity|]. split; [reflexivity|].
    apply find_merge_rule_table; assumption.
  - intros (l & r & -> & -> & Hrule). apply find_merge_rule_table; assumption.
Qed.

Lemma best_pair_table (tok : BBPETokenizer) (ids : list Z) (i : nat) (n : Z) :
  rows_strict tok -> best_pair tok ids i n -> best_table_pair tok ids i n.
Proof.
  intros Hstrict (p & Hp & Hmin). exists p. split.
  - apply pair_rule_table; assumption.
  - intros j n' q Hj. apply (Hmin j n' q). apply pair_rule_table; assumption.
Qed.

Lemma no_pair_table (tok : BBPETokenizer) (ids : list Z) :
  rows_strict tok -> no_pair tok ids -> no_table_pair tok ids.
Proof.
  intros Hstrict Hnone j n q Hj.
  apply (pair_rule_table tok ids j n q Hstrict) in Hj.
  rewrite Hnone in Hj. discriminate.
Qed.

Lemma bpe_run_table (tok : BBPETokenizer) (ids final : list Z) :
  rows_strict tok -> bpe_run tok ids final -> greedy_run tok ids final.
Proof.
  intros Hstrict. induction 1 as [ids Hnone|ids ids' final Hstep _ IH].
  - apply greedy_run_stop, no_pair_table; assumption.
  - destruct Hstep as [ids i n Hbest].
    eapply greedy_run_step; [|exact IH].
    constructor. apply best_pair_table; assumption.
Qed.

(** With at most one rule for a pair, the pair to merge and the run are
    determined by the ids. *)
Lemma table_rule_unique (tok : BBPETokenizer) (l r n p n' p' : Z) :
  rows_strict tok ->
  table_rule tok l r n p -> table_rule tok l r n' p' -> n = n' /\ p = p'.
Proof.
  intros Hstrict H H'.
  apply (find_merge_rule_table tok l r n p Hstrict) in H.
  apply (find_merge_rule_table tok l r n' p' Hstrict) in H'.
  rewrite H in H'. injection H' as -> ->. auto.
Qed.

Lemma greedy_run_unique (tok : BBPETokenizer) (ids final final' : list Z) :
  rows_strict tok ->
  greedy_run tok ids final -> greedy_run tok ids final' -> final = final'.
Proof.
  intros Hstrict Hrun. revert final'.
  induction Hrun as [ids Hnone|ids ids' final Hstep _ IH]; intros final' Hrun'.
  - destruct Hrun' as [|ids ids' final' Hstep _]; [reflexivity|].
    destruct Hstep as [ids i n (p & Hp & _)]. destruct (Hnone _ _ _ Hp).
  - destruct Hrun' as [ids Hnone|ids ids'' final' Hstep' Hrun'].
    + destruct Hstep as [ids i n (p & Hp & _)]. destruct (Hnone _ _ _ Hp).
    + apply IH. destruct Hstep as [ids i n (p & Hp & Hmin)].
      destruct Hstep' as [ids i' n' (p' & Hp' & Hmin')].
      assert (Hi : i = i').
      { destruct (Hmin _ _ _ Hp') as [|[? ?]], (Hmin' _ _ _ Hp) as [|[? ?]]; lia. }
      subst i'.
      destruct Hp as (l & r & Hl & Hr & Hrule).
      destruct Hp' as (l' & r' & Hl' & Hr' & Hrule').
      rewrite Hl in Hl'. injection Hl' as <-.
      rewrite Hr in Hr'. injection Hr' as <-.
      destruct (table_rule_unique _ _ _ _ _ _ _ Hstrict Hrule Hrule') as [-> _].
      exact Hrun'.
Qed.

Lemma strictly_ascending_sorted (row : list MergeRuleItem) :
  strictly_ascending (map right_id row) = true ->
  StronglySorted (fun a b => right_id a < right_id b) row.
Proof.
  intros Hall. apply Sorted_StronglySorted.
  { intros a b c Hab Hbc. lia. }
  unfold strictly_ascending in Hall.
  induction row as [|a row IH]; [constructor|].
  destruct row as [|b row]; [repeat constructor|].
  cbn in Hall. apply andb_prop in Hall as [Hab Hall]. apply Z.ltb_lt in Hab.
  constructor; [apply IH; exact Hall|]. constructor. exact Hab.
Qed.

Lemma rows_strict_check (tok : BBPETokenizer) :
  forallb (fun row => strictly_ascending (map right_id (items row)))
    (rule_rows tok) = true ->
  rows_strict tok.
Proof.
  intros Hall. unfold rows_strict. apply List.Forall_forall. intros row Hrow.
  apply strictly_ascending_sorted.
  rewrite forallb_forall in Hall. apply Hall, Hrow.
Qed.

(** C2, as the code has it.  The merge table has at most one rule for a
    pair of ids (the right ids of every row are strictly ascending) and
    priorities below [INT32_MAX]; every byte of the chunk has its
    precomputed string in the vocabulary.  Then the bytes are replaced by
    the ids of their precomputed strings; as long as some adjacent pair
    has a rule in the table, the pair whose rule has the smallest
    priority, leftmost among equals, is replaced by the rule's new id and
    the tail moves down; the ids left when no adjacent pair has a rule in
    the table are appended to the output, and they are the only ids such
    a run of merges can end with.  The scan for the pair returns -1
    exactly when no adjacent pair has a rule in the table. *)
Theorem greedy_leftmost_merge (tok : BBPETokenizer) (chunk ids : list Z)
    (out : BBPEOutput.t) :
  rows_strict tok ->
  priorities_bounded tok ->
  Forall2 (fun b i => precomputed_id tok b = Some i) (strdup chunk) ids ->
  (exists final,
      greedy_run tok ids final
      /\ (forall final', greedy_run tok ids final' -> final' = final)
      /\ encode_chunk tok chunk out
         = (BBPE_OK, if (strlen chunk =? 0)%nat then out else append_ids out final))
  /\ (forall l, (1 < length l)%nat ->
        match find_best_merge l (length l) tok with
        | Some (i, new_id) =>
            best_table_pair tok l i new_id
            /\ apply_merge l i new_id = take i l ++ new_id :: drop (S (S i)) l
        | None => no_table_pair tok l
        end).
Proof.
  intros Hstrict Hb Hids. split.
  - exists (merge_loop (length ids) tok ids).
    assert (Hrun : greedy_run tok ids (merge_loop (length ids) tok ids)).
    { apply bpe_run_table; [exact Hstrict|].
      apply merge_loop_run; [exact Hb|lia]. }
    split; [exact Hrun|]. split.
    + intros final' Hrun'. apply (greedy_run_unique tok ids); assumption.
    + unfold encode_chunk. fold (strdup chunk).
      rewrite (bytes_to_ids_precomputed _ _ _ Hids).
      destruct (strlen chunk =? 0)%nat; reflexivity.
  - intros l Hl. pose proof (find_best_merge_spec tok l Hb Hl) as Hbest.
    destruct (find_best_merge l (length l) tok) as [[i n]|].
    + split; [apply best_pair_table; assumption|]. apply apply_merge_splice.
      destruct Hbest as (p & Hp & _). eapply pair_rule_in_range, Hp.
    + apply no_pair_table; assumption.
Qed.

End Merger.

Lemma hello_priorities_bounded : priorities_bounded hello_tokenizer.
Proof.
  unfold priorities_bounded.
  apply (bool_decide_unpack _). vm_compute. exact I.
Qed.

Lemma greedy_leftmost_merge_witness :
  rows_strict hello_tokenizer
  /\ greedy_run hello_tokenizer [104; 101; 108; 108; 111] [259]
  /\ encode_chunk hello_tokenizer (bytes_of_string "hello") empty_output
     = (BBPE_OK, {| BBPEOutput.ids := [259]; BBPEOutput.count := 1 |}).
Proof.
  assert (Hstrict : rows_strict hello_tokenizer)
    by (apply rows_strict_check; vm_compute; reflexivity).
  assert (Henc : encode_chunk hello_tokenizer (bytes_of_string "hello") empty_output
                 = (BBPE_OK, {| BBPEOutput.ids := [259]; BBPEOutput.count := 1 |}))
    by (vm_compute; reflexivity).
  split; [exact Hstrict|]. split; [|exact Henc].
  destruct (proj1 (greedy_leftmost_merge (RE := sample_engine) hello_tokenizer
                     (bytes_of_string "hello") [104; 101; 108; 108; 111]
                     empty_output Hstrict hello_priorities_bounded
                     ltac:(repeat constructor)))
    as (final & Hrun & _ & Hfinal).
  rewrite Henc in Hfinal. cbn in Hfinal. injection Hfinal as Hids _.
  rewrite Hids. exact Hrun.
Defined.

(** C2, as stated, fails on a table that holds a rule more than once.
    The merges are [a b], [b c], [a b], [a b]: the row of [a] holds the
    rule for [(a, b)] with the priorities 0, 2 and 3, the binary search
    meets the copy with priority 2, and in [abc] the pair [(b, c)] with
    priority 1 is merged, although the pair [(a, b)] has the rule with
    the smallest priority, 0. *)
Lemma repeated_rule_not_smallest_priority :
  bbpe_init_root abc_repeated_json = Some (BBPE_OK, Some abc_repeated_tokenizer)
  /\ Forall2 (fun b i => precomputed_id abc_repeated_tokenizer b = Some i)
       (bytes_of_string "abc") [97; 98; 99]
  /\ table_rules abc_repeated_tokenizer 97 98 = [(256, 0); (256, 2); (256, 3)]
  /\ table_rules abc_repeated_tokenizer 98 99 = [(257, 1)]
  /\ find_merge_rule abc_repeated_tokenizer 97 98 = Some (256, 2)
  /\ encode_chunk abc_repeated_tokenizer (bytes_of_string "abc") empty_output
     = (BBPE_OK, {| BBPEOutput.ids := [97; 257]; BBPEOutput.count := 2 |})
  /\ ~ greedy_run abc_repeated_tokenizer [97; 98; 99] [97; 257].
Proof.
  split; [vm_compute; reflexivity|].
  split; [repeat constructor|].
  assert (Hab : table_rules abc_repeated_tokenizer 97 98
                = [(256, 0); (256, 2); (256, 3)]) by (vm_compute; reflexivity).
  assert (Hbc : table_rules abc_repeated_tokenizer 98 99 = [(257, 1)])
    by (vm_compute; reflexivity).
  assert (Hnew : table_rules abc_repeated_tokenizer 256 99 = [])
    by (vm_compute; reflexivity).
  split; [exact Hab|]. split; [exact Hbc|].
  split; [vm_compute; reflexivity|]. split; [vm_compute; reflexivity|].
  revert Hab Hbc Hnew. generalize abc_repeated_tokenizer as tok.
  intros tok Hab Hbc Hnew Hrun.
  assert (Hfirst : pair_has_rule tok [97; 98; 99] 0 256 0).
  { exists 97, 98. split; [reflexivity|]. split; [reflexivity|].
    apply table_rules_spec. rewrite Hab. left. reflexivity. }
  inversion Hrun as [ids Hnone|ids ids' final Hstep Hrest]; subst.
  inversion Hstep as [ids i n (p & (l & r & Hl & Hr & Hrule) & Hmin) Hids Hids'].
  subst ids. apply table_rules_spec in Hrule.
  assert (Hi : i = 0%nat /\ n = 256).
  { destruct (Hmin 0%nat 256 0 Hfirst) as [Hlt|[Hp Hi]].
    - destruct i as [|[|i]]; [| |destruct i; discriminate Hr].
      + injection Hl as <-. injection Hr as <-. rewrite Hab in Hrule.
        destruct Hrule as [[= _ <-]|[[= _ <-]|[[= _ <-]|[]]]]; lia.
      + injection Hl as <-. injection Hr as <-. rewrite Hbc in Hrule.
        destruct Hrule as [[= _ <-]|[]]; lia.
    - assert (i = 0%nat) by lia. subst i. split; [reflexivity|].
      injection Hl as <-. injection Hr as <-. rewrite Hab in Hrule.
      destruct Hrule as [[= <- _]|[[= <- _]|[[= <- _]|[]]]]; reflexivity. }
  destruct Hi as [-> ->]. subst ids'.
  change (take 0 [97; 98; 99] ++ 256 :: drop 2 [97; 98; 99]) with [256; 99] in Hrest.
  inversion Hrest as [ids Hnone|ids ids' final Hstep' Hrest']; subst.
  inversion Hstep' as [ids i n (p' & (l' & r' & Hl' & Hr' & Hrule') & _) Hids Hids'].
  subst ids. destruct i as [|i]; [|destruct i; discriminate Hr'].
  injection Hl' as <-. injection Hr' as <-.
  apply table_rules_spec in Hrule'. rewrite Hnew in Hrule'. destruct Hrule'.
Qed.

(** ** The merge table *)

Lemma bucket_app (l : Z) (a b : list MergeRecord.t) :
  bucket l (a ++ b) = bucket l a ++ bucket l b.
Proof. unfold bucket. rewrite List.filter_app, map_app. reflexivity. Qed.

Lemma bucket_cons (l : Z) (r : MergeRecord.t) (rs : list MergeRecord.t) :
  bucket l (r :: rs)
  = if MergeRecord.left_id r =? l then item_of_record r :: bucket l rs
    else bucket l rs.
Proof. unfold bucket. simpl. destruct (_ =? _); reflexivity. Qed.

(** After the first loop, [counts[l]] is the number of rules with left id
    [l]. *)
Lemma count_fold_spec (V : Z) (records : list MergeRecord.t) (counts : list nat) :
  length counts = Z.to_nat V -> 0 <= V ->
  length (foldl (count_body V) counts records) = Z.to_nat V
  /\ forall l c, counts !! l = Some c ->
       foldl (count_body V) counts records !! l
       = Some (c + length (bucket (Z.of_nat l) records))%nat.
Proof.
  intros Hlen HV. revert counts Hlen.
  induction records as [|r records IH]; intros counts Hlen.
  - simpl. split; [exact Hlen|]. intros l c ->. f_equal. lia.
  - simpl foldl.
    assert (Hlen' : length (count_body V counts r) = Z.to_nat V).
    { unfold count_body. destruct (_ && _); [|exact Hlen].
      rewrite length_alter. exact Hlen. }
    destruct (IH _ Hlen') as [Hl Hc]. split; [exact Hl|].
    intros l c Hlc. rewrite bucket_cons. unfold count_body in *.
    destruct ((0 <=? MergeRecord.left_id r) && (MergeRecord.left_id r <? V))
      eqn:Hrange.
    + apply andb_true_iff in Hrange as [H0 H1].
      apply Z.leb_le in H0. apply Z.ltb_lt in H1.
      destruct (decide (l = Z.to_nat (MergeRecord.left_id r))) as [->|Hne].
      * rewrite (Hc _ (S c)).
        -- rewrite Z2Nat.id, Z.eqb_refl by lia. simpl. f_equal. lia.
        -- rewrite list_lookup_alter_eq, Hlc. reflexivity.
      * rewrite (Hc _ c) by (rewrite list_lookup_alter_ne by congruence; exact Hlc).
        destruct (MergeRecord.left_id r =? Z.of_nat l) eqn:Heq; [|reflexivity].
        apply Z.eqb_eq in Heq. lia.
    + rewrite (Hc _ c Hlc).
      destruct (MergeRecord.left_id r =? Z.of_nat l) eqn:Heq; [|reflexivity].
      apply Z.eqb_eq in Heq. apply lookup_lt_Some in Hlc.
      apply andb_false_iff in Hrange as [H0|H1];
        [apply Z.leb_gt in H0|apply Z.ltb_ge in H1]; lia.
Qed.

Lemma fill_fold_none (records : list MergeRecord.t) :
  foldl fill_body None records = None.
Proof. induction records as [|r records IH]; simpl; [reflexivity|exact IH]. Qed.

(** The second loop puts every rule into its row, in order. *)
Lemma fill_fold_spec (V : nat) (todo done : list MergeRecord.t)
    (counts counts' : list nat) (rows rows' : list MergeRuleRow) :
  length counts = V -> length rows = V ->
  (forall l, (l < V)%nat ->
     counts !! l = Some (length (bucket (Z.of_nat l) done))
     /\ rows !! l
        = Some {| items := bucket (Z.of_nat l) done
                           ++ replicate (length (bucket (Z.of_nat l) todo))
                                unset_item |}) ->
  foldl fill_body (Some (counts, rows)) todo = Some (counts', rows') ->
  length rows' = V
  /\ (forall l, (l < V)%nat ->
        rows' !! l = Some {| items := bucket (Z.of_nat l) (done ++ todo) |})
  /\ Forall (fun r => 0 <= MergeRecord.left_id r < Z.of_nat V) todo.
Proof.
  revert done counts rows.
  induction todo as [|r todo IH]; intros done counts rows Hcl Hrl Hinv Hrun.
  - simpl in Hrun. injection Hrun as <- <-. split; [exact Hrl|].
    split; [|constructor]. intros l Hl. destruct (Hinv l Hl) as [_ Hrow].
    rewrite Hrow, !app_nil_r. reflexivity.
  - simpl in Hrun.
    destruct (MergeRecord.left_id r <? 0) eqn:Hneg;
      [rewrite fill_fold_none in Hrun; discriminate|].
    apply Z.ltb_ge in Hneg.
    set (l0 := Z.to_nat (MergeRecord.left_id r)) in *.
    destruct (counts !! l0) as [pos|] eqn:Hpos;
      [|rewrite fill_fold_none in Hrun; discriminate].
    destruct (rows !! l0) as [row|] eqn:Hrow;
      [|rewrite fill_fold_none in Hrun; discriminate].
    assert (Hl0 : (l0 < V)%nat) by (apply lookup_lt_Some in Hpos; lia).
    assert (Hid : Z.of_nat l0 = MergeRecord.left_id r) by (subst l0; lia).
    destruct (Hinv l0 Hl0) as [Hc0 Hr0].
    rewrite Hpos in Hc0. injection Hc0 as ->.
    rewrite Hrow in Hr0. injection Hr0 as ->.
    apply (IH (done ++ [r])) in Hrun;
      [|rewrite length_insert; exact Hcl|rewrite length_insert; exact Hrl|].
    + destruct Hrun as (Hlen' & Hrows' & Hrange).
      split; [exact Hlen'|]. split.
      * intros l Hl. rewrite (Hrows' l Hl), <- app_assoc. reflexivity.
      * constructor; [lia|exact Hrange].
    + intros l Hl. rewrite bucket_app, (bucket_cons _ r []).
      change (bucket (Z.of_nat l) []) with (@nil MergeRuleItem).
      destruct (decide (l = l0)) as [->|Hne].
      * rewrite !list_lookup_insert_eq by lia.
        rewrite Hid, Z.eqb_refl. rewrite length_app. simpl.
        split; [f_equal; lia|]. f_equal. f_equal.
        rewrite bucket_cons, Z.eqb_refl. simpl.
        rewrite insert_app_r_alt by lia. rewrite Nat.sub_diag. simpl.
        rewrite <- app_assoc. reflexivity.
      * rewrite !list_lookup_insert_ne by congruence.
        destruct (Hinv l Hl) as [Hc Hr]. rewrite Hc, Hr, bucket_cons.
        destruct (MergeRecord.left_id r =? Z.of_nat l) eqn:Heq;
          [apply Z.eqb_eq in Heq; lia|].
        rewrite app_nil_r. auto.
Qed.

Lemma compare_merge_rule_items_le (a b : MergeRuleItem) :
  compare_merge_rule_items a b <= 0 <-> right_id a <= right_id b.
Proof.
  unfold compare_merge_rule_items.
  destruct (right_id b <? right_id a) eqn:H1, (right_id a <? right_id b) eqn:H2;
    try apply Z.ltb_lt in H1; try apply Z.ltb_lt in H2;
    try apply Z.ltb_ge in H1; try apply Z.ltb_ge in H2; lia.
Qed.

Lemma insert_sorted_permutation {A : Type} (cmp : A -> A -> Z) (x : A)
    (l : list A) :
  Permutation (x :: l) (insert_sorted cmp x l).
Proof.
  induction l as [|y l IH]; simpl; [reflexivity|].
  destruct (cmp x y <=? 0); [reflexivity|].
  rewrite perm_swap. apply perm_skip, IH.
Qed.

Lemma insert_sorted_sorted {A : Type} (cmp : A -> A -> Z) (x : A) (l : list A) :
  (forall x y z, cmp x y <= 0 -> cmp y z <= 0 -> cmp x z <= 0) ->
  (forall x y, cmp x y <= 0 \/ cmp y x <= 0) ->
  StronglySorted (fun x y => cmp x y <= 0) l ->
  StronglySorted (fun x y => cmp x y <= 0) (insert_sorted cmp x l).
Proof.
  intros Htrans Htotal. induction 1 as [|y l Hl IH Hy]; simpl.
  - constructor; constructor.
  - destruct (cmp x y <=? 0) eqn:Hxy.
    + apply Z.leb_le in Hxy. constructor; [constructor; assumption|].
      constructor; [exact Hxy|].
      rewrite List.Forall_forall in *. intros z Hz. eapply Htrans; eauto.
    + apply Z.leb_gt in Hxy. constructor; [exact IH|].
      assert (Hyx : cmp y x <= 0) by (destruct (Htotal x y); [lia|assumption]).
      rewrite List.Forall_forall in *. intros z Hz.
      apply (Permutation_in _ (Permutation_sym (insert_sorted_permutation cmp x l)))
        in Hz.
      destruct Hz as [<-|Hz]; auto.
Qed.

#[export] Instance insertion_sorter_laws : SorterLaws (H := insertion_sorter).
Proof.
  constructor.
  - intros A cmp l. simpl. unfold insertion_sort.
    induction l as [|x l IH]; simpl; [reflexivity|].
    rewrite <- insert_sorted_permutation. apply perm_skip, IH.
  - intros A cmp l Htrans Htotal. simpl. unfold insertion_sort.
    induction l as [|x l IH]; simpl; [constructor|].
    apply insert_sorted_sorted; assumption.
Qed.

Lemma strongly_sorted_weaken {A : Type} (R R' : A -> A -> Prop) (l : list A) :
  (forall a b, R a b -> R' a b) -> StronglySorted R l -> StronglySorted R' l.
Proof.
  intros Himpl. induction 1 as [|a l _ IH Ha]; constructor; [exact IH|].
  rewrite List.Forall_forall in *. auto.
Qed.

Section MergeTable.
Context `{RE : RegexEngine} `{SO : Sorter} {SOL : SorterLaws}.

(** Row [l] of the table holds the rules with left id [l], sorted when
    there are any. *)
Lemma build_rule_rows_spec (V : Z) (records : list MergeRecord.t)
    (rows : list MergeRuleRow) :
  0 <= V ->
  build_rule_rows V records = Some rows ->
  length rows = Z.to_nat V
  /\ (forall l row, rows !! l = Some row ->
        items row
        = if (0 <? length (bucket (Z.of_nat l) records))%nat
          then qsort compare_merge_rule_items (bucket (Z.of_nat l) records)
          else bucket (Z.of_nat l) records)
  /\ Forall (fun r => 0 <= MergeRecord.left_id r < V) records.
Proof.
  intros HV. unfold build_rule_rows.
  destruct (count_fold_spec V records (replicate (Z.to_nat V) 0%nat))
    as [Hclen Hcounts]; [apply length_replicate|exact HV|].
  set (counts := foldl (count_body V) (replicate (Z.to_nat V) 0%nat) records) in *.
  destruct (foldl fill_body _ records) as [[counts' rows']|] eqn:Hfill;
    [|discriminate].
  intros [= <-].
  apply (fill_fold_spec (Z.to_nat V) records []) in Hfill.
  - destruct Hfill as (Hlen & Hrows & Hrange).
    split; [rewrite length_map; exact Hlen|]. split.
    + intros l row Hl. rewrite list_lookup_fmap in Hl.
      destruct (rows' !! l) as [row'|] eqn:Hrow'; [|discriminate].
      assert (Hlt : (l < Z.to_nat V)%nat)
        by (apply lookup_lt_Some in Hrow'; lia).
      rewrite (Hrows l Hlt) in Hrow'. injection Hrow' as <-.
      simpl in Hl. injection Hl as <-. unfold count. simpl.
      destruct (0 <? Z.of_nat (length (bucket (Z.of_nat l) records))) eqn:Hc;
        [apply Z.ltb_lt in Hc|apply Z.ltb_ge in Hc].
      * replace (0 <? length (bucket (Z.of_nat l) records))%nat with true
          by (symmetry; apply Nat.ltb_lt; lia).
        reflexivity.
      * replace (0 <? length (bucket (Z.of_nat l) records))%nat with false
          by (symmetry; apply Nat.ltb_ge; lia).
        reflexivity.
    + rewrite Z2Nat.id in Hrange by exact HV. exact Hrange.
  - apply length_replicate.
  - rewrite length_map. exact Hclen.
  - intros l Hl. split.
    + rewrite lookup_replicate_2 by exact Hl. reflexivity.
    + rewrite list_lookup_fmap.
      rewrite (Hcounts l 0%nat) by (apply lookup_replicate_2; exact Hl).
      reflexivity.
Qed.

Lemma sorted_row (l : list MergeRuleItem) :
  StronglySorted (fun a b => right_id a <= right_id b)
    (qsort compare_merge_rule_items l).
Proof.
  eapply strongly_sorted_weaken;
    [|apply (qsort_sorted _ compare_merge_rule_items l)].
  - intros a b. apply compare_merge_rule_items_le.
  - intros x y z. rewrite !compare_merge_rule_items_le. lia.
  - intros x y. rewrite !compare_merge_rule_items_le. lia.
Qed.

(** Sorted and without a repeated right id: strictly ascending. *)
Lemma strictly_sorted (l : list MergeRuleItem) :
  StronglySorted (fun a b => right_id a <= right_id b) l ->
  NoDup (map right_id l) ->
  StronglySorted (fun a b => right_id a < right_id b) l.
Proof.
  induction 1 as [|a l Hl IH Ha]; intros Hnd; [constructor|].
  simpl in Hnd. apply NoDup_cons in Hnd as [Hnotin Hnd].
  constructor; [apply IH, Hnd|].
  rewrite List.Forall_forall in *. intros b Hb.
  specialize (Ha b Hb).
  destruct (decide (right_id a = right_id b)) as [Heq|Hne]; [|lia].
  exfalso. apply Hnotin. rewrite Heq. apply list_elem_of_In, in_map, Hb.
Qed.

Lemma bucket_nodup (l : Z) (records : list MergeRecord.t) :
  NoDup (map rule_pair records) -> NoDup (map right_id (bucket l records)).
Proof.
  induction records as [|r records IH]; simpl; [intros _; constructor|].
  intros Hnd. apply NoDup_cons in Hnd as [Hnotin Hnd].
  rewrite bucket_cons. destruct (MergeRecord.left_id r =? l) eqn:Hl;
    [|apply IH, Hnd].
  apply Z.eqb_eq in Hl. simpl. apply NoDup_cons. split; [|apply IH, Hnd].
  intros Hin. apply Hnotin. apply list_elem_of_In in Hin.
  apply in_map_iff in Hin as (it & Hit & Hin). unfold bucket in Hin.
  apply in_map_iff in Hin as (r' & <- & Hin).
  apply filter_In in Hin as [Hin Hl']. apply Z.eqb_eq in Hl'.
  apply list_elem_of_In, in_map_iff. exists r'. split; [|exact Hin].
  unfold rule_pair. simpl in Hit. congruence.
Qed.

(** The added tokens leave the rows as they are and add empty ones. *)
Lemma added_token_body_rows (tok tok' : BBPETokenizer) (token_obj : cJSON) :
  added_token_body (Some tok) token_obj = Some tok' ->
  exists k, rule_rows tok' = rule_rows tok ++ replicate k {| items := [] |}.
Proof.
  simpl.
  destruct (cJSON_GetObjectItem token_obj "content") as [[| | | |content| |]|];
    try (intros [= <-]; exists 0%nat; rewrite app_nil_r; reflexivity).
  destruct (cJSON_GetObjectItem token_obj "id") as [[| | |sid| | |]|];
    try (intros [= <-]; exists 0%nat; rewrite app_nil_r; reflexivity).
  destruct ((sid <? 0) || (INT32_MAX <=? sid)); [discriminate|].
  destruct (vocab_size tok <=? sid); simpl;
    match goal with
    | |- context [default None ?x] => destruct (default None x)
    end; intros [= <-]; simpl;
    first [ eexists; reflexivity
          | exists 0%nat; rewrite app_nil_r; reflexivity ].
Qed.

Lemma load_added_tokens_rows (root : cJSON) (tok tok' : BBPETokenizer) :
  load_added_tokens root tok = Some tok' ->
  exists k, rule_rows tok' = rule_rows tok ++ replicate k {| items := [] |}.
Proof.
  unfold load_added_tokens.
  destruct (cJSON_GetObjectItem root "added_tokens") as [[| | | | |added|]|];
    try (intros [= <-]; exists 0%nat; rewrite app_nil_r; reflexivity).
  revert tok. induction added as [|a added IH]; intros tok; cbn [foldl].
  - intros [= <-]. exists 0%nat. rewrite app_nil_r. reflexivity.
  - destruct (added_token_body (Some tok) a) as [tok1|] eqn:Hbody.
    + intros Hrest. destruct (added_token_body_rows _ _ _ Hbody) as [k1 Hk1].
      destruct (IH tok1 Hrest) as [k2 Hk2].
      exists (k1 + k2)%nat. rewrite Hk2, Hk1, <- app_assoc, replicate_add.
      reflexivity.
    + intros Hnone. exfalso. clear -Hnone.
      induction added as [|b added IHa]; cbn [foldl] in Hnone;
        [discriminate|auto].
Qed.

End MergeTable.

Section InitRows.
Context `{RE : RegexEngine} `{SO : Sorter} {SOL : SorterLaws}.

(** What a return of [BBPE_OK] from the loader says of its blocks. *)
Lemma bbpe_init_root_ok (root : cJSON) (tok : BBPETokenizer) :
  bbpe_init_root root = Some (BBPE_OK, Some tok) ->
  exists model vocab merge_count rows head,
    cJSON_GetObjectItem root "model" = Some model
    /\ cJSON_GetObjectItem model "vocab" = Some vocab
    /\ 0 <= snd (load_vocab vocab) < INT32_MAX
    /\ load_merges model (fst (load_vocab vocab)) (snd (load_vocab vocab) + 1)
       = Some (merge_count, rows)
    /\ load_pre_tokenizers root = inr head
    /\ load_added_tokens root
         {| vocab_map := fst (load_vocab vocab);
            merge_count := merge_count;
            rule_rows := rows;
            vocab_size := snd (load_vocab vocab) + 1;
            special_tokens_map := [];
            byte_to_unicode := bm_byte_to_unicode init_byte_mappings;
            unicode_to_byte := bm_unicode_to_byte init_byte_mappings;
            id_to_token :=
              foldl (id_to_token_body (snd (load_vocab vocab) + 1))
                (replicate (Z.to_nat (snd (load_vocab vocab) + 1)) None)
                (fst (load_vocab vocab));
            pre_tokenizers := head;
            byte_vocab_strs := precompute_byte_strings init_byte_mappings |}
       = Some tok.
Proof.
  unfold bbpe_init_root.
  destruct (cJSON_GetObjectItem root "model") as [model|] eqn:Hmodel;
    [|discriminate].
  destruct (cJSON_GetObjectItem model "vocab") as [vocab|] eqn:Hvocab;
    [|discriminate].
  destruct (load_vocab vocab) as [vocab_map max_id] eqn:Hload.
  destruct (max_id <? 0) eqn:Hneg; [discriminate|]. apply Z.ltb_ge in Hneg.
  destruct (INT32_MAX <=? max_id) eqn:Hmax; [discriminate|].
  apply Z.leb_gt in Hmax.
  destruct (load_merges model vocab_map (max_id + 1)) as [[mc rows]|]
    eqn:Hmerges; [|discriminate].
  destruct (load_pre_tokenizers root) as [st|head] eqn:Hpre; [discriminate|].
  match goal with
  | |- context [load_added_tokens root ?t] =>
      destruct (load_added_tokens root t) as [tok1|] eqn:Hadded
  end; [|discriminate].
  intros [= <-]. exists model, vocab, mc, rows, head.
  rewrite Hload. simpl fst. simpl snd.
  repeat (split; [first [reflexivity | assumption | lia]|]). exact Hadded.
Qed.

(** C6, as the code has it.  After a successful load every row of the
    merge table is sorted by right id, in non-decreasing order; when no
    two of the rules that survived loading have the same pair of left and
    right ids, every row is strictly ascending. *)
Theorem merge_rows_sorted (root : cJSON) (tok : BBPETokenizer) :
  bbpe_init_root root = Some (BBPE_OK, Some tok) ->
  (forall row, In row (rule_rows tok) ->
     StronglySorted (fun a b => right_id a <= right_id b) (items row))
  /\ (forall model vocab merges,
        cJSON_GetObjectItem root "model" = Some model ->
        cJSON_GetObjectItem model "vocab" = Some vocab ->
        cJSON_GetObjectItem model "merges" = Some (cJSON_Array merges) ->
        NoDup (map rule_pair
                 (collect_merges (fst (load_vocab vocab)) (cJSON_Array merges))) ->
        forall row, In row (rule_rows tok) ->
          StronglySorted (fun a b => right_id a < right_id b) (items row)).
Proof.
  intros Hinit.
  destruct (bbpe_init_root_ok root tok Hinit)
    as (model & vocab & mc & rows & head & Hmodel & Hvocab & Hmax & Hmerges
        & _ & Hadded).
  destruct (load_added_tokens_rows _ _ _ Hadded) as [k Hrows]. simpl in Hrows.
  assert (Hbuilt :
            forall row, In row (rule_rows tok) ->
              items row = []
              \/ exists merges l,
                   cJSON_GetObjectItem model "merges" = Some (cJSON_Array merges)
                   /\ items row
                      = qsort compare_merge_rule_items
                          (bucket l (collect_merges (fst (load_vocab vocab))
                                       (cJSON_Array merges)))).
  { intros row Hrow. rewrite Hrows in Hrow.
    apply in_app_or in Hrow as [Hrow|Hrow].
    2:{ left. apply list_elem_of_In, elem_of_replicate in Hrow as [-> _].
        reflexivity. }
    unfold load_merges in Hmerges.
    destruct (cJSON_GetObjectItem model "merges") as [[| | | | |merges|]|];
      try (injection Hmerges as _ <-; left;
           apply list_elem_of_In, elem_of_replicate in Hrow as [-> _];
           reflexivity).
    destruct (build_rule_rows _ _) as [rows0|] eqn:Hbuild; [|discriminate].
    injection Hmerges as _ <-.
    assert (HV : 0 <= snd (load_vocab vocab) + 1) by lia.
    destruct (build_rule_rows_spec _ _ _ HV Hbuild) as (_ & Hitems & _).
    apply list_elem_of_In, list_elem_of_lookup in Hrow as [l Hl].
    rewrite (Hitems l row Hl).
    destruct (0 <? length _)%nat eqn:Hc.
    - right. exists merges, (Z.of_nat l). auto.
    - left. apply Nat.ltb_ge in Hc.
      destruct (bucket _ _); [reflexivity|simpl in Hc; lia]. }
  split.
  - intros row Hrow.
    destruct (Hbuilt row Hrow) as [->|(merges & l & _ & ->)];
      [constructor|apply sorted_row].
  - intros model' vocab' merges Hmodel' Hvocab' Hm Hnd row Hrow.
    rewrite Hmodel in Hmodel'. injection Hmodel' as <-.
    rewrite Hvocab in Hvocab'. injection Hvocab' as <-.
    destruct (Hbuilt row Hrow) as [->|(merges' & l & Hm' & ->)]; [constructor|].
    rewrite Hm in Hm'. injection Hm' as <-.
    apply strictly_sorted; [apply sorted_row|].
    rewrite <- (Permutation_map right_id
                  (qsort_permutation _ compare_merge_rule_items _)).
    apply bucket_nodup, Hnd.
Qed.

End InitRows.

Lemma merge_rows_sorted_witness :
  bbpe_init_root hello_json = Some (BBPE_OK, Some hello_tokenizer)
  /\ (forall row, In row (rule_rows hello_tokenizer) ->
        StronglySorted (fun a b => right_id a <= right_id b) (items row))
  /\ (forall row, In row (rule_rows hello_tokenizer) ->
        StronglySorted (fun a b => right_id a < right_id b) (items row)).
Proof.
  assert (Hinit : bbpe_init_root hello_json = Some (BBPE_OK, Some hello_tokenizer))
    by (vm_compute; reflexivity).
  destruct (merge_rows_sorted (RE := sample_engine) (SO := insertion_sorter)
              hello_json hello_tokenizer Hinit) as [Hsorted Hstrict].
  split; [exact Hinit|]. split; [exact Hsorted|].
  apply (Hstrict (default cJSON_NULL (cJSON_GetObjectItem hello_json "model"))
           (cJSON_Object (byte_alphabet_vocab
                          ++ vocab_of [("he"%string, 256); ("ll"%string, 257);
                                       ("hell"%string, 258); ("hello"%string, 259)]))
           hello_merges).
  - vm_compute. reflexivity.
  - vm_compute. reflexivity.
  - vm_compute. reflexivity.
  - apply (bool_decide_unpack _). vm_compute. reflexivity.
Defined.

(** C6, as stated, fails: a rule given twice is loaded twice, and the row
    of its left id holds the same right id twice. *)
Lemma repeated_rule_row_not_strict :
  exists tok,
    bbpe_init_root hello_json_repeated_rule = Some (BBPE_OK, Some tok)
    /\ option_map (fun row => map right_id (items row)) (rule_rows tok !! 104%nat)
       = Some [101; 101].
Proof.
  eexists. split; vm_compute; reflexivity.
Qed.

(** ** The byte alphabet and the decoder *)

(** The tables are computed, never unfolded by hand. *)
Global Opaque init_byte_mappings.

Lemma byte_decodes_all :
  forallb byte_decodes (map Z.of_nat (seq 1 255)) = true.
Proof. vm_compute. reflexivity. Qed.

Lemma text_byte_decodes (b : Z) : text_byte b -> byte_decodes b = true.
Proof.
  intros Hb. pose proof byte_decodes_all as Hall.
  rewrite forallb_forall in Hall. apply Hall.
  apply in_map_iff. exists (Z.to_nat b). split; [unfold text_byte in Hb; lia|].
  apply in_seq. unfold text_byte in Hb. lia.
Qed.

(** The byte alphabet is a bijection with the inverse table as its
    inverse, on all 256 bytes. *)
Lemma byte_alphabet_inverse (b : Z) :
  0 <= b <= 255 ->
  default 0 (bm_unicode_to_byte init_byte_mappings !! Z.to_nat (byte_code_point b))
  = b.
Proof.
  intros Hb.
  assert (Hall : forallb
                   (fun b => default 0 (bm_unicode_to_byte init_byte_mappings
                                          !! Z.to_nat (byte_code_point b)) =? b)
                   (map Z.of_nat (seq 0 256)) = true)
    by (vm_compute; reflexivity).
  rewrite forallb_forall in Hall. apply Z.eqb_eq, Hall.
  apply in_map_iff. exists (Z.to_nat b). split; [lia|]. apply in_seq. lia.
Qed.

Lemma precompute_byte_strings_lookup (m : ByteMappings) (b : nat) :
  (b < 256)%nat ->
  precompute_byte_strings m !! b
  = Some (utf8_encode (default 0 (bm_byte_to_unicode m !! b))).
Proof.
  intros Hb. unfold precompute_byte_strings. rewrite list_lookup_fmap.
  rewrite lookup_seq_lt by exact Hb. reflexivity.
Qed.

Lemma precomputed_string (b : Z) :
  0 <= b <= 255 ->
  precompute_byte_strings init_byte_mappings !! Z.to_nat b
  = Some (utf8_encode (byte_code_point b)).
Proof.
  intros Hb. rewrite precompute_byte_strings_lookup by lia. reflexivity.
Qed.

Lemma char_at_app_l (s r : list Z) (i : nat) :
  (i < length s)%nat -> char_at (s ++ r) i = char_at s i.
Proof. intros Hi. unfold char_at. rewrite lookup_app_l by exact Hi. reflexivity. Qed.

(** Bytes that read back as [cp] are read as [cp] whatever follows
    them, and none of them is the terminator. *)
Lemma reads_back_decode (cp : Z) (enc rest : list Z) :
  reads_back cp enc = true ->
  char_at (enc ++ rest) 0 <> 0
  /\ utf8_decode (enc ++ rest) = Some (cp, length enc)
  /\ (1 <= length enc)%nat
  /\ Forall (fun c => c <> 0) enc.
Proof.
  unfold reads_back. destruct enc as [|c [|d [|]]]; try discriminate; intros Hrb.
  - apply andb_true_iff in Hrb as [Hrb Hcp].
    apply andb_true_iff in Hrb as [Hpos Hlt].
    apply Z.ltb_lt in Hpos. apply Z.eqb_eq in Hcp.
    unfold utf8_decode. change (char_at ([c] ++ rest) 0) with c.
    rewrite Hlt, Hcp. repeat split; [lia|simpl; lia|].
    constructor; [lia|constructor].
  - apply andb_true_iff in Hrb as [Hrb Hcp].
    apply andb_true_iff in Hrb as [Hrb Hd].
    apply andb_true_iff in Hrb as [Hc Hlead].
    apply negb_true_iff in Hc. apply Z.eqb_eq in Hcp, Hd, Hlead.
    unfold utf8_decode. change (char_at ([c; d] ++ rest) 0) with c.
    change (char_at ([c; d] ++ rest) 1) with d.
    rewrite Hc, Hlead, Hd, Hcp. apply Z.ltb_ge in Hc.
    repeat split; [lia|simpl; lia|].
    constructor; [lia|]. constructor; [|constructor].
    intros ->. discriminate Hd.
Qed.

Lemma text_byte_facts (b : Z) :
  text_byte b ->
  byte_code_point b < UNICODE_MAP_SIZE
  /\ default 0 (bm_unicode_to_byte init_byte_mappings
                  !! Z.to_nat (byte_code_point b)) = b
  /\ reads_back (byte_code_point b) (utf8_encode (byte_code_point b)) = true.
Proof.
  intros Hb. pose proof (text_byte_decodes b Hb) as Hdec.
  unfold byte_decodes in Hdec.
  apply andb_true_iff in Hdec as [Hdec Hrb].
  apply andb_true_iff in Hdec as [Hdec _].
  apply andb_true_iff in Hdec as [Hlt Hinv].
  apply Z.ltb_lt in Hlt. apply Z.eqb_eq in Hinv. auto.
Qed.

(** The decoder reads the text of a byte's code point back, whatever
    follows it. *)
Lemma utf8_decode_byte (b : Z) (rest : list Z) :
  text_byte b ->
  char_at (utf8_encode (byte_code_point b) ++ rest) 0 <> 0
  /\ utf8_decode (utf8_encode (byte_code_point b) ++ rest)
     = Some (byte_code_point b, length (utf8_encode (byte_code_point b)))
  /\ (1 <= length (utf8_encode (byte_code_point b)))%nat.
Proof.
  intros Hb. destruct (text_byte_facts b Hb) as (_ & _ & Hrb).
  destruct (reads_back_decode _ _ rest Hrb) as (H1 & H2 & H3 & _). auto.
Qed.

Lemma utf8_encode_byte_nonzero (b : Z) :
  text_byte b -> Forall (fun c => c <> 0) (utf8_encode (byte_code_point b)).
Proof.
  intros Hb. destruct (text_byte_facts b Hb) as (_ & _ & Hrb).
  destruct (reads_back_decode _ _ [] Hrb) as (_ & _ & _ & H4). exact H4.
Qed.

(** ** Decoding what was encoded *)

Section Decoder.
Context `{RE : RegexEngine}.

Lemma visible_cons (b : Z) (u : list Z) :
  visible (b :: u) = utf8_encode (byte_code_point b) ++ visible u.
Proof. reflexivity. Qed.

Lemma visible_app (u v : list Z) : visible (u ++ v) = visible u ++ visible v.
Proof. unfold visible. rewrite map_app, concat_app. reflexivity. Qed.

Lemma length_visible (u : list Z) :
  Forall text_byte u -> (length u <= length (visible u))%nat.
Proof.
  induction 1 as [|b u Hb _ IH]; [simpl; lia|].
  rewrite visible_cons, length_app. cbn [length].
  destruct (utf8_decode_byte b [] Hb) as (_ & _ & Hlen). lia.
Qed.

Lemma maps_to_byte_text_byte (tok : BBPETokenizer) (b : Z) :
  unicode_to_byte tok = bm_unicode_to_byte init_byte_mappings ->
  text_byte b ->
  maps_to_byte tok (byte_code_point b) = true
  /\ to_char (default 0 (unicode_to_byte tok !! Z.to_nat (byte_code_point b))) = b.
Proof.
  intros Hu Hb. destruct (text_byte_facts b Hb) as (Hlt & Hinv & _).
  unfold maps_to_byte. rewrite Hu, Hinv. unfold text_byte in Hb. split.
  - apply andb_true_iff. split; [apply Z.ltb_lt, Hlt|].
    apply negb_true_iff, Z.eqb_neq. lia.
  - unfold to_char. apply Z.mod_small. lia.
Qed.

(** The walk over a token string that is the visible text of [u] writes
    [u]; the first pass counts its bytes. *)
Lemma decode_fill_loop_visible (tok : BBPETokenizer) (u result : list Z)
    (fuel : nat) :
  unicode_to_byte tok = bm_unicode_to_byte init_byte_mappings ->
  Forall text_byte u -> (length (visible u) < fuel)%nat ->
  decode_fill_loop fuel tok (visible u) result = Some (inr (result ++ u)).
Proof.
  intros Hu Hbytes. revert result fuel.
  induction Hbytes as [|b u Hb _ IH]; intros result fuel Hfuel.
  - destruct fuel; [simpl in Hfuel; lia|]. simpl. rewrite app_nil_r. reflexivity.
  - destruct fuel as [|fuel]; [lia|].
    rewrite visible_cons in *. simpl decode_fill_loop.
    destruct (utf8_decode_byte b (visible u) Hb) as (Hchar & Hdec & Hlen).
    apply Z.eqb_neq in Hchar. rewrite Hchar, Hdec.
    destruct (maps_to_byte_text_byte tok b Hu Hb) as [Hmaps Hbyte].
    rewrite Hmaps, Hbyte, drop_app_length.
    rewrite IH by (rewrite length_app in Hfuel; lia).
    rewrite <- app_assoc. reflexivity.
Qed.

Lemma decode_size_loop_visible (tok : BBPETokenizer) (u : list Z)
    (total fuel : nat) :
  unicode_to_byte tok = bm_unicode_to_byte init_byte_mappings ->
  Forall text_byte u -> (length (visible u) < fuel)%nat ->
  decode_size_loop fuel tok (visible u) total = Some (inr (total + length u)%nat).
Proof.
  intros Hu Hbytes. revert total fuel.
  induction Hbytes as [|b u Hb _ IH]; intros total fuel Hfuel.
  - destruct fuel; [simpl in Hfuel; lia|]. simpl. f_equal. f_equal. lia.
  - destruct fuel as [|fuel]; [lia|].
    rewrite visible_cons in *. simpl decode_size_loop.
    destruct (utf8_decode_byte b (visible u) Hb) as (Hchar & Hdec & Hlen).
    apply Z.eqb_neq in Hchar. rewrite Hchar, Hdec.
    destruct (maps_to_byte_text_byte tok b Hu Hb) as [Hmaps _].
    rewrite Hmaps, drop_app_length.
    rewrite IH by (rewrite length_app in Hfuel; lia).
    simpl. f_equal. f_equal. lia.
Qed.

(** Ids that spell [c] decode to [c]. *)
Lemma decode_spelled (tok : BBPETokenizer) (ids c : list Z) :
  unicode_to_byte tok = bm_unicode_to_byte init_byte_mappings ->
  spells tok ids c ->
  forall total result,
    decode_size tok ids total = inr (total + length c)%nat
    /\ decode_fill tok ids result = inr (result ++ c).
Proof.
  intros Hu (us & Hus & <-).
  induction Hus as [|i u ids us [Hi Hu'] _ IH]; intros total result.
  - simpl. rewrite app_nil_r. split; [f_equal; lia|reflexivity].
  - unfold token_text in Hi.
    destruct ((i <? 0) || (vocab_size tok <=? i)) eqn:Hrange; [discriminate|].
    cbn [decode_size decode_fill]. rewrite Hrange, Hi. cbv [from_option id].
    rewrite decode_size_loop_visible, decode_fill_loop_visible by (auto; lia).
    destruct (IH (total + length u)%nat (result ++ u)) as [H1 H2].
    rewrite H1, H2. cbn [concat]. rewrite length_app, <- app_assoc.
    split; [f_equal; lia|reflexivity].
Qed.

Lemma spells_nonempty (tok : BBPETokenizer) (ids c : list Z) :
  spells tok ids c -> c <> [] -> ids <> [].
Proof.
  intros (us & Hus & <-) Hc ->. apply Forall2_nil_inv_l in Hus. subst us.
  apply Hc. reflexivity.
Qed.

Lemma spells_app (tok : BBPETokenizer) (ids ids' c c' : list Z) :
  spells tok ids c -> spells tok ids' c' -> spells tok (ids ++ ids') (c ++ c').
Proof.
  intros (us & Hus & <-) (us' & Hus' & <-). exists (us ++ us').
  split; [apply Forall2_app; assumption|apply concat_app].
Qed.

End Decoder.

(** ** Encoding keeps the text *)

Section Encoder.
Context `{RE : RegexEngine} {REL : RegexEngineLaws}.

Lemma HASH_FIND_STR_some (head : list VocabEntry.t) (findstr : list Z)
    (e : VocabEntry.t) :
  HASH_FIND_STR head findstr = Some e ->
  In e head /\ VocabEntry.token e = strdup findstr.
Proof.
  unfold HASH_FIND_STR. intros Hfind. apply find_some in Hfind as [Hin Heq].
  split; [exact Hin|]. unfold bytes_eqb in Heq.
  apply bool_decide_eq_true_1 in Heq. exact Heq.
Qed.

Lemma text_byte_nonzero (u : list Z) :
  Forall text_byte u -> Forall (fun c => c <> 0) u.
Proof.
  intros Hu. eapply Forall_impl; [exact Hu|].
  unfold text_byte. intros b Hb. lia.
Qed.

(** The first loop of [encode_chunk] spells the chunk. *)
Lemma bytes_to_ids_spells (tok : BBPETokenizer) (chunk : list Z) :
  well_formed tok -> Forall text_byte chunk ->
  Forall (fun b => is_Some (HASH_FIND_STR (vocab_map tok)
                              (utf8_encode (byte_code_point b)))) chunk ->
  exists ids, bytes_to_ids tok chunk = Some ids /\ spells tok ids chunk.
Proof.
  intros Hwf Hbytes Hknown.
  induction Hbytes as [|b chunk Hb Hbytes IH].
  - exists []. split; [reflexivity|]. exists []. split; [constructor|reflexivity].
  - apply Forall_cons in Hknown as [[e He] Hknown].
    destruct (IH Hknown) as (ids & Hids & us & Hus & Hcat).
    cbn [bytes_to_ids]. unfold byte_token_id.
    rewrite (wf_byte_vocab_strs tok Hwf), precomputed_string
      by (unfold text_byte in Hb; lia).
    cbv [from_option id]. rewrite He, Hids.
    exists (VocabEntry.id e :: ids). split; [reflexivity|].
    exists ([b] :: us). split; [|cbn [concat app]; rewrite Hcat; reflexivity].
    constructor; [|exact Hus]. split; [|constructor; [exact Hb|constructor]].
    apply HASH_FIND_STR_some in He as [Hin Htoken].
    rewrite (wf_vocab tok Hwf e Hin), Htoken.
    rewrite strdup_id by (apply utf8_encode_byte_nonzero, Hb).
    unfold visible. cbn [map concat]. rewrite app_nil_r. reflexivity.
Qed.

(** A pair the scan returns has a rule. *)
Lemma find_best_merge_hit (tok : BBPETokenizer) (ids : list Z) (i : nat)
    (new_id : Z) :
  find_best_merge ids (length ids) tok = Some (i, new_id) ->
  (S i < length ids)%nat
  /\ exists p, pair_rule tok ids i = Some (new_id, p).
Proof.
  unfold find_best_merge.
  assert (Hgen : forall k st,
             (k <= length ids - 1)%nat ->
             (forall i n, fst st = Some (i, n) ->
                (S i < length ids)%nat
                /\ exists p, pair_rule tok ids i = Some (n, p)) ->
             forall i n,
               fst (foldl (find_best_merge_body tok ids) st (seq 0 k))
               = Some (i, n) ->
               (S i < length ids)%nat
               /\ exists p, pair_rule tok ids i = Some (n, p)).
  { induction k as [|k IHk]; intros st Hk Hst; [exact Hst|].
    rewrite seq_S, foldl_app. simpl.
    unfold find_best_merge_body at 1.
    rewrite pair_rule_read by lia.
    destruct (pair_rule tok ids k) as [[n p]|] eqn:Hrule;
      [|apply IHk; [lia|exact Hst]].
    destruct (p <? _); [|apply IHk; [lia|exact Hst]].
    simpl. intros i' n' [= <- <-]. split; [lia|]. exists p. exact Hrule. }
  apply (Hgen (length ids - 1)%nat (None, INT32_MAX)); [lia|].
  intros i' n' [=].
Qed.

Lemma pair_rule_split (tok : BBPETokenizer) (ids : list Z) (i : nat)
    (r : Z * Z) :
  pair_rule tok ids i = Some r ->
  exists a b,
    ids = take i ids ++ a :: b :: drop (S (S i)) ids
    /\ find_merge_rule tok a b = Some r.
Proof.
  unfold pair_rule. destruct (ids !! i) as [a|] eqn:Ha; [|discriminate].
  destruct (ids !! S i) as [b|] eqn:Hb; [|discriminate].
  intros Hr. exists a, b. split; [|exact Hr].
  rewrite <- (take_drop_middle ids i a Ha) at 1. f_equal. f_equal.
  rewrite <- (take_drop_middle ids (S i) b Hb) at 1.
  rewrite drop_app_length'; [reflexivity|].
  rewrite length_take. apply lookup_lt_Some in Hb. lia.
Qed.

(** The merge loop keeps what the ids spell. *)
Lemma merge_loop_spells (tok : BBPETokenizer) (fuel : nat) (ids c : list Z) :
  well_formed tok -> spells tok ids c -> spells tok (merge_loop fuel tok ids) c.
Proof.
  intros Hwf. revert ids. induction fuel as [|fuel IH]; intros ids Hsp;
    [exact Hsp|].
  simpl. destruct (1 <? length ids)%nat; [|exact Hsp].
  destruct (find_best_merge ids (length ids) tok) as [[i n]|] eqn:Hbest;
    [|exact Hsp].
  apply find_best_merge_hit in Hbest as (Hi & p & Hp).
  rewrite apply_merge_splice by exact Hi. apply IH.
  destruct (pair_rule_split _ _ _ _ Hp) as (a & b & Hids & Hrule).
  destruct Hsp as (us & Hus & Hcat). rewrite Hids in Hus.
  apply Forall2_app_inv_l in Hus as (ua & us1 & Hua & Hus1 & ->).
  apply Forall2_cons_inv_l in Hus1 as (ul & us2 & [Hl Hbl] & Hus2 & ->).
  apply Forall2_cons_inv_l in Hus2 as (ur & ub & [Hr Hbr] & Hub & ->).
  exists (ua ++ (ul ++ ur) :: ub). split.
  - apply Forall2_app; [exact Hua|]. constructor; [|exact Hub].
    split; [|apply Forall_app; auto].
    rewrite visible_app. eapply (wf_merges tok Hwf); eassumption.
  - rewrite <- Hcat, !concat_app. simpl. rewrite <- app_assoc. reflexivity.
Qed.

Lemma encode_chunk_spells (tok : BBPETokenizer) (chunk : list Z)
    (out : BBPEOutput.t) :
  well_formed tok -> Forall text_byte chunk ->
  Forall (fun b => is_Some (HASH_FIND_STR (vocab_map tok)
                              (utf8_encode (byte_code_point b)))) chunk ->
  counted out ->
  exists out' ids,
    encode_chunk tok chunk out = (BBPE_OK, out')
    /\ counted out'
    /\ BBPEOutput.ids out' = BBPEOutput.ids out ++ ids
    /\ spells tok ids chunk.
Proof.
  intros Hwf Hbytes Hknown Hout. unfold encode_chunk.
  rewrite (strlen_nonzero chunk (text_byte_nonzero _ Hbytes)), firstn_all.
  destruct (length chunk =? 0)%nat eqn:Hlen.
  - apply Nat.eqb_eq in Hlen. destruct chunk; [|discriminate].
    exists out, []. split; [reflexivity|]. split; [exact Hout|].
    split; [rewrite app_nil_r; reflexivity|].
    exists []. split; [constructor|reflexivity].
  - destruct (bytes_to_ids_spells tok chunk Hwf Hbytes Hknown)
      as (ids & Hids & Hsp).
    rewrite Hids. eexists _, (merge_loop (length ids) tok ids).
    split; [reflexivity|]. unfold counted in *. simpl. rewrite Hout, firstn_all.
    split; [rewrite length_app; reflexivity|]. split; [reflexivity|].
    apply merge_loop_spells; assumption.
Qed.

Lemma encode_chunks_spells (tok : BBPETokenizer) (chunks : list (list Z))
    (out : BBPEOutput.t) :
  well_formed tok -> Forall text_byte (concat chunks) ->
  Forall (fun b => is_Some (HASH_FIND_STR (vocab_map tok)
                              (utf8_encode (byte_code_point b))))
    (concat chunks) ->
  counted out ->
  exists out' ids,
    encode_chunks tok chunks out = (BBPE_OK, out')
    /\ counted out'
    /\ BBPEOutput.ids out' = BBPEOutput.ids out ++ ids
    /\ spells tok ids (concat chunks).
Proof.
  intros Hwf. revert out.
  induction chunks as [|c chunks IH]; intros out Hbytes Hknown Hout.
  - exists out, []. split; [reflexivity|]. split; [exact Hout|].
    split; [rewrite app_nil_r; reflexivity|].
    exists []. split; [constructor|reflexivity].
  - simpl in Hbytes, Hknown.
    apply Forall_app in Hbytes as [Hb1 Hb2].
    apply Forall_app in Hknown as [Hk1 Hk2].
    destruct (encode_chunk_spells tok c out Hwf Hb1 Hk1 Hout)
      as (out1 & ids1 & Henc1 & Hout1 & Hids1 & Hsp1).
    destruct (IH out1 Hb2 Hk2 Hout1) as (out2 & ids2 & Henc2 & Hout2 & Hids2 & Hsp2).
    exists out2, (ids1 ++ ids2). simpl. rewrite Henc1.
    split; [exact Henc2|]. split; [exact Hout2|].
    split; [rewrite Hids2, Hids1, <- app_assoc; reflexivity|].
    apply spells_app; assumption.
Qed.

(** A plain node keeps the text of a chunk. *)
(** The chunks of a regex split, put together, are the text. *)
Lemma regex_split_concat (regex_pattern : list Z) (code : pcre2_code)
    (text : list Z) :
  exists chunks,
    apply_single_pre_tokenizer
      (PRE_TOKENIZER_REGEX_SPLIT regex_pattern (Some code)) text
    = (BBPE_OK, chunks)
    /\ concat chunks = strdup text.
Proof.
  unfold apply_single_pre_tokenizer.
  destruct (regex_split_loop_spec code text (strlen text) (S (strlen text)) 0 0 [])
    as (last_end & chunks & Hrun & Hle & (pieces & Hmap & Hcont & _) & _);
    [lia|lia|lia|exists []; cbn; auto|].
  rewrite Hrun. cbv zeta.
  assert (Hcat : concat chunks = take last_end text).
  { pose proof (contiguous_concat text 0 last_end pieces Hcont) as Hcat.
    rewrite drop_0, <- Hmap in Hcat.
    apply (app_inv_tail (drop last_end text)). rewrite Hcat, take_drop.
    reflexivity. }
  set (chunks1 := if (last_end <? strlen text)%nat
                  then chunks ++ [take (strlen text - last_end) (drop last_end text)]
                  else chunks).
  assert (Hcat1 : concat chunks1 = strdup text).
  { subst chunks1. unfold strdup.
    destruct (Nat.ltb_spec last_end (strlen text)) as [Hlt|Hge].
    - rewrite concat_app, Hcat. cbn [concat]. rewrite app_nil_r.
      apply (app_inv_tail (drop (strlen text) text)).
      rewrite <- app_assoc, take_drop_split, !take_drop by lia. reflexivity.
    - rewrite Hcat. f_equal. lia. }
  destruct (length chunks1 =? 0)%nat.
  - exists [strdup text]. split; [reflexivity|]. cbn [concat]. apply app_nil_r.
  - exists chunks1. split; [reflexivity|exact Hcat1].
Qed.

Lemma apply_single_plain (node : PreTokenizerNode) (chunk : list Z) :
  plain_node node -> Forall (fun c => c <> 0) chunk ->
  exists parts,
    apply_single_pre_tokenizer node chunk = (BBPE_OK, parts)
    /\ concat parts = chunk.
Proof.
  intros [->|(pattern & code & ->)] Hnz.
  - exists [chunk]. simpl.
    rewrite (strlen_nonzero chunk Hnz), firstn_all.
    split; [reflexivity|apply app_nil_r].
  - destruct (regex_split_concat pattern code chunk) as (parts & Hparts & Hcat).
    exists parts. split; [exact Hparts|].
    rewrite Hcat. apply strdup_id, Hnz.
Qed.

Lemma pre_tokenize_node_plain (node : PreTokenizerNode)
    (current next : list (list Z)) :
  plain_node node -> Forall (fun c => c <> 0) (concat current) ->
  exists parts,
    pre_tokenize_node node current next = (BBPE_OK, next ++ parts)
    /\ concat parts = concat current.
Proof.
  intros Hnode. revert next.
  induction current as [|chunk current IH]; intros next Hnz.
  - exists []. simpl. rewrite app_nil_r. auto.
  - simpl in Hnz. apply Forall_app in Hnz as [Hnz1 Hnz2].
    destruct (apply_single_plain node chunk Hnode Hnz1) as (part & Hpart & Hcat).
    destruct (IH (next ++ part) Hnz2) as (parts & Hparts & Hcats).
    exists (part ++ parts). simpl. rewrite Hpart, Hparts.
    split; [rewrite <- app_assoc; reflexivity|].
    rewrite concat_app, Hcat, Hcats. reflexivity.
Qed.

Lemma pre_tokenize_chain_plain (nodes : list PreTokenizerNode)
    (current : list (list Z)) :
  Forall plain_node nodes -> Forall (fun c => c <> 0) (concat current) ->
  exists chunks,
    pre_tokenize_chain nodes current = (BBPE_OK, chunks)
    /\ concat chunks = concat current.
Proof.
  intros Hnodes. revert current.
  induction Hnodes as [|node nodes Hnode _ IH]; intros current Hnz.
  - exists current. auto.
  - destruct (pre_tokenize_node_plain node current [] Hnode Hnz)
      as (parts & Hparts & Hcat).
    destruct (IH parts ltac:(rewrite Hcat; exact Hnz)) as (chunks & Hchunks & Hcats).
    exists chunks. simpl. rewrite Hparts. simpl. rewrite Hchunks.
    split; [reflexivity|congruence].
Qed.

(** A text in which no special token occurs is one normal segment. *)
Lemma extract_special_tokens_plain (tok : BBPETokenizer) (text : list Z) :
  no_special_inside tok text -> strdup text <> [] ->
  extract_special_tokens tok text = [normal_segment (strdup text)].
Proof.
  intros Hnone Hne.
  pose proof (extract_special_tokens_segmentation tok text) as Hseg.
  remember (strdup text) as covered eqn:Htext.
  destruct Hseg as [|s rest segs Hs _ Hend Hrest|e rest segs Hin He _ _].
  - congruence.
  - assert (Hrest' : rest = drop (length s) (s ++ rest))
      by (rewrite drop_app_length; reflexivity).
    destruct Hend as [->|(e & Hin & Hm)].
    + rewrite (segmentation_nil _ _ Hrest), app_nil_r. reflexivity.
    + exfalso. rewrite Hrest', Htext in Hm. exact (Hnone (length s) e Hin Hm).
  - exfalso. apply (Hnone 0%nat e Hin). rewrite drop_0, <- Htext.
    split; [exact He|]. exists rest. reflexivity.
Qed.

Lemma encode_segments_normal (tok : BBPETokenizer) (s : list Z)
    (out : BBPEOutput.t) :
  encode_segments tok [normal_segment s] out
  = match pre_tokenize tok s with
    | (BBPE_OK, pre_res) =>
        match encode_chunks tok pre_res out with
        | (BBPE_OK, out') => (BBPE_OK, out')
        | failed => failed
        end
    | (status, _) => (status, out)
    end.
Proof. reflexivity. Qed.

(** Encoding, then decoding, on a well-formed tokenizer whose chain adds
    no prefix space, for a text of bytes that is not empty, has its byte
    tokens in the vocabulary and holds no special token. *)
Lemma round_trip (tok : BBPETokenizer) (text : list Z) (o : BBPEOutput.t)
    (t : option (list Z)) :
  well_formed tok -> Forall plain_node (pre_tokenizers tok) ->
  Forall (fun b => 0 <= b <= 255) text ->
  bytes_known tok text -> no_special_inside tok text -> strdup text <> [] ->
  exists out,
    bbpe_encode (Some tok) (Some text) (Some o) = (BBPE_OK, Some out)
    /\ counted out
    /\ spells tok (BBPEOutput.ids out) (strdup text)
    /\ bbpe_decode (Some tok) (Some (BBPEOutput.ids out)) (BBPEOutput.count out)
         (Some t)
       = (BBPE_OK, Some (Some (strdup text))).
Proof.
  intros Hwf Hchain Hrange Hknown Hnone Hne.
  assert (Hbytes : Forall text_byte (strdup text)).
  { pose proof (strdup_nonzero text) as Hnz.
    assert (Hr : Forall (fun b => 0 <= b <= 255) (strdup text))
      by (unfold strdup; apply Forall_take, Hrange).
    rewrite List.Forall_forall in *. intros b Hb. unfold text_byte.
    specialize (Hnz b Hb). specialize (Hr b Hb). lia. }
  pose proof (text_byte_nonzero _ Hbytes) as Hnz.
  unfold bbpe_encode. rewrite (extract_special_tokens_plain tok text Hnone Hne).
  rewrite encode_segments_normal. unfold pre_tokenize. rewrite strdup_strdup.
  destruct (pre_tokenize_chain_plain (pre_tokenizers tok) [strdup text] Hchain)
    as (chunks & Hchunks & Hcat).
  { cbn [concat]. rewrite app_nil_r. exact Hnz. }
  cbn [concat] in Hcat. rewrite app_nil_r in Hcat.
  rewrite Hchunks.
  destruct (encode_chunks_spells tok chunks empty_output Hwf)
    as (out & ids & Henc & Hcount & Hids & Hsp);
    [rewrite Hcat; exact Hbytes|rewrite Hcat; exact Hknown|reflexivity|].
  rewrite Henc. exists out. split; [reflexivity|]. split; [exact Hcount|].
  cbn [BBPEOutput.ids empty_output app] in Hids. rewrite Hcat in Hsp.
  rewrite Hids. split; [exact Hsp|].
  unfold counted in Hcount. rewrite Hcount, Hids.
  unfold bbpe_decode.
  pose proof (spells_nonempty tok ids _ Hsp Hne) as Hids_ne.
  destruct (length ids =? 0)%nat eqn:Hlen.
  { apply Nat.eqb_eq in Hlen. destruct ids; [congruence|discriminate]. }
  rewrite firstn_all.
  destruct (decode_spelled tok ids (strdup text) (wf_unicode_to_byte tok Hwf) Hsp
              0%nat []) as [Hsize Hfill].
  rewrite Hsize, Hfill. reflexivity.
Qed.

End Encoder.

(** ** What the loader establishes *)

Section Loaded.
Context `{RE : RegexEngine} `{SO : Sorter} {SOL : SorterLaws}.

(** [max_id] bounds the ids of the entries. *)
Lemma load_vocab_max (vocab : cJSON) (e : VocabEntry.t) :
  In e (fst (load_vocab vocab)) -> VocabEntry.id e <= snd (load_vocab vocab).
Proof.
  unfold load_vocab.
  assert (Hgen : forall children st,
             (forall e, In e (fst st) -> VocabEntry.id e <= snd st) ->
             forall e, In e (fst (foldl vocab_body st children)) ->
                       VocabEntry.id e <= snd (foldl vocab_body st children)).
  { induction children as [|item children IH]; intros st Hst; [exact Hst|].
    cbn [foldl]. apply IH. unfold vocab_body.
    destruct item as [[key|] []]; try exact Hst.
    cbn [fst snd]. intros e' Hin. apply in_app_or in Hin as [Hin|[<-|[]]].
    - specialize (Hst e' Hin). destruct (snd st <? valueint) eqn:Hlt;
        [apply Z.ltb_lt in Hlt|]; lia.
    - cbn [VocabEntry.id]. destruct (snd st <? valueint) eqn:Hlt;
        [|apply Z.ltb_ge in Hlt]; lia. }
  apply Hgen. intros e' [].
Qed.

Lemma length_id_to_token_fold (V : Z) (vm : list VocabEntry.t)
    (a : list (option (list Z))) :
  length (foldl (id_to_token_body V) a vm) = length a.
Proof.
  revert a. induction vm as [|e vm IH]; intros a; [reflexivity|].
  cbn [foldl]. rewrite IH. unfold id_to_token_body.
  destruct (_ && _); [apply length_insert|reflexivity].
Qed.

(** The fill of [id_to_token] leaves alone the slots of other ids. *)
Lemma id_to_token_fold_other (V : Z) (vm : list VocabEntry.t)
    (a : list (option (list Z))) (i : nat) :
  (forall e, In e vm -> 0 <= VocabEntry.id e -> Z.to_nat (VocabEntry.id e) <> i) ->
  foldl (id_to_token_body V) a vm !! i = a !! i.
Proof.
  revert a. induction vm as [|e vm IH]; intros a Hother; [reflexivity|].
  cbn [foldl]. rewrite IH by (intros e' He'; apply Hother; right; exact He').
  unfold id_to_token_body.
  destruct (0 <=? VocabEntry.id e) eqn:Hpos; [|reflexivity].
  destruct (VocabEntry.id e <? V); [|reflexivity]. cbn [andb].
  apply list_lookup_insert_ne. apply Hother; [left; reflexivity|].
  apply Z.leb_le, Hpos.
Qed.

(** With distinct ids inside the array, every entry finds its token in
    its slot. *)
Lemma id_to_token_fold_spec (V : Z) (vm : list VocabEntry.t)
    (a : list (option (list Z))) (e : VocabEntry.t) :
  length a = Z.to_nat V ->
  NoDup (map VocabEntry.id vm) ->
  (forall e', In e' vm -> 0 <= VocabEntry.id e' < V) ->
  In e vm ->
  foldl (id_to_token_body V) a vm !! Z.to_nat (VocabEntry.id e)
  = Some (Some (VocabEntry.token e)).
Proof.
  revert a. induction vm as [|e0 vm IH]; intros a Hlen Hnd Hrange Hin; [destruct Hin|].
  cbn [map] in Hnd. apply NoDup_cons in Hnd as [Hnotin Hnd].
  cbn [foldl]. destruct Hin as [->|Hin].
  - rewrite id_to_token_fold_other.
    + unfold id_to_token_body.
      destruct (Hrange e (or_introl eq_refl)) as [H0 H1].
      apply Z.leb_le in H0 as H0'. apply Z.ltb_lt in H1 as H1'.
      rewrite H0', H1'. cbn [andb]. apply list_lookup_insert_eq. lia.
    + intros e' He' Hpos Heq. apply Hnotin.
      assert (VocabEntry.id e' = VocabEntry.id e).
      { destruct (Hrange e (or_introl eq_refl)). lia. }
      apply list_elem_of_In, in_map_iff. exists e'. auto.
  - apply IH; [|exact Hnd|intros e' He'; apply Hrange; right; exact He'|exact Hin].
    unfold id_to_token_body. destruct (_ && _); [|exact Hlen].
    rewrite length_insert. exact Hlen.
Qed.

Lemma merge_item_record_joins (vm : list VocabEntry.t) (i : nat)
    (merge_item : cJSON) (r : MergeRecord.t) :
  merge_item_record vm i merge_item = Some r -> joins vm r.
Proof.
  unfold merge_item_record.
  destruct (merge_item_strings merge_item) as [[ls rs]|]; [|discriminate].
  destruct (HASH_FIND_STR vm ls) as [le|] eqn:Hl; [|discriminate].
  destruct (HASH_FIND_STR vm rs) as [re|] eqn:Hr; [|discriminate].
  destruct (_ <=? _)%nat; [discriminate|].
  destruct (HASH_FIND_STR vm (strdup ls ++ strdup rs)) as [me|] eqn:Hm;
    [|discriminate].
  intros [= <-].
  apply HASH_FIND_STR_some in Hl as [Hinl Htl].
  apply HASH_FIND_STR_some in Hr as [Hinr Htr].
  apply HASH_FIND_STR_some in Hm as [Hinm Htm].
  exists le, re, me. repeat (split; [first [assumption|reflexivity]|]).
  rewrite Htm, Htl, Htr. apply strdup_id, Forall_app.
  split; apply strdup_nonzero.
Qed.

Lemma collect_merges_joins (vm : list VocabEntry.t) (merges : cJSON)
    (r : MergeRecord.t) :
  In r (collect_merges vm merges) -> joins vm r.
Proof.
  unfold collect_merges.
  assert (Hgen : forall children st,
             (forall r, In r (fst st) -> joins vm r) ->
             forall r, In r (fst (foldl (collect_merge_body vm) st children)) ->
                       joins vm r).
  { induction children as [|item children IH]; intros st Hst; [exact Hst|].
    cbn [foldl]. apply IH. unfold collect_merge_body.
    destruct (merge_item_record vm (snd st) item) as [r0|] eqn:Hrec; [|exact Hst].
    cbn [fst]. intros r' Hin. apply in_app_or in Hin as [Hin|[<-|[]]];
      [apply Hst, Hin|eapply merge_item_record_joins, Hrec]. }
  apply Hgen. intros r' [].
Qed.

Lemma in_bucket (l : Z) (records : list MergeRecord.t) (it : MergeRuleItem) :
  In it (bucket l records) ->
  exists r, In r records /\ MergeRecord.left_id r = l /\ it = item_of_record r.
Proof.
  unfold bucket. intros Hin. apply in_map_iff in Hin as (r & <- & Hin).
  apply filter_In in Hin as [Hin Hl]. apply Z.eqb_eq in Hl.
  exists r. auto.
Qed.

End Loaded.

Section Extension.
Context `{RE : RegexEngine}.

Lemma extends_refl (tok : BBPETokenizer) : extends tok tok.
Proof. split; auto. Qed.

Lemma extends_trans (a b c : BBPETokenizer) :
  extends a b -> extends b c -> extends a c.
Proof.
  intros [] []. split; try congruence; auto.
Qed.

Lemma token_text_some (tok : BBPETokenizer) (i : Z) (t : list Z) :
  token_text tok i = Some t <->
  0 <= i < vocab_size tok /\ id_to_token tok !! Z.to_nat i = Some (Some t).
Proof.
  unfold token_text.
  destruct (i <? 0) eqn:Hneg; [apply Z.ltb_lt in Hneg|apply Z.ltb_ge in Hneg];
    cbn [orb].
  { split; [discriminate|intros [? _]; lia]. }
  destruct (vocab_size tok <=? i) eqn:Hhi;
    [apply Z.leb_le in Hhi|apply Z.leb_gt in Hhi].
  { split; [discriminate|intros [? _]; lia]. }
  destruct (id_to_token tok !! Z.to_nat i) as [[s|]|]; cbn [default];
    split; try discriminate; try (intros [_ [=]]; fail).
  - intros [= ->]. split; [lia|reflexivity].
  - intros [_ [= ->]]. reflexivity.
Qed.

(** Growing the tables by [k] empty slots. *)
Lemma grow_extends (tok tok' : BBPETokenizer) (k : nat) :
  sized tok ->
  vocab_map tok' = vocab_map tok ->
  unicode_to_byte tok' = unicode_to_byte tok ->
  byte_vocab_strs tok' = byte_vocab_strs tok ->
  pre_tokenizers tok' = pre_tokenizers tok ->
  rule_rows tok' = rule_rows tok ++ replicate k {| items := [] |} ->
  id_to_token tok' = id_to_token tok ++ replicate k None ->
  vocab_size tok' = vocab_size tok + Z.of_nat k ->
  sized tok' /\ extends tok tok'.
Proof.
  intros (Hpos & Hidt & Hrows) Hvm Hu Hs Hp Hrows' Hidt' Hsize'.
  split.
  - unfold sized. rewrite Hrows', Hidt', Hsize', !length_app, !length_replicate.
    lia.
  - split; try assumption.
    + intros i t Ht. apply token_text_some in Ht as [Hi Hl].
      apply token_text_some. split; [lia|].
      rewrite Hidt'. apply lookup_app_l_Some, Hl.
    + intros l r [n p] Hfind. revert Hfind. unfold find_merge_rule.
      rewrite Hsize', Hrows'.
      destruct (l <? 0) eqn:Hneg; [discriminate|]. apply Z.ltb_ge in Hneg.
      cbn [orb].
      destruct (vocab_size tok + Z.of_nat k <=? l); [discriminate|].
      destruct (vocab_size tok <=? l) eqn:Hhi;
        [apply Z.leb_le in Hhi|apply Z.leb_gt in Hhi].
      * assert (Hrow : default {| items := [] |}
                         ((rule_rows tok ++ replicate k {| items := [] |})
                            !! Z.to_nat l) = {| items := [] |}).
        { rewrite lookup_app_r by lia.
          destruct (replicate k {| items := [] |} !! _) as [row|] eqn:Hrow;
            [|reflexivity].
          apply lookup_replicate in Hrow as [-> _]. reflexivity. }
        rewrite Hrow. discriminate.
      * rewrite lookup_app_l by lia. auto.
Qed.

(** Writing a string into a slot that holds none. *)
Lemma insert_extends (tok tok' : BBPETokenizer) (i : nat) (c : list Z) :
  sized tok ->
  vocab_map tok' = vocab_map tok ->
  unicode_to_byte tok' = unicode_to_byte tok ->
  byte_vocab_strs tok' = byte_vocab_strs tok ->
  pre_tokenizers tok' = pre_tokenizers tok ->
  rule_rows tok' = rule_rows tok ->
  vocab_size tok' = vocab_size tok ->
  default None (id_to_token tok !! i) = None ->
  id_to_token tok' = <[i := Some c]> (id_to_token tok) ->
  sized tok' /\ extends tok tok'.
Proof.
  intros (Hpos & Hidt & Hrows) Hvm Hu Hs Hp Hrows' Hsize' Hnone Hidt'.
  split.
  - unfold sized. rewrite Hrows', Hidt', Hsize', length_insert. auto.
  - split; try assumption.
    + intros j t Ht. apply token_text_some in Ht as [Hj Hl].
      apply token_text_some. rewrite Hsize', Hidt'. split; [exact Hj|].
      rewrite list_lookup_insert_ne; [exact Hl|].
      intros Heq. rewrite <- Heq in Hl. rewrite Hl in Hnone. discriminate.
    + intros l r x. unfold find_merge_rule. rewrite Hsize', Hrows'. auto.
Qed.

Lemma added_token_body_extends (tok tok' : BBPETokenizer) (token_obj : cJSON) :
  sized tok ->
  added_token_body (Some tok) token_obj = Some tok' ->
  sized tok' /\ extends tok tok'.
Proof.
  intros Hs. unfold added_token_body.
  destruct (cJSON_GetObjectItem token_obj "content") as [[| | | |content| |]|];
    try (intros [= <-]; split; [exact Hs|apply extends_refl]).
  destruct (cJSON_GetObjectItem token_obj "id") as [[| | |sid| | |]|];
    try (intros [= <-]; split; [exact Hs|apply extends_refl]).
  destruct (sid <? 0) eqn:Hneg; [discriminate|]. apply Z.ltb_ge in Hneg.
  cbn [orb]. destruct (INT32_MAX <=? sid); [discriminate|].
  match goal with
  | |- context [default None (id_to_token ?g !! _)] => set (grown := g)
  end.
  assert (Hg : sized grown /\ extends tok grown).
  { subst grown. destruct (vocab_size tok <=? sid) eqn:Hle;
      [apply Z.leb_le in Hle|split; [exact Hs|apply extends_refl]].
    eapply grow_extends; try reflexivity; [exact Hs|].
    cbn [vocab_size]. destruct Hs as [Hpos _]. lia. }
  destruct Hg as [Hgs Hge].
  destruct (default None (id_to_token grown !! Z.to_nat sid)) eqn:Hslot.
  - intros [= <-]. auto.
  - intros [= Htok'].
    destruct (insert_extends grown tok' (Z.to_nat sid) (strdup content) Hgs)
      as [Hs' He']; try (subst tok'; reflexivity); [exact Hslot|].
    split; [exact Hs'|]. eapply extends_trans; eassumption.
Qed.

Lemma load_added_tokens_extends (root : cJSON) (tok tok' : BBPETokenizer) :
  sized tok ->
  load_added_tokens root tok = Some tok' ->
  sized tok' /\ extends tok tok'.
Proof.
  unfold load_added_tokens. intros Hs.
  destruct (cJSON_GetObjectItem root "added_tokens") as [[| | | | |added|]|];
    try (intros [= <-]; split; [exact Hs|apply extends_refl]).
  revert tok Hs. induction added as [|a added IH]; intros tok Hs; cbn [foldl].
  - intros [= <-]. split; [exact Hs|apply extends_refl].
  - destruct (added_token_body (Some tok) a) as [tok1|] eqn:Hbody.
    + intros Hrest.
      destruct (added_token_body_extends _ _ _ Hs Hbody) as [Hs1 He1].
      destruct (IH tok1 Hs1 Hrest) as [Hs2 He2].
      split; [exact Hs2|]. eapply extends_trans; eassumption.
    + intros Hnone. exfalso. clear -Hnone.
      induction added as [|b added IHa]; cbn [foldl] in Hnone;
        [discriminate|auto].
Qed.

(** A tokenizer that extends one with the invariants has them. *)
Lemma extends_well_formed (tok tok' : BBPETokenizer) :
  extends tok tok' ->
  unicode_to_byte tok = bm_unicode_to_byte init_byte_mappings ->
  byte_vocab_strs tok = precompute_byte_strings init_byte_mappings ->
  (forall e, In e (vocab_map tok) ->
     token_text tok (VocabEntry.id e) = Some (VocabEntry.token e)) ->
  merges_closed tok ->
  well_formed tok'.
Proof.
  intros [Hvm Hu Hs Hp Ht Hf] Hu0 Hs0 Hvocab Hclosed. split.
  - congruence.
  - congruence.
  - intros e He. rewrite Hvm in He. apply Ht, Hvocab, He.
  - intros l r n p tl tr Hfind Hl Hr. apply Hf in Hfind.
    destruct (Hclosed l r n p Hfind) as (tl0 & tr0 & Hl0 & Hr0 & Hn0).
    apply Ht in Hl0, Hr0, Hn0. congruence.
Qed.

End Extension.

Section LoadedTokenizer.
Context `{RE : RegexEngine} `{SO : Sorter} {SOL : SorterLaws}.

(** The rules of the table built by [load_merges] join strings of the
    vocabulary. *)
Lemma load_merges_closed (model : cJSON) (tok : BBPETokenizer) (V : Z)
    (mc : nat) :
  0 <= V ->
  load_merges model (vocab_map tok) V = Some (mc, rule_rows tok) ->
  (forall e, In e (vocab_map tok) ->
     token_text tok (VocabEntry.id e) = Some (VocabEntry.token e)) ->
  merges_closed tok.
Proof.
  intros HV Hload Hvocab l r n p Hfind.
  apply find_merge_rule_row in Hfind
    as (Hl & row & it & Hrow & Hit & Hr & Hn & _).
  unfold load_merges in Hload.
  destruct (cJSON_GetObjectItem model "merges") as [[| | | | |merges|]|];
    try (injection Hload as _ Hrows; rewrite <- Hrows in Hrow;
         apply lookup_replicate in Hrow as [-> _]; destruct Hit).
  destruct (build_rule_rows _ _) as [rows|] eqn:Hbuild; [|discriminate].
  injection Hload as _ Hrows. subst rows.
  destruct (build_rule_rows_spec _ _ _ HV Hbuild) as (_ & Hitems & _).
  rewrite (Hitems _ _ Hrow) in Hit.
  assert (Hin : In it (bucket l (collect_merges (vocab_map tok)
                                   (cJSON_Array merges)))).
  { rewrite Z2Nat.id in Hit by lia.
    destruct (0 <? length _)%nat; [|exact Hit].
    eapply Permutation_in; [|exact Hit].
    apply Permutation_sym, qsort_permutation. }
  apply in_bucket in Hin as (rec & Hrec & Hleft & ->).
  apply collect_merges_joins in Hrec
    as (le & re & me & Hle & Hre & Hme & Hidl & Hidr & Hidm & Htok).
  cbn [item_of_record right_id new_id] in Hr, Hn.
  exists (VocabEntry.token le), (VocabEntry.token re).
  rewrite <- Hleft, <- Hidl, <- Hr, <- Hidr, <- Hn, <- Hidm, <- Htok.
  auto.
Qed.

Lemma parse_pre_tokenizer_node_loaded (obj : cJSON) (node : PreTokenizerNode) :
  parse_pre_tokenizer_node obj = inr node -> loaded_node node.
Proof.
  unfold parse_pre_tokenizer_node.
  destruct (cJSON_GetObjectItem obj "type") as [[| | | |type| |]|];
    try discriminate.
  destruct (bytes_eqb (strdup type) (bytes_of_string "ByteLevel")).
  { intros [= <-]. left. eexists. reflexivity. }
  destruct (bytes_eqb (strdup type) (bytes_of_string "Split")); [|discriminate].
  destruct (cJSON_GetObjectItem obj "pattern") as [pattern_obj|]; [|discriminate].
  destruct (cJSON_GetObjectItem pattern_obj "Regex") as [[| | | |regex| |]|];
    try discriminate.
  destruct (pcre2_compile (strdup regex)) as [code|]; [|discriminate].
  intros [= <-]. right. eexists _, _. reflexivity.
Qed.

Lemma parse_sequence_loaded (items : list cJSON) (head nodes : list PreTokenizerNode) :
  Forall loaded_node head ->
  parse_sequence items head = inr nodes -> Forall loaded_node nodes.
Proof.
  revert head. induction items as [|item items IH]; intros head Hhead;
    cbn [parse_sequence].
  - intros [= <-]. exact Hhead.
  - destruct (parse_pre_tokenizer_node item) as [st|node] eqn:Hnode;
      [discriminate|].
    apply IH. apply Forall_app. split; [exact Hhead|].
    constructor; [|constructor]. eapply parse_pre_tokenizer_node_loaded, Hnode.
Qed.

Lemma load_pre_tokenizers_loaded (root : cJSON) (head : list PreTokenizerNode) :
  load_pre_tokenizers root = inr head -> Forall loaded_node head.
Proof.
  unfold load_pre_tokenizers.
  destruct (cJSON_GetObjectItem root "pre_tokenizer") as [pre_tok|];
    [|intros [= <-]; constructor].
  destruct (cJSON_GetObjectItem pre_tok "type") as [[| | | |type| |]|];
    try (intros [= <-]; constructor).
  destruct (bytes_eqb (strdup type) (bytes_of_string "Sequence")).
  - destruct (cJSON_GetObjectItem pre_tok "pretokenizers")
      as [[| | | | |pretokenizers|]|]; try (intros [= <-]; constructor).
    apply parse_sequence_loaded. constructor.
  - destruct (parse_pre_tokenizer_node pre_tok) as [st|node] eqn:Hnode;
      [discriminate|].
    intros [= <-]. constructor; [|constructor].
    eapply parse_pre_tokenizer_node_loaded, Hnode.
Qed.

(** A loaded chain without a node that adds a prefix space is plain. *)
Lemma loaded_chain_plain (nodes : list PreTokenizerNode) :
  Forall loaded_node nodes ->
  Forall (fun node => node <> PRE_TOKENIZER_BYTE_LEVEL true) nodes ->
  Forall plain_node nodes.
Proof.
  intros Hl Hn. rewrite List.Forall_forall in *. intros node Hin.
  specialize (Hl node Hin). specialize (Hn node Hin).
  destruct Hl as [[[] ->]|Hsplit]; [congruence|left; reflexivity|right; exact Hsplit].
Qed.

(** A tokenizer that [bbpe_init] built from a vocabulary of distinct ids,
    none of them negative, has the invariants of the round trip, and its
    chain holds the nodes of the parser. *)
Lemma loaded_well_formed (root : cJSON) (tok : BBPETokenizer) :
  bbpe_init_root root = Some (BBPE_OK, Some tok) ->
  NoDup (map VocabEntry.id (vocab_map tok)) ->
  Forall (fun e => 0 <= VocabEntry.id e) (vocab_map tok) ->
  well_formed tok /\ Forall loaded_node (pre_tokenizers tok).
Proof.
  intros Hinit Hnd Hpos.
  destruct (bbpe_init_root_ok root tok Hinit)
    as (model & vocab & mc & rows & head & _ & _ & Hmax & Hmerges
        & Hpre & Hadded).
  set (V := snd (load_vocab vocab) + 1) in *.
  set (vm := fst (load_vocab vocab)) in *.
  match type of Hadded with
  | load_added_tokens _ ?t = _ => set (base := t) in *
  end.
  assert (HV : 0 <= V) by (subst V; lia).
  assert (Hsized : sized base).
  { unfold sized, base. cbn [vocab_size id_to_token rule_rows].
    split; [exact HV|]. split.
    - rewrite length_id_to_token_fold. apply length_replicate.
    - unfold load_merges in Hmerges.
      destruct (cJSON_GetObjectItem model "merges") as [[| | | | |merges|]|];
        try (injection Hmerges as _ <-; apply length_replicate).
      destruct (build_rule_rows _ _) as [rows0|] eqn:Hbuild; [|discriminate].
      injection Hmerges as _ <-.
      apply (build_rule_rows_spec _ _ _ HV Hbuild). }
  destruct (load_added_tokens_extends _ _ _ Hsized Hadded) as [_ Hext].
  pose proof (ext_vocab_map _ _ Hext) as Hvm. cbn [base vocab_map] in Hvm.
  rewrite Hvm in Hnd, Hpos.
  assert (Hvocab : forall e, In e (vocab_map base) ->
            token_text base (VocabEntry.id e) = Some (VocabEntry.token e)).
  { cbn [base vocab_map]. intros e He.
    assert (Hrange : forall e', In e' vm -> 0 <= VocabEntry.id e' < V).
    { intros e' He'. split.
      - rewrite List.Forall_forall in Hpos. apply Hpos, He'.
      - pose proof (load_vocab_max vocab e' He'). subst V. lia. }
    apply token_text_some. split; [apply Hrange, He|].
    cbn [base id_to_token]. apply id_to_token_fold_spec; auto.
    apply length_replicate. }
  split.
  - apply (extends_well_formed base tok Hext); [reflexivity|reflexivity|exact Hvocab|].
    apply (load_merges_closed model base V mc HV); [exact Hmerges|exact Hvocab].
  - rewrite (ext_pre_tokenizers _ _ Hext). cbn [base pre_tokenizers].
    apply load_pre_tokenizers_loaded with (root := root), Hpre.
Qed.

End LoadedTokenizer.

(** ** The round trips of the specification *)

Section RoundTripClaims.
Context `{RE : RegexEngine} {REL : RegexEngineLaws} `{SO : Sorter} {SOL : SorterLaws}.

(** It is enough to look for special tokens at the offsets inside the
    text. *)
Lemma no_special_inside_bounded (tok : BBPETokenizer) (text : list Z) :
  Forall (fun q =>
            Forall (fun e => ~ special_matches e (drop q (strdup text)))
              (special_tokens_map tok))
    (seq 0 (S (length (strdup text)))) ->
  no_special_inside tok text.
Proof.
  intros Hall q e He.
  rewrite List.Forall_forall in Hall.
  destruct (le_lt_dec q (length (strdup text))) as [Hq|Hq].
  - specialize (Hall q). rewrite List.Forall_forall in Hall.
    apply Hall; [apply in_seq; lia|exact He].
  - rewrite drop_ge by lia. intros [Hne Hpre]. apply Hne.
    apply prefix_nil_inv, Hpre.
Qed.

Lemma strdup_nil_char_at (text : list Z) : strdup text = [] -> char_at text 0 = 0.
Proof.
  intros Hnil. pose proof (char_at_strlen text) as Hend.
  rewrite <- length_strdup, Hnil in Hend. exact Hend.
Qed.

(** C3, as the code has it.  The tokenizer was loaded by [bbpe_init] from
    a vocabulary whose ids are distinct and not negative, and its chain
    has no ByteLevel node that adds a prefix space; the text holds no
    special token and the vocabulary has the byte-alphabet token of each
    of its bytes.  Then [bbpe_encode] returns [BBPE_OK], and [bbpe_decode]
    of the ids returns the text when the text is not empty; for the empty
    text there are no ids and [bbpe_decode] answers
    [BBPE_ERR_INVALID_INPUT], leaving the caller's pointer as it was. *)
Theorem decode_after_encode (root : cJSON) (tok : BBPETokenizer)
    (text : list Z) (o : BBPEOutput.t) (t : option (list Z)) :
  bbpe_init_root root = Some (BBPE_OK, Some tok) ->
  NoDup (map VocabEntry.id (vocab_map tok)) ->
  Forall (fun e => 0 <= VocabEntry.id e) (vocab_map tok) ->
  Forall (fun node => node <> PRE_TOKENIZER_BYTE_LEVEL true) (pre_tokenizers tok) ->
  Forall (fun b => 0 <= b <= 255) text ->
  bytes_known tok text ->
  no_special_inside tok text ->
  exists out,
    bbpe_encode (Some tok) (Some text) (Some o) = (BBPE_OK, Some out)
    /\ counted out
    /\ (strdup text <> [] ->
        bbpe_decode (Some tok) (Some (BBPEOutput.ids out)) (BBPEOutput.count out)
          (Some t)
        = (BBPE_OK, Some (Some (strdup text))))
    /\ (strdup text = [] ->
        out = empty_output
        /\ bbpe_decode (Some tok) (Some (BBPEOutput.ids out)) (BBPEOutput.count out)
             (Some t)
           = (BBPE_ERR_INVALID_INPUT, Some t)).
Proof.
  intros Hinit Hnd Hpos Hchain Hrange Hknown Hnone.
  destruct (loaded_well_formed root tok Hinit Hnd Hpos) as [Hwf Hloaded].
  pose proof (loaded_chain_plain _ Hloaded Hchain) as Hplain.
  destruct (strdup text) as [|c s] eqn:Htext.
  - exists empty_output.
    assert (Henc : bbpe_encode (Some tok) (Some text) (Some o)
                   = (BBPE_OK, Some empty_output)).
    { unfold bbpe_encode.
      rewrite (extract_special_tokens_at_nul tok text)
        by (apply strdup_nil_char_at, Htext).
      reflexivity. }
    split; [exact Henc|]. split; [reflexivity|]. split; [congruence|].
    intros _. split; reflexivity.
  - destruct (round_trip tok text o t Hwf Hplain Hrange Hknown Hnone)
      as (out & Henc & Hcount & _ & Hdec); [rewrite Htext; discriminate|].
    exists out. split; [exact Henc|]. split; [exact Hcount|].
    split; [|discriminate]. intros _. rewrite <- Htext. exact Hdec.
Qed.


End RoundTripClaims.

Lemma decode_after_encode_witness :
  exists out,
    bbpe_encode (Some hello_tokenizer) (Some (bytes_of_string "say hello"))
      (Some empty_output) = (BBPE_OK, Some out)
    /\ BBPEOutput.ids out = [115; 97; 121; 32; 259]
    /\ bbpe_decode (Some hello_tokenizer) (Some (BBPEOutput.ids out))
         (BBPEOutput.count out) (Some None)
       = (BBPE_OK, Some (Some (bytes_of_string "say hello"))).
Proof.
  destruct (decode_after_encode (RE := sample_engine) (SO := insertion_sorter)
              hello_json hello_tokenizer (bytes_of_string "say hello")
              empty_output None)
    as (out & Henc & _ & Hdec & _).
  - vm_compute. reflexivity.
  - apply (bool_decide_unpack _). vm_compute. reflexivity.
  - apply (bool_decide_unpack _). vm_compute. reflexivity.
  - vm_compute. repeat (constructor; [discriminate|]). constructor.
  - apply (bool_decide_unpack _). vm_compute. reflexivity.
  - apply (bool_decide_unpack _). vm_compute. reflexivity.
  - apply no_special_inside_bounded.
    apply (bool_decide_unpack _). vm_compute. reflexivity.
  - exists out. split; [exact Henc|]. split.
    + assert (Hout : bbpe_encode (Some hello_tokenizer)
                       (Some (bytes_of_string "say hello")) (Some empty_output)
                     = (BBPE_OK,
                        Some {| BBPEOutput.ids := [115; 97; 121; 32; 259];
                                BBPEOutput.count := 5 |}))
        by (vm_compute; reflexivity).
      rewrite Hout in Henc. injection Henc as <-. reflexivity.
    + apply Hdec. vm_compute. discriminate.
Defined.

(** C3, as stated, fails in two ways.  The empty text is encoded to no
    ids, and [bbpe_decode] refuses a count of 0.  With a ByteLevel node
    that adds a prefix space the text comes back with a space in front
    of it. *)
Lemma round_trip_fails_when_empty_or_prefixed :
  bbpe_encode (Some hello_tokenizer) (Some []) (Some empty_output)
  = (BBPE_OK, Some empty_output)
  /\ bbpe_decode (Some hello_tokenizer) (Some (BBPEOutput.ids empty_output))
       (BBPEOutput.count empty_output) (Some None)
     = (BBPE_ERR_INVALID_INPUT, Some None)
  /\ special_tokens_map prefix_space_tokenizer = []
  /\ exists out,
       bbpe_encode (Some prefix_space_tokenizer) (Some (bytes_of_string "hi you"))
         (Some empty_output) = (BBPE_OK, Some out)
       /\ bbpe_decode (Some prefix_space_tokenizer) (Some (BBPEOutput.ids out))
            (BBPEOutput.count out) (Some None)
          = (BBPE_OK, Some (Some (bytes_of_string " hi you")))
       /\ bytes_of_string " hi you" <> bytes_of_string "hi you".
Proof.
  split; [vm_compute; reflexivity|]. split; [vm_compute; reflexivity|].
  split; [vm_compute; reflexivity|].
  eexists. split; [vm_compute; reflexivity|].
  split; [vm_compute; reflexivity|]. vm_compute. discriminate.
Qed.



(** ** Encoding and then decoding *)

Section RoundTrip.
Context `{RE : RegexEngine} {REL : RegexEngineLaws} `{SO : Sorter} {SOL : SorterLaws}.

(** X1. A text that [bbpe_init]'s tokenizer can encode byte by byte comes
    back from [bbpe_decode]. The tokenizer was loaded from a vocabulary
    whose ids are distinct and not negative, and its chain has no
    ByteLevel node that adds a prefix space; the text, read up to its
    terminator, is not empty, has the byte-alphabet token of each of its
    bytes in the vocabulary, and no special token occurs in it. Then
    [bbpe_encode] returns [BBPE_OK] with as many ids as it counts, and
    [bbpe_decode] of these ids returns [BBPE_OK] and the text. *)
Theorem encode_decode_round_trip (root : cJSON) (tok : BBPETokenizer)
    (text : list Z) (o : BBPEOutput.t) (t : option (list Z)) :
  bbpe_init_root root = Some (BBPE_OK, Some tok) ->
  NoDup (map VocabEntry.id (vocab_map tok)) ->
  Forall (fun e => 0 <= VocabEntry.id e) (vocab_map tok) ->
  Forall (fun node => node <> PRE_TOKENIZER_BYTE_LEVEL true) (pre_tokenizers tok) ->
  Forall (fun b => 0 <= b <= 255) text ->
  bytes_known tok text ->
  no_special_inside tok text ->
  strdup text <> [] ->
  exists out,
    bbpe_encode (Some tok) (Some text) (Some o) = (BBPE_OK, Some out)
    /\ BBPEOutput.count out = length (BBPEOutput.ids out)
    /\ bbpe_decode (Some tok) (Some (BBPEOutput.ids out)) (BBPEOutput.count out)
         (Some t)
       = (BBPE_OK, Some (Some (strdup text))).
Proof.
  intros Hinit Hnd Hpos Hchain Hrange Hknown Hnone Hne.
  destruct (loaded_well_formed root tok Hinit Hnd Hpos) as [Hwf Hloaded].
  pose proof (loaded_chain_plain _ Hloaded Hchain) as Hplain.
  destruct (round_trip tok text o t Hwf Hplain Hrange Hknown Hnone Hne)
    as (out & Henc & Hcount & _ & Hdec).
  exists out. auto.
Qed.

End RoundTrip.

Lemma encode_decode_round_trip_witness :
  exists out,
    bbpe_encode (Some hello_tokenizer) (Some (bytes_of_string "hello world"))
      (Some empty_output) = (BBPE_OK, Some out)
    /\ BBPEOutput.count out = length (BBPEOutput.ids out)
    /\ bbpe_decode (Some hello_tokenizer) (Some (BBPEOutput.ids out))
         (BBPEOutput.count out) (Some None)
       = (BBPE_OK, Some (Some (strdup (bytes_of_string "hello world")))).
Proof.
  apply (encode_decode_round_trip hello_json).
  - vm_compute. reflexivity.
  - apply (bool_decide_unpack _). vm_compute. reflexivity.
  - apply (bool_decide_unpack _). vm_compute. reflexivity.
  - vm_compute. repeat (constructor; [discriminate|]). constructor.
  - apply (bool_decide_unpack _). vm_compute. reflexivity.
  - apply (bool_decide_unpack _). vm_compute. reflexivity.
  - apply no_special_inside_bounded.
    apply (bool_decide_unpack _). vm_compute. reflexivity.
  - vm_compute. discriminate.
Defined.

(** ** UTF-8 *)

(** A property of every number below [n] that holds of each of them. *)
Lemma below_all (P : Z -> bool) (n : nat) :
  forallb P (map Z.of_nat (seq 0 n)) = true ->
  forall x, 0 <= x < Z.of_nat n -> P x = true.
Proof.
  intros Hall x Hx. rewrite forallb_forall in Hall. apply Hall.
  apply in_map_iff. exists (Z.to_nat x). split; [lia|].
  apply in_seq. lia.
Qed.

(** [a * 2^k] and a number below [2^k] have no bit in common. *)
Lemma lor_add (x y k : Z) :
  0 <= k -> 0 <= y < 2 ^ k -> Z.lor (x * 2 ^ k) y = x * 2 ^ k + y.
Proof.
  intros Hk Hy.
  assert (Hland : Z.land (x * 2 ^ k) y = 0).
  { apply Z.bits_inj'. intros n Hn. rewrite Z.land_spec, Z.bits_0.
    destruct (Z.ltb_spec n k) as [Hlt|Hge].
    - rewrite Z.mul_pow2_bits_low by lia. reflexivity.
    - destruct (Z.eq_dec y 0) as [->|Hy0];
        [rewrite Z.bits_0; apply andb_false_r|].
      rewrite (Z.bits_above_log2 y n); [apply andb_false_r|lia|].
      assert (Z.log2 y < k) by (apply Z.log2_lt_pow2; lia). lia. }
  rewrite <- Z.lxor_lor by exact Hland.
  symmetry. apply Z.add_nocarry_lxor, Hland.
Qed.

(** The continuation byte of six bits, and the lead bytes of five, four
    and three. *)
Lemma continuation_byte (l : Z) :
  0 <= l < 64 ->
  to_char (Z.lor 0x80 l) = 128 + l
  /\ Z.land (128 + l) 0xC0 = 0x80 /\ Z.land (128 + l) 0x3F = l.
Proof.
  intros Hl.
  pose proof (below_all
                (fun l => (to_char (Z.lor 0x80 l) =? 128 + l)
                          && (Z.land (128 + l) 0xC0 =? 0x80)
                          && (Z.land (128 + l) 0x3F =? l)) 64) as H.
  specialize (H ltac:(vm_compute; reflexivity) l Hl).
  apply andb_prop in H as [H H3]. apply andb_prop in H as [H1 H2].
  rewrite Z.eqb_eq in *. auto.
Qed.

Lemma lead_byte_2 (h : Z) :
  0 <= h < 32 ->
  to_char (Z.lor 0xC0 h) = 192 + h
  /\ Z.land (192 + h) 0xE0 = 0xC0 /\ Z.land (192 + h) 0x1F = h.
Proof.
  intros Hh.
  pose proof (below_all
                (fun h => (to_char (Z.lor 0xC0 h) =? 192 + h)
                          && (Z.land (192 + h) 0xE0 =? 0xC0)
                          && (Z.land (192 + h) 0x1F =? h)) 32) as H.
  specialize (H ltac:(vm_compute; reflexivity) h Hh).
  apply andb_prop in H as [H H3]. apply andb_prop in H as [H1 H2].
  rewrite Z.eqb_eq in *. auto.
Qed.

Lemma lead_byte_3 (h : Z) :
  0 <= h < 16 ->
  to_char (Z.lor 0xE0 h) = 224 + h
  /\ Z.land (224 + h) 0xE0 = 0xE0 /\ Z.land (224 + h) 0xF0 = 0xE0
  /\ Z.land (224 + h) 0x0F = h.
Proof.
  intros Hh.
  pose proof (below_all
                (fun h => (to_char (Z.lor 0xE0 h) =? 224 + h)
                          && (Z.land (224 + h) 0xE0 =? 0xE0)
                          && (Z.land (224 + h) 0xF0 =? 0xE0)
                          && (Z.land (224 + h) 0x0F =? h)) 16) as H.
  specialize (H ltac:(vm_compute; reflexivity) h Hh).
  apply andb_prop in H as [H H4]. apply andb_prop in H as [H H3].
  apply andb_prop in H as [H1 H2].
  rewrite Z.eqb_eq in *. auto.
Qed.

Lemma lead_byte_4 (h : Z) :
  0 <= h < 8 ->
  to_char (Z.lor 0xF0 h) = 240 + h
  /\ Z.land (240 + h) 0xE0 = 0xE0 /\ Z.land (240 + h) 0xF0 = 0xF0
  /\ Z.land (240 + h) 0xF8 = 0xF0 /\ Z.land (240 + h) 0x07 = h.
Proof.
  intros Hh.
  pose proof (below_all
                (fun h => (to_char (Z.lor 0xF0 h) =? 240 + h)
                          && (Z.land (240 + h) 0xE0 =? 0xE0)
                          && (Z.land (240 + h) 0xF0 =? 0xF0)
                          && (Z.land (240 + h) 0xF8 =? 0xF0)
                          && (Z.land (240 + h) 0x07 =? h)) 8) as H.
  specialize (H ltac:(vm_compute; reflexivity) h Hh).
  apply andb_prop in H as [H H5]. apply andb_prop in H as [H H4].
  apply andb_prop in H as [H H3]. apply andb_prop in H as [H1 H2].
  rewrite Z.eqb_eq in *. auto.
Qed.

Lemma char_at_0 (x : Z) (s : list Z) : char_at (x :: s) 0 = x.
Proof. reflexivity. Qed.

Lemma char_at_S (x : Z) (s : list Z) (n : nat) :
  char_at (x :: s) (S n) = char_at s n.
Proof. reflexivity. Qed.

Lemma land_low_six (x : Z) : Z.land x 0x3F = x mod 64.
Proof. change 0x3F with (Z.ones 6). rewrite Z.land_ones by lia. reflexivity. Qed.

(** X2. [utf8_decode] reads back what [utf8_encode] wrote, for every code
    point of at most 21 bits, whatever follows it. *)
Theorem utf8_decode_encode (cp : Z) (rest : list Z) :
  0 <= cp < 0x200000 ->
  utf8_decode (utf8_encode cp ++ rest) = Some (cp, length (utf8_encode cp)).
Proof.
  intros Hcp. unfold utf8_encode.
  rewrite !land_low_six, !Z.shiftr_div_pow2 by lia.
  change (2 ^ 6) with 64. change (2 ^ 12) with 4096. change (2 ^ 18) with 262144.
  destruct (Z.ltb_spec cp 0x80) as [H1|H1].
  { unfold utf8_decode. cbn [app length].
    rewrite ?char_at_S, ?char_at_0.
    unfold to_char. rewrite Z.mod_small by lia.
    destruct (Z.ltb_spec cp 0x80); [reflexivity|lia]. }
  destruct (Z.ltb_spec cp 0x800) as [H2|H2].
  { destruct (lead_byte_2 (cp / 64)) as (E0 & A0 & B0);
      [split; [apply Z.div_pos; lia|apply Z.div_lt_upper_bound; lia]|].
    destruct (continuation_byte (cp mod 64)) as (E1 & A1 & B1);
      [apply Z.mod_pos_bound; lia|].
    rewrite E0, E1. unfold utf8_decode. cbn [app length].
    rewrite ?char_at_S, ?char_at_0.
    destruct (Z.ltb_spec (192 + cp / 64) 0x80) as [Hlt|_];
      [assert (0 <= cp / 64) by (apply Z.div_pos; lia); lia|].
    rewrite A0, A1, B0, B1. cbn [Z.eqb negb Pos.eqb].
    rewrite Z.shiftl_mul_pow2 by lia.
    rewrite lor_add by (try lia; apply Z.mod_pos_bound; lia).
    f_equal. f_equal. change (2 ^ 6) with 64.
    pose proof (Z.div_mod cp 64). lia. }
  destruct (Z.ltb_spec cp 0x10000) as [H3|H3].
  { destruct (lead_byte_3 (cp / 4096)) as (E0 & A0 & A0' & B0);
      [split; [apply Z.div_pos; lia|apply Z.div_lt_upper_bound; lia]|].
    destruct (continuation_byte ((cp / 64) mod 64)) as (E1 & A1 & B1);
      [apply Z.mod_pos_bound; lia|].
    destruct (continuation_byte (cp mod 64)) as (E2 & A2 & B2);
      [apply Z.mod_pos_bound; lia|].
    rewrite E0, E1, E2. unfold utf8_decode. cbn [app length].
    rewrite ?char_at_S, ?char_at_0.
    destruct (Z.ltb_spec (224 + cp / 4096) 0x80) as [Hlt|_];
      [assert (0 <= cp / 4096) by (apply Z.div_pos; lia); lia|].
    rewrite A0, A0', A1, A2, B0, B1, B2. cbn [Z.eqb negb Pos.eqb orb].
    rewrite !Z.shiftl_mul_pow2 by lia.
    pose proof (Z.mod_pos_bound (cp / 64) 64 ltac:(lia)) as Hm.
    pose proof (Z.mod_pos_bound cp 64 ltac:(lia)) as Hl.
    rewrite (lor_add (cp / 4096) _ 12) by (change (2 ^ 6) with 64;
                                            change (2 ^ 12) with 4096; lia).
    replace (cp / 4096 * 2 ^ 12 + (cp / 64) mod 64 * 2 ^ 6)
      with ((cp / 4096 * 64 + (cp / 64) mod 64) * 2 ^ 6)
      by (change (2 ^ 6) with 64; change (2 ^ 12) with 4096; lia).
    rewrite lor_add by (change (2 ^ 6) with 64; lia).
    f_equal. f_equal. change (2 ^ 6) with 64.
    pose proof (Z.div_mod cp 64). pose proof (Z.div_mod (cp / 64) 64).
    rewrite Z.div_div in * by lia. change (64 * 64) with 4096 in *. lia. }
  destruct (lead_byte_4 (cp / 262144)) as (E0 & A0 & A0' & A0'' & B0);
    [split; [apply Z.div_pos; lia|apply Z.div_lt_upper_bound; lia]|].
  destruct (continuation_byte ((cp / 4096) mod 64)) as (E1 & A1 & B1);
    [apply Z.mod_pos_bound; lia|].
  destruct (continuation_byte ((cp / 64) mod 64)) as (E2 & A2 & B2);
    [apply Z.mod_pos_bound; lia|].
  destruct (continuation_byte (cp mod 64)) as (E3 & A3 & B3);
    [apply Z.mod_pos_bound; lia|].
  rewrite E0, E1, E2, E3. unfold utf8_decode. cbn [app length].
  rewrite ?char_at_S, ?char_at_0.
  destruct (Z.ltb_spec (240 + cp / 262144) 0x80) as [Hlt|_];
    [assert (0 <= cp / 262144) by (apply Z.div_pos; lia); lia|].
  rewrite A0, A0', A0'', A1, A2, A3, B0, B1, B2, B3.
  cbn [Z.eqb negb Pos.eqb orb].
  rewrite !Z.shiftl_mul_pow2 by lia.
  pose proof (Z.mod_pos_bound (cp / 4096) 64 ltac:(lia)) as Hn.
  pose proof (Z.mod_pos_bound (cp / 64) 64 ltac:(lia)) as Hm.
  pose proof (Z.mod_pos_bound cp 64 ltac:(lia)) as Hl.
  change (2 ^ 6) with 64. change (2 ^ 12) with 4096. change (2 ^ 18) with 262144.
  change 262144 with (2 ^ 18) at 2.
  rewrite (lor_add (cp / 262144) _ 18) by (change (2 ^ 18) with 262144; lia).
  replace (cp / 262144 * 2 ^ 18 + (cp / 4096) mod 64 * 4096)
    with ((cp / 262144 * 64 + (cp / 4096) mod 64) * 2 ^ 12)
    by (change (2 ^ 18) with 262144; change (2 ^ 12) with 4096; lia).
  rewrite lor_add by (change (2 ^ 12) with 4096; lia).
  replace ((cp / 262144 * 64 + (cp / 4096) mod 64) * 2 ^ 12 + (cp / 64) mod 64 * 64)
    with (((cp / 262144 * 64 + (cp / 4096) mod 64) * 64 + (cp / 64) mod 64) * 2 ^ 6)
    by (change (2 ^ 6) with 64; change (2 ^ 12) with 4096; lia).
  rewrite lor_add by (change (2 ^ 6) with 64; lia).
  f_equal. f_equal. change (2 ^ 6) with 64.
  pose proof (Z.div_mod cp 64). pose proof (Z.div_mod (cp / 64) 64).
  pose proof (Z.div_mod (cp / 64 / 64) 64).
  rewrite !Z.div_div in * by lia.
  change (64 * 64) with 4096 in *. change (4096 * 64) with 262144 in *. lia.
Qed.

Lemma utf8_decode_encode_witness :
  0 <= 0x20AC < 0x200000
  /\ utf8_decode (utf8_encode 0x20AC ++ [65]) = Some (0x20AC, 3%nat).
Proof.
  split; [lia|]. apply (utf8_decode_encode 0x20AC [65]). lia.
Defined.

(** A string whose first [n] bytes are not the terminator is at least
    [n] bytes long. *)
Lemma strlen_ge (s : list Z) (n : nat) :
  (forall i, (i < n)%nat -> char_at s i <> 0) -> (n <= strlen s)%nat.
Proof.
  revert s. induction n as [|n IH]; intros s Hs; [lia|].
  destruct s as [|c s].
  - exfalso. apply (Hs 0%nat); [lia|reflexivity].
  - cbn [strlen]. destruct (Z.eqb_spec c 0) as [->|_].
    + exfalso. apply (Hs 0%nat); [lia|reflexivity].
    + apply le_n_S, IH. intros i Hi. apply (Hs (S i)). lia.
Qed.

Lemma continuation_nonzero (c : Z) : Z.land c 0xC0 = 0x80 -> c <> 0.
Proof. intros H ->. discriminate. Qed.

Lemma utf8_decode_span (p : list Z) (cp : Z) (len : nat) :
  utf8_decode p = Some (cp, len) -> char_at p 0 <> 0 ->
  (1 <= len <= strlen p)%nat.
Proof.
  unfold utf8_decode. intros Hdec H0.
  assert (Hle : forall n, (forall i, (0 < i < n)%nat -> char_at p i <> 0) ->
                          (n <= strlen p)%nat).
  { intros n Hn. apply strlen_ge. intros [|i] Hi; [exact H0|apply Hn; lia]. }
  destruct (char_at p 0 <? 0x80).
  { injection Hdec as _ <-. split; [lia|]. apply Hle. intros i Hi. lia. }
  destruct (Z.land (char_at p 0) 0xE0 =? 0xC0).
  { destruct (Z.eqb_spec (Z.land (char_at p 1) 0xC0) 0x80) as [H1|];
      [|discriminate].
    injection Hdec as _ <-. split; [lia|]. apply Hle. intros i Hi.
    assert (i = 1%nat) as -> by lia. apply continuation_nonzero, H1. }
  destruct (Z.land (char_at p 0) 0xF0 =? 0xE0).
  { destruct (Z.eqb_spec (Z.land (char_at p 1) 0xC0) 0x80) as [H1|];
      [|discriminate].
    destruct (Z.eqb_spec (Z.land (char_at p 2) 0xC0) 0x80) as [H2|];
      [|discriminate].
    injection Hdec as _ <-. split; [lia|]. apply Hle. intros i Hi.
    assert (i = 1 \/ i = 2)%nat as [->| ->] by lia;
      apply continuation_nonzero; assumption. }
  destruct (Z.land (char_at p 0) 0xF8 =? 0xF0); [|discriminate].
  destruct (Z.eqb_spec (Z.land (char_at p 1) 0xC0) 0x80) as [H1|];
    [|discriminate].
  destruct (Z.eqb_spec (Z.land (char_at p 2) 0xC0) 0x80) as [H2|];
    [|discriminate].
  destruct (Z.eqb_spec (Z.land (char_at p 3) 0xC0) 0x80) as [H3|];
    [|discriminate].
  injection Hdec as _ <-. split; [lia|]. apply Hle. intros i Hi.
  assert (i = 1 \/ i = 2 \/ i = 3)%nat as [->|[->| ->]] by lia;
    apply continuation_nonzero; assumption.
Qed.

Lemma take_before_strlen (p : list Z) (n : nat) :
  (n <= strlen p)%nat -> length (take n p) = n /\ Forall (fun b => b <> 0) (take n p).
Proof.
  intros Hn. pose proof (strlen_le_length p). split.
  - rewrite length_take. lia.
  - replace (take n p) with (take n (strdup p)).
    + apply Forall_take, strdup_nonzero.
    + unfold strdup. rewrite take_take. f_equal. lia.
Qed.

(** X3. The bytes [utf8_decode] accepts as one character, one to four of
    them, lie before the terminator of the string: the decoder's [p +=
    len] never steps over it, and none of the bytes it copies is NUL. *)
Theorem utf8_decode_within (p : list Z) (cp : Z) (len : nat) :
  utf8_decode p = Some (cp, len) -> char_at p 0 <> 0 ->
  (1 <= len <= 4)%nat /\ (len <= strlen p)%nat
  /\ Forall (fun b => b <> 0) (take len p).
Proof.
  intros Hdec H0. destruct (utf8_decode_span p cp len Hdec H0) as [H1 Hlen].
  split; [|split; [exact Hlen|apply take_before_strlen, Hlen]].
  split; [exact H1|]. revert Hdec. unfold utf8_decode.
  repeat match goal with
         | |- context [if ?b then _ else _] => destruct b
         end; intros [= _ <-]; lia.
Qed.

Lemma utf8_decode_within_witness :
  utf8_decode [0xE2; 0x82; 0xAC; 0; 0x41] = Some (0x20AC, 3%nat)
  /\ (1 <= 3 <= 4)%nat /\ (3 <= strlen ([0xE2; 0x82; 0xAC; 0; 0x41]%Z))%nat
  /\ Forall (fun b => b <> 0) (take 3 [0xE2; 0x82; 0xAC; 0; 0x41]).
Proof.
  split; [reflexivity|].
  apply (utf8_decode_within [0xE2; 0x82; 0xAC; 0; 0x41] 0x20AC 3);
    [reflexivity|discriminate].
Defined.

(** ** The two passes of the decoder *)

Section DecoderPasses.
Context `{RE : RegexEngine}.

(** On one token string the second pass ends as the first did, and
    writes as many bytes as the first counted. *)
Lemma decode_loops_agree (fuel : nat) (tok : BBPETokenizer) (p : list Z)
    (total : nat) (result : list Z) :
  match decode_size_loop fuel tok p total, decode_fill_loop fuel tok p result with
  | Some (inr n), Some (inr r) => (n + length result = total + length r)%nat
  | Some (inl a), Some (inl b) => a = b
  | None, None => True
  | _, _ => False
  end.
Proof.
  revert p total result. induction fuel as [|fuel IH]; intros p total result;
    cbn [decode_size_loop decode_fill_loop]; [exact I|].
  destruct (Z.eqb_spec (char_at p 0) 0) as [|Hc]; [reflexivity|].
  destruct (utf8_decode p) as [[cp len]|] eqn:Hdec; [|reflexivity].
  destruct (utf8_decode_span p cp len Hdec Hc) as [_ Hlen].
  destruct (take_before_strlen p len Hlen) as [Htake _].
  destruct (maps_to_byte tok cp).
  - specialize (IH (drop len p) (total + 1)%nat
                  (result ++ [to_char (default 0 (unicode_to_byte tok !! Z.to_nat cp))])).
    destruct (decode_size_loop _ _ _ _) as [[|]|], (decode_fill_loop _ _ _ _) as [[|]|];
      try exact IH.
    rewrite length_app in IH. cbn [length] in IH. lia.
  - specialize (IH (drop len p) (total + len)%nat (result ++ take len p)).
    destruct (decode_size_loop _ _ _ _) as [[|]|], (decode_fill_loop _ _ _ _) as [[|]|];
      try exact IH.
    rewrite length_app, Htake in IH. lia.
Qed.

Lemma decode_passes_agree (tok : BBPETokenizer) (ids : list Z) (total : nat)
    (result : list Z) (n : nat) :
  decode_size tok ids total = inr n ->
  exists r, decode_fill tok ids result = inr r
            /\ (n + length result = total + length r)%nat.
Proof.
  revert total result. induction ids as [|i ids IH]; intros total result;
    cbn [decode_size decode_fill].
  - intros [= <-]. exists result. split; [reflexivity|lia].
  - destruct ((i <? 0) || (vocab_size tok <=? i)); [discriminate|].
    destruct (id_to_token tok !! Z.to_nat i) as [[token_str|]|];
      cbv [from_option id default]; try discriminate.
    pose proof (decode_loops_agree (S (length token_str)) tok token_str total result)
      as Hloop.
    destruct (decode_size_loop _ _ _ _) as [[st|n1]|],
             (decode_fill_loop _ _ _ _) as [[st'|r1]|];
      try (destruct Hloop; fail); try discriminate.
    + intros Hrest. destruct (IH n1 r1 Hrest) as (r & Hr & Hlen).
      exists r. split; [exact Hr|lia].
    + intros Hrest. destruct (IH total result Hrest) as (r & Hr & Hlen).
      exists r. split; [exact Hr|lia].
Qed.

(** X4. [bbpe_decode] returns [BBPE_OK] whenever its first pass went
    through, and the text it returns has exactly the [total_bytes] the
    first pass counted: the buffer of [total_bytes + 1] is filled, not
    more. *)
Theorem decode_writes_counted_bytes (tok : BBPETokenizer) (ids : list Z)
    (count : nat) (t : option (list Z)) (n : nat) :
  count <> 0%nat ->
  decode_size tok (take count ids) 0 = inr n ->
  exists r,
    bbpe_decode (Some tok) (Some ids) count (Some t) = (BBPE_OK, Some (Some r))
    /\ length r = n.
Proof.
  intros Hcount Hsize. unfold bbpe_decode.
  destruct (Nat.eqb_spec count 0) as [|_]; [contradiction|].
  rewrite Hsize.
  destruct (decode_passes_agree tok _ 0 [] n Hsize) as (r & Hr & Hlen).
  rewrite Hr. exists r. split; [reflexivity|]. cbn [length] in Hlen. lia.
Qed.

Lemma decode_fill_loop_no_nul (fuel : nat) (tok : BBPETokenizer) (p : list Z)
    (result r : list Z) :
  Forall (fun v => 0 <= v <= 255) (unicode_to_byte tok) ->
  decode_fill_loop fuel tok p result = Some (inr r) ->
  Forall (fun b => b <> 0) result -> Forall (fun b => b <> 0) r.
Proof.
  intros Htbl. revert p result.
  induction fuel as [|fuel IH]; intros p result; cbn [decode_fill_loop];
    [discriminate|].
  destruct (Z.eqb_spec (char_at p 0) 0) as [|Hc]; [intros [= <-]; auto|].
  destruct (utf8_decode p) as [[cp len]|] eqn:Hdec; [|discriminate].
  destruct (utf8_decode_span p cp len Hdec Hc) as [_ Hlen].
  destruct (take_before_strlen p len Hlen) as [_ Htake].
  destruct (maps_to_byte tok cp) eqn:Hmap.
  - intros Hrun Hres. eapply IH; [exact Hrun|].
    apply Forall_app. split; [exact Hres|]. constructor; [|constructor].
    unfold maps_to_byte in Hmap. apply andb_prop in Hmap as [_ Hnz].
    destruct (unicode_to_byte tok !! Z.to_nat cp) as [v|] eqn:Hv;
      cbv [from_option id default] in *; [|discriminate].
    rewrite List.Forall_forall in Htbl.
    assert (Hin : In v (unicode_to_byte tok))
      by (apply list_elem_of_In; eapply list_elem_of_lookup_2, Hv).
    specialize (Htbl v Hin). unfold to_char. rewrite Z.mod_small by lia.
    destruct (Z.eqb_spec v 0); [discriminate|assumption].
  - intros Hrun Hres. eapply IH; [exact Hrun|].
    apply Forall_app. auto.
Qed.

Lemma decode_fill_no_nul (tok : BBPETokenizer) (ids : list Z) (result r : list Z) :
  Forall (fun v => 0 <= v <= 255) (unicode_to_byte tok) ->
  decode_fill tok ids result = inr r ->
  Forall (fun b => b <> 0) result -> Forall (fun b => b <> 0) r.
Proof.
  intros Htbl. revert result.
  induction ids as [|i ids IH]; intros result; cbn [decode_fill].
  - intros [= <-]. auto.
  - match goal with
    | |- context [decode_fill_loop ?f tok ?p result] =>
        destruct (decode_fill_loop f tok p result) as [[st|r1]|] eqn:Hloop
    end; cbv [from_option id default]; try discriminate.
    + intros Hrest Hres. apply (IH r1 Hrest).
      eapply decode_fill_loop_no_nul; eassumption.
    + intros Hrest Hres. apply (IH result Hrest Hres).
Qed.

Lemma decode_size_loop_status (fuel : nat) (tok : BBPETokenizer) (p : list Z)
    (total : nat) (st : BBPEStatus) :
  decode_size_loop fuel tok p total = Some (inl st) -> st = BBPE_ERR_INVALID_INPUT.
Proof.
  revert p total. induction fuel as [|fuel IH]; intros p total;
    cbn [decode_size_loop]; [discriminate|].
  destruct (char_at p 0 =? 0); [discriminate|].
  destruct (utf8_decode p) as [[cp len]|]; [apply IH|congruence].
Qed.

Lemma decode_fill_loop_status (fuel : nat) (tok : BBPETokenizer) (p : list Z)
    (result : list Z) (st : BBPEStatus) :
  decode_fill_loop fuel tok p result = Some (inl st) -> st = BBPE_ERR_INVALID_INPUT.
Proof.
  revert p result. induction fuel as [|fuel IH]; intros p result;
    cbn [decode_fill_loop]; [discriminate|].
  destruct (char_at p 0 =? 0); [discriminate|].
  destruct (utf8_decode p) as [[cp len]|]; [apply IH|congruence].
Qed.

(** The statuses of the two passes are error codes. *)
Lemma decode_size_status (tok : BBPETokenizer) (ids : list Z) (total : nat)
    (st : BBPEStatus) :
  decode_size tok ids total = inl st ->
  st = BBPE_ERR_TOKEN_NOT_FOUND \/ st = BBPE_ERR_INVALID_INPUT.
Proof.
  revert total. induction ids as [|i ids IH]; intros total; cbn [decode_size];
    [discriminate|].
  destruct ((i <? 0) || (vocab_size tok <=? i)); [intros [= <-]; auto|].
  destruct (default None (id_to_token tok !! Z.to_nat i)) as [token_str|];
    [|intros [= <-]; auto].
  destruct (decode_size_loop _ _ _ _) as [[st'|n]|] eqn:Hloop;
    cbv [from_option id default].
  - intros [= <-]. right. eapply decode_size_loop_status, Hloop.
  - apply IH.
  - apply IH.
Qed.

Lemma decode_fill_status (tok : BBPETokenizer) (ids : list Z) (result : list Z)
    (st : BBPEStatus) :
  decode_fill tok ids result = inl st -> st = BBPE_ERR_INVALID_INPUT.
Proof.
  revert result. induction ids as [|i ids IH]; intros result; cbn [decode_fill];
    [discriminate|].
  destruct (decode_fill_loop _ _ _ _) as [[st'|n]|] eqn:Hloop;
    cbv [from_option id default].
  - intros [= <-]. eapply decode_fill_loop_status, Hloop.
  - apply IH.
  - apply IH.
Qed.

(** X5. The text [bbpe_decode] returns holds no NUL byte: a code point
    that the inverse table maps to 0 is taken as unmapped and its UTF-8
    bytes are copied. The entries of [unicode_to_byte] are bytes
    ([uint8_t]). *)
Theorem decode_returns_no_nul (tok : BBPETokenizer) (ids : list Z)
    (count : nat) (t : option (list Z)) (r : list Z) :
  Forall (fun v => 0 <= v <= 255) (unicode_to_byte tok) ->
  bbpe_decode (Some tok) (Some ids) count (Some t) = (BBPE_OK, Some (Some r)) ->
  Forall (fun b => b <> 0) r.
Proof.
  intros Htbl. unfold bbpe_decode.
  destruct (count =? 0)%nat; [discriminate|].
  destruct (decode_size _ _ _) as [st|n] eqn:Hsize.
  { intros [= -> _]. destruct (decode_size_status _ _ _ _ Hsize); discriminate. }
  destruct (decode_fill _ _ _) as [st|r'] eqn:Hfill.
  { intros [= -> _]. apply decode_fill_status in Hfill. discriminate. }
  intros [= <-]. eapply decode_fill_no_nul; [exact Htbl|exact Hfill|constructor].
Qed.

End DecoderPasses.

Lemma decode_writes_counted_bytes_witness :
  exists r,
    bbpe_decode (Some hello_tokenizer) (Some [259; 32; 300]) 2 (Some None)
    = (BBPE_OK, Some (Some r))
    /\ length r = 6%nat.
Proof.
  apply (decode_writes_counted_bytes hello_tokenizer [259; 32; 300] 2 None 6).
  - discriminate.
  - vm_compute. reflexivity.
Defined.

Lemma decode_returns_no_nul_witness :
  bbpe_decode (Some bytes_only_tokenizer) (Some [0; 65]) 2 (Some None)
  = (BBPE_OK, Some (Some [196; 128; 65]))
  /\ Forall (fun b => b <> 0) [196; 128; 65].
Proof.
  assert (H : bbpe_decode (Some bytes_only_tokenizer) (Some [0; 65]) 2 (Some None)
              = (BBPE_OK, Some (Some [196; 128; 65])))
    by (vm_compute; reflexivity).
  split; [exact H|].
  apply (decode_returns_no_nul bytes_only_tokenizer [0; 65] 2 None _
           ltac:(apply (bool_decide_unpack _); vm_compute; reflexivity) H).
Defined.

(** ** The decoder: statuses and plain strings *)

Section DecoderStatus.
Context `{RE : RegexEngine}.

(** Every turn of the loop over a token string moves [p] forward, so one
    turn per byte and one more for the terminator are enough. *)
Lemma decode_loops_terminate (fuel : nat) (tok : BBPETokenizer) (p : list Z)
    (total : nat) (result : list Z) :
  (length p < fuel)%nat ->
  is_Some (decode_size_loop fuel tok p total)
  /\ is_Some (decode_fill_loop fuel tok p result).
Proof.
  revert p total result. induction fuel as [|fuel IH]; intros p total result Hfuel;
    [lia|].
  cbn [decode_size_loop decode_fill_loop].
  destruct (Z.eqb_spec (char_at p 0) 0) as [|Hc]; [split; eexists; reflexivity|].
  destruct (utf8_decode p) as [[cp len]|] eqn:Hdec;
    [|split; eexists; reflexivity].
  destruct (utf8_decode_span p cp len Hdec Hc) as [H1 _].
  assert (Hdrop : (length (drop len p) < fuel)%nat).
  { rewrite length_drop. destruct p; [contradiction Hc; reflexivity|].
    cbn [length] in *. lia. }
  split.
  - apply (proj1 (IH _ _ result Hdrop)).
  - apply (proj2 (IH _ total _ Hdrop)).
Qed.

Lemma decode_size_known (tok : BBPETokenizer) (ids : list Z) (total n : nat) :
  decode_size tok ids total = inr n ->
  Forall (fun i => is_Some (token_text tok i)) ids.
Proof.
  revert total. induction ids as [|i ids IH]; intros total; cbn [decode_size];
    [constructor|].
  destruct ((i <? 0) || (vocab_size tok <=? i)) eqn:Hrange; [discriminate|].
  destruct (default None (id_to_token tok !! Z.to_nat i)) as [token_str|] eqn:Hslot;
    [|discriminate].
  intros Hrest. constructor.
  { exists token_str. unfold token_text. rewrite Hrange. exact Hslot. }
  destruct (decode_size_loop _ _ _ _) as [[st'|n1]|];
    cbv [from_option id default] in Hrest; [discriminate|eapply IH, Hrest..].
Qed.

(** X6. What [bbpe_decode] returns for pointers that are not NULL: either
    [BBPE_OK] with a text, and then [count] is not 0 and each of the
    [count] ids lies in [0, vocab_size) and has a string; or
    [BBPE_ERR_TOKEN_NOT_FOUND] or [BBPE_ERR_INVALID_INPUT], and then
    [*out_text] is as it was. *)
Theorem decode_status (tok : BBPETokenizer) (ids : list Z) (count : nat)
    (t : option (list Z)) (st : BBPEStatus) (res : option (option (list Z))) :
  bbpe_decode (Some tok) (Some ids) count (Some t) = (st, res) ->
  (st = BBPE_OK /\ count <> 0%nat
   /\ Forall (fun i => is_Some (token_text tok i)) (take count ids)
   /\ exists r, res = Some (Some r))
  \/ ((st = BBPE_ERR_TOKEN_NOT_FOUND \/ st = BBPE_ERR_INVALID_INPUT)
      /\ res = Some t).
Proof.
  unfold bbpe_decode.
  destruct (Nat.eqb_spec count 0) as [|Hcount]; [intros [= <- <-]; auto|].
  destruct (decode_size _ _ _) as [st'|n] eqn:Hsize.
  { intros [= <- <-]. right. split; [|reflexivity].
    eapply decode_size_status, Hsize. }
  destruct (decode_fill _ _ _) as [st'|r] eqn:Hfill.
  { intros [= <- <-]. right. split; [|reflexivity].
    right. eapply decode_fill_status, Hfill. }
  intros [= <- <-]. left. split; [reflexivity|]. split; [exact Hcount|].
  split; [eapply decode_size_known, Hsize|]. eexists. reflexivity.
Qed.

(** In the inverse table an ASCII code point stands for itself or for
    nothing. *)
Lemma ascii_inverse (c : Z) :
  0 <= c < 128 ->
  let v := default 0 (bm_unicode_to_byte init_byte_mappings !! Z.to_nat c) in
  v = 0 \/ v = c.
Proof.
  intros Hc.
  pose proof (below_all
                (fun c =>
                   let v := default 0 (bm_unicode_to_byte init_byte_mappings
                                         !! Z.to_nat c) in
                   (v =? 0) || (v =? c)) 128) as H.
  specialize (H ltac:(vm_compute; reflexivity) c ltac:(lia)).
  cbv zeta in *. apply orb_prop in H as [H|H]; apply Z.eqb_eq in H; auto.
Qed.

Lemma decode_loops_ascii (fuel : nat) (tok : BBPETokenizer) (s : list Z)
    (total : nat) (result : list Z) :
  unicode_to_byte tok = bm_unicode_to_byte init_byte_mappings ->
  Forall (fun b => 1 <= b <= 127) s ->
  (length s < fuel)%nat ->
  decode_size_loop fuel tok s total = Some (inr (total + length s)%nat)
  /\ decode_fill_loop fuel tok s result = Some (inr (result ++ s)).
Proof.
  intros Htbl. revert s total result.
  induction fuel as [|fuel IH]; intros s total result Hs Hfuel; [lia|].
  cbn [decode_size_loop decode_fill_loop].
  destruct Hs as [|c s Hc Hs].
  { cbn. rewrite Nat.add_0_r, app_nil_r. auto. }
  rewrite char_at_0. destruct (Z.eqb_spec c 0) as [|_]; [lia|].
  assert (Hdec : utf8_decode (c :: s) = Some (c, 1%nat)).
  { unfold utf8_decode. rewrite char_at_0.
    destruct (Z.ltb_spec c 0x80); [reflexivity|lia]. }
  rewrite Hdec. cbn [drop take length] in *.
  destruct (IH s (total + 1)%nat (result ++ [c]) Hs ltac:(lia)) as [Hsize Hfill].
  assert (Hbyte : maps_to_byte tok c = true ->
                  to_char (default 0 (unicode_to_byte tok !! Z.to_nat c)) = c).
  { unfold maps_to_byte. rewrite Htbl.
    pose proof (ascii_inverse c ltac:(lia)) as Hv. cbv zeta in Hv.
    revert Hv.
    generalize (default 0 (bm_unicode_to_byte init_byte_mappings !! Z.to_nat c)).
    intros v Hv Hmap. apply andb_prop in Hmap as [_ Hnz].
    destruct Hv as [->| ->]; [discriminate|].
    unfold to_char. apply Z.mod_small. lia. }
  rewrite drop_0, take_0.
  destruct (maps_to_byte tok c).
  - rewrite Hbyte by reflexivity. rewrite Hsize, Hfill, <- app_assoc.
    split; [f_equal; f_equal; lia|reflexivity].
  - rewrite Hsize, Hfill, <- app_assoc.
    split; [f_equal; f_equal; lia|reflexivity].
Qed.

Lemma decode_ascii_ids (tok : BBPETokenizer) (ids : list Z) (ss : list (list Z))
    (total : nat) (result : list Z) :
  unicode_to_byte tok = bm_unicode_to_byte init_byte_mappings ->
  Forall2 (fun i s => token_text tok i = Some s /\ Forall (fun b => 1 <= b <= 127) s)
    ids ss ->
  decode_size tok ids total = inr (total + length (concat ss))%nat
  /\ decode_fill tok ids result = inr (result ++ concat ss).
Proof.
  intros Htbl Hall. revert total result.
  induction Hall as [|i s ids ss [Hi Hs] Hall IH]; intros total result.
  { cbn. rewrite Nat.add_0_r, app_nil_r. auto. }
  cbn [decode_size decode_fill concat].
  apply token_text_some in Hi as [Hrange Hslot].
  destruct (Z.ltb_spec i 0) as [|_]; [lia|].
  destruct (Z.leb_spec (vocab_size tok) i) as [|_]; [lia|]. cbn [orb].
  rewrite Hslot. cbv [from_option id default].
  destruct (decode_loops_ascii (S (length s)) tok s total result Htbl Hs)
    as [Hsize Hfill]; [lia|].
  rewrite Hsize, Hfill.
  destruct (IH (total + length s)%nat (result ++ s)) as [Hsize' Hfill'].
  rewrite Hsize', Hfill', length_app, <- app_assoc.
  split; [f_equal; lia|reflexivity].
Qed.

(** X7. Tokens whose strings are ASCII decode to these strings, joined: an
    ASCII code point is either a byte of the alphabet that stands for
    itself, or no code point of the alphabet and copied. The table
    [unicode_to_byte] is the one [init_byte_mappings] builds. *)
Theorem decode_ascii_tokens (tok : BBPETokenizer) (ids : list Z)
    (ss : list (list Z)) (t : option (list Z)) :
  unicode_to_byte tok = bm_unicode_to_byte init_byte_mappings ->
  ids <> [] ->
  Forall2 (fun i s => token_text tok i = Some s /\ Forall (fun b => 1 <= b <= 127) s)
    ids ss ->
  bbpe_decode (Some tok) (Some ids) (length ids) (Some t)
  = (BBPE_OK, Some (Some (concat ss))).
Proof.
  intros Htbl Hne Hall. unfold bbpe_decode.
  destruct (Nat.eqb_spec (length ids) 0) as [Hlen|_];
    [destruct ids; [contradiction|discriminate]|].
  rewrite firstn_all.
  destruct (decode_ascii_ids tok ids ss 0 [] Htbl Hall) as [Hsize Hfill].
  rewrite Hsize, Hfill. reflexivity.
Qed.

End DecoderStatus.

Lemma decode_status_witness :
  bbpe_decode (Some hello_tokenizer) (Some [259; 270]) 2 (Some None)
  = (BBPE_ERR_TOKEN_NOT_FOUND, Some None)
  /\ ((BBPE_ERR_TOKEN_NOT_FOUND = BBPE_OK /\ 2%nat <> 0%nat
       /\ Forall (fun i => is_Some (token_text hello_tokenizer i)) (take 2 [259; 270])
       /\ exists r, Some (@None (list Z)) = Some (Some r))
      \/ ((BBPE_ERR_TOKEN_NOT_FOUND = BBPE_ERR_TOKEN_NOT_FOUND
           \/ BBPE_ERR_TOKEN_NOT_FOUND = BBPE_ERR_INVALID_INPUT)
          /\ Some None = Some (@None (list Z)))).
Proof.
  assert (H : bbpe_decode (Some hello_tokenizer) (Some [259; 270]) 2 (Some None)
              = (BBPE_ERR_TOKEN_NOT_FOUND, Some None))
    by (vm_compute; reflexivity).
  split; [exact H|]. exact (decode_status _ _ _ _ _ _ H).
Defined.

Lemma decode_ascii_tokens_witness :
  bbpe_decode (Some hello_tokenizer) (Some [301; 259]) 2 (Some None)
  = (BBPE_OK, Some (Some (bytes_of_string "<|endoftext|>hello"))).
Proof.
  apply (decode_ascii_tokens hello_tokenizer [301; 259]
           [bytes_of_string "<|endoftext|>"; bytes_of_string "hello"] None).
  - vm_compute. reflexivity.
  - discriminate.
  - repeat constructor; try (vm_compute; reflexivity);
      apply (bool_decide_unpack _); vm_compute; reflexivity.
Defined.

(** ** The tables of a loaded tokenizer *)

Section LoadedTables.
Context `{RE : RegexEngine} `{SO : Sorter} {SOL : SorterLaws}.

Lemma bbpe_init_root_base (root : cJSON) (tok : BBPETokenizer) :
  bbpe_init_root root = Some (BBPE_OK, Some tok) ->
  exists base,
    loaded_base root base /\ sized base
    /\ load_added_tokens root base = Some tok.
Proof.
  intros Hinit.
  destruct (bbpe_init_root_ok root tok Hinit)
    as (model & vocab & mc & rows & head & Hmodel & Hvocab & Hmax & Hmerges
        & Hpre & Hadded).
  match type of Hadded with
  | load_added_tokens _ ?t = _ => exists t
  end.
  split; [|split; [|exact Hadded]].
  - split; try reflexivity; [|exact Hpre].
    exists model, vocab. cbn [vocab_map vocab_size merge_count rule_rows]. auto 10.
  - unfold sized. cbn [vocab_size id_to_token rule_rows].
    assert (HV : 0 <= snd (load_vocab vocab) + 1) by lia.
    split; [exact HV|]. split.
    + rewrite length_id_to_token_fold. apply length_replicate.
    + unfold load_merges in Hmerges.
      destruct (cJSON_GetObjectItem model "merges") as [[| | | | |merges|]|];
        try (injection Hmerges as _ <-; apply length_replicate).
      destruct (build_rule_rows _ _) as [rows0|] eqn:Hbuild; [|discriminate].
      injection Hmerges as _ <-.
      apply (build_rule_rows_spec _ _ _ HV Hbuild).
Qed.

(** Every id of the vocabulary that lies inside the table has a string
    in its slot. *)
Lemma id_to_token_fold_filled (V : Z) (vm : list VocabEntry.t)
    (a : list (option (list Z))) (i : nat) :
  length a = Z.to_nat V ->
  filled a i
  \/ (exists e, In e vm /\ 0 <= VocabEntry.id e < V /\ Z.to_nat (VocabEntry.id e) = i) ->
  filled (foldl (id_to_token_body V) a vm) i.
Proof.
  revert a. induction vm as [|e vm IH]; intros a Hlen Hi; cbn [foldl].
  - destruct Hi as [Hi|(e & [] & _)]. exact Hi.
  - assert (Hlen' : length (id_to_token_body V a e) = Z.to_nat V).
    { unfold id_to_token_body. destruct (_ && _); [|exact Hlen].
      rewrite length_insert. exact Hlen. }
    apply (IH _ Hlen').
    destruct Hi as [[t Ht]|(e' & [<-|He'] & Hrange & Hid)].
    + left. unfold id_to_token_body. destruct (_ && _); [|exists t; exact Ht].
      destruct (decide (Z.to_nat (VocabEntry.id e) = i)) as [<-|Hne].
      * eexists. apply list_lookup_insert_eq. apply lookup_lt_Some in Ht. lia.
      * exists t. rewrite list_lookup_insert_ne by exact Hne. exact Ht.
    + left. unfold id_to_token_body.
      destruct (Z.leb_spec 0 (VocabEntry.id e)) as [_|]; [|lia].
      destruct (Z.ltb_spec (VocabEntry.id e) V) as [_|]; [|lia]. cbn [andb].
      eexists. rewrite <- Hid. apply list_lookup_insert_eq. lia.
    + right. exists e'. auto.
Qed.

(** One added token: the tokenizer is as it was but for more slots, or
    the token has been given a slot that held no string and has joined
    the special tokens. *)
Lemma added_token_body_cases (tok tok' : BBPETokenizer) (token_obj : cJSON) :
  sized tok ->
  added_token_body (Some tok) token_obj = Some tok' ->
  sized tok' /\ extends tok tok'
  /\ merge_count tok' = merge_count tok
  /\ byte_to_unicode tok' = byte_to_unicode tok
  /\ vocab_size tok <= vocab_size tok'
  /\ (vocab_size tok' <= vocab_size tok \/ vocab_size tok' <= INT32_MAX)
  /\ (special_tokens_map tok' = special_tokens_map tok
      \/ exists content sid,
           special_tokens_map tok'
           = special_tokens_map tok
             ++ [{| SpecialEntry.token := strdup content; SpecialEntry.id := sid |}]
           /\ token_text tok sid = None
           /\ token_text tok' sid = Some (strdup content)).
Proof.
  intros Hs. unfold added_token_body.
  assert (Hsame : sized tok /\ extends tok tok
                  /\ merge_count tok = merge_count tok
                  /\ byte_to_unicode tok = byte_to_unicode tok
                  /\ vocab_size tok <= vocab_size tok
                  /\ (vocab_size tok <= vocab_size tok \/ vocab_size tok <= INT32_MAX)
                  /\ (special_tokens_map tok = special_tokens_map tok
                      \/ exists content sid,
                           special_tokens_map tok
                           = special_tokens_map tok
                             ++ [{| SpecialEntry.token := strdup content;
                                    SpecialEntry.id := sid |}]
                           /\ token_text tok sid = None
                           /\ token_text tok sid = Some (strdup content))).
  { split; [exact Hs|]. split; [apply extends_refl|].
    repeat (split; [first [reflexivity|lia]|]). left. reflexivity. }
  destruct (cJSON_GetObjectItem token_obj "content") as [[| | | |content| |]|];
    try (intros [= <-]; exact Hsame).
  destruct (cJSON_GetObjectItem token_obj "id") as [[| | |sid| | |]|];
    try (intros [= <-]; exact Hsame).
  clear Hsame.
  destruct (Z.ltb_spec sid 0) as [|Hneg]; [discriminate|]. cbn [orb].
  destruct (Z.leb_spec INT32_MAX sid) as [|Hmax]; [discriminate|].
  match goal with
  | |- context [default None (id_to_token ?g !! _)] => set (grown := g)
  end.
  assert (Hg : sized grown /\ extends tok grown
               /\ merge_count grown = merge_count tok
               /\ byte_to_unicode grown = byte_to_unicode tok
               /\ special_tokens_map grown = special_tokens_map tok
               /\ vocab_size tok <= vocab_size grown
               /\ (vocab_size grown <= vocab_size tok \/ vocab_size grown <= INT32_MAX)
               /\ sid < vocab_size grown
               /\ (token_text grown sid = None -> token_text tok sid = None)).
  { subst grown. destruct (Z.leb_spec (vocab_size tok) sid) as [Hle|Hgt].
    - destruct (grow_extends tok
                  {| vocab_map := vocab_map tok;
                     merge_count := merge_count tok;
                     rule_rows :=
                       rule_rows tok
                       ++ replicate (Z.to_nat (sid + 1 - vocab_size tok))
                            {| items := [] |};
                     vocab_size := sid + 1;
                     special_tokens_map := special_tokens_map tok;
                     byte_to_unicode := byte_to_unicode tok;
                     unicode_to_byte := unicode_to_byte tok;
                     id_to_token :=
                       id_to_token tok
                       ++ replicate (Z.to_nat (sid + 1 - vocab_size tok)) None;
                     pre_tokenizers := pre_tokenizers tok;
                     byte_vocab_strs := byte_vocab_strs tok |}
                  (Z.to_nat (sid + 1 - vocab_size tok)) Hs) as [Hs' He'];
        try reflexivity.
      { cbn [vocab_size]. destruct Hs as [Hpos _]. lia. }
      split; [exact Hs'|]. split; [exact He'|]. cbn [vocab_size].
      repeat (split; [first [reflexivity|lia]|]).
      intros _. unfold token_text.
      destruct (Z.leb_spec (vocab_size tok) sid) as [_|]; [|lia].
      rewrite orb_true_r. reflexivity.
    - split; [exact Hs|]. split; [apply extends_refl|].
      repeat (split; [first [reflexivity|lia]|]). auto. }
  destruct Hg as (Hgs & Hge & Hmc & Hbu & Hsp & Hle & Hbound & Hlt & Hnone).
  destruct (default None (id_to_token grown !! Z.to_nat sid)) eqn:Hslot.
  - intros [= <-]. repeat (split; [assumption|]). left. exact Hsp.
  - intros [= Htok'].
    destruct (insert_extends grown tok' (Z.to_nat sid) (strdup content) Hgs)
      as [Hs' He']; try (subst tok'; reflexivity); [exact Hslot|].
    split; [exact Hs'|]. split; [eapply extends_trans; eassumption|].
    subst tok'. cbn [merge_count byte_to_unicode vocab_size special_tokens_map].
    repeat (split; [assumption|]). right. exists content, sid.
    rewrite Hsp. split; [reflexivity|]. split.
    + apply Hnone. unfold token_text. rewrite Hslot.
      destruct (_ || _); reflexivity.
    + apply token_text_some. cbn [vocab_size id_to_token]. split; [lia|].
      apply list_lookup_insert_eq. destruct Hgs as (_ & Hlen & _). lia.
Qed.

Lemma added_token_body_registered (base tok tok' : BBPETokenizer)
    (token_obj : cJSON) :
  registered base tok ->
  added_token_body (Some tok) token_obj = Some tok' ->
  registered base tok'.
Proof.
  intros [Hs He Hmc Hbu Hgrow Hbound Hnd Hstr] Hbody.
  destruct (added_token_body_cases tok tok' token_obj Hs Hbody)
    as (Hs' & He' & Hmc' & Hbu' & Hgrow' & Hbound' & Hsp).
  split; [exact Hs'|eapply extends_trans; eassumption|congruence|congruence
         |lia|lia| |].
  - destruct Hsp as [->|(content & sid & -> & Hnone & _)]; [exact Hnd|].
    rewrite map_app. cbn [map SpecialEntry.id]. apply NoDup_app.
    split; [exact Hnd|]. split; [|apply NoDup_singleton].
    intros i Hi Hsid. apply list_elem_of_In in Hi, Hsid.
    destruct Hsid as [<-|[]].
    apply in_map_iff in Hi as (e & Hid & Hin).
    destruct (Hstr e Hin) as [Hsome _]. congruence.
  - intros e Hin.
    destruct Hsp as [Heq|(content & sid & Heq & Hnone & Hsome)];
      rewrite Heq in Hin.
    + destruct (Hstr e Hin) as [Hsome Hbase].
      split; [apply (ext_token_text _ _ He'), Hsome|exact Hbase].
    + apply in_app_or in Hin as [Hin|[<-|[]]].
      * destruct (Hstr e Hin) as [Hsome' Hbase].
        split; [apply (ext_token_text _ _ He'), Hsome'|exact Hbase].
      * cbn [SpecialEntry.id SpecialEntry.token]. split; [exact Hsome|].
        destruct (token_text base sid) as [t|] eqn:Hbase; [|reflexivity].
        apply (ext_token_text _ _ He) in Hbase. congruence.
Qed.

Lemma load_added_tokens_registered (root : cJSON) (base tok : BBPETokenizer) :
  sized base -> special_tokens_map base = [] ->
  load_added_tokens root base = Some tok ->
  registered base tok.
Proof.
  intros Hs Hnil.
  assert (Hbase : registered base base).
  { split; auto using extends_refl; try lia.
    - rewrite Hnil. constructor.
    - rewrite Hnil. intros e []. }
  unfold load_added_tokens.
  destruct (cJSON_GetObjectItem root "added_tokens") as [[| | | | |added|]|];
    try (intros [= <-]; exact Hbase).
  generalize dependent Hbase. generalize base at 2 3 as cur.
  induction added as [|a added IH]; intros cur Hcur; cbn [foldl].
  - intros [= <-]. exact Hcur.
  - destruct (added_token_body (Some cur) a) as [tok1|] eqn:Hbody.
    + apply IH. eapply added_token_body_registered; eassumption.
    + intros Hnone. exfalso. clear -Hnone.
      induction added as [|b added IHa]; cbn [foldl] in Hnone;
        [discriminate|auto].
Qed.

(** The tokenizer [bbpe_init] returns, seen from the one it had before
    the added tokens. *)
Lemma bbpe_init_root_registered (root : cJSON) (tok : BBPETokenizer) :
  bbpe_init_root root = Some (BBPE_OK, Some tok) ->
  exists base, loaded_base root base /\ sized base /\ registered base tok.
Proof.
  intros Hinit.
  destruct (bbpe_init_root_base root tok Hinit) as (base & Hbase & Hs & Hadded).
  exists base. split; [exact Hbase|]. split; [exact Hs|].
  apply (load_added_tokens_registered root); [exact Hs| |exact Hadded].
  apply (base_special_tokens_map _ _ Hbase).
Qed.

(** The string of a vocabulary id not below 0 is in the table before the
    added tokens are read. *)
Lemma loaded_base_filled (root : cJSON) (base : BBPETokenizer) (v : VocabEntry.t) :
  loaded_base root base -> In v (vocab_map base) -> 0 <= VocabEntry.id v ->
  VocabEntry.id v < vocab_size base
  /\ is_Some (token_text base (VocabEntry.id v)).
Proof.
  intros Hbase Hin Hpos.
  destruct (base_vocab _ _ Hbase)
    as (model & vocab & _ & _ & Hvm & Hsize & Hmax & _).
  assert (Hlt : VocabEntry.id v < vocab_size base).
  { rewrite Hvm in Hin. pose proof (load_vocab_max vocab v Hin). lia. }
  split; [exact Hlt|].
  destruct (id_to_token_fold_filled (vocab_size base) (vocab_map base)
              (replicate (Z.to_nat (vocab_size base)) None)
              (Z.to_nat (VocabEntry.id v))) as [t Ht].
  - apply length_replicate.
  - right. exists v. auto.
  - exists t. apply token_text_some. split; [lia|].
    rewrite (base_id_to_token _ _ Hbase). exact Ht.
Qed.

(** X8. The special tokens of a loaded tokenizer: their ids are distinct,
    lie in [0, vocab_size) and are the id of no entry of the vocabulary,
    and the string of each id in [id_to_token] is the token's content. *)
Theorem added_tokens_registered (root : cJSON) (tok : BBPETokenizer) :
  bbpe_init_root root = Some (BBPE_OK, Some tok) ->
  NoDup (map SpecialEntry.id (special_tokens_map tok))
  /\ forall e, In e (special_tokens_map tok) ->
       0 <= SpecialEntry.id e < vocab_size tok
       /\ token_text tok (SpecialEntry.id e) = Some (SpecialEntry.token e)
       /\ forall v, In v (vocab_map tok) -> VocabEntry.id v <> SpecialEntry.id e.
Proof.
  intros Hinit.
  destruct (bbpe_init_root_registered root tok Hinit) as (base & Hbase & Hs & Hreg).
  split; [apply (reg_distinct _ _ Hreg)|].
  intros e He. destruct (reg_strings _ _ Hreg e He) as [Hsome Hnone].
  split; [apply token_text_some in Hsome; tauto|]. split; [exact Hsome|].
  intros v Hv Heq.
  rewrite (ext_vocab_map _ _ (reg_extends _ _ Hreg)) in Hv.
  assert (Hpos : 0 <= VocabEntry.id v)
    by (apply token_text_some in Hsome; lia).
  destruct (loaded_base_filled root base v Hbase Hv Hpos) as [_ [t Ht]].
  congruence.
Qed.

(** X9. The tables of a loaded tokenizer have the sizes their readers
    count on: [id_to_token] and [rule_rows] have [vocab_size] slots, with
    [vocab_size] between 1 and [INT32_MAX], above every id of the
    vocabulary; the tables of the byte alphabet have 256, 512 and 256
    entries. *)
Theorem loaded_tables_sized (root : cJSON) (tok : BBPETokenizer) :
  bbpe_init_root root = Some (BBPE_OK, Some tok) ->
  1 <= vocab_size tok <= INT32_MAX
  /\ length (id_to_token tok) = Z.to_nat (vocab_size tok)
  /\ length (rule_rows tok) = Z.to_nat (vocab_size tok)
  /\ (forall v, In v (vocab_map tok) -> VocabEntry.id v < vocab_size tok)
  /\ length (byte_to_unicode tok) = 256%nat
  /\ length (unicode_to_byte tok) = Z.to_nat UNICODE_MAP_SIZE
  /\ length (byte_vocab_strs tok) = 256%nat.
Proof.
  intros Hinit.
  destruct (bbpe_init_root_registered root tok Hinit) as (base & Hbase & Hs & Hreg).
  destruct (base_vocab _ _ Hbase)
    as (model & vocab & _ & _ & Hvm & Hsize & Hmax & _).
  pose proof (reg_grows _ _ Hreg) as Hgrow.
  pose proof (reg_bound _ _ Hreg) as Hbound.
  destruct (reg_sized _ _ Hreg) as (_ & Hidt & Hrows).
  pose proof (reg_extends _ _ Hreg) as Hext.
  split; [lia|]. split; [exact Hidt|]. split; [exact Hrows|]. split.
  { intros v Hv. rewrite (ext_vocab_map _ _ Hext), Hvm in Hv.
    pose proof (load_vocab_max vocab v Hv). lia. }
  rewrite (reg_byte_to_unicode _ _ Hreg), (base_byte_to_unicode _ _ Hbase).
  rewrite (ext_unicode_to_byte _ _ Hext), (base_unicode_to_byte _ _ Hbase).
  rewrite (ext_byte_vocab_strs _ _ Hext), (base_byte_vocab_strs _ _ Hbase).
  split; [vm_compute; reflexivity|]. split; [vm_compute; reflexivity|].
  unfold precompute_byte_strings. rewrite length_map, length_seq. reflexivity.
Qed.

End LoadedTables.

Lemma added_tokens_registered_witness :
  bbpe_init_root hello_json = Some (BBPE_OK, Some hello_tokenizer)
  /\ NoDup (map SpecialEntry.id (special_tokens_map hello_tokenizer))
  /\ forall e, In e (special_tokens_map hello_tokenizer) ->
       0 <= SpecialEntry.id e < vocab_size hello_tokenizer
       /\ token_text hello_tokenizer (SpecialEntry.id e)
          = Some (SpecialEntry.token e)
       /\ forall v, In v (vocab_map hello_tokenizer) ->
            VocabEntry.id v <> SpecialEntry.id e.
Proof.
  assert (Hinit : bbpe_init_root hello_json = Some (BBPE_OK, Some hello_tokenizer))
    by (vm_compute; reflexivity).
  split; [exact Hinit|]. exact (added_tokens_registered hello_json _ Hinit).
Defined.

Lemma loaded_tables_sized_witness :
  bbpe_init_root hello_json = Some (BBPE_OK, Some hello_tokenizer)
  /\ 1 <= vocab_size hello_tokenizer <= INT32_MAX
  /\ length (id_to_token hello_tokenizer) = Z.to_nat (vocab_size hello_tokenizer)
  /\ length (rule_rows hello_tokenizer) = Z.to_nat (vocab_size hello_tokenizer)
  /\ (forall v, In v (vocab_map hello_tokenizer) ->
        VocabEntry.id v < vocab_size hello_tokenizer)
  /\ length (byte_to_unicode hello_tokenizer) = 256%nat
  /\ length (unicode_to_byte hello_tokenizer) = Z.to_nat UNICODE_MAP_SIZE
  /\ length (byte_vocab_strs hello_tokenizer) = 256%nat.
Proof.
  assert (Hinit : bbpe_init_root hello_json = Some (BBPE_OK, Some hello_tokenizer))
    by (vm_compute; reflexivity).
  split; [exact Hinit|]. exact (loaded_tables_sized hello_json _ Hinit).
Defined.

(** ** Looking up the loaded merge rules *)

Section RuleLookup.
Context `{RE : RegexEngine} `{SO : Sorter} {SOL : SorterLaws}.

(** The lookups of the tokenizer before the added tokens are those of
    the tokenizer after them. *)
Lemma find_merge_rule_registered (base tok : BBPETokenizer) (root : cJSON)
    (l r : Z) (x : Z * Z) :
  sized base -> registered base tok ->
  load_added_tokens root base = Some tok ->
  find_merge_rule base l r = Some x -> find_merge_rule tok l r = Some x.
Proof.
  intros (_ & _ & Hlen) Hreg Hadded. unfold find_merge_rule.
  destruct (load_added_tokens_rows _ _ _ Hadded) as [k ->].
  pose proof (reg_grows _ _ Hreg) as Hgrow.
  destruct (Z.ltb_spec l 0) as [|Hpos]; [discriminate|]. cbn [orb].
  destruct (Z.leb_spec (vocab_size base) l) as [|Hlt]; [discriminate|].
  destruct (Z.leb_spec (vocab_size tok) l) as [|_]; [lia|].
  rewrite lookup_app_l by lia. auto.
Qed.

Lemma merge_item_record_priority (vm : list VocabEntry.t) (i : nat)
    (merge_item : cJSON) (r : MergeRecord.t) :
  merge_item_record vm i merge_item = Some r ->
  MergeRecord.priority r = Z.of_nat i.
Proof.
  unfold merge_item_record.
  destruct (merge_item_strings merge_item) as [[ls rs]|]; [|discriminate].
  destruct (HASH_FIND_STR vm ls); [|discriminate].
  destruct (HASH_FIND_STR vm rs); [|discriminate].
  destruct (_ <=? _)%nat; [discriminate|].
  destruct (HASH_FIND_STR vm _); [|discriminate].
  intros [= <-]. reflexivity.
Qed.

(** The priority of a record is its place among the records: the counter
    of the loop moves only when a rule is kept. *)
Lemma collect_merges_priorities (vm : list VocabEntry.t) (merges : cJSON) :
  map MergeRecord.priority (collect_merges vm merges)
  = map Z.of_nat (seq 0 (length (collect_merges vm merges)))
  /\ (length (collect_merges vm merges) <= cJSON_GetArraySize merges)%nat.
Proof.
  unfold collect_merges, cJSON_GetArraySize.
  rewrite <- (length_map snd (cJSON_children merges)).
  generalize (map snd (cJSON_children merges)) as children.
  assert (Hgen : forall children st,
             snd st = length (fst st) ->
             map MergeRecord.priority (fst st)
             = map Z.of_nat (seq 0 (length (fst st))) ->
             map MergeRecord.priority (fst (foldl (collect_merge_body vm) st children))
             = map Z.of_nat
                 (seq 0 (length (fst (foldl (collect_merge_body vm) st children))))
             /\ (length (fst (foldl (collect_merge_body vm) st children))
                 <= length (fst st) + length children)%nat).
  { induction children as [|item children IH]; intros st Hn Hp; cbn [foldl length].
    - split; [exact Hp|lia].
    - destruct (merge_item_record vm (snd st) item) as [r|] eqn:Hrec.
      + assert (Hb : collect_merge_body vm st item = (fst st ++ [r], S (snd st)))
          by (unfold collect_merge_body; rewrite Hrec; reflexivity).
        rewrite Hb.
        destruct (IH (fst st ++ [r], S (snd st))) as [Hp' Hlen'].
        * cbn [fst snd]. rewrite length_app. cbn [length]. lia.
        * cbn [fst]. rewrite map_app, length_app, seq_app, map_app, Hp.
          cbn [map length seq Nat.add].
          rewrite (merge_item_record_priority _ _ _ _ Hrec), Hn. reflexivity.
        * split; [exact Hp'|]. cbn [fst] in Hlen'. rewrite length_app in Hlen'.
          cbn [length] in Hlen'. lia.
      + assert (Hb : collect_merge_body vm st item = st)
          by (unfold collect_merge_body; rewrite Hrec; reflexivity).
        rewrite Hb.
        destruct (IH st Hn Hp) as [Hp' Hlen']. split; [exact Hp'|lia]. }
  intros children. apply (Hgen children ([], 0%nat)); reflexivity.
Qed.

(** A rule found in the tokenizer before the added tokens is a record of
    the merge list. *)
Lemma base_rule_record (root : cJSON) (base : BBPETokenizer) (l r n p : Z) :
  loaded_base root base ->
  find_merge_rule base l r = Some (n, p) ->
  exists model merges rec,
    cJSON_GetObjectItem root "model" = Some model
    /\ cJSON_GetObjectItem model "merges" = Some (cJSON_Array merges)
    /\ merge_count base = cJSON_GetArraySize (cJSON_Array merges)
    /\ In rec (collect_merges (vocab_map base) (cJSON_Array merges))
    /\ MergeRecord.left_id rec = l /\ MergeRecord.right_id rec = r
    /\ MergeRecord.new_id rec = n /\ MergeRecord.priority rec = p.
Proof.
  intros Hbase Hfind.
  destruct (base_vocab _ _ Hbase)
    as (model & vocab & Hmodel & _ & _ & Hsize & Hmax & Hload).
  apply find_merge_rule_row in Hfind
    as (Hl & row & it & Hrow & Hit & Hr & Hn & Hp).
  unfold load_merges in Hload.
  destruct (cJSON_GetObjectItem model "merges") as [[| | | | |merges|]|] eqn:Hm;
    try (injection Hload as _ Hrows; rewrite <- Hrows in Hrow;
         apply lookup_replicate in Hrow as [-> _]; destruct Hit).
  destruct (build_rule_rows _ _) as [rows|] eqn:Hbuild; [|discriminate].
  injection Hload as Hmc Hrows. subst rows.
  assert (HV : 0 <= vocab_size base) by lia.
  destruct (build_rule_rows_spec _ _ _ HV Hbuild) as (_ & Hitems & _).
  rewrite (Hitems _ _ Hrow) in Hit.
  assert (Hin : In it (bucket l (collect_merges (vocab_map base)
                                   (cJSON_Array merges)))).
  { rewrite Z2Nat.id in Hit by lia.
    destruct (0 <? length _)%nat; [|exact Hit].
    eapply Permutation_in; [|exact Hit].
    apply Permutation_sym, qsort_permutation. }
  apply in_bucket in Hin as (rec & Hrec & Hleft & ->).
  exists model, merges, rec. cbn [item_of_record right_id new_id priority] in *.
  auto 10.
Qed.

(** A record of the merge list has a rule with its pair of ids in the
    tokenizer before the added tokens. *)
Lemma base_record_rule (root : cJSON) (base : BBPETokenizer) (model : cJSON)
    (merges : list cJSON) (rec : MergeRecord.t) :
  loaded_base root base ->
  cJSON_GetObjectItem root "model" = Some model ->
  cJSON_GetObjectItem model "merges" = Some (cJSON_Array merges) ->
  In rec (collect_merges (vocab_map base) (cJSON_Array merges)) ->
  exists rec',
    In rec' (collect_merges (vocab_map base) (cJSON_Array merges))
    /\ rule_pair rec' = rule_pair rec
    /\ find_merge_rule base (MergeRecord.left_id rec) (MergeRecord.right_id rec)
       = Some (MergeRecord.new_id rec', MergeRecord.priority rec').
Proof.
  intros Hbase Hmodel Hm Hrec.
  destruct (base_vocab _ _ Hbase)
    as (model' & vocab & Hmodel' & _ & _ & Hsize & Hmax & Hload).
  rewrite Hmodel in Hmodel'. injection Hmodel' as <-.
  unfold load_merges in Hload. rewrite Hm in Hload.
  destruct (build_rule_rows _ _) as [rows|] eqn:Hbuild; [|discriminate].
  injection Hload as _ Hrows. subst rows.
  assert (HV : 0 <= vocab_size base) by lia.
  destruct (build_rule_rows_spec _ _ _ HV Hbuild) as (Hlen & Hitems & Hrange).
  rewrite List.Forall_forall in Hrange. specialize (Hrange rec Hrec).
  set (l := MergeRecord.left_id rec) in *.
  set (records := collect_merges (vocab_map base) (cJSON_Array merges)) in *.
  destruct (lookup_lt_is_Some_2 (rule_rows base) (Z.to_nat l)) as [row Hrow];
    [lia|].
  assert (Hin : In (item_of_record rec) (bucket l records)).
  { unfold bucket. apply in_map, filter_In. split; [exact Hrec|].
    apply Z.eqb_refl. }
  pose proof (Hitems _ _ Hrow) as Hrowitems. rewrite Z2Nat.id in Hrowitems by lia.
  destruct (Nat.ltb_spec 0 (length (bucket l records))) as [_|Hempty].
  2:{ destruct (bucket l records); [destruct Hin|cbn [length] in Hempty; lia]. }
  destruct (find_merge_rule_complete base l (MergeRecord.right_id rec) row
              (item_of_record rec)) as (it' & Hit' & Hr' & Hfind);
    [lia|exact Hrow| | |reflexivity|].
  { rewrite Hrowitems. apply sorted_row. }
  { rewrite Hrowitems. eapply Permutation_in; [apply qsort_permutation|exact Hin]. }
  rewrite Hrowitems in Hit'.
  apply (Permutation_in _ (Permutation_sym (qsort_permutation _ _ _))) in Hit'.
  apply in_bucket in Hit' as (rec' & Hrec' & Hleft' & ->).
  exists rec'. split; [exact Hrec'|]. split; [|exact Hfind].
  unfold rule_pair. cbn [item_of_record right_id] in Hr'. subst l. congruence.
Qed.

(** X10. [find_merge_rule] on a loaded tokenizer finds the rules of the
    merge list that the loader kept, and nothing else: what it returns are
    the new id and the priority of a kept rule with the pair of ids asked
    for, and it returns some for every kept rule. *)
Theorem loaded_rules_lookup (root : cJSON) (tok : BBPETokenizer) :
  bbpe_init_root root = Some (BBPE_OK, Some tok) ->
  (forall l r n p,
     find_merge_rule tok l r = Some (n, p) ->
     exists model merges rec,
       cJSON_GetObjectItem root "model" = Some model
       /\ cJSON_GetObjectItem model "merges" = Some (cJSON_Array merges)
       /\ In rec (collect_merges (vocab_map tok) (cJSON_Array merges))
       /\ MergeRecord.left_id rec = l /\ MergeRecord.right_id rec = r
       /\ MergeRecord.new_id rec = n /\ MergeRecord.priority rec = p)
  /\ (forall model merges rec,
        cJSON_GetObjectItem root "model" = Some model ->
        cJSON_GetObjectItem model "merges" = Some (cJSON_Array merges) ->
        In rec (collect_merges (vocab_map tok) (cJSON_Array merges)) ->
        exists rec',
          In rec' (collect_merges (vocab_map tok) (cJSON_Array merges))
          /\ rule_pair rec' = rule_pair rec
          /\ find_merge_rule tok (MergeRecord.left_id rec)
               (MergeRecord.right_id rec)
             = Some (MergeRecord.new_id rec', MergeRecord.priority rec')).
Proof.
  intros Hinit.
  destruct (bbpe_init_root_base root tok Hinit) as (base & Hbase & Hs & Hadded).
  assert (Hreg : registered base tok).
  { apply (load_added_tokens_registered root); [exact Hs| |exact Hadded].
    apply (base_special_tokens_map _ _ Hbase). }
  pose proof (reg_extends _ _ Hreg) as Hext.
  rewrite (ext_vocab_map _ _ Hext). split.
  - intros l r n p Hfind. apply (ext_find_merge_rule _ _ Hext) in Hfind.
    destruct (base_rule_record root base l r n p Hbase Hfind)
      as (model & merges & rec & Hmodel & Hm & _ & Hrec).
    exists model, merges, rec. auto.
  - intros model merges rec Hmodel Hm Hrec.
    destruct (base_record_rule root base model merges rec Hbase Hmodel Hm Hrec)
      as (rec' & Hrec' & Hpair & Hfind).
    exists rec'. split; [exact Hrec'|]. split; [exact Hpair|].
    eapply find_merge_rule_registered; eassumption.
Qed.

(** X11. The priority of a rule that [find_merge_rule] finds on a loaded
    tokenizer is a place in the merge list: it is not negative and below
    [merge_count], so below the [INT32_MAX] that [find_best_merge] starts
    from whenever the list is shorter than that. *)
Theorem found_rule_priority (root : cJSON) (tok : BBPETokenizer) (l r n p : Z) :
  bbpe_init_root root = Some (BBPE_OK, Some tok) ->
  find_merge_rule tok l r = Some (n, p) ->
  0 <= p < Z.of_nat (merge_count tok).
Proof.
  intros Hinit Hfind.
  destruct (bbpe_init_root_registered root tok Hinit) as (base & Hbase & Hs & Hreg).
  apply (ext_find_merge_rule _ _ (reg_extends _ _ Hreg)) in Hfind.
  destruct (base_rule_record root base l r n p Hbase Hfind)
    as (model & merges & rec & _ & _ & Hmc & Hrec & _ & _ & _ & Hp).
  rewrite (reg_merge_count _ _ Hreg), Hmc.
  destruct (collect_merges_priorities (vocab_map base) (cJSON_Array merges))
    as [Hprio Hlen].
  assert (Hin : In p (map MergeRecord.priority
                        (collect_merges (vocab_map base) (cJSON_Array merges))))
    by (rewrite <- Hp; apply in_map, Hrec).
  rewrite Hprio in Hin. apply in_map_iff in Hin as (k & <- & Hk).
  apply in_seq in Hk. lia.
Qed.

End RuleLookup.

Lemma loaded_rules_lookup_witness :
  bbpe_init_root hello_json = Some (BBPE_OK, Some hello_tokenizer)
  /\ find_merge_rule hello_tokenizer 258 111 = Some (259, 3)
  /\ exists rec',
       rule_pair rec' = (104, 101)
       /\ find_merge_rule hello_tokenizer 104 101
          = Some (MergeRecord.new_id rec', MergeRecord.priority rec').
Proof.
  assert (Hinit : bbpe_init_root hello_json = Some (BBPE_OK, Some hello_tokenizer))
    by (vm_compute; reflexivity).
  split; [exact Hinit|]. split; [vm_compute; reflexivity|].
  destruct (proj2 (loaded_rules_lookup hello_json _ Hinit)
              (default cJSON_NULL (cJSON_GetObjectItem hello_json "model"))
              hello_merges
              {| MergeRecord.left_id := 104; MergeRecord.right_id := 101;
                 MergeRecord.new_id := 256; MergeRecord.priority := 0 |})
    as (rec' & _ & Hpair & Hfind).
  - vm_compute. reflexivity.
  - vm_compute. reflexivity.
  - vm_compute. left. reflexivity.
  - exists rec'. split; [exact Hpair|exact Hfind].
Defined.

Lemma found_rule_priority_witness :
  find_merge_rule hello_tokenizer 258 111 = Some (259, 3)
  /\ 0 <= 3 < Z.of_nat (merge_count hello_tokenizer).
Proof.
  assert (Hfind : find_merge_rule hello_tokenizer 258 111 = Some (259, 3))
    by (vm_compute; reflexivity).
  split; [exact Hfind|].
  apply (found_rule_priority hello_json hello_tokenizer 258 111 259 3);
    [vm_compute; reflexivity|exact Hfind].
Defined.

(** ** The statuses of the loader *)

Section InitStatus.
Context `{RE : RegexEngine} `{SO : Sorter}.

Lemma load_vocab_negative (vocab : cJSON) :
  snd (load_vocab vocab) < 0 <-> no_token_id vocab.
Proof.
  unfold load_vocab, no_token_id.
  assert (Hgen : forall children st,
             snd (foldl vocab_body st children) < 0
             <-> snd st < 0
                 /\ Forall (fun item =>
                              match item with
                              | (Some _, cJSON_Number valueint) => valueint < 0
                              | _ => True
                              end) children).
  { induction children as [|item children IH]; intros st; cbn [foldl].
    - split; [intros H; split; [exact H|constructor]|tauto].
    - rewrite IH, Forall_cons. unfold vocab_body.
      destruct item as [[key|] j]; try tauto.
      destruct j; try tauto. cbn [snd].
      destruct (Z.ltb_spec (snd st) valueint); intuition lia. }
  rewrite Hgen. cbn [snd]. intuition lia.
Qed.

Lemma parse_pre_tokenizer_node_status (obj : cJSON) (st : BBPEStatus) :
  parse_pre_tokenizer_node obj = inl st ->
  st = BBPE_ERR_INVALID_INPUT \/ st = BBPE_ERR_REGEX_COMPILE
  \/ st = BBPE_ERR_UNSUPPORTED_TYPE.
Proof.
  unfold parse_pre_tokenizer_node.
  repeat match goal with
         | |- context [match ?x with _ => _ end] => destruct x
         end; intros [= <-]; auto.
Qed.

Lemma load_pre_tokenizers_status (root : cJSON) (st : BBPEStatus) :
  load_pre_tokenizers root = inl st ->
  st = BBPE_ERR_INVALID_INPUT \/ st = BBPE_ERR_REGEX_COMPILE
  \/ st = BBPE_ERR_UNSUPPORTED_TYPE.
Proof.
  unfold load_pre_tokenizers.
  destruct (cJSON_GetObjectItem root "pre_tokenizer") as [pre_tok|];
    [|discriminate].
  destruct (cJSON_GetObjectItem pre_tok "type") as [[| | | |type| |]|];
    try discriminate.
  destruct (bytes_eqb (strdup type) (bytes_of_string "Sequence")).
  - destruct (cJSON_GetObjectItem pre_tok "pretokenizers")
      as [[| | | | |pretokenizers|]|]; try discriminate.
    generalize (@nil PreTokenizerNode) as head.
    induction pretokenizers as [|item rest IH]; intros head;
      cbn [parse_sequence]; [discriminate|].
    destruct (parse_pre_tokenizer_node item) as [st'|node] eqn:Hnode;
      [|apply IH].
    intros [= <-]. eapply parse_pre_tokenizer_node_status, Hnode.
  - destruct (parse_pre_tokenizer_node pre_tok) as [st'|node] eqn:Hnode;
      [|discriminate].
    intros [= <-]. eapply parse_pre_tokenizer_node_status, Hnode.
Qed.

(** X12. [bbpe_init] answers [BBPE_ERR_VOCAB_MISSING] exactly when the
    tree has no [model], the model no [vocab], or the vocabulary no entry
    with a number that is not negative. *)
Theorem init_vocab_missing (root : cJSON) :
  bbpe_init_root root = Some (BBPE_ERR_VOCAB_MISSING, None)
  <-> match cJSON_GetObjectItem root "model" with
      | None => True
      | Some model =>
          match cJSON_GetObjectItem model "vocab" with
          | None => True
          | Some vocab => no_token_id vocab
          end
      end.
Proof.
  unfold bbpe_init_root.
  destruct (cJSON_GetObjectItem root "model") as [model|]; [|tauto].
  destruct (cJSON_GetObjectItem model "vocab") as [vocab|]; [|tauto].
  rewrite <- load_vocab_negative.
  destruct (load_vocab vocab) as [vocab_map max_id]. cbn [snd].
  destruct (Z.ltb_spec max_id 0) as [Hneg|Hpos]; [tauto|].
  split; [|lia]. intros Hinit. exfalso.
  destruct (INT32_MAX <=? max_id); [discriminate|].
  destruct (load_merges _ _ _) as [[mc rows]|]; [|discriminate].
  destruct (load_pre_tokenizers root) as [st|head] eqn:Hpre.
  - injection Hinit as ->.
    destruct (load_pre_tokenizers_status _ _ Hpre) as [|[|]]; discriminate.
  - destruct (load_added_tokens _ _); discriminate.
Qed.

(** X13. What [bbpe_init] returns after the parse, where the loader keeps
    to defined behaviour: [BBPE_OK] with a tokenizer, or no tokenizer and
    one of four error codes. *)
Theorem init_status (root : cJSON) (st : BBPEStatus)
    (res : option BBPETokenizer) :
  bbpe_init_root root = Some (st, res) ->
  (st = BBPE_OK /\ exists tok, res = Some tok)
  \/ (res = None
      /\ (st = BBPE_ERR_VOCAB_MISSING \/ st = BBPE_ERR_INVALID_INPUT
          \/ st = BBPE_ERR_REGEX_COMPILE \/ st = BBPE_ERR_UNSUPPORTED_TYPE)).
Proof.
  unfold bbpe_init_root.
  destruct (cJSON_GetObjectItem root "model") as [model|];
    [|intros [= <- <-]; auto].
  destruct (cJSON_GetObjectItem model "vocab") as [vocab|];
    [|intros [= <- <-]; auto].
  destruct (load_vocab vocab) as [vocab_map max_id].
  destruct (max_id <? 0); [intros [= <- <-]; auto|].
  destruct (INT32_MAX <=? max_id); [discriminate|].
  destruct (load_merges _ _ _) as [[mc rows]|]; [|discriminate].
  destruct (load_pre_tokenizers root) as [st'|head] eqn:Hpre.
  - intros [= <- <-]. right. split; [reflexivity|]. right.
    eapply load_pre_tokenizers_status, Hpre.
  - destruct (load_added_tokens _ _) as [tok|]; [|discriminate].
    intros [= <- <-]. left. split; [reflexivity|]. eexists. reflexivity.
Qed.

End InitStatus.

Lemma init_status_witness :
  bbpe_init_root
    (cJSON_Object
       [(bytes_of_string "model",
         cJSON_Object
           [(bytes_of_string "vocab",
             cJSON_Object [(bytes_of_string "a", cJSON_Number 0)])]);
        (bytes_of_string "pre_tokenizer",
         cJSON_Object [(bytes_of_string "type", json_string "Digits")])])
  = Some (BBPE_ERR_UNSUPPORTED_TYPE, None)
  /\ ((BBPE_ERR_UNSUPPORTED_TYPE = BBPE_OK
       /\ exists tok : BBPETokenizer, None = Some tok)
      \/ (@None BBPETokenizer = None
          /\ (BBPE_ERR_UNSUPPORTED_TYPE = BBPE_ERR_VOCAB_MISSING
              \/ BBPE_ERR_UNSUPPORTED_TYPE = BBPE_ERR_INVALID_INPUT
              \/ BBPE_ERR_UNSUPPORTED_TYPE = BBPE_ERR_REGEX_COMPILE
              \/ BBPE_ERR_UNSUPPORTED_TYPE = BBPE_ERR_UNSUPPORTED_TYPE))).
Proof.
  match goal with
  | |- ?init = _ /\ _ =>
      assert (H : init = Some (BBPE_ERR_UNSUPPORTED_TYPE, None))
        by (vm_compute; reflexivity)
  end.
  split; [exact H|]. exact (init_status _ _ _ H).
Defined.

(** ** The encoder as a function of the text *)

Section EncoderFunction.
Context `{RE : RegexEngine}.

Lemma append_ids_counted (out : BBPEOutput.t) (l : list Z) :
  counted out ->
  counted (append_ids out l)
  /\ BBPEOutput.ids (append_ids out l) = BBPEOutput.ids out ++ l.
Proof.
  unfold counted, append_ids. intros Hc. cbn [BBPEOutput.ids BBPEOutput.count].
  rewrite Hc, firstn_all, length_app. auto.
Qed.

Lemma append_ids_nil (out : BBPEOutput.t) : counted out -> append_ids out [] = out.
Proof.
  unfold counted, append_ids. destruct out as [ids count]. cbn. intros ->.
  rewrite firstn_all, app_nil_r, Nat.add_0_r. reflexivity.
Qed.

Lemma append_ids_app (out : BBPEOutput.t) (a b : list Z) :
  counted out -> append_ids (append_ids out a) b = append_ids out (a ++ b).
Proof.
  unfold counted, append_ids. intros Hc. cbn [BBPEOutput.ids BBPEOutput.count].
  rewrite Hc, !firstn_all. rewrite <- length_app, firstn_all.
  f_equal; [symmetry; apply app_assoc|]. rewrite !length_app. lia.
Qed.

Lemma merge_loop_nil (fuel : nat) (tok : BBPETokenizer) : merge_loop fuel tok [] = [].
Proof. destruct fuel; reflexivity. Qed.

Lemma strdup_empty (chunk : list Z) : strlen chunk = 0%nat -> strdup chunk = [].
Proof. unfold strdup. intros ->. reflexivity. Qed.

(** [encode_chunk] appends the ids of the chunk, or fails when a byte
    has no token. *)
Lemma encode_chunk_ids (tok : BBPETokenizer) (chunk : list Z) (out : BBPEOutput.t) :
  counted out ->
  encode_chunk tok chunk out
  = match chunk_ids tok chunk with
    | Some ids => (BBPE_OK, append_ids out ids)
    | None => (BBPE_ERR_TOKEN_NOT_FOUND, out)
    end.
Proof.
  intros Hc. unfold encode_chunk, chunk_ids. fold (strdup chunk).
  destruct (Nat.eqb_spec (strlen chunk) 0) as [Hlen|_].
  - rewrite (strdup_empty _ Hlen). cbn [bytes_to_ids length].
    rewrite merge_loop_nil, append_ids_nil by exact Hc. reflexivity.
  - destruct (bytes_to_ids tok (strdup chunk)); reflexivity.
Qed.

Lemma encode_chunks_ids (tok : BBPETokenizer) (chunks : list (list Z))
    (out : BBPEOutput.t) :
  counted out ->
  match chunks_ids tok chunks with
  | Some ids => encode_chunks tok chunks out = (BBPE_OK, append_ids out ids)
  | None => fst (encode_chunks tok chunks out) = BBPE_ERR_TOKEN_NOT_FOUND
  end.
Proof.
  revert out. induction chunks as [|chunk chunks IH]; intros out Hc;
    cbn [chunks_ids encode_chunks].
  - rewrite append_ids_nil by exact Hc. reflexivity.
  - rewrite encode_chunk_ids by exact Hc.
    destruct (chunk_ids tok chunk) as [a|]; [|reflexivity].
    destruct (append_ids_counted out a Hc) as [Hc' _].
    specialize (IH (append_ids out a) Hc').
    destruct (chunks_ids tok chunks) as [b|]; [|exact IH].
    rewrite IH, append_ids_app by exact Hc. reflexivity.
Qed.

(** In the embedding, where no allocation fails, the pre-tokenizers fail
    nowhere. *)
Lemma apply_single_pre_tokenizer_ok (node : PreTokenizerNode) (text : list Z) :
  fst (apply_single_pre_tokenizer node text) = BBPE_OK.
Proof.
  destruct node as [| |pattern [code|]]; try reflexivity.
  unfold apply_single_pre_tokenizer.
  destruct (regex_split_loop _ _ _ _ _ _ _) as [[last_end chunks]|]; reflexivity.
Qed.

Lemma pre_tokenize_node_ok (node : PreTokenizerNode)
    (current next : list (list Z)) :
  fst (pre_tokenize_node node current next) = BBPE_OK.
Proof.
  revert next. induction current as [|chunk current IH]; intros next;
    cbn [pre_tokenize_node]; [reflexivity|].
  pose proof (apply_single_pre_tokenizer_ok node chunk) as Hok.
  destruct (apply_single_pre_tokenizer node chunk) as [st part].
  cbn [fst] in Hok. subst st. apply IH.
Qed.

Lemma pre_tokenize_ok (tok : BBPETokenizer) (text : list Z) :
  fst (pre_tokenize tok text) = BBPE_OK.
Proof.
  unfold pre_tokenize. generalize [strdup text] as current.
  induction (pre_tokenizers tok) as [|node nodes IH]; intros current;
    cbn [pre_tokenize_chain]; [reflexivity|].
  pose proof (pre_tokenize_node_ok node current []) as Hok.
  destruct (pre_tokenize_node node current []) as [st next].
  cbn [fst] in Hok. subst st. apply IH.
Qed.

Lemma encode_segments_ids (tok : BBPETokenizer) (segments : list TokenSegment)
    (out : BBPEOutput.t) :
  counted out ->
  match segments_ids tok segments with
  | Some ids => encode_segments tok segments out = (BBPE_OK, append_ids out ids)
  | None => fst (encode_segments tok segments out) = BBPE_ERR_TOKEN_NOT_FOUND
  end.
Proof.
  revert out. induction segments as [|seg segments IH]; intros out Hc;
    cbn [segments_ids encode_segments].
  - rewrite append_ids_nil by exact Hc. reflexivity.
  - unfold segment_ids. destruct (is_special seg).
    + change {| BBPEOutput.ids :=
                  take (BBPEOutput.count out) (BBPEOutput.ids out) ++ [special_id seg];
                BBPEOutput.count := (BBPEOutput.count out + 1)%nat |}
        with (append_ids out [special_id seg]).
      destruct (append_ids_counted out [special_id seg] Hc) as [Hc' _].
      specialize (IH _ Hc').
      destruct (segments_ids tok segments) as [b|]; [|exact IH].
      rewrite IH, append_ids_app by exact Hc. reflexivity.
    + pose proof (pre_tokenize_ok tok (default [] (text seg))) as Hok.
      destruct (pre_tokenize tok (default [] (text seg))) as [st pre_res].
      cbn [fst snd] in *. subst st.
      pose proof (encode_chunks_ids tok pre_res out Hc) as Hchunks.
      destruct (chunks_ids tok pre_res) as [a|].
      * rewrite Hchunks.
        destruct (append_ids_counted out a Hc) as [Hc' _].
        specialize (IH _ Hc').
        destruct (segments_ids tok segments) as [b|]; [|exact IH].
        rewrite IH, append_ids_app by exact Hc. reflexivity.
      * destruct (encode_chunks tok pre_res out) as [st out'].
        cbn [fst] in Hchunks. subst st. reflexivity.
Qed.

(** [bbpe_encode], for pointers that are not NULL, as a function of the
    text. *)
Lemma bbpe_encode_ids (tok : BBPETokenizer) (text : list Z) (o : BBPEOutput.t) :
  bbpe_encode (Some tok) (Some text) (Some o)
  = match encoded_ids tok text with
    | Some ids => (BBPE_OK, Some (output_of ids))
    | None => (BBPE_ERR_TOKEN_NOT_FOUND, Some empty_output)
    end.
Proof.
  unfold bbpe_encode, encoded_ids.
  pose proof (encode_segments_ids tok (extract_special_tokens tok text)
                empty_output eq_refl) as Hrun.
  destruct (segments_ids tok (extract_special_tokens tok text)) as [ids|].
  - rewrite Hrun. reflexivity.
  - destruct (encode_segments _ _ _) as [st out]. cbn [fst] in Hrun. subst st.
    reflexivity.
Qed.

(** X14. What [bbpe_encode] returns for pointers that are not NULL,
    allocation failures apart: [BBPE_OK] and an output that counts its
    ids, or [BBPE_ERR_TOKEN_NOT_FOUND] and the empty output. *)
Theorem encode_status (tok : BBPETokenizer) (text : list Z) (o : BBPEOutput.t)
    (st : BBPEStatus) (res : option BBPEOutput.t) :
  bbpe_encode (Some tok) (Some text) (Some o) = (st, res) ->
  (st = BBPE_OK
   /\ exists out, res = Some out
                  /\ BBPEOutput.count out = length (BBPEOutput.ids out))
  \/ (st = BBPE_ERR_TOKEN_NOT_FOUND /\ res = Some empty_output).
Proof.
  rewrite bbpe_encode_ids.
  destruct (encoded_ids tok text) as [ids|]; intros [= <- <-]; [left|right]; auto.
  split; [reflexivity|]. exists (output_of ids). auto.
Qed.

End EncoderFunction.

Lemma encode_status_witness :
  bbpe_encode (Some null_tokenizer) (Some [104; 105]) (Some empty_output)
  = (BBPE_ERR_TOKEN_NOT_FOUND, Some empty_output)
  /\ ((BBPE_ERR_TOKEN_NOT_FOUND = BBPE_OK
       /\ exists out, Some empty_output = Some out
                      /\ BBPEOutput.count out = length (BBPEOutput.ids out))
      \/ (BBPE_ERR_TOKEN_NOT_FOUND = BBPE_ERR_TOKEN_NOT_FOUND
          /\ Some empty_output = Some empty_output)).
Proof.
  assert (H : bbpe_encode (RE := sample_engine) (Some null_tokenizer)
                (Some [104; 105]) (Some empty_output)
              = (BBPE_ERR_TOKEN_NOT_FOUND, Some empty_output))
    by (vm_compute; reflexivity).
  split; [exact H|]. exact (encode_status _ _ _ _ _ H).
Defined.

(** ** What the encoder returns *)

Section EncoderTotal.
Context `{RE : RegexEngine}.

Lemma bytes_to_ids_total (tok : BBPETokenizer) (chunk : list Z) :
  Forall (fun b => is_Some (byte_token_id tok b)) chunk ->
  is_Some (bytes_to_ids tok chunk).
Proof.
  induction 1 as [|b chunk [i Hi] _ [ids Hids]]; cbn [bytes_to_ids].
  - eexists. reflexivity.
  - rewrite Hi, Hids. eexists. reflexivity.
Qed.

Lemma strdup_range (s : list Z) :
  Forall (fun b => 0 <= b <= 255) s -> Forall (fun b => 1 <= b <= 255) (strdup s).
Proof.
  intros Hs. pose proof (strdup_nonzero s) as Hnz.
  assert (Hr : Forall (fun b => 0 <= b <= 255) (strdup s))
    by (unfold strdup; apply Forall_take, Hs).
  rewrite List.Forall_forall in *. intros b Hb.
  specialize (Hnz b Hb). specialize (Hr b Hb). lia.
Qed.

Lemma chunk_ids_total (tok : BBPETokenizer) (chunk : list Z) :
  (forall b, 1 <= b <= 255 -> is_Some (byte_token_id tok b)) ->
  Forall (fun b => 0 <= b <= 255) chunk ->
  is_Some (chunk_ids tok chunk).
Proof.
  intros Htok Hchunk. unfold chunk_ids.
  destruct (bytes_to_ids_total tok (strdup chunk)) as [ids Hids].
  - eapply Forall_impl; [apply strdup_range, Hchunk|]. exact Htok.
  - rewrite Hids. eexists. reflexivity.
Qed.

Lemma chunks_ids_total (tok : BBPETokenizer) (chunks : list (list Z)) :
  (forall b, 1 <= b <= 255 -> is_Some (byte_token_id tok b)) ->
  Forall (Forall (fun b => 0 <= b <= 255)) chunks ->
  is_Some (chunks_ids tok chunks).
Proof.
  intros Htok. induction 1 as [|chunk chunks Hchunk _ [b Hb]]; cbn [chunks_ids].
  - eexists. reflexivity.
  - destruct (chunk_ids_total tok chunk Htok Hchunk) as [a Ha].
    rewrite Ha, Hb. eexists. reflexivity.
Qed.

(** The chunks of the pre-tokenizers hold bytes of the text, and the
    space a ByteLevel node may put in front. *)
Lemma regex_split_loop_range (fuel : nat) (code : pcre2_code) (text : list Z)
    (text_len offset last_end : nat) (chunks : list (list Z))
    (last_end' : nat) (chunks' : list (list Z)) :
  Forall (fun b => 0 <= b <= 255) text ->
  Forall (Forall (fun b => 0 <= b <= 255)) chunks ->
  regex_split_loop fuel code text text_len offset last_end chunks
  = Some (last_end', chunks') ->
  Forall (Forall (fun b => 0 <= b <= 255)) chunks'.
Proof.
  intros Htext. revert offset last_end chunks.
  induction fuel as [|fuel IH]; intros offset last_end chunks Hchunks;
    cbn [regex_split_loop]; [discriminate|].
  destruct (offset <? text_len)%nat; [|intros [= _ <-]; exact Hchunks].
  destruct (pcre2_match code text text_len offset) as [rc [s e]].
  destruct (rc <? 0); [intros [= _ <-]; exact Hchunks|].
  destruct (rc =? 0); [apply IH, Hchunks|].
  apply IH. apply Forall_app. split.
  - destruct (last_end <? s)%nat; [|exact Hchunks].
    apply Forall_app. split; [exact Hchunks|].
    constructor; [|constructor]. apply Forall_take, Forall_drop, Htext.
  - constructor; [|constructor]. apply Forall_take, Forall_drop, Htext.
Qed.

Lemma apply_single_pre_tokenizer_range (node : PreTokenizerNode) (text : list Z) :
  Forall (fun b => 0 <= b <= 255) text ->
  Forall (Forall (fun b => 0 <= b <= 255))
    (snd (apply_single_pre_tokenizer node text)).
Proof.
  intros Htext. destruct node as [|add|pattern [code|]]; cbn [apply_single_pre_tokenizer snd];
    try constructor.
  - destruct add; [constructor; [lia|]|]; apply Forall_take, Htext.
  - constructor.
  - destruct (regex_split_loop _ _ _ _ _ _ _) as [[last_end chunks]|] eqn:Hrun;
      cbn [snd]; [|constructor].
    apply regex_split_loop_range in Hrun; [|exact Htext|constructor].
    destruct (length _ =? 0)%nat.
    + constructor; [|constructor]. unfold strdup. apply Forall_take, Htext.
    + destruct (last_end <? strlen text)%nat; [|exact Hrun].
      apply Forall_app. split; [exact Hrun|].
      constructor; [|constructor]. apply Forall_take, Forall_drop, Htext.
Qed.

Lemma pre_tokenize_node_range (node : PreTokenizerNode)
    (current next : list (list Z)) :
  Forall (Forall (fun b => 0 <= b <= 255)) current ->
  Forall (Forall (fun b => 0 <= b <= 255)) next ->
  Forall (Forall (fun b => 0 <= b <= 255))
    (snd (pre_tokenize_node node current next)).
Proof.
  intros Hcur. revert next.
  induction Hcur as [|chunk current Hchunk _ IH]; intros next Hnext;
    cbn [pre_tokenize_node]; [exact Hnext|].
  pose proof (apply_single_pre_tokenizer_ok node chunk) as Hok.
  pose proof (apply_single_pre_tokenizer_range node chunk Hchunk) as Hpart.
  destruct (apply_single_pre_tokenizer node chunk) as [st part].
  cbn [fst snd] in *. subst st. apply IH, Forall_app. auto.
Qed.

Lemma pre_tokenize_range (tok : BBPETokenizer) (text : list Z) :
  Forall (fun b => 0 <= b <= 255) text ->
  Forall (Forall (fun b => 0 <= b <= 255)) (snd (pre_tokenize tok text)).
Proof.
  intros Htext. unfold pre_tokenize.
  assert (Hcur : Forall (Forall (fun b => 0 <= b <= 255)) [strdup text]).
  { constructor; [|constructor]. unfold strdup. apply Forall_take, Htext. }
  revert Hcur. generalize [strdup text] as current.
  induction (pre_tokenizers tok) as [|node nodes IH]; intros current Hcur;
    cbn [pre_tokenize_chain]; [exact Hcur|].
  pose proof (pre_tokenize_node_ok node current []) as Hok.
  pose proof (pre_tokenize_node_range node current [] Hcur ltac:(constructor))
    as Hnext.
  destruct (pre_tokenize_node node current []) as [st next].
  cbn [fst snd] in *. subst st. apply IH, Hnext.
Qed.

Lemma segments_ids_total (tok : BBPETokenizer) (specials : list SpecialEntry.t)
    (segments : list TokenSegment) (c : list Z) :
  (forall b, 1 <= b <= 255 -> is_Some (byte_token_id tok b)) ->
  segmentation specials segments c ->
  Forall (fun b => 0 <= b <= 255) c ->
  is_Some (segments_ids tok segments).
Proof.
  intros Htok. induction 1 as [|s rest segments _ _ _ _ IH|e rest segments _ _ _ _ IH];
    intros Hc; cbn [segments_ids].
  - eexists. reflexivity.
  - apply Forall_app in Hc as [Hs Hrest]. destruct (IH Hrest) as [b Hb].
    unfold segment_ids. cbn [is_special normal_segment text default from_option].
    destruct (chunks_ids_total tok (snd (pre_tokenize tok s)) Htok) as [a Ha];
      [apply pre_tokenize_range, Hs|].
    cbv [id]. rewrite Ha, Hb. eexists. reflexivity.
  - apply Forall_app in Hc as [_ Hrest]. destruct (IH Hrest) as [b Hb].
    unfold segment_ids. cbn [is_special special_segment]. rewrite Hb.
    eexists. reflexivity.
Qed.

(** X15. With a token for every byte from 1 to 255, by its byte-alphabet
    string or by the raw byte, [bbpe_encode] returns [BBPE_OK] for every
    text (allocation failures apart). *)
Theorem encode_total (tok : BBPETokenizer) (text : list Z) (o : BBPEOutput.t) :
  (forall b, 1 <= b <= 255 -> is_Some (byte_token_id tok b)) ->
  Forall (fun b => 0 <= b <= 255) text ->
  exists out, bbpe_encode (Some tok) (Some text) (Some o) = (BBPE_OK, Some out).
Proof.
  intros Htok Htext. rewrite bbpe_encode_ids. unfold encoded_ids.
  destruct (segments_ids_total tok (special_tokens_map tok)
              (extract_special_tokens tok text) (strdup text) Htok) as [ids Hids].
  - apply extract_special_tokens_segmentation.
  - unfold strdup. apply Forall_take, Htext.
  - rewrite Hids. eexists. reflexivity.
Qed.

End EncoderTotal.

Lemma encode_total_witness :
  exists out,
    bbpe_encode (Some hello_tokenizer)
      (Some (bytes_of_string "say <|e|>hello  there"))
      (Some empty_output) = (BBPE_OK, Some out).
Proof.
  apply (encode_total hello_tokenizer).
  - intros b Hb.
    pose proof (below_all (fun b => (b =? 0)
                                    || match byte_token_id hello_tokenizer b with
                                       | Some _ => true
                                       | None => false
                                       end)
                  256 ltac:(vm_compute; reflexivity) b ltac:(lia)) as H.
    apply orb_prop in H as [H|H]; [apply Z.eqb_eq in H; lia|].
    destruct (byte_token_id hello_tokenizer b) as [i|];
      [exists i; reflexivity|discriminate].
  - apply (bool_decide_unpack _). vm_compute. reflexivity.
Defined.

(** ** The ids the encoder returns *)

Section EncodedAll.
Context `{RE : RegexEngine}.
Variable tok : BBPETokenizer.
Variable P : Z -> Prop.
Hypothesis Hvocab : forall e, In e (vocab_map tok) -> P (VocabEntry.id e).
Hypothesis Hmerge :
  forall l r n p, find_merge_rule tok l r = Some (n, p) -> P n.
Hypothesis Hspecial :
  forall e, In e (special_tokens_map tok) -> P (SpecialEntry.id e).

Lemma byte_token_id_all (b i : Z) : byte_token_id tok b = Some i -> P i.
Proof.
  unfold byte_token_id.
  destruct (HASH_FIND_STR (vocab_map tok) _) as [e|] eqn:He.
  - intros [= <-]. apply Hvocab. eapply HASH_FIND_STR_some, He.
  - destruct (HASH_FIND_STR (vocab_map tok) [b]) as [e|] eqn:He';
      [|discriminate].
    intros [= <-]. apply Hvocab. eapply HASH_FIND_STR_some, He'.
Qed.

Lemma bytes_to_ids_all (chunk ids : list Z) :
  bytes_to_ids tok chunk = Some ids -> Forall P ids.
Proof.
  revert ids. induction chunk as [|b chunk IH]; intros ids; cbn [bytes_to_ids].
  - intros [= <-]. constructor.
  - destruct (byte_token_id tok b) as [i|] eqn:Hi; [|discriminate].
    destruct (bytes_to_ids tok chunk) as [l|]; [|discriminate].
    intros [= <-]. constructor; [eapply byte_token_id_all, Hi|apply IH; reflexivity].
Qed.

Lemma merge_loop_all (fuel : nat) (ids : list Z) :
  Forall P ids -> Forall P (merge_loop fuel tok ids).
Proof.
  revert ids. induction fuel as [|fuel IH]; intros ids Hids; [exact Hids|].
  cbn [merge_loop]. destruct (1 <? length ids)%nat; [|exact Hids].
  destruct (find_best_merge ids (length ids) tok) as [[i n]|] eqn:Hbest;
    [|exact Hids].
  apply find_best_merge_hit in Hbest as (Hi & p & Hp).
  rewrite apply_merge_splice by exact Hi. apply IH.
  destruct (pair_rule_split _ _ _ _ Hp) as (a & b & _ & Hrule).
  apply Forall_app. split; [apply Forall_take, Hids|].
  constructor; [eapply Hmerge, Hrule|apply Forall_drop, Hids].
Qed.

Lemma chunks_ids_all (chunks : list (list Z)) (ids : list Z) :
  chunks_ids tok chunks = Some ids -> Forall P ids.
Proof.
  revert ids. induction chunks as [|chunk chunks IH]; intros ids; cbn [chunks_ids].
  - intros [= <-]. constructor.
  - unfold chunk_ids.
    destruct (bytes_to_ids tok (strdup chunk)) as [l|] eqn:Hl; [|discriminate].
    destruct (chunks_ids tok chunks) as [b|]; [|discriminate].
    intros [= <-]. apply Forall_app. split; [|apply IH; reflexivity].
    apply merge_loop_all. eapply bytes_to_ids_all, Hl.
Qed.

Lemma segments_ids_all (segments : list TokenSegment) (c ids : list Z) :
  segmentation (special_tokens_map tok) segments c ->
  segments_ids tok segments = Some ids -> Forall P ids.
Proof.
  intros Hseg. revert ids.
  induction Hseg as [|s rest segments _ _ _ _ IH|e rest segments He _ _ _ IH];
    intros ids; cbn [segments_ids].
  - intros [= <-]. constructor.
  - unfold segment_ids. cbn [is_special normal_segment].
    destruct (chunks_ids tok _) as [a|] eqn:Ha; [|discriminate].
    destruct (segments_ids tok segments) as [b|]; [|discriminate].
    intros [= <-]. apply Forall_app. split; [|apply IH; reflexivity].
    eapply chunks_ids_all, Ha.
  - unfold segment_ids. cbn [is_special special_segment special_id].
    destruct (segments_ids tok segments) as [b|]; [|discriminate].
    intros [= <-]. constructor; [apply Hspecial, He|apply IH; reflexivity].
Qed.

End EncodedAll.

Section EncodedKnown.
Context `{RE : RegexEngine} `{SO : Sorter} {SOL : SorterLaws}.

Lemma decode_size_known_status (tok : BBPETokenizer) (ids : list Z)
    (total : nat) (st : BBPEStatus) :
  Forall (fun i => is_Some (token_text tok i)) ids ->
  decode_size tok ids total = inl st -> st = BBPE_ERR_INVALID_INPUT.
Proof.
  intros Hids. revert total.
  induction Hids as [|i ids [t Ht] _ IH]; intros total; cbn [decode_size];
    [discriminate|].
  apply token_text_some in Ht as [Hrange Hslot].
  destruct (Z.ltb_spec i 0) as [|_]; [lia|].
  destruct (Z.leb_spec (vocab_size tok) i) as [|_]; [lia|]. cbn [orb].
  rewrite Hslot. cbv [from_option id default].
  destruct (decode_size_loop _ _ _ _) as [[st'|n]|] eqn:Hloop.
  - intros [= <-]. eapply decode_size_loop_status, Hloop.
  - apply IH.
  - apply IH.
Qed.

(** X16. Every id [bbpe_encode] returns on a loaded tokenizer is one
    [bbpe_decode] knows, when the vocabulary has no negative id: the id
    lies in [0, vocab_size) and has a string, so that [bbpe_decode] of the
    ids does not answer [BBPE_ERR_TOKEN_NOT_FOUND]. *)
Theorem encode_returns_known_ids (root : cJSON) (tok : BBPETokenizer)
    (text : list Z) (o out : BBPEOutput.t) (t : option (list Z)) :
  bbpe_init_root root = Some (BBPE_OK, Some tok) ->
  Forall (fun e => 0 <= VocabEntry.id e) (vocab_map tok) ->
  bbpe_encode (Some tok) (Some text) (Some o) = (BBPE_OK, Some out) ->
  Forall (fun i => is_Some (token_text tok i)) (BBPEOutput.ids out)
  /\ fst (bbpe_decode (Some tok) (Some (BBPEOutput.ids out))
            (BBPEOutput.count out) (Some t))
     <> BBPE_ERR_TOKEN_NOT_FOUND.
Proof.
  intros Hinit Hpos Henc.
  destruct (bbpe_init_root_registered root tok Hinit) as (base & Hbase & Hs & Hreg).
  pose proof (reg_extends _ _ Hreg) as Hext.
  assert (Hvocab : forall e, In e (vocab_map tok) ->
                             is_Some (token_text tok (VocabEntry.id e))).
  { intros e He. rewrite List.Forall_forall in Hpos. specialize (Hpos e He).
    rewrite (ext_vocab_map _ _ Hext) in He.
    destruct (loaded_base_filled root base e Hbase He Hpos) as [_ [s Hs']].
    exists s. apply (ext_token_text _ _ Hext), Hs'. }
  assert (Hmerge : forall l r n p, find_merge_rule tok l r = Some (n, p) ->
                                   is_Some (token_text tok n)).
  { intros l r n p Hfind. apply (ext_find_merge_rule _ _ Hext) in Hfind.
    destruct (base_rule_record root base l r n p Hbase Hfind)
      as (model & merges & rec & _ & _ & _ & Hrec & _ & _ & Hn & _).
    apply collect_merges_joins in Hrec
      as (le & re & me & _ & _ & Hme & _ & _ & Hidm & _).
    rewrite <- Hn, <- Hidm. apply Hvocab.
    rewrite (ext_vocab_map _ _ Hext). exact Hme. }
  assert (Hspecial : forall e, In e (special_tokens_map tok) ->
                               is_Some (token_text tok (SpecialEntry.id e))).
  { intros e He. destruct (reg_strings _ _ Hreg e He) as [Hsome _].
    eexists. exact Hsome. }
  rewrite bbpe_encode_ids in Henc. unfold encoded_ids in Henc.
  destruct (segments_ids tok (extract_special_tokens tok text)) as [ids|] eqn:Hids;
    [|discriminate].
  injection Henc as <-. cbn [output_of BBPEOutput.ids BBPEOutput.count].
  assert (Hknown : Forall (fun i => is_Some (token_text tok i)) ids).
  { eapply (segments_ids_all tok _ Hvocab Hmerge Hspecial);
      [apply extract_special_tokens_segmentation|exact Hids]. }
  split; [exact Hknown|].
  unfold bbpe_decode. destruct (length ids =? 0)%nat; [discriminate|].
  rewrite firstn_all.
  destruct (decode_size tok ids 0) as [st|n] eqn:Hsize.
  - rewrite (decode_size_known_status tok ids 0 st Hknown Hsize). discriminate.
  - destruct (decode_fill tok ids []) as [st|r] eqn:Hfill; [|discriminate].
    rewrite (decode_fill_status _ _ _ _ Hfill). discriminate.
Qed.

End EncodedKnown.

Lemma encode_returns_known_ids_witness :
  bbpe_encode (Some hello_tokenizer) (Some (bytes_of_string "hello<|e|> you"))
    (Some empty_output)
  = (BBPE_OK, Some (output_of [259; 300; 32; 121; 111; 117]))
  /\ Forall (fun i => is_Some (token_text hello_tokenizer i))
       [259; 300; 32; 121; 111; 117]
  /\ fst (bbpe_decode (Some hello_tokenizer) (Some [259; 300; 32; 121; 111; 117])
            6 (Some None))
     <> BBPE_ERR_TOKEN_NOT_FOUND.
Proof.
  assert (Henc : bbpe_encode (Some hello_tokenizer)
                   (Some (bytes_of_string "hello<|e|> you")) (Some empty_output)
                 = (BBPE_OK, Some (output_of [259; 300; 32; 121; 111; 117])))
    by (vm_compute; reflexivity).
  assert (Hinit : bbpe_init_root hello_json = Some (BBPE_OK, Some hello_tokenizer))
    by (vm_compute; reflexivity).
  assert (Hpos : Forall (fun e => 0 <= VocabEntry.id e) (vocab_map hello_tokenizer))
    by (apply (bool_decide_unpack _); vm_compute; reflexivity).
  split; [exact Henc|].
  exact (encode_returns_known_ids hello_json hello_tokenizer _ _ _ None
           Hinit Hpos Henc).
Defined.

(** ** How many ids the encoder returns *)

Section EncodedCount.
Context `{RE : RegexEngine} {REL : RegexEngineLaws}.

Lemma bytes_to_ids_length (tok : BBPETokenizer) (chunk ids : list Z) :
  bytes_to_ids tok chunk = Some ids -> length ids = length chunk.
Proof.
  revert ids. induction chunk as [|b chunk IH]; intros ids; cbn [bytes_to_ids].
  - intros [= <-]. reflexivity.
  - destruct (byte_token_id tok b); [|discriminate].
    destruct (bytes_to_ids tok chunk) as [l|]; [|discriminate].
    intros [= <-]. cbn [length]. f_equal. apply IH. reflexivity.
Qed.

(** A merge takes one id away and never the last one. *)
Lemma merge_loop_length (tok : BBPETokenizer) (fuel : nat) (ids : list Z) :
  (length (merge_loop fuel tok ids) <= length ids)%nat
  /\ (ids <> [] -> merge_loop fuel tok ids <> []).
Proof.
  revert ids. induction fuel as [|fuel IH]; intros ids; [auto|].
  cbn [merge_loop]. destruct (1 <? length ids)%nat; [|auto].
  destruct (find_best_merge ids (length ids) tok) as [[i n]|] eqn:Hbest; [|auto].
  apply find_best_merge_hit in Hbest as (Hi & _).
  rewrite apply_merge_splice by exact Hi.
  destruct (IH (take i ids ++ n :: drop (S (S i)) ids)) as [Hlen Hne].
  rewrite length_app, length_take in Hlen. cbn [length] in Hlen.
  rewrite length_drop in Hlen.
  split; [lia|]. intros _. apply Hne. destruct (take i ids); discriminate.
Qed.

Lemma chunk_ids_bounds (tok : BBPETokenizer) (chunk ids : list Z) :
  chunk_ids tok chunk = Some ids ->
  (length ids <= length (strdup chunk))%nat /\ (strdup chunk <> [] -> ids <> []).
Proof.
  unfold chunk_ids.
  destruct (bytes_to_ids tok (strdup chunk)) as [l|] eqn:Hl; [|discriminate].
  intros [= <-]. apply bytes_to_ids_length in Hl.
  destruct (merge_loop_length tok (length l) l) as [Hlen Hne].
  split; [lia|]. intros Hchunk. apply Hne. intros ->. apply Hchunk.
  destruct (strdup chunk); [reflexivity|discriminate].
Qed.

Lemma chunks_ids_bounds (tok : BBPETokenizer) (chunks : list (list Z))
    (ids : list Z) :
  Forall (fun c => c <> 0) (concat chunks) ->
  chunks_ids tok chunks = Some ids ->
  (length ids <= length (concat chunks))%nat
  /\ (concat chunks <> [] -> ids <> []).
Proof.
  revert ids. induction chunks as [|chunk chunks IH]; intros ids Hnz;
    cbn [chunks_ids concat].
  - intros [= <-]. auto.
  - cbn [concat] in Hnz. apply Forall_app in Hnz as [Hnz1 Hnz2].
    destruct (chunk_ids tok chunk) as [a|] eqn:Ha; [|discriminate].
    destruct (chunks_ids tok chunks) as [b|]; [|discriminate].
    intros [= <-].
    destruct (chunk_ids_bounds tok chunk a Ha) as [Hla Hna].
    destruct (IH b Hnz2 eq_refl) as [Hlb Hnb].
    rewrite (strdup_id chunk Hnz1) in Hla, Hna.
    rewrite !length_app. split; [lia|].
    intros Hne. destruct chunk as [|c chunk].
    + cbn [app] in Hne. specialize (Hnb Hne). destruct a, b; try discriminate.
      contradiction.
    + specialize (Hna ltac:(discriminate)). destruct a; [contradiction|discriminate].
Qed.

Lemma segments_ids_bounds (tok : BBPETokenizer) (segments : list TokenSegment)
    (c ids : list Z) :
  Forall plain_node (pre_tokenizers tok) ->
  segmentation (special_tokens_map tok) segments c ->
  Forall (fun b => b <> 0) c ->
  segments_ids tok segments = Some ids ->
  (length ids <= length c)%nat /\ (c <> [] -> ids <> []).
Proof.
  intros Hchain Hseg. revert ids.
  induction Hseg as [|s rest segments Hs _ _ _ IH|e rest segments _ He _ _ IH];
    intros ids Hnz; cbn [segments_ids].
  - intros [= <-]. auto.
  - apply Forall_app in Hnz as [Hnz1 Hnz2].
    unfold segment_ids. cbn [is_special normal_segment text default from_option].
    cbv [id]. unfold pre_tokenize.
    destruct (pre_tokenize_chain_plain (pre_tokenizers tok) [strdup s] Hchain)
      as (chunks & Hchunks & Hcat).
    { cbn [concat]. rewrite app_nil_r, strdup_id by exact Hnz1. exact Hnz1. }
    cbn [concat] in Hcat. rewrite app_nil_r, strdup_id in Hcat by exact Hnz1.
    rewrite Hchunks. cbn [snd].
    destruct (chunks_ids tok chunks) as [a|] eqn:Ha; [|discriminate].
    destruct (segments_ids tok segments) as [b|]; [|discriminate].
    intros [= <-].
    destruct (chunks_ids_bounds tok chunks a ltac:(rewrite Hcat; exact Hnz1) Ha)
      as [Hla Hna].
    destruct (IH b Hnz2 eq_refl) as [Hlb _].
    rewrite Hcat in Hla, Hna. rewrite !length_app. split; [lia|].
    intros _. specialize (Hna Hs). destruct a; [contradiction|discriminate].
  - apply Forall_app in Hnz as [_ Hnz2].
    unfold segment_ids. cbn [is_special special_segment].
    destruct (segments_ids tok segments) as [b|]; [|discriminate].
    intros [= <-]. destruct (IH b Hnz2 eq_refl) as [Hlb _].
    rewrite length_app. cbn [length app].
    split; [|discriminate].
    destruct (strdup (SpecialEntry.token e)); [contradiction|cbn [length]; lia].
Qed.

(** X17. With a chain that adds no prefix space, [bbpe_encode] returns at
    most one id for every byte of the text, and at least one id when the
    text is not empty. *)
Theorem encode_count_bounds (tok : BBPETokenizer) (text : list Z)
    (o out : BBPEOutput.t) :
  Forall plain_node (pre_tokenizers tok) ->
  bbpe_encode (Some tok) (Some text) (Some o) = (BBPE_OK, Some out) ->
  (BBPEOutput.count out <= strlen text)%nat
  /\ (strlen text <> 0%nat -> (1 <= BBPEOutput.count out)%nat).
Proof.
  intros Hchain. rewrite bbpe_encode_ids. unfold encoded_ids.
  destruct (segments_ids tok (extract_special_tokens tok text)) as [ids|] eqn:Hids;
    [|discriminate].
  intros [= <-]. cbn [output_of BBPEOutput.count].
  destruct (segments_ids_bounds tok _ (strdup text) ids Hchain
              (extract_special_tokens_segmentation tok text)
              (strdup_nonzero text) Hids) as [Hlen Hne].
  rewrite length_strdup in Hlen. split; [exact Hlen|].
  intros Htext. destruct ids; [|cbn [length]; lia].
  exfalso. apply Hne; [|reflexivity].
  intros Hnil. apply (f_equal length) in Hnil. rewrite length_strdup in Hnil.
  exact (Htext Hnil).
Qed.

End EncodedCount.

Lemma encode_count_bounds_witness :
  bbpe_encode (Some hello_tokenizer) (Some (bytes_of_string "hello<|e|> you"))
    (Some empty_output)
  = (BBPE_OK, Some (output_of [259; 300; 32; 121; 111; 117]))
  /\ (6 <= strlen (bytes_of_string "hello<|e|> you"))%nat
  /\ (strlen (bytes_of_string "hello<|e|> you") <> 0%nat -> (1 <= 6)%nat).
Proof.
  assert (Henc : bbpe_encode (Some hello_tokenizer)
                   (Some (bytes_of_string "hello<|e|> you")) (Some empty_output)
                 = (BBPE_OK, Some (output_of [259; 300; 32; 121; 111; 117])))
    by (vm_compute; reflexivity).
  assert (Hchain : Forall plain_node (pre_tokenizers hello_tokenizer)).
  { vm_compute. constructor; [right; eexists _, _; reflexivity|].
    constructor; [left; reflexivity|constructor]. }
  split; [exact Henc|].
  exact (encode_count_bounds hello_tokenizer _ _ _ Hchain Henc).
Defined.

(** ** The byte alphabet *)

(** X18. [init_byte_mappings] sends the 256 bytes to 256 different code
    points below 324: a byte of the three printable ranges to itself and
    the 68 others to 256 and up, in order; [unicode_to_byte] holds the
    byte at its code point; and the precomputed string of a byte is the
    UTF-8 text of its code point, one or two bytes that [utf8_decode]
    reads back. *)
Theorem byte_alphabet_bijection (b : Z) :
  0 <= b <= 255 ->
  let cp := byte_code_point b in
  (if maps_to_itself b then cp = b else 256 <= cp < 324)
  /\ default 0 (bm_unicode_to_byte init_byte_mappings !! Z.to_nat cp) = b
  /\ (forall b', 0 <= b' <= 255 -> byte_code_point b' = cp -> b' = b)
  /\ precompute_byte_strings init_byte_mappings !! Z.to_nat b
     = Some (utf8_encode cp)
  /\ (1 <= length (utf8_encode cp) <= 2)%nat
  /\ utf8_decode (utf8_encode cp) = Some (cp, length (utf8_encode cp)).
Proof.
  intros Hb cp. subst cp.
  assert (Hall : forallb
                   (fun b =>
                      let cp := byte_code_point b in
                      (if maps_to_itself b then cp =? b
                       else (256 <=? cp) && (cp <? 324))
                      && (1 <=? length (utf8_encode cp))%nat
                      && (length (utf8_encode cp) <=? 2)%nat
                      && bool_decide (utf8_decode (utf8_encode cp)
                                      = Some (cp, length (utf8_encode cp))))
                   (map Z.of_nat (seq 0 256)) = true)
    by (vm_compute; reflexivity).
  pose proof (below_all _ 256 Hall b ltac:(lia)) as H. clear Hall.
  cbv zeta in H.
  apply andb_prop in H as [H H4]. apply andb_prop in H as [H H3].
  apply andb_prop in H as [H1 H2].
  apply Nat.leb_le in H2, H3. apply bool_decide_eq_true_1 in H4.
  split; [|split; [|split; [|split; [|split]]]].
  - destruct (maps_to_itself b); [apply Z.eqb_eq, H1|].
    apply andb_prop in H1 as [Ha Hc]. apply Z.leb_le in Ha. apply Z.ltb_lt in Hc.
    lia.
  - apply byte_alphabet_inverse, Hb.
  - intros b' Hb' Heq.
    rewrite <- (byte_alphabet_inverse b' Hb'), Heq. apply byte_alphabet_inverse, Hb.
  - apply precomputed_string, Hb.
  - lia.
  - exact H4.
Qed.

Lemma byte_alphabet_bijection_witness :
  byte_code_point 32 = 288
  /\ default 0 (bm_unicode_to_byte init_byte_mappings !! Z.to_nat 288) = 32
  /\ utf8_encode 288 = [196; 160].
Proof.
  assert (Hcp : byte_code_point 32 = 288) by (vm_compute; reflexivity).
  assert (Henc : utf8_encode 288 = [196; 160]) by (vm_compute; reflexivity).
  split; [exact Hcp|]. split; [|exact Henc].
  rewrite <- Hcp.
  exact (proj1 (proj2 (byte_alphabet_bijection 32 ltac:(lia)))).
Defined.

(** ** The strings of the merge rules *)

Section RuleStrings.
Context `{RE : RegexEngine} `{SO : Sorter} {SOL : SorterLaws}.

(** With distinct ids, none negative, every entry of the vocabulary has
    its token as the string of its id. *)
Lemma loaded_base_strings (root : cJSON) (base : BBPETokenizer) :
  loaded_base root base ->
  NoDup (map VocabEntry.id (vocab_map base)) ->
  Forall (fun e => 0 <= VocabEntry.id e) (vocab_map base) ->
  forall e, In e (vocab_map base) ->
    token_text base (VocabEntry.id e) = Some (VocabEntry.token e).
Proof.
  intros Hbase Hnd Hpos e He.
  destruct (base_vocab _ _ Hbase)
    as (model & vocab & _ & _ & Hvm & Hsize & Hmax & _).
  assert (Hrange : forall e', In e' (vocab_map base) ->
                              0 <= VocabEntry.id e' < vocab_size base).
  { intros e' He'. split.
    - rewrite List.Forall_forall in Hpos. apply Hpos, He'.
    - rewrite Hvm in He'. pose proof (load_vocab_max vocab e' He'). lia. }
  apply token_text_some. split; [apply Hrange, He|].
  rewrite (base_id_to_token _ _ Hbase).
  apply id_to_token_fold_spec; auto. apply length_replicate.
Qed.

(** X19. On a tokenizer loaded from a vocabulary of distinct ids, none
    negative, a rule that [find_merge_rule] finds joins strings: both ids
    asked for have a string, and the string of the new id is the one
    followed by the other. A merge thus leaves the text the ids stand for
    as it is. *)
Theorem loaded_rules_join (root : cJSON) (tok : BBPETokenizer) (l r n p : Z) :
  bbpe_init_root root = Some (BBPE_OK, Some tok) ->
  NoDup (map VocabEntry.id (vocab_map tok)) ->
  Forall (fun e => 0 <= VocabEntry.id e) (vocab_map tok) ->
  find_merge_rule tok l r = Some (n, p) ->
  exists tl tr,
    token_text tok l = Some tl /\ token_text tok r = Some tr
    /\ token_text tok n = Some (tl ++ tr).
Proof.
  intros Hinit Hnd Hpos Hfind.
  destruct (bbpe_init_root_registered root tok Hinit) as (base & Hbase & Hs & Hreg).
  pose proof (reg_extends _ _ Hreg) as Hext.
  rewrite (ext_vocab_map _ _ Hext) in Hnd, Hpos.
  pose proof (loaded_base_strings root base Hbase Hnd Hpos) as Hvocab.
  apply (ext_find_merge_rule _ _ Hext) in Hfind.
  destruct (base_vocab _ _ Hbase)
    as (model & vocab & _ & _ & _ & Hsize & Hmax & Hload).
  assert (HV : 0 <= vocab_size base) by lia.
  destruct (load_merges_closed model base (vocab_size base) (merge_count base)
              HV Hload Hvocab l r n p Hfind) as (tl & tr & Hl & Hr & Hn).
  exists tl, tr. split; [|split]; apply (ext_token_text _ _ Hext); assumption.
Qed.

End RuleStrings.

Lemma loaded_rules_join_witness :
  find_merge_rule hello_tokenizer 258 111 = Some (259, 3)
  /\ exists tl tr,
       token_text hello_tokenizer 258 = Some tl
       /\ token_text hello_tokenizer 111 = Some tr
       /\ token_text hello_tokenizer 259 = Some (tl ++ tr).
Proof.
  assert (Hinit : bbpe_init_root hello_json = Some (BBPE_OK, Some hello_tokenizer))
    by (vm_compute; reflexivity).
  assert (Hnd : NoDup (map VocabEntry.id (vocab_map hello_tokenizer)))
    by (apply (bool_decide_unpack _); vm_compute; reflexivity).
  assert (Hpos : Forall (fun e => 0 <= VocabEntry.id e) (vocab_map hello_tokenizer))
    by (apply (bool_decide_unpack _); vm_compute; reflexivity).
  assert (Hfind : find_merge_rule hello_tokenizer 258 111 = Some (259, 3))
    by (vm_compute; reflexivity).
  split; [exact Hfind|].
  exact (loaded_rules_join hello_json hello_tokenizer 258 111 259 3
           Hinit Hnd Hpos Hfind).
Defined.

(** ** The prefix space *)

Section PrefixSpace.
Context `{RE : RegexEngine} {REL : RegexEngineLaws} `{SO : Sorter} {SOL : SorterLaws}.

(** Encoding and decoding give back the chunks of the pre-tokenizers,
    put together. *)
Lemma round_trip_chunks (tok : BBPETokenizer) (text : list Z)
    (chunks : list (list Z)) (o : BBPEOutput.t) (t : option (list Z)) :
  well_formed tok ->
  no_special_inside tok text -> strdup text <> [] ->
  pre_tokenize tok (strdup text) = (BBPE_OK, chunks) ->
  Forall text_byte (concat chunks) ->
  Forall (fun b => is_Some (HASH_FIND_STR (vocab_map tok)
                              (utf8_encode (byte_code_point b))))
    (concat chunks) ->
  concat chunks <> [] ->
  exists out,
    bbpe_encode (Some tok) (Some text) (Some o) = (BBPE_OK, Some out)
    /\ counted out
    /\ bbpe_decode (Some tok) (Some (BBPEOutput.ids out)) (BBPEOutput.count out)
         (Some t)
       = (BBPE_OK, Some (Some (concat chunks))).
Proof.
  intros Hwf Hnone Hne Hpre Hbytes Hknown Hcat.
  unfold bbpe_encode. rewrite (extract_special_tokens_plain tok text Hnone Hne).
  rewrite encode_segments_normal, Hpre.
  destruct (encode_chunks_spells tok chunks empty_output Hwf Hbytes Hknown eq_refl)
    as (out & ids & Henc & Hcount & Hids & Hsp).
  rewrite Henc. exists out. split; [reflexivity|]. split; [exact Hcount|].
  cbn [BBPEOutput.ids empty_output app] in Hids.
  unfold counted in Hcount. rewrite Hcount, Hids.
  unfold bbpe_decode.
  pose proof (spells_nonempty tok ids _ Hsp Hcat) as Hids_ne.
  destruct (Nat.eqb_spec (length ids) 0) as [Hlen|_].
  { destruct ids; [congruence|discriminate]. }
  rewrite firstn_all.
  destruct (decode_spelled tok ids (concat chunks) (wf_unicode_to_byte tok Hwf) Hsp
              0%nat []) as [Hsize Hfill].
  rewrite Hsize, Hfill. reflexivity.
Qed.

(** X20. A chain that is one ByteLevel node with [add_prefix_space] puts a
    space in front of the text, and the decoder leaves it there: what
    comes back from [bbpe_decode] is the text behind a space. The
    tokenizer and the text are as for the round trip, with a token for the
    space. *)
Theorem prefix_space_round_trip (root : cJSON) (tok : BBPETokenizer)
    (text : list Z) (o : BBPEOutput.t) (t : option (list Z)) :
  bbpe_init_root root = Some (BBPE_OK, Some tok) ->
  NoDup (map VocabEntry.id (vocab_map tok)) ->
  Forall (fun e => 0 <= VocabEntry.id e) (vocab_map tok) ->
  pre_tokenizers tok = [PRE_TOKENIZER_BYTE_LEVEL true] ->
  Forall (fun b => 0 <= b <= 255) text ->
  bytes_known tok (32 :: text) ->
  no_special_inside tok text ->
  strdup text <> [] ->
  exists out,
    bbpe_encode (Some tok) (Some text) (Some o) = (BBPE_OK, Some out)
    /\ bbpe_decode (Some tok) (Some (BBPEOutput.ids out)) (BBPEOutput.count out)
         (Some t)
       = (BBPE_OK, Some (Some (32 :: strdup text))).
Proof.
  intros Hinit Hnd Hpos Hchain Hrange Hknown Hnone Hne.
  destruct (loaded_well_formed root tok Hinit Hnd Hpos) as [Hwf _].
  assert (Hpre : pre_tokenize tok (strdup text) = (BBPE_OK, [32 :: strdup text])).
  { unfold pre_tokenize. rewrite Hchain.
    cbn [pre_tokenize_chain pre_tokenize_node apply_single_pre_tokenizer app].
    fold (strdup (strdup (strdup text))). rewrite !strdup_strdup. reflexivity. }
  assert (Hspace : strdup (32 :: text) = 32 :: strdup text) by reflexivity.
  unfold bytes_known in Hknown. rewrite Hspace in Hknown.
  destruct (round_trip_chunks tok text [32 :: strdup text] o t Hwf Hnone Hne Hpre)
    as (out & Henc & _ & Hdec).
  - cbn [concat]. rewrite app_nil_r. constructor; [unfold text_byte; lia|].
    pose proof (strdup_nonzero text) as Hnz.
    assert (Hr : Forall (fun b => 0 <= b <= 255) (strdup text))
      by (unfold strdup; apply Forall_take, Hrange).
    rewrite List.Forall_forall in *. intros b Hb. unfold text_byte.
    specialize (Hnz b Hb). specialize (Hr b Hb). lia.
  - cbn [concat]. rewrite app_nil_r. exact Hknown.
  - discriminate.
  - exists out. cbn [concat] in Hdec. rewrite app_nil_r in Hdec. auto.
Qed.

End PrefixSpace.

Lemma prefix_space_round_trip_witness :
  exists out,
    bbpe_encode (Some prefix_space_tokenizer) (Some (bytes_of_string "hi you"))
      (Some empty_output) = (BBPE_OK, Some out)
    /\ bbpe_decode (Some prefix_space_tokenizer) (Some (BBPEOutput.ids out))
         (BBPEOutput.count out) (Some None)
       = (BBPE_OK, Some (Some (32 :: strdup (bytes_of_string "hi you")))).
Proof.
  apply (prefix_space_round_trip prefix_space_json).
  - vm_compute. reflexivity.
  - apply (bool_decide_unpack _). vm_compute. reflexivity.
  - apply (bool_decide_unpack _). vm_compute. reflexivity.
  - vm_compute. reflexivity.
  - apply (bool_decide_unpack _). vm_compute. reflexivity.
  - apply (bool_decide_unpack _). vm_compute. reflexivity.
  - apply no_special_inside_bounded.
    apply (bool_decide_unpack _). vm_compute. reflexivity.
  - vm_compute. discriminate.
Defined.

(** ** Decoding id by id *)

Section DecoderComposition.
Context `{RE : RegexEngine}.

(** The loops over a token string do not look at what has been counted
    and written before. *)
Lemma decode_size_loop_shift (fuel : nat) (tok : BBPETokenizer) (p : list Z)
    (k total : nat) :
  decode_size_loop fuel tok p (k + total)
  = match decode_size_loop fuel tok p total with
    | Some (inr n) => Some (inr (k + n)%nat)
    | other => other
    end.
Proof.
  revert p total. induction fuel as [|fuel IH]; intros p total;
    cbn [decode_size_loop]; [reflexivity|].
  destruct (char_at p 0 =? 0); [reflexivity|].
  destruct (utf8_decode p) as [[cp len]|]; [|reflexivity].
  destruct (maps_to_byte tok cp); rewrite <- Nat.add_assoc; apply IH.
Qed.

Lemma decode_fill_loop_shift (fuel : nat) (tok : BBPETokenizer) (p : list Z)
    (pre result : list Z) :
  decode_fill_loop fuel tok p (pre ++ result)
  = match decode_fill_loop fuel tok p result with
    | Some (inr r) => Some (inr (pre ++ r))
    | other => other
    end.
Proof.
  revert p result. induction fuel as [|fuel IH]; intros p result;
    cbn [decode_fill_loop]; [reflexivity|].
  destruct (char_at p 0 =? 0); [reflexivity|].
  destruct (utf8_decode p) as [[cp len]|]; [|reflexivity].
  destruct (maps_to_byte tok cp); rewrite <- app_assoc; apply IH.
Qed.

Lemma decode_size_shift (tok : BBPETokenizer) (ids : list Z) (k total : nat) :
  decode_size tok ids (k + total)
  = match decode_size tok ids total with
    | inr n => inr (k + n)%nat
    | inl st => inl st
    end.
Proof.
  revert total. induction ids as [|i ids IH]; intros total; cbn [decode_size];
    [reflexivity|].
  destruct ((i <? 0) || (vocab_size tok <=? i)); [reflexivity|].
  destruct (default None (id_to_token tok !! Z.to_nat i)) as [token_str|];
    [|reflexivity].
  rewrite decode_size_loop_shift.
  destruct (decode_size_loop _ tok token_str total) as [[st|n]|];
    cbv [from_option id default]; [reflexivity|apply IH..].
Qed.

Lemma decode_fill_shift (tok : BBPETokenizer) (ids : list Z) (pre result : list Z) :
  decode_fill tok ids (pre ++ result)
  = match decode_fill tok ids result with
    | inr r => inr (pre ++ r)
    | inl st => inl st
    end.
Proof.
  revert result. induction ids as [|i ids IH]; intros result; cbn [decode_fill];
    [reflexivity|].
  rewrite decode_fill_loop_shift.
  destruct (decode_fill_loop _ tok _ result) as [[st|r]|];
    cbv [from_option id default]; [reflexivity|apply IH..].
Qed.

(** The passes over [a ++ b] are the passes over [a], then over [b]. *)
Lemma decode_size_app (tok : BBPETokenizer) (a b : list Z) (total : nat) :
  decode_size tok (a ++ b) total
  = match decode_size tok a total with
    | inr n => decode_size tok b n
    | inl st => inl st
    end.
Proof.
  revert total. induction a as [|i a IH]; intros total;
    cbn [app decode_size]; [reflexivity|].
  destruct ((i <? 0) || (vocab_size tok <=? i)); [reflexivity|].
  destruct (default None (id_to_token tok !! Z.to_nat i)) as [token_str|];
    [|reflexivity].
  destruct (default (inr total) (decode_size_loop _ _ _ _)) as [st|n];
    [reflexivity|apply IH].
Qed.

Lemma decode_fill_app (tok : BBPETokenizer) (a b : list Z) (result : list Z) :
  decode_fill tok (a ++ b) result
  = match decode_fill tok a result with
    | inr r => decode_fill tok b r
    | inl st => inl st
    end.
Proof.
  revert result. induction a as [|i a IH]; intros result;
    cbn [app decode_fill]; [reflexivity|].
  destruct (default (inr result) (decode_fill_loop _ _ _ _)) as [st|r];
    [reflexivity|apply IH].
Qed.

Lemma decodes_to_from_start (tok : BBPETokenizer) (ids c : list Z) :
  decode_size tok ids 0 = inr (length c) ->
  decode_fill tok ids [] = inr c ->
  decodes_to tok ids c.
Proof.
  intros Hsize Hfill total result. split.
  - rewrite <- (Nat.add_0_r total) at 1. rewrite decode_size_shift, Hsize.
    reflexivity.
  - rewrite <- (app_nil_r result) at 1. rewrite decode_fill_shift, Hfill.
    reflexivity.
Qed.

Lemma decodes_to_app (tok : BBPETokenizer) (ids ids' c c' : list Z) :
  decodes_to tok ids c -> decodes_to tok ids' c' ->
  decodes_to tok (ids ++ ids') (c ++ c').
Proof.
  intros Ha Hb total result.
  destruct (Ha total result) as [Hsize Hfill].
  destruct (Hb (total + length c)%nat (result ++ c)) as [Hsize' Hfill'].
  rewrite decode_size_app, decode_fill_app, Hsize, Hfill, Hsize', Hfill'.
  rewrite length_app, Nat.add_assoc, app_assoc. auto.
Qed.

Lemma bbpe_decode_ok (tok : BBPETokenizer) (ids : list Z) (t : option (list Z))
    (r : list Z) :
  bbpe_decode (Some tok) (Some ids) (length ids) (Some t)
  = (BBPE_OK, Some (Some r)) ->
  ids <> [] /\ decodes_to tok ids r.
Proof.
  unfold bbpe_decode.
  destruct (Nat.eqb_spec (length ids) 0) as [|Hlen]; [discriminate|].
  rewrite firstn_all.
  destruct (decode_size tok ids 0) as [st|n] eqn:Hsize.
  { intros [= -> _]. destruct (decode_size_status _ _ _ _ Hsize); discriminate. }
  destruct (decode_passes_agree tok ids 0 [] n Hsize) as (r' & Hfill & Hn).
  rewrite Hfill. intros [= <-]. split; [intros ->; apply Hlen; reflexivity|].
  apply decodes_to_from_start; [|exact Hfill].
  rewrite Hsize. f_equal. cbn [length] in Hn. lia.
Qed.

(** X21. [bbpe_decode] decodes id by id: the text of two lists of ids, one
    after the other, is the text of the first followed by the text of the
    second. *)
Theorem decode_concat (tok : BBPETokenizer) (a b : list Z)
    (t : option (list Z)) (ra rb : list Z) :
  bbpe_decode (Some tok) (Some a) (length a) (Some t)
  = (BBPE_OK, Some (Some ra)) ->
  bbpe_decode (Some tok) (Some b) (length b) (Some t)
  = (BBPE_OK, Some (Some rb)) ->
  bbpe_decode (Some tok) (Some (a ++ b)) (length (a ++ b)) (Some t)
  = (BBPE_OK, Some (Some (ra ++ rb))).
Proof.
  intros Ha Hb.
  apply bbpe_decode_ok in Ha as [Hne Hda]. apply bbpe_decode_ok in Hb as [_ Hdb].
  destruct (decodes_to_app tok a b ra rb Hda Hdb 0%nat []) as [Hsize Hfill].
  unfold bbpe_decode.
  destruct (Nat.eqb_spec (length (a ++ b)) 0) as [Hlen|_].
  { destruct a; [contradiction|discriminate]. }
  rewrite firstn_all, Hsize, Hfill. reflexivity.
Qed.

End DecoderComposition.

Lemma decode_concat_witness :
  bbpe_decode (Some hello_tokenizer) (Some ([259; 32] ++ [300; 121]))
    (length ([259; 32] ++ [300; 121])) (Some None)
  = (BBPE_OK,
     Some (Some (bytes_of_string "hello " ++ bytes_of_string "<|e|>y"))).
Proof.
  apply (decode_concat hello_tokenizer [259; 32] [300; 121] None);
    vm_compute; reflexivity.
Defined.

(** ** Round trip with special tokens *)

Section RoundTripSpecial.
Context `{RE : RegexEngine} {REL : RegexEngineLaws} `{SO : Sorter} {SOL : SorterLaws}.

Lemma chunks_ids_spells (tok : BBPETokenizer) (chunks : list (list Z)) :
  well_formed tok -> Forall text_byte (concat chunks) ->
  Forall (fun b => is_Some (HASH_FIND_STR (vocab_map tok)
                              (utf8_encode (byte_code_point b))))
    (concat chunks) ->
  exists ids, chunks_ids tok chunks = Some ids /\ spells tok ids (concat chunks).
Proof.
  intros Hwf. induction chunks as [|chunk chunks IH]; intros Hbytes Hknown;
    cbn [chunks_ids concat] in *.
  - exists []. split; [reflexivity|]. exists []. split; [constructor|reflexivity].
  - apply Forall_app in Hbytes as [Hb1 Hb2]. apply Forall_app in Hknown as [Hk1 Hk2].
    destruct (IH Hb2 Hk2) as (b & Hb & Hsb).
    destruct (bytes_to_ids_spells tok chunk Hwf Hb1 Hk1) as (l & Hl & Hsl).
    unfold chunk_ids. rewrite (strdup_id chunk (text_byte_nonzero _ Hb1)), Hl, Hb.
    eexists. split; [reflexivity|].
    apply spells_app; [apply merge_loop_spells; assumption|exact Hsb].
Qed.

Lemma segments_ids_decodes (tok : BBPETokenizer) (segments : list TokenSegment)
    (c : list Z) :
  well_formed tok -> Forall plain_node (pre_tokenizers tok) ->
  (forall e, In e (special_tokens_map tok) ->
     token_text tok (SpecialEntry.id e) = Some (SpecialEntry.token e)
     /\ Forall (fun b => 1 <= b <= 127) (SpecialEntry.token e)) ->
  segmentation (special_tokens_map tok) segments c ->
  Forall text_byte c ->
  Forall (fun b => is_Some (HASH_FIND_STR (vocab_map tok)
                              (utf8_encode (byte_code_point b)))) c ->
  exists ids, segments_ids tok segments = Some ids /\ decodes_to tok ids c.
Proof.
  intros Hwf Hchain Hspecial Hseg.
  induction Hseg as [|s rest segments _ _ _ _ IH|e rest segments He _ _ _ IH];
    intros Hbytes Hknown; cbn [segments_ids].
  - exists []. split; [reflexivity|]. intros total result. cbn.
    rewrite Nat.add_0_r, app_nil_r. auto.
  - apply Forall_app in Hbytes as [Hb1 Hb2]. apply Forall_app in Hknown as [Hk1 Hk2].
    destruct (IH Hb2 Hk2) as (b & Hb & Hdb).
    pose proof (text_byte_nonzero _ Hb1) as Hnz.
    unfold segment_ids. cbn [is_special normal_segment text default from_option].
    cbv [id]. unfold pre_tokenize.
    destruct (pre_tokenize_chain_plain (pre_tokenizers tok) [strdup s] Hchain)
      as (chunks & Hchunks & Hcat).
    { cbn [concat]. rewrite app_nil_r, strdup_id by exact Hnz. exact Hnz. }
    cbn [concat] in Hcat. rewrite app_nil_r, strdup_id in Hcat by exact Hnz.
    rewrite Hchunks. cbn [snd].
    destruct (chunks_ids_spells tok chunks Hwf) as (a & Ha & Hsa);
      [rewrite Hcat; exact Hb1|rewrite Hcat; exact Hk1|].
    rewrite Ha, Hb. eexists. split; [reflexivity|].
    apply decodes_to_app; [|exact Hdb].
    rewrite Hcat in Hsa. intros total result.
    apply (decode_spelled tok a s (wf_unicode_to_byte tok Hwf) Hsa).
  - apply Forall_app in Hbytes as [_ Hb2]. apply Forall_app in Hknown as [_ Hk2].
    destruct (IH Hb2 Hk2) as (b & Hb & Hdb).
    destruct (Hspecial e He) as [Htext Hascii].
    unfold segment_ids. cbn [is_special special_segment special_id]. rewrite Hb.
    eexists. split; [reflexivity|].
    apply (decodes_to_app tok [SpecialEntry.id e] b); [|exact Hdb].
    assert (Hnz : Forall (fun b => b <> 0) (SpecialEntry.token e)).
    { eapply Forall_impl; [exact Hascii|]. intros x Hx. cbn beta in *. lia. }
    rewrite (strdup_id _ Hnz). intros total result.
    pose proof (decode_ascii_ids tok [SpecialEntry.id e] [SpecialEntry.token e]
                  total result (wf_unicode_to_byte tok Hwf)) as Hdec.
    cbn [concat] in Hdec. rewrite app_nil_r in Hdec. apply Hdec.
    constructor; [auto|constructor].
Qed.

(** X22. The round trip for texts with special tokens in them. On a
    tokenizer loaded from a vocabulary of distinct ids, none negative,
    whose chain adds no prefix space and whose special tokens are ASCII
    strings, a text that is not empty and has the byte-alphabet token of
    each of its bytes in the vocabulary comes back from [bbpe_decode]
    after [bbpe_encode] as it was, the special tokens in it included. *)
Theorem round_trip_with_special_tokens (root : cJSON) (tok : BBPETokenizer)
    (text : list Z) (o : BBPEOutput.t) (t : option (list Z)) :
  bbpe_init_root root = Some (BBPE_OK, Some tok) ->
  NoDup (map VocabEntry.id (vocab_map tok)) ->
  Forall (fun e => 0 <= VocabEntry.id e) (vocab_map tok) ->
  Forall (fun node => node <> PRE_TOKENIZER_BYTE_LEVEL true) (pre_tokenizers tok) ->
  Forall (fun e => Forall (fun b => 1 <= b <= 127) (SpecialEntry.token e))
    (special_tokens_map tok) ->
  Forall (fun b => 0 <= b <= 255) text ->
  bytes_known tok text ->
  strdup text <> [] ->
  exists out,
    bbpe_encode (Some tok) (Some text) (Some o) = (BBPE_OK, Some out)
    /\ bbpe_decode (Some tok) (Some (BBPEOutput.ids out)) (BBPEOutput.count out)
         (Some t)
       = (BBPE_OK, Some (Some (strdup text))).
Proof.
  intros Hinit Hnd Hpos Hchain Hascii Hrange Hknown Hne.
  destruct (loaded_well_formed root tok Hinit Hnd Hpos) as [Hwf Hloaded].
  pose proof (loaded_chain_plain _ Hloaded Hchain) as Hplain.
  destruct (bbpe_init_root_registered root tok Hinit) as (base & _ & _ & Hreg).
  assert (Hspecial : forall e, In e (special_tokens_map tok) ->
            token_text tok (SpecialEntry.id e) = Some (SpecialEntry.token e)
            /\ Forall (fun b => 1 <= b <= 127) (SpecialEntry.token e)).
  { intros e He. split; [apply (reg_strings _ _ Hreg e He)|].
    rewrite List.Forall_forall in Hascii. apply Hascii, He. }
  destruct (segments_ids_decodes tok (extract_special_tokens tok text) (strdup text)
              Hwf Hplain Hspecial (extract_special_tokens_segmentation tok text))
    as (ids & Hids & Hdec).
  { eapply Forall_impl; [apply strdup_range, Hrange|]. auto. }
  { exact Hknown. }
  rewrite bbpe_encode_ids. unfold encoded_ids. rewrite Hids.
  exists (output_of ids). split; [reflexivity|].
  cbn [output_of BBPEOutput.ids BBPEOutput.count].
  destruct (Hdec 0%nat []) as [Hsize Hfill].
  unfold bbpe_decode.
  destruct (Nat.eqb_spec (length ids) 0) as [Hlen|_].
  { destruct ids; [|discriminate]. cbn in Hfill. injection Hfill as Hnil.
    exfalso. apply Hne. symmetry. exact Hnil. }
  rewrite firstn_all, Hsize, Hfill. reflexivity.
Qed.

End RoundTripSpecial.

Lemma round_trip_with_special_tokens_witness :
  exists out,
    bbpe_encode (Some hello_tokenizer)
      (Some (bytes_of_string "hello<|endoftext|> you<|e|>"))
      (Some empty_output) = (BBPE_OK, Some out)
    /\ bbpe_decode (Some hello_tokenizer) (Some (BBPEOutput.ids out))
         (BBPEOutput.count out) (Some None)
       = (BBPE_OK,
          Some (Some (strdup (bytes_of_string "hello<|endoftext|> you<|e|>")))).
Proof.
  apply (round_trip_with_special_tokens hello_json).
  - vm_compute. reflexivity.
  - apply (bool_decide_unpack _). vm_compute. reflexivity.
  - apply (bool_decide_unpack _). vm_compute. reflexivity.
  - vm_compute. repeat (constructor; [discriminate|]). constructor.
  - apply (bool_decide_unpack _). vm_compute. reflexivity.
  - apply (bool_decide_unpack _). vm_compute. reflexivity.
  - apply (bool_decide_unpack _). vm_compute. reflexivity.
  - vm_compute. discriminate.
Defined.

(** ** The text is a C string *)

Section CString.
Context `{RE : RegexEngine}.

Lemma char_at_strdup (s : list Z) (i : nat) :
  (i <= strlen s)%nat -> char_at (strdup s) i = char_at s i.
Proof.
  intros Hi. destruct (decide (i < strlen s)%nat) as [Hlt|Hge].
  - unfold char_at, strdup. rewrite lookup_take_lt by exact Hlt. reflexivity.
  - assert (i = strlen s) as -> by lia. rewrite char_at_strlen.
    unfold char_at, strdup. rewrite lookup_take_ge by lia. reflexivity.
Qed.

Lemma best_match_at_strdup (tok : BBPETokenizer) (pos : list Z) :
  best_match_at tok (strdup pos) = best_match_at tok pos.
Proof.
  unfold best_match_at. generalize (@None SpecialEntry.t, 0%nat) as st.
  induction (special_tokens_map tok) as [|e l IH]; intros st; cbn [foldl];
    [reflexivity|].
  rewrite IH. f_equal. unfold best_match_body.
  pose proof (strncmp_prefix pos (SpecialEntry.token e)) as H1.
  pose proof (strncmp_prefix (strdup pos) (SpecialEntry.token e)) as H2.
  rewrite strdup_strdup in H2.
  destruct (Z.eqb_spec (strncmp (strdup pos) (SpecialEntry.token e)
                          (strlen (SpecialEntry.token e))) 0) as [Ha|Ha],
           (Z.eqb_spec (strncmp pos (SpecialEntry.token e)
                          (strlen (SpecialEntry.token e))) 0) as [Hb|Hb];
    try reflexivity; exfalso; tauto.
Qed.

Lemma flush_normal_strdup (segments : list TokenSegment) (text : list Z)
    (start pos : nat) :
  (pos <= strlen text)%nat ->
  flush_normal segments (strdup text) start pos = flush_normal segments text start pos.
Proof.
  intros Hpos. unfold flush_normal, my_strndup.
  destruct (Nat.ltb_spec start pos) as [Hlt|]; [|reflexivity].
  rewrite <- strdup_drop by lia. rewrite take_strdup; [reflexivity|].
  rewrite strlen_drop by lia. lia.
Qed.

(** The scan over the text and the scan over its copy up to the
    terminator go the same way. *)
Lemma extract_loop_strdup (fuel : nat) (tok : BBPETokenizer) (text : list Z)
    (start pos : nat) (segments : list TokenSegment) :
  (pos <= strlen text)%nat ->
  match extract_loop fuel tok (strdup text) start pos segments with
  | Some (s, p, g) => Some (flush_normal g (strdup text) s p)
  | None => None
  end
  = match extract_loop fuel tok text start pos segments with
    | Some (s, p, g) => Some (flush_normal g text s p)
    | None => None
    end.
Proof.
  revert start pos segments.
  induction fuel as [|fuel IH]; intros start pos segments Hpos;
    cbn [extract_loop]; [reflexivity|].
  rewrite char_at_strdup by exact Hpos.
  destruct (Z.eqb_spec (char_at text pos) 0) as [|Hc].
  { rewrite flush_normal_strdup by exact Hpos. reflexivity. }
  assert (Hlt : (pos < strlen text)%nat).
  { destruct (decide (pos < strlen text)%nat) as [|Hge]; [assumption|].
    exfalso. apply Hc. replace pos with (strlen text) by lia.
    apply char_at_strlen. }
  rewrite <- strdup_drop by lia. rewrite best_match_at_strdup.
  pose proof (best_match_at_ok tok (drop pos text)) as Hbest.
  destruct (best_match_at tok (drop pos text)) as [[e|] l].
  - destruct Hbest as (_ & -> & [_ Hpre] & _).
    apply prefix_length in Hpre. rewrite !length_strdup in Hpre.
    rewrite strlen_drop in Hpre by lia.
    rewrite flush_normal_strdup by exact Hpos. apply IH. lia.
  - apply IH. lia.
Qed.

Lemma extract_loop_more_fuel (fuel k : nat) (tok : BBPETokenizer) (text : list Z)
    (start pos : nat) (segments : list TokenSegment)
    (x : nat * nat * list TokenSegment) :
  extract_loop fuel tok text start pos segments = Some x ->
  extract_loop (fuel + k) tok text start pos segments = Some x.
Proof.
  revert start pos segments. induction fuel as [|fuel IH];
    intros start pos segments; cbn [extract_loop Nat.add]; [discriminate|].
  destruct (char_at text pos =? 0); [auto|].
  destruct (best_match_at tok (drop pos text)) as [[e|] l]; apply IH.
Qed.

Lemma extract_special_tokens_strdup (tok : BBPETokenizer) (text : list Z) :
  extract_special_tokens tok (strdup text) = extract_special_tokens tok text.
Proof.
  unfold extract_special_tokens.
  destruct (extract_loop_terminates tok (strdup text)) as [x Hx].
  pose proof (strlen_le_length text) as Hlen.
  pose proof (length_strdup text) as Hls.
  pose proof (extract_loop_more_fuel _ (length text - length (strdup text))
                _ _ _ _ _ _ Hx) as Hmore.
  replace (S (length (strdup text)) + (length text - length (strdup text)))%nat
    with (S (length text)) in Hmore by lia.
  pose proof (extract_loop_strdup (S (length text)) tok text 0 0 []
                ltac:(lia)) as Heq.
  rewrite Hmore in Heq. rewrite Hx.
  destruct x as [[s p] g].
  destruct (extract_loop (S (length text)) tok text 0 0 []) as [[[s' p'] g']|];
    [|discriminate].
  injection Heq as Heq. exact Heq.
Qed.

(** X23. [bbpe_encode] reads its text as a C string: what it returns for a
    text is what it returns for the bytes before the first NUL, whatever
    lies behind. *)
Theorem encode_reads_c_string (tok : BBPETokenizer) (text : list Z)
    (o : BBPEOutput.t) :
  bbpe_encode (Some tok) (Some text) (Some o)
  = bbpe_encode (Some tok) (Some (strdup text)) (Some o).
Proof.
  unfold bbpe_encode. rewrite extract_special_tokens_strdup. reflexivity.
Qed.

End CString.

(** ** Decoding the byte alphabet *)

Section DecoderAlphabet.
Context `{RE : RegexEngine}.

(** X24. The decoder on the byte alphabet. With the inverse table of
    [init_byte_mappings], ids whose strings are the byte-alphabet texts of
    bytes from 1 to 255 decode to these bytes: every code point of the
    alphabet gives the one byte it stands for. The code point of byte 0 is
    the exception: its entry in the table is 0, which the decoder takes
    for no entry, and its two UTF-8 bytes are copied. *)
Theorem decode_byte_level_tokens (tok : BBPETokenizer) (ids : list Z)
    (us : list (list Z)) (t : option (list Z)) :
  unicode_to_byte tok = bm_unicode_to_byte init_byte_mappings ->
  (ids <> [] ->
   Forall2 (fun i u => token_text tok i = Some (visible u) /\ Forall text_byte u)
     ids us ->
   bbpe_decode (Some tok) (Some ids) (length ids) (Some t)
   = (BBPE_OK, Some (Some (concat us))))
  /\ (forall i,
        token_text tok i = Some (visible [0]) ->
        bbpe_decode (Some tok) (Some [i]) 1 (Some t)
        = (BBPE_OK, Some (Some [196; 128]))).
Proof.
  intros Htbl. split.
  - intros Hne Hall. unfold bbpe_decode.
    destruct (Nat.eqb_spec (length ids) 0) as [Hlen|_];
      [destruct ids; [contradiction|discriminate]|].
    rewrite firstn_all.
    destruct (decode_spelled tok ids (concat us) Htbl
                ltac:(exists us; split; [exact Hall|reflexivity]) 0%nat [])
      as [Hsize Hfill].
    rewrite Hsize, Hfill. reflexivity.
  - intros i Hi.
    assert (Hv : visible [0] = [196; 128]) by (vm_compute; reflexivity).
    rewrite Hv in Hi. apply token_text_some in Hi as [Hrange Hslot].
    assert (Hdec : utf8_decode [196; 128] = Some (256, 2%nat)) by reflexivity.
    assert (Hmap : maps_to_byte tok 256 = false).
    { unfold maps_to_byte. rewrite Htbl.
      assert (H0 : default 0 (bm_unicode_to_byte init_byte_mappings
                                !! Z.to_nat 256) = 0)
        by (vm_compute; reflexivity).
      rewrite H0. reflexivity. }
    unfold bbpe_decode. cbn [Nat.eqb take decode_size decode_fill].
    destruct (Z.ltb_spec i 0) as [|_]; [lia|].
    destruct (Z.leb_spec (vocab_size tok) i) as [|_]; [lia|]. cbn [orb].
    rewrite Hslot. cbv [from_option id default].
    cbn [length decode_size_loop decode_fill_loop].
    rewrite char_at_0. cbn [Z.eqb]. rewrite Hdec, Hmap.
    cbn [drop take app char_at lookup list_lookup Z.eqb].
    cbv [from_option id default char_at]. reflexivity.
Qed.

End DecoderAlphabet.

Lemma decode_byte_level_tokens_witness :
  bbpe_decode (Some bytes_only_tokenizer) (Some [104; 32; 255; 1]) 4 (Some None)
  = (BBPE_OK, Some (Some (concat [[104]; [32]; [255]; [1]])))
  /\ bbpe_decode (Some bytes_only_tokenizer) (Some [0]) 1 (Some None)
     = (BBPE_OK, Some (Some [196; 128])).
Proof.
  assert (Htbl : unicode_to_byte bytes_only_tokenizer
                 = bm_unicode_to_byte init_byte_mappings)
    by (vm_compute; reflexivity).
  destruct (decode_byte_level_tokens bytes_only_tokenizer [104; 32; 255; 1]
              [[104]; [32]; [255]; [1]] None Htbl) as [Hbytes Hzero].
  split.
  - apply Hbytes; [discriminate|].
    repeat constructor; try (vm_compute; reflexivity); unfold text_byte; lia.
  - apply Hzero. vm_compute. reflexivity.
Defined.

(** ** The handle of [bbpe_init] *)

Section InitHandle.
Context `{RE : RegexEngine} `{JP : JsonParser} `{SO : Sorter}.

Lemma bbpe_init_root_ok_some (root : cJSON) (res : option BBPETokenizer) :
  bbpe_init_root root = Some (BBPE_OK, res) -> exists tok, res = Some tok.
Proof.
  unfold bbpe_init_root.
  destruct (cJSON_GetObjectItem root "model") as [model|]; [|discriminate].
  destruct (cJSON_GetObjectItem model "vocab") as [vocab|]; [|discriminate].
  destruct (load_vocab vocab) as [vocab_map max_id].
  destruct (max_id <? 0); [discriminate|].
  destruct (INT32_MAX <=? max_id); [discriminate|].
  destruct (load_merges _ _ _) as [[mc rows]|]; [|discriminate].
  destruct (load_pre_tokenizers root) as [st'|head] eqn:Hpre.
  - intros [= -> _].
    destruct (load_pre_tokenizers_status _ _ Hpre) as [|[|]]; discriminate.
  - destruct (load_added_tokens _ _) as [tok|]; [|discriminate].
    intros [= <-]. eexists. reflexivity.
Qed.

(** X25. [bbpe_init] writes the caller's handle only when it returns
    [BBPE_OK], and then it writes a tokenizer; with any other status, a
    NULL argument or a text that does not parse included, the handle is as
    it was. *)
Theorem init_writes_handle_on_success (json_content : option (list Z))
    (out_tokenizer : option (option BBPETokenizer)) (st : BBPEStatus)
    (res : option (option BBPETokenizer)) :
  bbpe_init json_content out_tokenizer = Some (st, res) ->
  (st = BBPE_OK /\ exists tok, res = Some (Some tok))
  \/ (st <> BBPE_OK /\ res = out_tokenizer).
Proof.
  unfold bbpe_init.
  destruct json_content as [json|]; [|intros [= <- <-]; right; split;
                                       [discriminate|reflexivity]].
  destruct out_tokenizer as [handle|]; [|intros [= <- <-]; right; split;
                                          [discriminate|reflexivity]].
  destruct (cJSON_Parse json) as [root|];
    [|intros [= <- <-]; right; split; [discriminate|reflexivity]].
  destruct (bbpe_init_root root) as [[s r]|] eqn:Hroot; [|discriminate].
  destruct s; try (intros [= <- <-]; right; split; [discriminate|reflexivity]).
  destruct (bbpe_init_root_ok_some root r Hroot) as [tok ->].
  intros [= <- <-]. left. split; [reflexivity|]. exists tok. reflexivity.
Qed.

End InitHandle.

Lemma init_writes_handle_on_success_witness :
  bbpe_init (JP := constant_parser hello_json) (Some []) (Some None)
  = Some (BBPE_OK, Some (Some hello_tokenizer))
  /\ ((BBPE_OK = BBPE_OK
       /\ exists tok, Some (Some hello_tokenizer) = Some (Some tok))
      \/ (BBPE_OK <> BBPE_OK /\ Some (Some hello_tokenizer) = Some None)).
Proof.
  assert (H : bbpe_init (JP := constant_parser hello_json) (Some []) (Some None)
              = Some (BBPE_OK, Some (Some hello_tokenizer)))
    by (vm_compute; reflexivity).
  split; [exact H|].
  exact (init_writes_handle_on_success (JP := constant_parser hello_json)
           _ _ _ _ H).
Defined.

(** ** Where the loader is defined *)

Section InitDefined.
Context `{RE : RegexEngine} `{SO : Sorter} {SOL : SorterLaws}.





End InitDefined.


(** ** When the encoder fails *)

Section EncoderFails.
Context `{RE : RegexEngine}.

Local Ltac from_rest IH :=
  match type of IH with
  | ?lhs <-> _ => cut lhs; [discriminate|apply (proj2 IH)]
  end.

Lemma bytes_to_ids_none (tok : BBPETokenizer) (chunk : list Z) :
  bytes_to_ids tok chunk = None
  <-> exists b, In b chunk /\ byte_token_id tok b = None.
Proof.
  induction chunk as [|b chunk IH]; cbn [bytes_to_ids].
  - split; [discriminate|intros (b & [] & _)].
  - destruct (byte_token_id tok b) as [i|] eqn:Hb.
    + destruct (bytes_to_ids tok chunk) as [l|].
      * split; [discriminate|]. intros (b' & [<-|Hin] & Hnone); [congruence|].
        from_rest IH. exists b'. auto.
      * split; [|reflexivity]. intros _.
        destruct (proj1 IH eq_refl) as (b' & Hin & Hnone).
        exists b'. split; [right; exact Hin|exact Hnone].
    + split; [|reflexivity]. intros _. exists b. split; [left; reflexivity|exact Hb].
Qed.

Lemma chunks_ids_none (tok : BBPETokenizer) (chunks : list (list Z)) :
  chunks_ids tok chunks = None
  <-> exists chunk b,
        In chunk chunks /\ In b (strdup chunk) /\ byte_token_id tok b = None.
Proof.
  induction chunks as [|chunk chunks IH]; cbn [chunks_ids].
  - split; [discriminate|intros (c & b & [] & _)].
  - unfold chunk_ids.
    destruct (bytes_to_ids tok (strdup chunk)) as [l|] eqn:Hl.
    + destruct (chunks_ids tok chunks) as [x|].
      * split; [discriminate|]. intros (c & b & [<-|Hin] & Hb & Hnone).
        -- assert (Hn : bytes_to_ids tok (strdup chunk) = None)
             by (apply bytes_to_ids_none; exists b; auto).
           congruence.
        -- from_rest IH. exists c, b. auto.
      * split; [|reflexivity]. intros _.
        destruct (proj1 IH eq_refl) as (c & b & Hin & Hb & Hnone).
        exists c, b. split; [right; exact Hin|auto].
    + split; [|reflexivity]. intros _.
      apply bytes_to_ids_none in Hl as (b & Hb & Hnone).
      exists chunk, b. split; [left; reflexivity|auto].
Qed.

Lemma segments_ids_none (tok : BBPETokenizer) (segments : list TokenSegment) :
  segments_ids tok segments = None
  <-> exists seg chunk b,
        In seg segments /\ is_special seg = false
        /\ In chunk (snd (pre_tokenize tok (default [] (text seg))))
        /\ In b (strdup chunk) /\ byte_token_id tok b = None.
Proof.
  induction segments as [|seg segments IH]; cbn [segments_ids].
  - split; [discriminate|intros (s & c & b & [] & _)].
  - unfold segment_ids. destruct (is_special seg) eqn:Hsp.
    + destruct (segments_ids tok segments) as [x|].
      * split; [discriminate|].
        intros (s & c & b & [<-|Hin] & Hns & Hrest); [congruence|].
        from_rest IH. exists s, c, b. auto.
      * split; [|reflexivity]. intros _.
        destruct (proj1 IH eq_refl) as (s & c & b & Hin & Hrest).
        exists s, c, b. split; [right; exact Hin|exact Hrest].
    + destruct (chunks_ids tok _) as [a|] eqn:Ha.
      * destruct (segments_ids tok segments) as [x|].
        -- split; [discriminate|].
           intros (s & c & b & [<-|Hin] & Hns & Hc & Hb & Hnone).
           ++ assert (Hn : chunks_ids tok
                             (snd (pre_tokenize tok (default [] (text seg)))) = None)
                by (apply chunks_ids_none; exists c, b; auto).
              congruence.
           ++ from_rest IH. exists s, c, b. auto.
        -- split; [|reflexivity]. intros _.
           destruct (proj1 IH eq_refl) as (s & c & b & Hin & Hrest).
           exists s, c, b. split; [right; exact Hin|exact Hrest].
      * split; [|reflexivity]. intros _.
        apply chunks_ids_none in Ha as (c & b & Hc & Hb & Hnone).
        exists seg, c, b. split; [left; reflexivity|auto].
Qed.

(** X27. [bbpe_encode] answers [BBPE_ERR_TOKEN_NOT_FOUND], with the output
    emptied, exactly when some byte of some chunk of a normal segment has
    no token, neither by its byte-alphabet string nor as the raw byte;
    otherwise it answers [BBPE_OK] (allocation failures apart). *)
Theorem encode_fails_iff (tok : BBPETokenizer) (input : list Z) (o : BBPEOutput.t) :
  (bbpe_encode (Some tok) (Some input) (Some o)
   = (BBPE_ERR_TOKEN_NOT_FOUND, Some empty_output)
   <-> exists seg chunk b,
         In seg (extract_special_tokens tok input) /\ is_special seg = false
         /\ In chunk (snd (pre_tokenize tok (default [] (text seg))))
         /\ In b (strdup chunk) /\ byte_token_id tok b = None)
  /\ (fst (bbpe_encode (Some tok) (Some input) (Some o)) = BBPE_OK
      \/ bbpe_encode (Some tok) (Some input) (Some o)
         = (BBPE_ERR_TOKEN_NOT_FOUND, Some empty_output)).
Proof.
  rewrite bbpe_encode_ids. unfold encoded_ids.
  rewrite <- segments_ids_none.
  destruct (segments_ids tok (extract_special_tokens tok input)) as [ids|].
  - split; [split; discriminate|left; reflexivity].
  - split; [split; reflexivity|right; reflexivity].
Qed.

End EncoderFails.
